(** * GpuPreAgg: aggregate pre-processing with GPU acceleration

    A shallow embedding of [src/gpupreagg.c] (PG-Strom) and the properties of
    its aggregate catalog, device target-list builder, projection code
    generator and task life cycle.

    Conventions of the embedding:
    - C integers are [Z]; [Oid]s are [Z] with the values of PostgreSQL's
      [pg_type.h];
    - a C pointer that may be NULL is an [option]; dereferencing NULL and
      [elog(ERROR, ...)] are explicit results of the functions that can do so;
    - [cl_double] values are IEEE 754 binary64 numbers ([spec_float] with a
      precision of 53 bits and a maximal exponent of 1024); every operation
      rounds to nearest, ties to even, as the specification of the
      Standard Library's floats does;
    - shared objects ([pgstrom_data_store] headers) live in a store indexed
      by their address, so that aliasing between a task and the shared state
      is visible. *)

From Stdlib Require Import ZArith List String Ascii Bool Lia SetoidList.
From Stdlib Require Import DecimalString Floats.SpecFloat.
Import ListNotations.

Set Implicit Arguments.
Set Warnings "-register-all".
Open Scope Z_scope.

(* ===================================================================== *)
(** * Constants of the environment *)
(* ===================================================================== *)

Definition Oid := Z.

(** Type Oids, as in PostgreSQL's [catalog/pg_type.h]. *)
Definition InvalidOid     : Oid := 0.
Definition BOOLOID        : Oid := 16.
Definition INT8OID        : Oid := 20.
Definition INT2OID        : Oid := 21.
Definition INT4OID        : Oid := 23.
Definition FLOAT4OID      : Oid := 700.
Definition FLOAT8OID      : Oid := 701.
Definition CASHOID        : Oid := 790.
Definition DATEOID        : Oid := 1082.
Definition TIMEOID        : Oid := 1083.
Definition TIMESTAMPOID   : Oid := 1114.
Definition TIMESTAMPTZOID : Oid := 1184.
Definition NUMERICOID     : Oid := 1700.
Definition ANYOID         : Oid := 2276.
Definition INTERNALOID    : Oid := 2281.

Definition INT_MAX  : Z := 2147483647.
Definition SHRT_MAX : Z := 32767.

(** Arguments of alternative functions ([#define ALTFUNC_...]). *)
Definition ALTFUNC_GROUPING_KEY : Z := 50.
Definition ALTFUNC_CONST_VALUE  : Z := 51.
Definition ALTFUNC_CONST_NULL   : Z := 52.
Definition ALTFUNC_EXPR_NROWS   : Z := 101.
Definition ALTFUNC_EXPR_PMIN    : Z := 102.
Definition ALTFUNC_EXPR_PMAX    : Z := 103.
Definition ALTFUNC_EXPR_PSUM    : Z := 104.
Definition ALTFUNC_EXPR_PSUM_X2 : Z := 105.
Definition ALTFUNC_EXPR_PCOV_X  : Z := 106.
Definition ALTFUNC_EXPR_PCOV_Y  : Z := 107.
Definition ALTFUNC_EXPR_PCOV_X2 : Z := 108.
Definition ALTFUNC_EXPR_PCOV_Y2 : Z := 109.
Definition ALTFUNC_EXPR_PCOV_XY : Z := 110.

(** The [DEVKERNEL_NEEDS_*] bits come from a header outside this file; the
    catalog only stores them, so they are kept symbolic. *)
Inductive devkernel_flags : Type :=
| DEVKERNEL_NONE
| DEVKERNEL_NEEDS_NUMERIC
| DEVKERNEL_NEEDS_MONEY.

(* ===================================================================== *)
(** * The aggregate decomposition catalog *)
(* ===================================================================== *)

Module Catalog.

(** [aggfunc_catalog_t].  The fixed-size C arrays are the lists of their
    initialised prefixes; the remaining cells are zero. *)
Record aggfunc_catalog_t : Type := mk_aggfunc {
  aggfn_name     : string;
  aggfn_nargs    : Z;
  aggfn_argtypes : list Oid;
  altfn_name     : string;
  altfn_nargs    : Z;
  altfn_argtypes : list Oid;
  altfn_argexprs : list Z;
  extra_flags    : devkernel_flags;
  safety_limit   : Z
}.

(** An entry whose alternative function is a plain reference to one partial
    column ("varref"). *)
Definition varref (name : string) (argtype rettype : Oid) (action : Z)
    (flags : devkernel_flags) : aggfunc_catalog_t :=
  mk_aggfunc name 1 [argtype] "varref" 1 [rettype] [action] flags INT_MAX.

Definition pvariance (name : string) (argtype : Oid) : aggfunc_catalog_t :=
  mk_aggfunc name 1 [argtype]
    "s:pvariance" 3 [INT8OID; FLOAT8OID; FLOAT8OID]
    [ALTFUNC_EXPR_NROWS; ALTFUNC_EXPR_PSUM; ALTFUNC_EXPR_PSUM_X2]
    DEVKERNEL_NONE SHRT_MAX.

Definition pcovar (name : string) : aggfunc_catalog_t :=
  mk_aggfunc name 2 [FLOAT8OID; FLOAT8OID]
    "s:pcovar" 6
    [INT8OID; FLOAT8OID; FLOAT8OID; FLOAT8OID; FLOAT8OID; FLOAT8OID]
    [ALTFUNC_EXPR_NROWS; ALTFUNC_EXPR_PCOV_X; ALTFUNC_EXPR_PCOV_X2;
     ALTFUNC_EXPR_PCOV_Y; ALTFUNC_EXPR_PCOV_Y2; ALTFUNC_EXPR_PCOV_XY]
    DEVKERNEL_NONE SHRT_MAX.

(** [aggfunc_catalog[]], entry by entry and in the order of the source
    ([GPUPREAGG_SUPPORT_NUMERIC] is defined, [NOT_USED] is not). *)
Definition aggfunc_catalog : list aggfunc_catalog_t :=
  [ (* AVG(X) = EX_AVG(NROWS(), PSUM(X)) *)
    mk_aggfunc "avg" 1 [INT2OID] "s:pavg_int4" 2 [INT8OID; INT8OID]
      [ALTFUNC_EXPR_NROWS; ALTFUNC_EXPR_PSUM] DEVKERNEL_NONE INT_MAX;
    mk_aggfunc "avg" 1 [INT4OID] "s:pavg_int4" 2 [INT8OID; INT8OID]
      [ALTFUNC_EXPR_NROWS; ALTFUNC_EXPR_PSUM] DEVKERNEL_NONE INT_MAX;
    mk_aggfunc "avg" 1 [INT8OID] "s:pavg_int8" 3 [INTERNALOID; INT8OID; INT8OID]
      [ALTFUNC_CONST_NULL; ALTFUNC_EXPR_NROWS; ALTFUNC_EXPR_PSUM]
      DEVKERNEL_NONE INT_MAX;
    mk_aggfunc "avg" 1 [FLOAT4OID] "s:pavg_fp8" 2 [INT8OID; FLOAT8OID]
      [ALTFUNC_EXPR_NROWS; ALTFUNC_EXPR_PSUM] DEVKERNEL_NONE INT_MAX;
    mk_aggfunc "avg" 1 [FLOAT8OID] "s:pavg_fp8" 2 [INT8OID; FLOAT8OID]
      [ALTFUNC_EXPR_NROWS; ALTFUNC_EXPR_PSUM] DEVKERNEL_NONE INT_MAX;
    mk_aggfunc "avg" 1 [NUMERICOID] "s:pavg_numeric" 3
      [INTERNALOID; INT8OID; NUMERICOID]
      [ALTFUNC_CONST_NULL; ALTFUNC_EXPR_NROWS; ALTFUNC_EXPR_PSUM]
      DEVKERNEL_NEEDS_NUMERIC 100;
    (* COUNT( * ) = SUM(NROWS( * |X)) *)
    mk_aggfunc "count" 0 [] "varref" 1 [INT8OID]
      [ALTFUNC_EXPR_NROWS] DEVKERNEL_NONE INT_MAX;
    mk_aggfunc "count" 1 [ANYOID] "varref" 1 [INT8OID]
      [ALTFUNC_EXPR_NROWS] DEVKERNEL_NONE INT_MAX;
    (* MAX(X) = MAX(PMAX(X)) *)
    varref "max" INT2OID INT2OID ALTFUNC_EXPR_PMAX DEVKERNEL_NONE;
    varref "max" INT4OID INT4OID ALTFUNC_EXPR_PMAX DEVKERNEL_NONE;
    varref "max" INT8OID INT8OID ALTFUNC_EXPR_PMAX DEVKERNEL_NONE;
    varref "max" FLOAT4OID FLOAT4OID ALTFUNC_EXPR_PMAX DEVKERNEL_NONE;
    varref "max" FLOAT8OID FLOAT8OID ALTFUNC_EXPR_PMAX DEVKERNEL_NONE;
    varref "max" NUMERICOID NUMERICOID ALTFUNC_EXPR_PMAX DEVKERNEL_NEEDS_NUMERIC;
    varref "max" CASHOID CASHOID ALTFUNC_EXPR_PMAX DEVKERNEL_NEEDS_MONEY;
    varref "max" DATEOID DATEOID ALTFUNC_EXPR_PMAX DEVKERNEL_NONE;
    varref "max" TIMEOID TIMEOID ALTFUNC_EXPR_PMAX DEVKERNEL_NONE;
    varref "max" TIMESTAMPOID TIMESTAMPOID ALTFUNC_EXPR_PMAX DEVKERNEL_NONE;
    varref "max" TIMESTAMPTZOID TIMESTAMPTZOID ALTFUNC_EXPR_PMAX DEVKERNEL_NONE;
    (* MIX(X) = MIN(PMIN(X)) *)
    varref "min" INT2OID INT2OID ALTFUNC_EXPR_PMIN DEVKERNEL_NONE;
    varref "min" INT4OID INT4OID ALTFUNC_EXPR_PMIN DEVKERNEL_NONE;
    varref "min" INT8OID INT8OID ALTFUNC_EXPR_PMIN DEVKERNEL_NONE;
    varref "min" FLOAT4OID FLOAT4OID ALTFUNC_EXPR_PMIN DEVKERNEL_NONE;
    varref "min" FLOAT8OID FLOAT8OID ALTFUNC_EXPR_PMIN DEVKERNEL_NONE;
    varref "min" NUMERICOID NUMERICOID ALTFUNC_EXPR_PMIN DEVKERNEL_NEEDS_NUMERIC;
    varref "min" CASHOID CASHOID ALTFUNC_EXPR_PMAX DEVKERNEL_NEEDS_MONEY;
    varref "min" DATEOID DATEOID ALTFUNC_EXPR_PMIN DEVKERNEL_NONE;
    varref "min" TIMEOID TIMEOID ALTFUNC_EXPR_PMIN DEVKERNEL_NONE;
    varref "min" TIMESTAMPOID TIMESTAMPOID ALTFUNC_EXPR_PMIN DEVKERNEL_NONE;
    varref "min" TIMESTAMPTZOID TIMESTAMPTZOID ALTFUNC_EXPR_PMIN DEVKERNEL_NONE;
    (* SUM(X) = SUM(PSUM(X)) *)
    varref "sum" INT2OID INT8OID ALTFUNC_EXPR_PSUM DEVKERNEL_NONE;
    varref "sum" INT4OID INT8OID ALTFUNC_EXPR_PSUM DEVKERNEL_NONE;
    mk_aggfunc "sum" 1 [INT8OID] "s:psum" 2 [INTERNALOID; INT8OID]
      [ALTFUNC_CONST_NULL; ALTFUNC_EXPR_PSUM] DEVKERNEL_NONE INT_MAX;
    varref "sum" FLOAT4OID FLOAT4OID ALTFUNC_EXPR_PSUM DEVKERNEL_NONE;
    varref "sum" FLOAT8OID FLOAT8OID ALTFUNC_EXPR_PSUM DEVKERNEL_NONE;
    mk_aggfunc "sum" 1 [NUMERICOID] "s:psum" 2 [INTERNALOID; NUMERICOID]
      [ALTFUNC_CONST_NULL; ALTFUNC_EXPR_PSUM] DEVKERNEL_NEEDS_NUMERIC 100;
    varref "sum" CASHOID CASHOID ALTFUNC_EXPR_PSUM DEVKERNEL_NEEDS_MONEY;
    (* STDDEV(X) = EX_STDDEV(NROWS(),PSUM(X),PSUM(X*X)) *)
    pvariance "stddev" FLOAT4OID;
    pvariance "stddev" FLOAT8OID;
    pvariance "stddev_pop" FLOAT4OID;
    pvariance "stddev_pop" FLOAT8OID;
    pvariance "stddev_samp" FLOAT4OID;
    pvariance "stddev_samp" FLOAT8OID;
    (* VARIANCE(X) = PGSTROM.VARIANCE(NROWS(), PSUM(X),PSUM(X^2)) *)
    pvariance "variance" FLOAT4OID;
    pvariance "variance" FLOAT8OID;
    pvariance "var_pop" FLOAT4OID;
    pvariance "var_pop" FLOAT8OID;
    pvariance "var_samp" FLOAT4OID;
    pvariance "var_samp" FLOAT8OID;
    (* CORR(X,Y) = PGSTROM.CORR(NROWS(X,Y), PCOV_X, PCOV_X2, PCOV_Y, ...) *)
    pcovar "corr";
    pcovar "covar_pop";
    pcovar "covar_samp";
    (* aggregation to support the least squares method *)
    pcovar "regr_avgx";
    pcovar "regr_avgy";
    mk_aggfunc "regr_count" 2 [FLOAT8OID; FLOAT8OID] "varref" 1 [INT8OID]
      [ALTFUNC_EXPR_NROWS] DEVKERNEL_NONE 0;
    pcovar "regr_intercept";
    pcovar "regr_r2";
    pcovar "regr_slope";
    pcovar "regr_sxx";
    pcovar "regr_sxy";
    pcovar "regr_syy" ].

(** The part of a [pg_proc] row that [aggfunc_lookup_by_oid] reads. *)
Record Form_pg_proc : Type := mk_proc {
  proname     : string;
  pronargs    : Z;
  proargtypes : list Oid
}.

(** The first [n] cells of an [Oid] array (cells past the initialised prefix
    are zero). *)
Definition oid_cells (n : Z) (a : list Oid) : list Oid :=
  map (fun i => nth i a 0) (seq 0 (Z.to_nat n)).

Fixpoint oids_eqb (a b : list Oid) : bool :=
  match a, b with
  | [], [] => true
  | x :: a', y :: b' => (x =? y) && oids_eqb a' b'
  | _, _ => false
  end.

(** The test of one catalog entry: [strcmp] on the name, equal arity, and
    [memcmp] over [aggfn_nargs] argument types. *)
Definition catalog_matches (c : aggfunc_catalog_t) (p : Form_pg_proc) : bool :=
  String.eqb (aggfn_name c) (proname p)
  && (aggfn_nargs c =? pronargs p)
  && oids_eqb (oid_cells (aggfn_nargs c) (aggfn_argtypes c))
              (oid_cells (aggfn_nargs c) (proargtypes p)).

(** The loop of [aggfunc_lookup_by_oid] over the catalog: the first entry
    that matches, or NULL. *)
Definition aggfunc_lookup (p : Form_pg_proc) : option aggfunc_catalog_t :=
  find (fun c => catalog_matches c p) aggfunc_catalog.

Inductive lookup_result : Type :=
| LookupError                       (* elog(ERROR, "cache lookup failed") *)
| LookupDone (c : option aggfunc_catalog_t).

(** [aggfunc_lookup_by_oid]; [syscache] is [SearchSysCache1(PROCOID, ...)]. *)
Definition aggfunc_lookup_by_oid
    (syscache : Oid -> option Form_pg_proc) (aggfnoid : Oid) : lookup_result :=
  match syscache aggfnoid with
  | None => LookupError
  | Some proform => LookupDone (aggfunc_lookup proform)
  end.

End Catalog.

(* ===================================================================== *)
(** * Results of fallible code *)
(* ===================================================================== *)

(** [elog(ERROR, ...)] aborts the function; the message is kept. *)
Inductive result (A : Type) : Type :=
| Ok (a : A)
| Error (msg : string).
Arguments Ok {A} a.
Arguments Error {A} msg.

Definition bind {A B : Type} (r : result A) (k : A -> result B) : result B :=
  match r with
  | Ok a => k a
  | Error m => Error m
  end.

Notation "x <- c1 ;; c2" := (bind c1 (fun x => c2))
  (at level 61, c1 at next level, right associativity).

(* ===================================================================== *)
(** * Expression nodes *)
(* ===================================================================== *)

Module Nodes.

Inductive NullTestType : Type := IS_NULL | IS_NOT_NULL.
Inductive BoolExprType : Type := AND_EXPR | OR_EXPR | NOT_EXPR.
Inductive CoercionForm : Type :=
| COERCE_EXPLICIT_CALL | COERCE_EXPLICIT_CAST | COERCE_IMPLICIT_CAST.

(** The expression nodes the builder reads or makes.  Parse locations are
    left out; a [CaseExpr] is the searched form ([arg] is NULL), its [args]
    are the [CaseWhen] pairs. *)
Inductive Expr : Type :=
| Var (varno varattno : Z) (vartype : Oid) (vartypmod : Z) (varcollid : Oid)
      (varlevelsup varnoold varoattno : Z)
| Const (consttype : Oid) (consttypmod : Z) (constcollid : Oid)
        (constlen : Z) (constvalue : Z) (constisnull constbyval : bool)
| NullTest (arg : Expr) (nulltesttype : NullTestType) (argisrow : bool)
| BoolExpr (boolop : BoolExprType) (args : list Expr)
| CaseExpr (casetype : Oid) (args : list (Expr * Expr)) (defresult : Expr)
| FuncExpr (funcid funcresulttype : Oid) (funcretset funcvariadic : bool)
           (funcformat : CoercionForm) (funccollid inputcollid : Oid)
           (args : list Expr)
| RelabelType (arg : Expr) (resulttype : Oid) (resulttypmod : Z)
              (resultcollid : Oid) (relabelformat : CoercionForm).

(** [makeVar]: the original range-table index and attribute are those the
    node is made with. *)
Definition makeVar (varno varattno : Z) (vartype : Oid) (vartypmod : Z)
    (varcollid : Oid) (varlevelsup : Z) : Expr :=
  Var varno varattno vartype vartypmod varcollid varlevelsup varno varattno.

(** An aggregate call; [aggargs] holds [tle->expr] of each argument entry. *)
Record Aggref : Type := mk_aggref {
  aggfnoid       : Oid;
  aggtype        : Oid;
  aggcollid      : Oid;
  agginputcollid : Oid;
  aggargs        : list Expr;
  aggfilter      : option Expr
}.

Inductive Node : Type :=
| NExpr (e : Expr)
| NAggref (a : Aggref).

Record TargetEntry : Type := makeTargetEntry {
  expr    : Node;
  resno   : Z;
  resname : option string;
  resjunk : bool
}.

Definition nulltesttype_eqb (a b : NullTestType) : bool :=
  match a, b with
  | IS_NULL, IS_NULL | IS_NOT_NULL, IS_NOT_NULL => true
  | _, _ => false
  end.

Definition boolop_eqb (a b : BoolExprType) : bool :=
  match a, b with
  | AND_EXPR, AND_EXPR | OR_EXPR, OR_EXPR | NOT_EXPR, NOT_EXPR => true
  | _, _ => false
  end.

(** PostgreSQL's [equal()] on expressions, as [equalfuncs.c] compares the
    node kinds: field by field, but the [CoercionForm] fields ([funcformat],
    [relabelformat]) are display information and are not compared, and all
    NULL constants of one type are equal whatever their [constvalue]. *)
Fixpoint expr_equal (a b : Expr) {struct a} : bool :=
  match a, b with
  | Var no att ty tm co lv noold oatt,
    Var no' att' ty' tm' co' lv' noold' oatt' =>
      (no =? no') && (att =? att') && (ty =? ty') && (tm =? tm')
      && (co =? co') && (lv =? lv') && (noold =? noold') && (oatt =? oatt')
  | Const ty tm co len v isnull byval,
    Const ty' tm' co' len' v' isnull' byval' =>
      (ty =? ty') && (tm =? tm') && (co =? co') && (len =? len')
      && Bool.eqb isnull isnull' && Bool.eqb byval byval'
      && (if isnull then true else v =? v')
  | NullTest x t r, NullTest x' t' r' =>
      expr_equal x x' && nulltesttype_eqb t t' && Bool.eqb r r'
  | BoolExpr op l, BoolExpr op' l' =>
      boolop_eqb op op'
      && (fix go (l l' : list Expr) : bool :=
            match l, l' with
            | [], [] => true
            | x :: l, y :: l' => expr_equal x y && go l l'
            | _, _ => false
            end) l l'
  | CaseExpr ty ws d, CaseExpr ty' ws' d' =>
      (ty =? ty')
      && (fix go (ws ws' : list (Expr * Expr)) : bool :=
            match ws, ws' with
            | [], [] => true
            | w :: ws, w' :: ws' =>
                expr_equal (fst w) (fst w') && expr_equal (snd w) (snd w')
                && go ws ws'
            | _, _ => false
            end) ws ws'
      && expr_equal d d'
  | FuncExpr fid rt rs va _ fc ic l, FuncExpr fid' rt' rs' va' _ fc' ic' l' =>
      (fid =? fid') && (rt =? rt') && Bool.eqb rs rs' && Bool.eqb va va'
      && (fc =? fc') && (ic =? ic')
      && (fix go (l l' : list Expr) : bool :=
            match l, l' with
            | [], [] => true
            | x :: l, y :: l' => expr_equal x y && go l l'
            | _, _ => false
            end) l l'
  | RelabelType x t tm c _, RelabelType x' t' tm' c' _ =>
      expr_equal x x' && (t =? t') && (tm =? tm') && (c =? c')
  | _, _ => false
  end.

(** [equal()] on two lists of expressions. *)
Fixpoint exprs_equal (l l' : list Expr) : bool :=
  match l, l' with
  | [], [] => true
  | x :: l, y :: l' => expr_equal x y && exprs_equal l l'
  | _, _ => false
  end.

(** [equal()] on the WHEN clauses of a CASE. *)
Fixpoint whens_equal (ws ws' : list (Expr * Expr)) : bool :=
  match ws, ws' with
  | [], [] => true
  | w :: ws, w' :: ws' =>
      expr_equal (fst w) (fst w') && expr_equal (snd w) (snd w')
      && whens_equal ws ws'
  | _, _ => false
  end.

Definition aggref_equal (a b : Aggref) : bool :=
  (aggfnoid a =? aggfnoid b) && (aggtype a =? aggtype b)
  && (aggcollid a =? aggcollid b) && (agginputcollid a =? agginputcollid b)
  && exprs_equal (aggargs a) (aggargs b)
  && match aggfilter a, aggfilter b with
     | None, None => true
     | Some f, Some g => expr_equal f g
     | _, _ => false
     end.

(** [equal()]: nodes of different kinds are not equal. *)
Definition equal (a b : Node) : bool :=
  match a, b with
  | NExpr x, NExpr y => expr_equal x y
  | NAggref x, NAggref y => aggref_equal x y
  | _, _ => false
  end.

End Nodes.

(* ===================================================================== *)
(** * Evaluation of expression nodes on one input row *)
(* ===================================================================== *)

(** The meaning of the node kinds is PostgreSQL's executor's: a value is a
    [Datum] or NULL, booleans are the Datums 0 and 1, [AND]/[OR] are the
    three-valued connectives of [ExecEvalAnd]/[ExecEvalOr], a searched CASE
    returns the result of the first WHEN whose condition is true (a NULL
    condition does not match) and the default otherwise. *)
Module Eval.
Import Nodes.

Definition datum : Type := option Z.

Definition DatumGetBool (v : Z) : bool := negb (v =? 0).
Definition BoolGetDatum (b : bool) : Z := if b then 1 else 0.

Fixpoint eval_and (vs : list datum) (anynull : bool) : datum :=
  match vs with
  | [] => if anynull then None else Some 1
  | None :: vs' => eval_and vs' true
  | Some v :: vs' => if DatumGetBool v then eval_and vs' anynull else Some 0
  end.

Fixpoint eval_or (vs : list datum) (anynull : bool) : datum :=
  match vs with
  | [] => if anynull then None else Some 0
  | None :: vs' => eval_or vs' true
  | Some v :: vs' => if DatumGetBool v then Some 1 else eval_or vs' anynull
  end.

Section Eval.
(** The functions a [FuncExpr] calls, and the scan tuple (attribute number
    to value). *)
Variable fsem : Oid -> list datum -> datum.
Variable row : Z -> datum.

Fixpoint eval (e : Expr) : datum :=
  match e with
  | Var _ attno _ _ _ _ _ _ => row attno
  | Const _ _ _ _ v isnull _ => if isnull then None else Some v
  | NullTest a t _ =>
      match t, eval a with
      | IS_NOT_NULL, Some _ => Some 1
      | IS_NOT_NULL, None => Some 0
      | IS_NULL, Some _ => Some 0
      | IS_NULL, None => Some 1
      end
  | BoolExpr op args =>
      let vs := map eval args in
      match op with
      | AND_EXPR => eval_and vs false
      | OR_EXPR => eval_or vs false
      | NOT_EXPR =>
          match vs with
          | [Some v] => Some (BoolGetDatum (negb (DatumGetBool v)))
          | _ => None
          end
      end
  | CaseExpr _ whens def =>
      (fix go (ws : list (Expr * Expr)) : datum :=
         match ws with
         | [] => eval def
         | w :: ws' =>
             match eval (fst w) with
             | Some v => if DatumGetBool v then eval (snd w) else go ws'
             | None => go ws'
             end
         end) whens
  | FuncExpr fid _ _ _ _ _ _ args => fsem fid (map eval args)
  | RelabelType a _ _ _ _ => eval a
  end.

End Eval.

(** A value is a true boolean: not NULL and not zero. *)
Definition is_true (v : datum) : bool :=
  match v with
  | Some x => DatumGetBool x
  | None => false
  end.

Definition is_notnull (v : datum) : bool :=
  match v with
  | Some _ => true
  | None => false
  end.

(** The sum of a partial column over rows (NULL counts as nothing). *)
Definition partial_sum (fsem : Oid -> list datum -> datum) (e : Expr)
    (rows : list (Z -> datum)) : Z :=
  fold_right Z.add 0
    (map (fun r => match eval fsem r e with
                   | Some v => v
                   | None => 0
                   end) rows).

(** Does the FILTER clause of an aggregate pass on a row? *)
Definition filter_passes (fsem : Oid -> list datum -> datum)
    (row : Z -> datum) (aggref : Aggref) : bool :=
  match aggfilter aggref with
  | None => true
  | Some f => is_true (eval fsem row f)
  end.

Definition args_notnull (fsem : Oid -> list datum -> datum)
    (row : Z -> datum) (aggref : Aggref) : bool :=
  forallb (fun a => is_notnull (eval fsem row a)) (aggargs aggref).

End Eval.

(* ===================================================================== *)
(** * The device target-list builder *)
(* ===================================================================== *)

Module Builder.
Import Nodes Catalog.

(** [fmgroids.h] and [pg_namespace.h]. *)
Definition F_FLOAT4MUL  : Oid := 202.
Definition F_FLOAT8MUL  : Oid := 216.
Definition F_NUMERIC_MUL : Oid := 1726.
Definition PG_CATALOG_NAMESPACE : Oid := 11.

Definition exprType (e : Expr) : Oid :=
  match e with
  | Var _ _ t _ _ _ _ _ => t
  | Const t _ _ _ _ _ _ => t
  | NullTest _ _ _ => BOOLOID
  | BoolExpr _ _ => BOOLOID
  | CaseExpr t _ _ => t
  | FuncExpr _ t _ _ _ _ _ _ => t
  | RelabelType _ t _ _ _ => t
  end.

Inductive CoercionMethod : Type :=
| COERCION_METHOD_FUNCTION | COERCION_METHOD_BINARY | COERCION_METHOD_INOUT.

Record Form_pg_cast : Type := mk_cast {
  castfunc   : Oid;
  castmethod : CoercionMethod
}.

(** What the builder reads of the alternative function's [pg_proc] row. *)
Record altfn_form : Type := mk_altfn {
  altfn_oid    : Oid;
  prorettype   : Oid;
  proretset    : bool;
  provariadic  : Oid
}.

Record tlists : Type := mk_tlists {
  tlist_host       : list TargetEntry;
  tlist_dev        : list TargetEntry;
  tlist_dev_action : list Z
}.

Section Planner.
(** Services of the PostgreSQL planner and its catalogs. *)
Variable exprTypmod : Expr -> Z.
Variable exprCollation : Expr -> Oid.
Variable get_typlenbyval : Oid -> Z * bool.
Variable proc_cache : Oid -> option Form_pg_proc.
Variable cast_cache : Oid -> Oid -> option Form_pg_cast.
Variable pgstrom_namespace : option Oid.
Variable altfn_cache : string -> list Oid -> Oid -> option altfn_form.

Definition makeNullConst (t : Oid) (typmod : Z) (collid : Oid) : Expr :=
  let (typlen, typbyval) := get_typlenbyval t in
  Const t typmod collid typlen 0 true typbyval.

Definition makeFuncExpr (funcid rettype : Oid) (args : list Expr)
    (funccollid inputcollid : Oid) (fformat : CoercionForm) : Expr :=
  FuncExpr funcid rettype false false fformat funccollid inputcollid args.

Definition make_andclause (andclauses : list Expr) : Expr :=
  BoolExpr AND_EXPR andclauses.

(** [make_expr_conditional]: CASE WHEN filter THEN expr ELSE default END. *)
Definition make_expr_conditional (e filter : Expr) (zero_if_unmatched : bool)
    : Expr :=
  let expr_typeoid := exprType e in
  let expr_typemod := exprTypmod e in
  let expr_collid := exprCollation e in
  let defresult :=
    if negb zero_if_unmatched
    then makeNullConst expr_typeoid expr_typemod expr_collid
    else let (typlen, typbyval) := get_typlenbyval expr_typeoid in
         Const expr_typeoid expr_typemod expr_collid typlen 0 false typbyval in
  CaseExpr (exprType e) [(filter, e)] defresult.

Definition make_altfunc_null_const (aggref : Aggref) : Expr :=
  makeNullConst INTERNALOID (-1) InvalidOid.

Definition option_to_list (A : Type) (o : option A) : list A :=
  match o with
  | Some a => [a]
  | None => []
  end.

(** [make_altfunc_nrows_expr]: the partial number of rows. *)
Definition make_altfunc_nrows_expr (aggref : Aggref) : Expr :=
  let nrows_args :=
    map (fun e => NullTest e IS_NOT_NULL false) (aggargs aggref)
    ++ option_to_list (aggfilter aggref) in
  let nrows_expr := Const INT8OID (-1) InvalidOid 8 1 false true in
  match nrows_args with
  | [] => nrows_expr
  | first :: rest =>
      make_expr_conditional nrows_expr
        (if (Z.of_nat (List.length nrows_args) <=? 1)
         then first
         else make_andclause nrows_args)
        true
  end.

(** [make_altfunc_simple_expr]; [linitial] of an empty list is a NULL
    dereference (the [Assert]s are not compiled in). *)
Definition make_altfunc_simple_expr (aggref : Aggref)
    (zero_if_unmatched : bool) : result Expr :=
  match aggargs aggref with
  | [] => Error "null pointer dereference"
  | e :: _ =>
      match aggfilter aggref with
      | Some f => Ok (make_expr_conditional e f zero_if_unmatched)
      | None => Ok e
      end
  end.

Definition make_altfunc_psum_x2 (aggref : Aggref) : result Expr :=
  match aggargs aggref with
  | [] => Error "null pointer dereference"
  | e :: _ =>
      let type_oid := exprType e in
      func_oid <-
        (if type_oid =? FLOAT4OID then Ok F_FLOAT4MUL
         else if type_oid =? FLOAT8OID then Ok F_FLOAT8MUL
         else if type_oid =? NUMERICOID then Ok F_NUMERIC_MUL
         else Error "Bug? unexpected expression data type") ;;
      let func_expr :=
        makeFuncExpr func_oid type_oid [e; e] InvalidOid InvalidOid
                     COERCE_EXPLICIT_CALL in
      match aggfilter aggref with
      | None => Ok func_expr
      | Some f => Ok (make_expr_conditional func_expr f false)
      end
  end.

Definition make_altfunc_pcov_xy (aggref : Aggref) (action : Z) : result Expr :=
  match aggargs aggref with
  | x :: y :: _ =>
      if negb (exprType x =? FLOAT8OID) || negb (exprType y =? FLOAT8OID)
      then Error "Bug? unexpected argument type for co-variance"
      else
        let arg_checks :=
          option_to_list (aggfilter aggref)
          ++ [NullTest x IS_NOT_NULL false; NullTest y IS_NOT_NULL false] in
        let mul a b :=
          makeFuncExpr F_FLOAT8MUL FLOAT8OID [a; b] InvalidOid InvalidOid
                       COERCE_EXPLICIT_CALL in
        e <-
          (if action =? ALTFUNC_EXPR_PCOV_X then Ok x
           else if action =? ALTFUNC_EXPR_PCOV_Y then Ok y
           else if action =? ALTFUNC_EXPR_PCOV_X2 then Ok (mul x x)
           else if action =? ALTFUNC_EXPR_PCOV_Y2 then Ok (mul y y)
           else if action =? ALTFUNC_EXPR_PCOV_XY then Ok (mul x y)
           else Error "Bug? unexpected action type for co-variance") ;;
        Ok (make_expr_conditional e (make_andclause arg_checks) false)
  | _ => Error "null pointer dereference"
  end.

(** [make_expr_typecast]: a cast by function or by relabelling. *)
Definition make_expr_typecast (e : Expr) (target_type : Oid) : result Expr :=
  let source_type := exprType e in
  if source_type =? target_type then Ok e
  else
    match cast_cache source_type target_type with
    | None => Error "could not find tuple for cast"
    | Some cast =>
        match castmethod cast with
        | COERCION_METHOD_FUNCTION =>
            Ok (makeFuncExpr (castfunc cast) target_type [e] InvalidOid
                             (exprCollation e) COERCE_EXPLICIT_CAST)
        | COERCION_METHOD_BINARY =>
            Ok (RelabelType e target_type (exprTypmod e) (exprCollation e)
                            COERCE_EXPLICIT_CAST)
        | COERCION_METHOD_INOUT =>
            Error "cast-method is not supported in opencl kernel"
        end
    end.

(** The [switch (action)] of the builder, for the actions that produce a
    device column. *)
Definition altfunc_expr (aggref : Aggref) (action : Z) : result Expr :=
  if action =? ALTFUNC_EXPR_NROWS then Ok (make_altfunc_nrows_expr aggref)
  else if (action =? ALTFUNC_EXPR_PMIN) || (action =? ALTFUNC_EXPR_PMAX)
  then make_altfunc_simple_expr aggref false
  else if action =? ALTFUNC_EXPR_PSUM
  then make_altfunc_simple_expr aggref true
  else if action =? ALTFUNC_EXPR_PSUM_X2 then make_altfunc_psum_x2 aggref
  else if (ALTFUNC_EXPR_PCOV_X <=? action) && (action <=? ALTFUNC_EXPR_PCOV_XY)
  then make_altfunc_pcov_xy aggref action
  else Error "unknown alternative function code".

(** The device column an aggregate asks for under one action: none for
    the NULL placeholder, else the expression of the action, cast to the
    argument type of the alternative function. *)
Definition requested_column (aggref : Aggref) (action : Z) (argtype : Oid)
    : result (option (Z * Node)) :=
  if action =? ALTFUNC_CONST_NULL then Ok None
  else
    e0 <- altfunc_expr aggref action ;;
    e <- make_expr_typecast e0 argtype ;;
    Ok (Some (action, NExpr e)).

(** An aggregate entry asks for a device column. *)
Definition asks_for (tle_ : TargetEntry) (c : Z * Node) : Prop :=
  exists aggref cat j,
    expr tle_ = NAggref aggref
    /\ aggfunc_lookup_by_oid proc_cache (aggfnoid aggref)
       = LookupDone (Some cat)
    /\ (j < Z.to_nat (altfn_nargs cat))%nat
    /\ requested_column aggref (nth j (altfn_argexprs cat) 0)
                        (nth j (altfn_argtypes cat) 0) = Ok (Some c).

(** The [forboth] scan: is there a device column with this action tag and
    an equal expression? *)
Definition tlist_dev_member (dev : list TargetEntry) (acts : list Z)
    (action : Z) (e : Expr) : bool :=
  existsb (fun p => (snd p =? action) && equal (NExpr e) (expr (fst p)))
          (combine dev acts).

(** One turn of the loop over the alternative function's arguments: the
    expression handed to the host side, and the device lists. *)
Definition add_partial (aggref : Aggref)
    (st : list TargetEntry * list Z) (action : Z) (argtype : Oid)
    : result (Expr * (list TargetEntry * list Z)) :=
  if action =? ALTFUNC_CONST_NULL
  then Ok (make_altfunc_null_const aggref, st)
  else
    e0 <- altfunc_expr aggref action ;;
    e <- make_expr_typecast e0 argtype ;;
    if tlist_dev_member (fst st) (snd st) action e
    then Ok (e, st)
    else Ok (e, (fst st ++ [makeTargetEntry (NExpr e)
                              (Z.of_nat (List.length (fst st)) + 1) None false],
                 snd st ++ [action])).

Fixpoint add_partials (aggref : Aggref) (cat : aggfunc_catalog_t)
    (js : list nat) (st : list TargetEntry * list Z) (altfn_args : list Expr)
    : result (list Expr * (list TargetEntry * list Z)) :=
  match js with
  | [] => Ok (altfn_args, st)
  | j :: js' =>
      r <- add_partial aggref st (nth j (altfn_argexprs cat) 0)
                       (nth j (altfn_argtypes cat) 0) ;;
      add_partials aggref cat js' (snd r) (altfn_args ++ [fst r])
  end.

(** The host-side entry of an aggregate: the partial column itself, or a
    call of the alternative function over the partial columns. *)
Definition host_entry (cat : aggfunc_catalog_t) (aggref : Aggref)
    (tle : TargetEntry) (altfn_args : list Expr) : result TargetEntry :=
  if String.eqb (altfn_name cat) "varref"
  then
    match altfn_args with
    | [] => Error "null pointer dereference"
    | e :: _ =>
        Ok (makeTargetEntry (NExpr e) (resno tle) (resname tle) (resjunk tle))
    end
  else
    namespace_oid <-
      (if String.prefix "c:" (altfn_name cat) then Ok PG_CATALOG_NAMESPACE
       else if String.prefix "s:" (altfn_name cat)
       then match pgstrom_namespace with
            | Some o => Ok o
            | None => Error "schema pgstrom was not found"
            end
       else Error "Bug? incorrect alternative function catalog") ;;
    let name := String.substring 2 (String.length (altfn_name cat) - 2)
                                 (altfn_name cat) in
    let argtypes := oid_cells (altfn_nargs cat) (altfn_argtypes cat) in
    match altfn_cache name argtypes namespace_oid with
    | None => Error "no alternative function found"
    | Some form =>
        let altfn_expr :=
          FuncExpr (altfn_oid form) (prorettype form) (proretset form)
                   (negb (provariadic form =? InvalidOid))
                   COERCE_EXPLICIT_CALL (aggcollid aggref)
                   (agginputcollid aggref) altfn_args in
        Ok (makeTargetEntry (NExpr altfn_expr)
                            (resno tle) (resname tle) (resjunk tle))
    end.

(** The tag of a target entry that is not an aggregate. *)
Definition plain_action (sortgrouprefs : option (list Z)) (index : nat) : Z :=
  match sortgrouprefs with
  | None => ALTFUNC_GROUPING_KEY
  | Some refs =>
      if nth index refs 0 >? 0 then ALTFUNC_GROUPING_KEY
      else ALTFUNC_CONST_VALUE
  end.

(** The body of the [foreach] over [tlist_orig]. *)
Definition build_step (sortgrouprefs : option (list Z)) (index : nat)
    (st : tlists) (tle : TargetEntry) : result tlists :=
  match expr tle with
  | NAggref aggref =>
      match aggfunc_lookup_by_oid proc_cache (aggfnoid aggref) with
      | LookupError => Error "cache lookup failed for function"
      | LookupDone None => Error "lookup failed on aggregate function"
      | LookupDone (Some cat) =>
          r <- add_partials aggref cat (seq 0 (Z.to_nat (altfn_nargs cat)))
                            (tlist_dev st, tlist_dev_action st) [] ;;
          h <- host_entry cat aggref tle (fst r) ;;
          Ok (mk_tlists (tlist_host st ++ [h]) (fst (snd r)) (snd (snd r)))
      end
  | NExpr _ =>
      Ok (mk_tlists (tlist_host st ++ [tle])
                    (tlist_dev st ++ [tle])
                    (tlist_dev_action st ++ [plain_action sortgrouprefs index]))
  end.

Fixpoint build_loop (sortgrouprefs : option (list Z)) (index : nat)
    (st : tlists) (tlist_orig : list TargetEntry) : result tlists :=
  match tlist_orig with
  | [] => Ok st
  | tle :: rest =>
      st' <- build_step sortgrouprefs index st tle ;;
      build_loop sortgrouprefs (S index) st' rest
  end.

(** [build_custom_scan_tlist]; [sortgrouprefs] is [target->sortgrouprefs]. *)
Definition build_custom_scan_tlist (sortgrouprefs : option (list Z))
    (tlist_orig : list TargetEntry) : result tlists :=
  build_loop sortgrouprefs 0 (mk_tlists [] [] []) tlist_orig.

End Planner.

(** The (action tag, expression) pairs of the device columns. *)
Definition dev_columns (t : tlists) : list (Z * Node) :=
  combine (tlist_dev_action t) (map expr (tlist_dev t)).

(** A device column that holds the partial state of an aggregate. *)
Definition is_aggfn_arg (c : Z * Node) : bool :=
  ALTFUNC_EXPR_NROWS <=? fst c.

(** The columns of a pair of device lists. *)
Definition cols (dev : list TargetEntry) (acts : list Z) : list (Z * Node) :=
  combine acts (map expr dev).

(** Two device columns are the same pair: the same action tag and
    expressions that are [equal()]. *)
Definition same_column (c1 c2 : Z * Node) : Prop :=
  fst c1 = fst c2 /\ equal (snd c1) (snd c2) = true.

(** The invariant of the loops: the two device lists go in step, and no two
    aggregate columns share their action tag and expression. *)
Definition dev_ok (dev : list TargetEntry) (acts : list Z) : Prop :=
  List.length dev = List.length acts
  /\ NoDupA same_column (filter is_aggfn_arg (cols dev acts)).

Definition plain_count (dev : list TargetEntry) (acts : list Z) : nat :=
  List.length (filter (fun c => negb (is_aggfn_arg c)) (cols dev acts)).

(** The claim of one device column per (action tag, expression) pair. *)
Definition one_column_per_pair (t : tlists) : Prop :=
  NoDupA same_column (dev_columns t).

(** A target entry that is not an aggregate call. *)
Definition is_plain_entry (tle : TargetEntry) : bool :=
  match expr tle with
  | NExpr _ => true
  | NAggref _ => false
  end.

End Builder.

(* ===================================================================== *)
(** * The projection code generator *)
(* ===================================================================== *)

Module Codegen.
Import Nodes.

(** [devtype_info], as far as the generator of this file reads it: the
    name of the device type and its maximum, minimum and zero constants
    (NULL when the type has none). *)
Record devtype_info : Type := mk_devtype {
  type_oid   : Oid;
  type_name  : string;
  max_const  : option string;
  min_const  : option string;
  zero_const : option string
}.

Definition nl : string := String (ascii_of_nat 10) EmptyString.

(** [%d] and [%u] of a C format. *)
Definition fmt_d (z : Z) : string := NilZero.string_of_int (Z.to_int z).
Definition fmt_u (z : Z) : string := fmt_d (z mod 2 ^ 32).

(** The constant stored when the input value is NULL: the [switch (action)]
    of [gpupreagg_codegen_projection]. *)
Definition null_const_value (action : Z) (dtype : devtype_info)
    : option string :=
  if action =? ALTFUNC_EXPR_PMIN then min_const dtype
  else if action =? ALTFUNC_EXPR_PMAX then max_const dtype
  else zero_const dtype.

Section Projection.
(** [pgstrom_devtype_lookup_and_track] and [pgstrom_codegen_expression]. *)
Variable devtype_lookup : Oid -> option devtype_info.
Variable codegen_expression : Expr -> string.

(** The statement that fills [dst_values] when the input is NULL. *)
Definition else_branch (resno : Z) (dtype : devtype_info) (c : string)
    : string :=
  ("  else" ++ nl ++
   "    dst_values[" ++ fmt_d (resno - 1) ++ "] = pg_" ++ type_name dtype
     ++ "_to_datum(" ++ c ++ ");" ++ nl)%string.

(** The text emitted for one device column: one turn of the [forboth] over
    [tlist_alt] and [tlist_dev_action]. *)
Definition codegen_projection_column (resno : Z) (e : Expr) (action : Z)
    : result string :=
  match devtype_lookup (Builder.exprType e) with
  | None => Error "device type lookup failed"
  | Some dtype =>
      let kind : string :=
        if action =? ALTFUNC_GROUPING_KEY then "group-key"%string
        else if action <? ALTFUNC_EXPR_NROWS then "const-value"%string
        else "aggfn-arg"%string in
      let head :=
        (nl ++ "  /* initial attribute " ++ fmt_d resno ++ " (" ++ kind
         ++ ") */" ++ nl)%string in
      let kvar_label :=
        match e with
        | Var _ varattno _ _ _ _ _ _ => ("KVAR_" ++ fmt_u varattno)%string
        | _ => ("temp." ++ type_name dtype ++ "_v")%string
        end in
      let assign :=
        match e with
        | Var _ _ _ _ _ _ _ _ => ""%string
        | _ => ("  " ++ kvar_label ++ " = " ++ codegen_expression e ++ ";"
                ++ nl)%string
        end in
      let store :=
        ("  dst_isnull[" ++ fmt_d (resno - 1) ++ "] = " ++ kvar_label
         ++ ".isnull;" ++ nl ++
         "  if (!" ++ kvar_label ++ ".isnull)" ++ nl ++
         "    dst_values[" ++ fmt_d (resno - 1) ++ "] = pg_"
         ++ type_name dtype ++ "_to_datum(" ++ kvar_label ++ ".value);"
         ++ nl)%string in
      if action >=? ALTFUNC_EXPR_NROWS
      then
        match null_const_value action dtype with
        | None => Error "Bug? unable to use type in GpuPreAgg"
        | Some c =>
            Ok (head ++ assign ++ store ++ else_branch resno dtype c)%string
        end
      else Ok (head ++ assign ++ store)%string
  end.

End Projection.

End Codegen.

(* ===================================================================== *)
(** * Tasks, the shared state and the final buffer *)
(* ===================================================================== *)

Module Task.

(** [cl_uint] arithmetic wraps modulo 2^32. *)
Definition u32 (z : Z) : Z := z mod 2 ^ 32.

(** The reduction modes of [kern_gpupreagg.reduction_mode]. *)
Inductive reduction_mode_t : Type :=
| GPUPREAGG_INVALID_REDUCTION
| GPUPREAGG_NOGROUP_REDUCTION
| GPUPREAGG_LOCAL_REDUCTION
| GPUPREAGG_GLOBAL_REDUCTION
| GPUPREAGG_FINAL_REDUCTION
| GPUPREAGG_ONLY_TERMINATION.

(** [kern_errorbuf.errcode]: the three codes this file tests, and any other
    device or CUDA run-time code.  [StromError_Success] is the zero code (a
    cleared error buffer holds it). *)
Inductive errcode_t : Type :=
| StromError_Success
| StromError_CpuReCheck
| StromError_DataStoreNoSpace
| StromError_Other (code : Z).

Definition errcode_eqb (a b : errcode_t) : bool :=
  match a, b with
  | StromError_Success, StromError_Success => true
  | StromError_CpuReCheck, StromError_CpuReCheck => true
  | StromError_DataStoreNoSpace, StromError_DataStoreNoSpace => true
  | StromError_Other x, StromError_Other y => x =? y
  | _, _ => false
  end.

Definition mode_eqb (a b : reduction_mode_t) : bool :=
  match a, b with
  | GPUPREAGG_INVALID_REDUCTION, GPUPREAGG_INVALID_REDUCTION => true
  | GPUPREAGG_NOGROUP_REDUCTION, GPUPREAGG_NOGROUP_REDUCTION => true
  | GPUPREAGG_LOCAL_REDUCTION, GPUPREAGG_LOCAL_REDUCTION => true
  | GPUPREAGG_GLOBAL_REDUCTION, GPUPREAGG_GLOBAL_REDUCTION => true
  | GPUPREAGG_FINAL_REDUCTION, GPUPREAGG_FINAL_REDUCTION => true
  | GPUPREAGG_ONLY_TERMINATION, GPUPREAGG_ONLY_TERMINATION => true
  | _, _ => false
  end.

Inductive kds_format_t : Type :=
| KDS_FORMAT_ROW | KDS_FORMAT_SLOT | KDS_FORMAT_BLOCK.

(** [pgstrom_data_store], as far as this file reads and writes it: the head
    of its [kds], and the two fields that rule the life of a final buffer.
    ([ntasks_running] is declared outside this file; it is a counter without
    an upper bound here.) *)
Record pgstrom_data_store : Type := mk_pds {
  kds_format       : kds_format_t;
  kds_nitems       : Z;
  nblocks_uncached : Z;
  ntasks_running   : Z;
  is_dereferenced  : bool
}.

(** The head of the working slot buffer of a task. *)
Record kds_head_t : Type := mk_kds_head {
  ncols      : Z;
  kds_length : Z;
  nrooms     : Z
}.

(** [kern_gpupreagg]: what the host sets and what the device reports. *)
Record kern_gpupreagg : Type := mk_kern {
  reduction_mode : reduction_mode_t;
  nitems_real    : Z;
  key_dist_salt  : Z;
  hash_size      : Z;
  kern_errcode   : errcode_t;      (* kern.kerror.errcode *)
  progress_final : bool;
  num_groups     : Z;
  varlena_usage  : Z
}.

(** [GpuPreAggTask]; [task_errcode] and [cpu_fallback] are the fields of the
    embedded [GpuTask_v2].  Device pointers are addresses, 0 when unset; the
    final buffer is known by its address in the store. *)
Record GpuPreAggTask : Type := mk_task {
  task_errcode    : errcode_t;
  cpu_fallback    : bool;
  with_nvme_strom : bool;
  is_last_task    : bool;
  is_retry        : bool;
  m_gpreagg       : Z;
  m_kds_in        : Z;
  m_kds_slot      : Z;
  m_ghash         : Z;
  m_kds_final     : Z;
  m_fhash         : Z;
  pds_in          : option pgstrom_data_store;
  kds_slot        : kds_head_t;
  pds_final       : option Z;
  kern            : kern_gpupreagg
}.

(** [GpuPreAggSharedState]. *)
Record GpuPreAggSharedState : Type := mk_sstate {
  refcnt         : Z;
  ss_pds_final   : option Z;
  ss_m_kds_final : Z;
  ss_m_fhash     : Z;
  f_ncols        : Z;
  f_nrooms       : Z;
  f_nitems       : Z;
  f_extra_sz     : Z;
  n_tasks_nogrp  : Z;
  n_tasks_local  : Z;
  n_tasks_global : Z;
  n_tasks_final  : Z;
  plan_ngroups   : Z;
  exec_ngroups   : Z;
  last_ngroups   : Z;
  exec_extra_sz  : Z;
  last_extra_sz  : Z
}.

(** The store of final buffers, by address. *)
Definition heap : Type := Z -> pgstrom_data_store.

Definition heap_set (h : heap) (p : Z) (v : pgstrom_data_store) : heap :=
  fun q => if q =? p then v else h q.

(** What a function does to the world besides its result. *)
Inductive effect : Type :=
| SpinLockAcquire
| SpinLockRelease
| DecideMode (m : reduction_mode_t)
| AttachFinal (p : Z)
| FreeKdsIn (m : Z)             (* gpuMemFree_v2(m_kds_in) *)
| FreeIOMap (m : Z)             (* gpuMemFreeIOMap(m_kds_in) *)
| FreeKdsFinal (m : Z)          (* gpuMemFree_v2(m_kds_final) *)
| PushGpuTask (t : GpuPreAggTask).

(** ** Field updates *)

Definition set_kern (t : GpuPreAggTask) (k : kern_gpupreagg) : GpuPreAggTask :=
  mk_task (task_errcode t) (cpu_fallback t) (with_nvme_strom t)
          (is_last_task t) (is_retry t) (m_gpreagg t) (m_kds_in t)
          (m_kds_slot t) (m_ghash t) (m_kds_final t) (m_fhash t)
          (pds_in t) (kds_slot t) (pds_final t) k.

Definition set_mode (k : kern_gpupreagg) (m : reduction_mode_t)
    : kern_gpupreagg :=
  mk_kern m (nitems_real k) (key_dist_salt k) (hash_size k)
          (kern_errcode k) (progress_final k) (num_groups k) (varlena_usage k).

Definition set_hash_size (k : kern_gpupreagg) (n : Z) : kern_gpupreagg :=
  mk_kern (reduction_mode k) (nitems_real k) (key_dist_salt k) n
          (kern_errcode k) (progress_final k) (num_groups k) (varlena_usage k).

(** What the device writes back into [kern]. *)
Definition set_report (k : kern_gpupreagg) (e : errcode_t) (progress : bool)
    (ngroups usage : Z) : kern_gpupreagg :=
  mk_kern (reduction_mode k) (nitems_real k) (key_dist_salt k) (hash_size k)
          e progress ngroups usage.

Definition set_error (t : GpuPreAggTask) (e : errcode_t) (fallback : bool)
    : GpuPreAggTask :=
  mk_task e fallback (with_nvme_strom t)
          (is_last_task t) (is_retry t) (m_gpreagg t) (m_kds_in t)
          (m_kds_slot t) (m_ghash t) (m_kds_final t) (m_fhash t)
          (pds_in t) (kds_slot t) (pds_final t) (kern t).

Definition set_retry (t : GpuPreAggTask) (slot : kds_head_t) : GpuPreAggTask :=
  mk_task (task_errcode t) (cpu_fallback t) (with_nvme_strom t)
          (is_last_task t) true (m_gpreagg t) (m_kds_in t)
          (m_kds_slot t) (m_ghash t) (m_kds_final t) (m_fhash t)
          (pds_in t) slot (pds_final t) (kern t).

(** The final buffer a task holds, with its device addresses. *)
Definition set_final (t : GpuPreAggTask) (p : option Z) (kds_final fhash : Z)
    : GpuPreAggTask :=
  mk_task (task_errcode t) (cpu_fallback t) (with_nvme_strom t)
          (is_last_task t) (is_retry t) (m_gpreagg t) (m_kds_in t)
          (m_kds_slot t) (m_ghash t) kds_final fhash
          (pds_in t) (kds_slot t) p (kern t).

Definition set_ntasks_running (b : pgstrom_data_store) (n : Z)
    : pgstrom_data_store :=
  mk_pds (kds_format b) (kds_nitems b) (nblocks_uncached b) n
         (is_dereferenced b).

Definition set_is_dereferenced (b : pgstrom_data_store) (d : bool)
    : pgstrom_data_store :=
  mk_pds (kds_format b) (kds_nitems b) (nblocks_uncached b)
         (ntasks_running b) d.

(** [gpa_sstate->pds_final = NULL; m_kds_final = 0UL; m_fhash = 0UL]. *)
Definition detach_final (s : GpuPreAggSharedState) : GpuPreAggSharedState :=
  mk_sstate (refcnt s) None 0 0 (f_ncols s) (f_nrooms s) (f_nitems s)
            (f_extra_sz s) (n_tasks_nogrp s) (n_tasks_local s)
            (n_tasks_global s) (n_tasks_final s) (plan_ngroups s)
            (exec_ngroups s) (last_ngroups s) (exec_extra_sz s)
            (last_extra_sz s).

Definition set_refcnt (s : GpuPreAggSharedState) (n : Z)
    : GpuPreAggSharedState :=
  mk_sstate n (ss_pds_final s) (ss_m_kds_final s) (ss_m_fhash s) (f_ncols s)
            (f_nrooms s) (f_nitems s) (f_extra_sz s) (n_tasks_nogrp s)
            (n_tasks_local s) (n_tasks_global s) (n_tasks_final s)
            (plan_ngroups s) (exec_ngroups s) (last_ngroups s)
            (exec_extra_sz s) (last_extra_sz s).

Definition set_ntasks (s : GpuPreAggSharedState) (nogrp loc glob fin : Z)
    : GpuPreAggSharedState :=
  mk_sstate (refcnt s) (ss_pds_final s) (ss_m_kds_final s) (ss_m_fhash s)
            (f_ncols s) (f_nrooms s) (f_nitems s) (f_extra_sz s)
            nogrp loc glob fin
            (plan_ngroups s) (exec_ngroups s) (last_ngroups s)
            (exec_extra_sz s) (last_extra_sz s).

(** The statistics [gpupreagg_respond_task] writes under the lock. *)
Definition set_stats (s : GpuPreAggSharedState)
    (nitems extra exec_ng last_ng exec_ex last_ex : Z) : GpuPreAggSharedState :=
  mk_sstate (refcnt s) (ss_pds_final s) (ss_m_kds_final s) (ss_m_fhash s)
            (f_ncols s) (f_nrooms s) nitems extra
            (n_tasks_nogrp s) (n_tasks_local s) (n_tasks_global s)
            (n_tasks_final s) (plan_ngroups s) exec_ng last_ng exec_ex last_ex.

End Task.

(* ===================================================================== *)
(** * Task construction *)
(* ===================================================================== *)

Module Create.
Import Task.

Definition TupleTableSlot : Type := list (option Z).

(** [GpuPreAggState], as far as task construction reads it.  The outer row
    source is the list of what it will still return: the chunks of
    [gpuscanExecScanChunk] when the node scans a relation itself, the rows of
    [ExecProcNode] of the outer plan otherwise. *)
Record GpuPreAggState : Type := mk_gpas {
  num_group_keys       : Z;
  gpas_key_dist_salt   : Z;
  natts                : Z;                 (* of the pseudo slot *)
  nvme_nrows_per_block : option Z;          (* gts.nvme_sstate *)
  ss_currentRelation   : bool;
  outer_pds            : option pgstrom_data_store;
  scan_overflow        : option TupleTableSlot;
  scan_done            : bool;
  rel_chunks           : list pgstrom_data_store;
  outer_rows           : list TupleTableSlot
}.

Definition set_scan (g : GpuPreAggState)
    (opds : option pgstrom_data_store) (overflow : option TupleTableSlot)
    (done : bool) (chunks : list pgstrom_data_store)
    (rows : list TupleTableSlot) : GpuPreAggState :=
  mk_gpas (num_group_keys g) (gpas_key_dist_salt g) (natts g)
          (nvme_nrows_per_block g) (ss_currentRelation g)
          opds overflow done chunks rows.

Section Create.
(** Byte length of a slot buffer of [ncols] columns and [nitems] rows (a
    matter of memory layout), and the row store of the outer plan. *)
Variable slot_length : Z -> Z -> Z.
Variable PDS_create_row : pgstrom_data_store.
Variable PDS_insert_tuple :
  pgstrom_data_store -> TupleTableSlot -> option pgstrom_data_store.

(** [get_gpupreagg_shared_state]. *)
Definition get_gpupreagg_shared_state (s : GpuPreAggSharedState)
    : GpuPreAggSharedState :=
  set_refcnt s (u32 (refcnt s + 1)).

(** [put_gpupreagg_shared_state]: the counter is decremented, and the
    shared state itself is released ([dmaBufferFree]) when it reaches zero.
    The result tells whether it was released. *)
Definition put_gpupreagg_shared_state (s : GpuPreAggSharedState)
    : GpuPreAggSharedState * bool :=
  let refcnt_new := u32 (refcnt s - 1) in
  (set_refcnt s refcnt_new, refcnt_new =? 0).

(** [gpupreagg_create_task].  The first statement reads [pds_in->kds]. *)
Definition gpupreagg_create_task (gpas : GpuPreAggState)
    (s : GpuPreAggSharedState) (pds_in : option pgstrom_data_store)
    (is_last : bool) : result (GpuPreAggTask * GpuPreAggSharedState) :=
  match pds_in with
  | None => Error "null pointer dereference"
  | Some pds =>
      adj <-
        (match kds_format pds with
         | KDS_FORMAT_BLOCK =>
             match nvme_nrows_per_block gpas with
             | None => Error "null pointer dereference"
             | Some nrows_per_block =>
                 Ok (0 <? nblocks_uncached pds,
                     u32 (kds_nitems pds * nrows_per_block))
             end
         | _ => Ok (false, kds_nitems pds)
         end) ;;
      let with_nvme := fst adj in
      let n := snd adj in
      let k :=
        mk_kern (if num_group_keys gpas =? 0
                 then GPUPREAGG_NOGROUP_REDUCTION
                 else GPUPREAGG_INVALID_REDUCTION)
                n (gpas_key_dist_salt gpas) n
                StromError_Success false 0 0 in
      Ok (mk_task StromError_Success false with_nvme is_last false
                  0 0 0 0 0 0 (Some pds)
                  (mk_kds_head (natts gpas) (slot_length (natts gpas) n) n)
                  None k,
          get_gpupreagg_shared_state s)
  end.

(** The loop over the rows of the outer plan: rows are inserted until the
    source ends ([scan_done]) or the store is full ([scan_overflow]). *)
Fixpoint load_outer_rows (rows : list TupleTableSlot)
    (pds : option pgstrom_data_store)
    : option pgstrom_data_store * option TupleTableSlot * bool
      * list TupleTableSlot :=
  match rows with
  | [] => (pds, None, true, [])
  | slot :: rest =>
      let store := match pds with
                   | Some p => p
                   | None => PDS_create_row
                   end in
      match PDS_insert_tuple store slot with
      | Some store' => load_outer_rows rest (Some store')
      | None => (Some store, Some slot, false, rest)
      end
  end.

(** [gpupreagg_next_task]: the next input batch, then the task on it. *)
Definition gpupreagg_next_task (gpas : GpuPreAggState)
    (s : GpuPreAggSharedState)
    : result (GpuPreAggTask * GpuPreAggSharedState) * GpuPreAggState :=
  if ss_currentRelation gpas
  then
    (* gpuscanExecScanChunk *)
    let scan chunks :=
      match chunks with
      | [] => (None, [])
      | c :: cs => (Some c, cs)
      end in
    let '(first, chunks1) :=
      match outer_pds gpas with
      | Some p => (Some p, rel_chunks gpas)
      | None => scan (rel_chunks gpas)
      end in
    let '(next, chunks2) :=
      match first with
      | Some _ => scan chunks1
      | None => (None, chunks1)
      end in
    let is_last := match next with
                   | None => true
                   | Some _ => false
                   end in
    (gpupreagg_create_task gpas s first is_last,
     set_scan gpas next (scan_overflow gpas) (scan_done gpas) chunks2
              (outer_rows gpas))
  else
    (* a pending overflow row is taken and cleared before the source is
       read again *)
    let '(pds, overflow, done, rest) := load_outer_rows (outer_rows gpas) None in
    let is_last := match overflow with
                   | None => true
                   | Some _ => false
                   end in
    (gpupreagg_create_task gpas s pds is_last,
     set_scan gpas (outer_pds gpas) overflow
              (done || scan_done gpas) (rel_chunks gpas) rest).

End Create.

(** A source that has nothing to return: an empty relation, an outer plan
    without rows. *)
Definition no_input (gpas : GpuPreAggState) : Prop :=
  if ss_currentRelation gpas
  then outer_pds gpas = None /\ rel_chunks gpas = []
  else outer_rows gpas = [].

(** [create_gpupreagg_shared_state]: the state is zeroed, then the reference
    counter, the final buffer (at address [p]) and its dimensions are set. *)
Definition create_gpupreagg_shared_state (p : Z) (natts_ nrooms_ : Z)
    : GpuPreAggSharedState :=
  mk_sstate 1 (Some p) 0 0 natts_ nrooms_ 0 0 0 0 0 0 0 0 0 0 0.

End Create.

(* ===================================================================== *)
(** * Double-precision arithmetic *)
(* ===================================================================== *)

(** [cl_double] is IEEE 754 binary64.  The operations are those of the
    specification of floating-point arithmetic of the Standard Library
    ([SpecFloat], which follows Flocq's [IEEE754.Binary]): each one rounds
    its exact result to nearest, ties to even.  The expressions of the
    source are evaluated as they are written, each operation in double
    precision: no excess precision, no fused multiply-add. *)
Module Double.

Definition cl_double : Type := spec_float.

Definition prec : Z := 53.
Definition emax : Z := 1024.

(** The conversion [(double) z] of an integer. *)
Definition of_int (z : Z) : cl_double := binary_normalize prec emax z 0 false.

Definition add (x y : cl_double) : cl_double := SFadd prec emax x y.
Definition sub (x y : cl_double) : cl_double := SFsub prec emax x y.
Definition mul (x y : cl_double) : cl_double := SFmul prec emax x y.
Definition div (x y : cl_double) : cl_double := SFdiv prec emax x y.

(** [x < y] and [x <= y]; a comparison with a NaN is false. *)
Definition lt (x y : cl_double) : bool := SFltb x y.
Definition le (x y : cl_double) : bool := SFleb x y.

(** ** Integer functions that describe the rounding *)

(** [m / 2^k] rounded to the nearest integer, ties to even. *)
Definition rne (m k : Z) : Z :=
  let q := m / 2 ^ k in
  let r := m mod 2 ^ k in
  if 2 * r <? 2 ^ k then q
  else if 2 ^ k <? 2 * r then q + 1
  else if Z.even q then q else q + 1.

(** The number made of a mantissa and an exponent. *)
Definition pack (sx : bool) (m e : Z) : cl_double :=
  match m with
  | Z0 => S754_zero sx
  | Zpos p => if e <=? emax - prec then S754_finite sx p e
              else S754_infinity sx
  | Zneg _ => S754_nan
  end.

(** A mantissa that was rounded up to [2^53] takes the next exponent. *)
Definition renorm (sx : bool) (q t : Z) : cl_double :=
  if q =? 2 ^ 53 then pack sx (2 ^ 52) (t + 1) else pack sx q t.

(** Mantissa and exponent of the double of an integer [0 < n < 2^53]. *)
Definition int_mantissa (n : Z) : Z := n * 2 ^ (53 - Zdigits2 n).
Definition int_exponent (n : Z) : Z := Zdigits2 n - 53.

(** Mantissa and exponent of the rounded product [P * 2^s], where [P], the
    product of two mantissas of 53 bits, has 105 or 106 bits. *)
Definition mul_pair (P s : Z) : Z * Z :=
  let k := if P <? 2 ^ 105 then 52 else 53 in
  let q := rne P k in
  if q =? 2 ^ 53 then (2 ^ 52, s + k + 1) else (q, s + k).

(** The order of (mantissa, exponent) pairs with mantissas of 53 bits. *)
Definition lexle (a b : Z * Z) : Prop :=
  snd a < snd b \/ (snd a = snd b /\ fst a <= fst b).

(** Zero, or a positive number with a mantissa of 53 bits. *)
Definition nonneg (x : cl_double) : Prop :=
  match x with
  | S754_zero s => s = false
  | S754_finite s m e => s = false /\ 2 ^ 52 <= Zpos m < 2 ^ 53
  | _ => False
  end.

(** Such a number with an exponent far from the limits of the format. *)
Definition small (x : cl_double) : Prop :=
  match x with
  | S754_zero s => s = false
  | S754_finite s m e =>
      s = false /\ 2 ^ 52 <= Zpos m < 2 ^ 53 /\ -100 <= e <= 100
  | _ => False
  end.

Definition smallb (x : cl_double) : bool :=
  match x with
  | S754_zero s => negb s
  | S754_finite s m e =>
      negb s && (2 ^ 52 <=? Zpos m) && (Zpos m <? 2 ^ 53)
      && (-100 <=? e) && (e <=? 100)
  | _ => false
  end.

End Double.

(* ===================================================================== *)
(** * The reduction strategy *)
(* ===================================================================== *)

Module Strategy.
Import Task Double.

(** The [Min] macro on doubles: [((x) < (y) ? (x) : (y))]. *)
Definition Min (x y : cl_double) : cl_double := if lt x y then x else y.

(** The [Max] macro on integers. *)
Definition Max (x y : Z) : Z := if x >? y then x else y.

(** The sum of the four per-mode task counters, a [cl_uint]. *)
Definition num_tasks (s : GpuPreAggSharedState) : Z :=
  u32 (n_tasks_nogrp s + n_tasks_local s + n_tasks_global s + n_tasks_final s).

(** [exec_ratio = Min(num_tasks, 30.0) / 30.0]. *)
Definition exec_ratio (s : GpuPreAggSharedState) : cl_double :=
  div (Min (of_int (num_tasks s)) (of_int 30)) (of_int 30).

(** [real_ngroups = plan_ngroups * (1.0 - exec_ratio)
                    + exec_ngroups * exec_ratio]. *)
Definition real_ngroups (s : GpuPreAggSharedState) : cl_double :=
  add (mul (of_int (plan_ngroups s)) (sub (of_int 1) (exec_ratio s)))
      (mul (of_int (exec_ngroups s)) (exec_ratio s)).

(** The weight of the observed number of groups after [k] counted tasks,
    [k] from 0 to 30. *)
Definition weight (k : Z) : cl_double := div (of_int k) (of_int 30).

Section Strategy.
(** [devBaselineMaxThreadsPerBlock], a property of the installed devices. *)
Variable devBaselineMaxThreadsPerBlock : Z.

(** The decision for a task whose mode is still invalid; the two integer
    quotients are converted to [double] for the comparisons. *)
Definition select_reduction_mode (s : GpuPreAggSharedState) (nitems_real_ : Z)
    : reduction_mode_t :=
  if lt (real_ngroups s) (of_int (devBaselineMaxThreadsPerBlock ÷ 4))
  then GPUPREAGG_LOCAL_REDUCTION
  else if lt (real_ngroups s) (of_int (nitems_real_ / 4))
  then GPUPREAGG_GLOBAL_REDUCTION
  else GPUPREAGG_FINAL_REDUCTION.

Inductive setup_outcome : Type :=
| Attached (t : GpuPreAggTask) (h : heap)
| NeedsFinalBuffer (t : GpuPreAggTask).

(** [gpupreagg_setup_strategy].  The lock is taken, the mode is decided,
    the final buffer of the shared state is attached, the lock is released.
    When the shared state has no final buffer the task goes on to allocate
    one ([__gpupreagg_setup_strategy]).  Left out: the [Assert] of the
    branch of a task that comes with a mode (that it is a NO-GROUP task),
    which only a build with assertions checks, and the failure of
    [cuStreamWaitEvent], on which the lock is released and the error raised
    again. *)
Definition gpupreagg_setup_strategy (t : GpuPreAggTask)
    (s : GpuPreAggSharedState) (h : heap) : setup_outcome * list effect :=
  let m :=
    match reduction_mode (kern t) with
    | GPUPREAGG_INVALID_REDUCTION =>
        select_reduction_mode s (nitems_real (kern t))
    | other => other
    end in
  let t1 := set_kern t (set_mode (kern t) m) in
  match ss_pds_final s with
  | None =>
      (NeedsFinalBuffer t1, [SpinLockAcquire; DecideMode m; SpinLockRelease])
  | Some p =>
      let b := h p in
      (Attached (set_final t1 (Some p) (ss_m_kds_final s) (ss_m_fhash s))
                (heap_set h p (set_ntasks_running b (ntasks_running b + 1))),
       [SpinLockAcquire; DecideMode m; AttachFinal p; SpinLockRelease])
  end.

End Strategy.

(** The task a set-up leaves. *)
Definition setup_task (o : setup_outcome) : GpuPreAggTask :=
  match o with
  | Attached t _ => t
  | NeedsFinalBuffer t => t
  end.

(** The task counters are in range and [k] more tasks do not wrap them. *)
Definition counters_ok (s : GpuPreAggSharedState) (k : nat) : Prop :=
  0 <= n_tasks_nogrp s /\ 0 <= n_tasks_local s
  /\ 0 <= n_tasks_global s /\ 0 <= n_tasks_final s
  /\ n_tasks_nogrp s + n_tasks_local s + n_tasks_global s + n_tasks_final s
     + Z.of_nat k < 2 ^ 32.

(** The end of [__gpupreagg_setup_strategy]: the final buffer of the shared
    state is taken, marked in use, and, by the last task, dereferenced. *)
Definition attach_final_buffer (t : GpuPreAggTask)
    (s : GpuPreAggSharedState) (h : heap)
    : result (GpuPreAggTask * GpuPreAggSharedState * heap) :=
  match ss_pds_final s with
  | None => Error "null pointer dereference"
  | Some p =>
      let b := h p in
      let b1 := set_ntasks_running b (ntasks_running b + 1) in
      let t1 := set_final t (Some p) (ss_m_kds_final s) (ss_m_fhash s) in
      if is_last_task t
      then Ok (t1, detach_final s, heap_set h p (set_is_dereferenced b1 true))
      else Ok (t1, s, heap_set h p b1)
  end.

(** The counters of [gpupreagg_process_reduction_task]. *)
Definition count_reduction_kernel (m : reduction_mode_t)
    (s : GpuPreAggSharedState) : result GpuPreAggSharedState :=
  match m with
  | GPUPREAGG_NOGROUP_REDUCTION =>
      Ok (set_ntasks s (u32 (n_tasks_nogrp s + 1)) (n_tasks_local s)
                     (n_tasks_global s) (n_tasks_final s))
  | GPUPREAGG_LOCAL_REDUCTION =>
      Ok (set_ntasks s (n_tasks_nogrp s) (u32 (n_tasks_local s + 1))
                     (n_tasks_global s) (n_tasks_final s))
  | GPUPREAGG_GLOBAL_REDUCTION =>
      Ok (set_ntasks s (n_tasks_nogrp s) (n_tasks_local s)
                     (u32 (n_tasks_global s + 1)) (n_tasks_final s))
  | GPUPREAGG_FINAL_REDUCTION =>
      Ok (set_ntasks s (n_tasks_nogrp s) (n_tasks_local s)
                     (n_tasks_global s) (u32 (n_tasks_final s + 1)))
  | _ => Error "Bug? unexpected reduction mode"
  end.

(** [gpupreagg_respond_task]; [status] is the [CUresult] of the stream
    (0 is [CUDA_SUCCESS]).  The result tells whether the completion is
    urgent. *)
Definition gpupreagg_respond_task (status : Z) (t : GpuPreAggTask)
    (s : GpuPreAggSharedState) : GpuPreAggTask * GpuPreAggSharedState * bool :=
  if status =? 0
  then
    let t1 := set_error t (kern_errcode (kern t)) (cpu_fallback t) in
    if errcode_eqb (task_errcode t1) StromError_Success
    then
      let nitems := u32 (f_nitems s + num_groups (kern t)) in
      let extra := u32 (f_extra_sz s + varlena_usage (kern t)) in
      (t1,
       set_stats s nitems extra
                 (Max (exec_ngroups s) nitems) (exec_ngroups s)
                 (Max (exec_extra_sz s) extra) (exec_extra_sz s),
       false)
    else (t1, s, true)
  else (set_error t (StromError_Other status) (cpu_fallback t), s, true).

End Strategy.

(* ===================================================================== *)
(** * Task completion *)
(* ===================================================================== *)

Module Complete.
Import Task.

(** [gpupreagg_cleanup_cuda_resources]: the device memory of the task is
    released, the device memory of the final buffer only by a terminator. *)
Definition gpupreagg_cleanup_cuda_resources (t : GpuPreAggTask)
    (is_terminator : bool) : GpuPreAggTask * list effect :=
  (mk_task (task_errcode t) (cpu_fallback t) (with_nvme_strom t)
           (is_last_task t) (is_retry t) 0 0 0 0 0 0
           (pds_in t) (kds_slot t) (pds_final t) (kern t),
   [FreeKdsIn (m_kds_in t)]
   ++ (if with_nvme_strom t && negb (m_kds_in t =? 0)
       then [FreeIOMap (m_kds_in t)] else [])
   ++ (if is_terminator then [FreeKdsFinal (m_kds_final t)] else [])).

(** [gpupreagg_push_terminator_task]: a zeroed clone takes over the final
    buffer and is pushed as a termination-only task. *)
Definition gpupreagg_push_terminator_task (t_old : GpuPreAggTask)
    : GpuPreAggTask * list effect :=
  let t_new :=
    mk_task StromError_Success false false false false
            0 0 0 0 (m_kds_final t_old) (m_ghash t_old)
            None (mk_kds_head 0 0 0) (pds_final t_old)
            (mk_kern GPUPREAGG_ONLY_TERMINATION 0 0 0
                     StromError_Success false 0 0) in
  (mk_task (task_errcode t_old) (cpu_fallback t_old) (with_nvme_strom t_old)
           (is_last_task t_old) (is_retry t_old) (m_gpreagg t_old)
           (m_kds_in t_old) (m_kds_slot t_old) 0 0 (m_fhash t_old)
           (pds_in t_old) (kds_slot t_old) None (kern t_old),
   [PushGpuTask t_new]).

Record outcome : Type := mk_outcome {
  retval   : Z;
  o_task   : GpuPreAggTask;
  o_sstate : GpuPreAggSharedState;
  o_heap   : heap;
  o_trace  : list effect
}.

Definition same_final (a : option Z) (p : Z) : bool :=
  match a with
  | Some q => q =? p
  | None => false
  end.

Section Complete.
(** Byte length of the enlarged slot buffer (a matter of memory layout). *)
Variable retry_slot_length : Z -> Z -> Z.

(** Scenario 1 of the overflow: the final buffer was not written to. *)
Definition retry_with_larger_slot (t : GpuPreAggTask)
    (s : GpuPreAggSharedState) (h : heap) : outcome :=
  let n := nitems_real (kern t) in
  let '(t1, tr) := gpupreagg_cleanup_cuda_resources t false in
  let t2 := set_kern t1 (set_hash_size (kern t1)
                                       (Strategy.Max (hash_size (kern t1)) n)) in
  let slot := mk_kds_head (ncols (kds_slot t2))
                          (retry_slot_length (ncols (kds_slot t2)) n) n in
  mk_outcome 1 (set_retry t2 slot) s h tr.

(** Scenario 2 of the overflow: the final buffer is given up. *)
Definition retry_with_new_final (t : GpuPreAggTask) (p : Z)
    (s : GpuPreAggSharedState) (h : heap) : outcome :=
  let b1 := set_is_dereferenced (h p) true in
  let s1 := if same_final (ss_pds_final s) p then detach_final s else s in
  let b2 := set_ntasks_running b1 (ntasks_running b1 - 1) in
  let is_terminator := ntasks_running b2 =? 0 in
  let '(t1, tr1) :=
    if is_terminator then gpupreagg_push_terminator_task t else (t, []) in
  let '(t2, tr2) := gpupreagg_cleanup_cuda_resources t1 false in
  let t3 := set_kern t2 (set_mode (kern t2) GPUPREAGG_FINAL_REDUCTION) in
  mk_outcome 1 (set_retry t3 (kds_slot t3)) s1 (heap_set h p b2)
             ([SpinLockAcquire; SpinLockRelease] ++ tr1 ++ tr2).

(** The completion of a task whose error is not an overflow. *)
Definition finish_task (t : GpuPreAggTask) (p : Z)
    (s : GpuPreAggSharedState) (h : heap) : outcome :=
  let b := h p in
  let b1 := set_ntasks_running b (ntasks_running b - 1) in
  let is_terminator := (ntasks_running b1 =? 0) && is_dereferenced b1 in
  let h1 := heap_set h p b1 in
  let lock := [SpinLockAcquire; SpinLockRelease] in
  let t1 :=
    if errcode_eqb (task_errcode t) StromError_CpuReCheck
       && negb (progress_final (kern t))
    then set_error t StromError_Success true
    else t in
  if errcode_eqb (task_errcode t1) StromError_Success
  then
    if negb is_terminator
    then
      let '(t2, tr) := gpupreagg_cleanup_cuda_resources t1 false in
      mk_outcome (-1) t2 s h1 (lock ++ tr)
    else
      mk_outcome 1 (set_kern t1 (set_mode (kern t1) GPUPREAGG_ONLY_TERMINATION))
                 s h1 lock
  else
    let '(t2, tr) := gpupreagg_cleanup_cuda_resources t1 is_terminator in
    mk_outcome 0 t2 s h1 (lock ++ tr).

(** [gpupreagg_complete_task]. *)
Definition gpupreagg_complete_task (t : GpuPreAggTask)
    (s : GpuPreAggSharedState) (h : heap) : result outcome :=
  if mode_eqb (reduction_mode (kern t)) GPUPREAGG_ONLY_TERMINATION
  then
    let '(t1, tr) := gpupreagg_cleanup_cuda_resources t true in
    Ok (mk_outcome 0 t1 s h tr)
  else if errcode_eqb (task_errcode t) StromError_DataStoreNoSpace
  then
    if negb (progress_final (kern t))
    then Ok (retry_with_larger_slot t s h)
    else
      match pds_final t with
      | None => Error "null pointer dereference"
      | Some p => Ok (retry_with_new_final t p s h)
      end
  else
    match pds_final t with
    | None => Error "null pointer dereference"
    | Some p => Ok (finish_task t p s h)
    end.

End Complete.

(** The [PG_CATCH] block of [gpupreagg_process_task], for a reduction task
    that fails at its launch: its hold on the final buffer is given up and
    its device memory released, the one of the final buffer too when the
    task was the last one on a dereferenced buffer. *)
Definition process_task_catch (t : GpuPreAggTask) (p : Z) (h : heap)
    : GpuPreAggTask * heap * list effect :=
  let b1 := set_ntasks_running (h p) (ntasks_running (h p) - 1) in
  let is_terminator := (ntasks_running b1 =? 0) && is_dereferenced b1 in
  let '(t1, tr) := gpupreagg_cleanup_cuda_resources t is_terminator in
  (t1, heap_set h p b1, [SpinLockAcquire; SpinLockRelease] ++ tr).

(** A completion switches the task to the CPU fallback: the error of the
    task is cleared and [cpu_fallback] is set. *)
Definition switched_to_fallback (t : GpuPreAggTask) (o : outcome) : Prop :=
  task_errcode t <> StromError_Success
  /\ task_errcode (o_task o) = StromError_Success
  /\ cpu_fallback (o_task o) = true.

(** An effect on the memory of the task itself. *)
Definition is_own_free (e : effect) : bool :=
  match e with
  | FreeKdsIn _ | FreeIOMap _ => true
  | _ => false
  end.

(** What becomes of a completed task, by the value [gpupreagg_complete_task]
    returns, in the words of its comments: -1, "release task" ("complete
    returns -1 to discard the task"); 0, "return the task to backend
    process"; 1, "enqueue this task to the pending list again". *)
Inductive disposition : Type :=
| ReleaseTask
| ReturnToBackend
| EnqueueAgain.

Definition dispose (retval_ : Z) : disposition :=
  if retval_ <? 0 then ReleaseTask
  else if retval_ =? 0 then ReturnToBackend
  else EnqueueAgain.

(** [gpupreagg_next_tuple] on the current task of the backend: the rows come
    from [gpupreagg_next_tuple_fallback] over [pds_in] when [cpu_fallback]
    is set, from the final buffer otherwise. *)
Inductive tuple_source : Type :=
| FromFallback
| FromFinalBuffer.

Definition gpupreagg_next_tuple (t : GpuPreAggTask) : tuple_source :=
  if cpu_fallback t then FromFallback else FromFinalBuffer.

(** The input rows of a completed task are evaluated again by the CPU: the
    task is returned to the backend, where [gpupreagg_next_tuple] reads
    them through the fallback. *)
Definition rows_reevaluated (o : outcome) : Prop :=
  dispose (retval o) = ReturnToBackend
  /\ gpupreagg_next_tuple (o_task o) = FromFallback.

End Complete.

(* ===================================================================== *)
(** * The life of one final buffer *)
(* ===================================================================== *)

Module Lifetime.
Import Task Strategy Complete.

(** The shared state and the store, and what has happened to the buffer
    under watch: how many tasks hold it and still have to complete, whether
    its termination-only task is queued, whether its device memory was
    released. *)
Record world : Type := mk_world {
  w_sstate      : GpuPreAggSharedState;
  w_heap        : heap;
  w_attached    : nat;
  w_terminating : bool;
  w_freed       : bool
}.

Definition is_push (e : effect) : bool :=
  match e with
  | PushGpuTask _ => true
  | _ => false
  end.

Definition is_free_final (e : effect) : bool :=
  match e with
  | FreeKdsFinal _ => true
  | _ => false
  end.

(** A completion fires the terminator: the task itself turns into the
    termination-only task, or it pushes one. *)
Definition fires_terminator (o : outcome) : bool :=
  mode_eqb (reduction_mode (kern (o_task o))) GPUPREAGG_ONLY_TERMINATION
  || existsb is_push (o_trace o).

Definition frees_final (o : outcome) : bool :=
  existsb is_free_final (o_trace o).

Section Lifetime.
Variable retry_slot_length : Z -> Z -> Z.
Variable devBaselineMaxThreadsPerBlock : Z.
(** The address of the buffer under watch. *)
Variable p : Z.

(** The events on the buffer: a task attaches it (the last task of the scan
    dereferences it as well), a task that holds it completes or fails at
    its launch, its termination-only task completes, or something happens
    elsewhere (other buffers, statistics, a new buffer for the shared
    state). *)
Inductive step : world -> world -> Prop :=
| step_attach : forall w t t' h' tr,
    ss_pds_final (w_sstate w) = Some p ->
    gpupreagg_setup_strategy devBaselineMaxThreadsPerBlock t
      (w_sstate w) (w_heap w) = (Attached t' h', tr) ->
    step w (mk_world (w_sstate w) h' (S (w_attached w))
                     (w_terminating w) (w_freed w))
| step_attach_last : forall w t t' s' h',
    ss_pds_final (w_sstate w) = Some p ->
    attach_final_buffer t (w_sstate w) (w_heap w) = Ok (t', s', h') ->
    step w (mk_world s' h' (S (w_attached w))
                     (w_terminating w) (w_freed w))
| step_complete : forall w t o,
    pds_final t = Some p ->
    reduction_mode (kern t) <> GPUPREAGG_ONLY_TERMINATION ->
    (0 < w_attached w)%nat ->
    gpupreagg_complete_task retry_slot_length t (w_sstate w) (w_heap w)
      = Ok o ->
    step w (mk_world (o_sstate o) (o_heap o) (pred (w_attached w))
                     (w_terminating w || fires_terminator o)
                     (w_freed w || frees_final o))
| step_abort : forall w t t' h' tr,
    pds_final t = Some p ->
    reduction_mode (kern t) <> GPUPREAGG_ONLY_TERMINATION ->
    (0 < w_attached w)%nat ->
    process_task_catch t p (w_heap w) = (t', h', tr) ->
    step w (mk_world (w_sstate w) h' (pred (w_attached w))
                     (w_terminating w)
                     (w_freed w || existsb is_free_final tr))
| step_terminate : forall w t o,
    w_terminating w = true ->
    reduction_mode (kern t) = GPUPREAGG_ONLY_TERMINATION ->
    gpupreagg_complete_task retry_slot_length t (w_sstate w) (w_heap w)
      = Ok o ->
    step w (mk_world (o_sstate o) (o_heap o) (w_attached w)
                     false (w_freed w || frees_final o))
| step_elsewhere : forall w s' h',
    h' p = w_heap w p ->
    (ss_pds_final s' = Some p -> ss_pds_final (w_sstate w) = Some p) ->
    step w (mk_world s' h' (w_attached w) (w_terminating w) (w_freed w)).

Inductive steps : world -> world -> Prop :=
| steps_refl : forall w, steps w w
| steps_snoc : forall w1 w2 w3, steps w1 w2 -> step w2 w3 -> steps w1 w3.

(** A buffer nobody holds yet. *)
Definition initial (w : world) : Prop :=
  w_attached w = 0%nat /\ w_terminating w = false /\ w_freed w = false
  /\ is_dereferenced (w_heap w p) = false
  /\ 0 <= ntasks_running (w_heap w p).

(** The two conditions of the release. *)
Definition released_condition (w : world) : Prop :=
  ntasks_running (w_heap w p) = 0 /\ is_dereferenced (w_heap w p) = true.

(** What holds along the life of the buffer: the tasks that hold it are
    counted, a dereferenced buffer is not the one of the shared state, and
    the terminator has been fired exactly under the two conditions. *)
Definition lifetime_inv (w : world) : Prop :=
  Z.of_nat (w_attached w) <= ntasks_running (w_heap w p)
  /\ (is_dereferenced (w_heap w p) = true ->
      ss_pds_final (w_sstate w) <> Some p)
  /\ ((w_terminating w = true \/ w_freed w = true) <-> released_condition w).

End Lifetime.

End Lifetime.

(* ===================================================================== *)
(** * A run of tasks on one shared state *)
(* ===================================================================== *)

Module Run.
Import Task Create Strategy.

(** One input chunk and what the device reports for it. *)
Record chunk : Type := mk_chunk {
  c_input         : pgstrom_data_store;
  c_errcode       : errcode_t;
  c_progress      : bool;
  c_num_groups    : Z;
  c_varlena_usage : Z
}.

Section Run.
Variable slot_length : Z -> Z -> Z.
Variable devBaselineMaxThreadsPerBlock : Z.

(** A task is made for the chunk, its strategy is set up, its kernel is
    counted and the device responds.  The result is the mode the task ran
    with. *)
Definition run_task (gpas : GpuPreAggState)
    (w : GpuPreAggSharedState * heap) (c : chunk)
    : result (reduction_mode_t * (GpuPreAggSharedState * heap)) :=
  r <- gpupreagg_create_task slot_length gpas (fst w) (Some (c_input c)) false ;;
  match gpupreagg_setup_strategy devBaselineMaxThreadsPerBlock
          (fst r) (snd r) (snd w) with
  | (NeedsFinalBuffer _, _) => Error "no final buffer"
  | (Attached t1 h1, _) =>
      s2 <- count_reduction_kernel (reduction_mode (kern t1)) (snd r) ;;
      let t2 := set_kern t1 (set_report (kern t1) (c_errcode c) (c_progress c)
                                        (c_num_groups c) (c_varlena_usage c)) in
      let '(_, s3, _) := gpupreagg_respond_task 0 t2 s2 in
      Ok (reduction_mode (kern t1), (s3, h1))
  end.

Fixpoint run_tasks (gpas : GpuPreAggState)
    (w : GpuPreAggSharedState * heap) (cs : list chunk)
    : result (list reduction_mode_t * (GpuPreAggSharedState * heap)) :=
  match cs with
  | [] => Ok ([], w)
  | c :: cs' =>
      r <- run_task gpas w c ;;
      rs <- run_tasks gpas (snd r) cs' ;;
      Ok (fst r :: fst rs, snd rs)
  end.

End Run.

(** The modes of a run and the observed number of groups it leaves. *)
Definition run_summary (slot_length : Z -> Z -> Z) (T : Z)
    (gpas : GpuPreAggState) (w : GpuPreAggSharedState * heap)
    (cs : list chunk) : option (list reduction_mode_t * Z * option Z) :=
  match run_tasks slot_length T gpas w cs with
  | Ok (ms, (s, _)) => Some (ms, exec_ngroups s, ss_pds_final s)
  | Error _ => None
  end.

(** ** The tasks of one shared state, in any interleaving *)

(** The shared state and the store of final buffers; the tasks that wait
    for their launch (new ones, and those a completion queued) and the
    tasks whose reduction kernel was counted and that have not completed;
    the modes the set-up selected, each with the number of rows of its
    task, in the order of selection; the number of counted kernels and the
    number of completed reduction tasks. *)
Record system : Type := mk_system {
  y_sstate    : GpuPreAggSharedState;
  y_heap      : heap;
  y_waiting   : list GpuPreAggTask;
  y_running   : list GpuPreAggTask;
  y_selected  : list (Z * reduction_mode_t);
  y_launched  : nat;
  y_completed : nat
}.

(** The termination-only tasks a completion pushes, and the tasks it puts
    on the pending list. *)
Definition pushed (tr : list effect) : list GpuPreAggTask :=
  flat_map (fun e => match e with
                     | PushGpuTask t => [t]
                     | _ => []
                     end) tr.

Definition requeued (o : Complete.outcome) : list GpuPreAggTask :=
  (if Complete.retval o =? 1 then [Complete.o_task o] else [])
  ++ pushed (Complete.o_trace o).

(** The selection a set-up makes: none for a task that comes with a mode. *)
Definition selection (t t1 : GpuPreAggTask) : list (Z * reduction_mode_t) :=
  match reduction_mode (kern t) with
  | GPUPREAGG_INVALID_REDUCTION =>
      [(nitems_real (kern t), reduction_mode (kern t1))]
  | _ => []
  end.

Section System.
Variable slot_length : Z -> Z -> Z.
Variable retry_slot_length : Z -> Z -> Z.
Variable devBaselineMaxThreadsPerBlock : Z.
Variable gpas : GpuPreAggState.

(** One step is one call of a function of this file on one task: the
    backend creates a task on an input batch; the server sets up the
    strategy of a waiting task (which takes the final buffer of the shared
    state, or finds none and has selected its mode all the same), counts
    its reduction kernel, or fails at its launch; the device responds; the server completes a task, which
    releases it, returns it or queues it again; a termination-only task
    responds and completes. *)
Inductive sys_step : system -> system -> Prop :=
| sys_create : forall w pds is_last t s1,
    gpupreagg_create_task slot_length gpas (y_sstate w) (Some pds) is_last
    = Ok (t, s1) ->
    sys_step w (mk_system s1 (y_heap w) (t :: y_waiting w) (y_running w)
                          (y_selected w) (y_launched w) (y_completed w))
| sys_setup : forall w l1 t l2 t1 h1 tr,
    y_waiting w = l1 ++ t :: l2 ->
    reduction_mode (kern t) <> GPUPREAGG_ONLY_TERMINATION ->
    gpupreagg_setup_strategy devBaselineMaxThreadsPerBlock t
      (y_sstate w) (y_heap w) = (Attached t1 h1, tr) ->
    sys_step w (mk_system (y_sstate w) h1 (l1 ++ t1 :: l2) (y_running w)
                          (y_selected w ++ selection t t1)
                          (y_launched w) (y_completed w))
| sys_setup_unattached : forall w l1 t l2 t1 tr,
    y_waiting w = l1 ++ t :: l2 ->
    reduction_mode (kern t) <> GPUPREAGG_ONLY_TERMINATION ->
    gpupreagg_setup_strategy devBaselineMaxThreadsPerBlock t
      (y_sstate w) (y_heap w) = (NeedsFinalBuffer t1, tr) ->
    sys_step w (mk_system (y_sstate w) (y_heap w) (l1 ++ t1 :: l2)
                          (y_running w) (y_selected w ++ selection t t1)
                          (y_launched w) (y_completed w))
| sys_count : forall w l1 t l2 s2,
    y_waiting w = l1 ++ t :: l2 ->
    count_reduction_kernel (reduction_mode (kern t)) (y_sstate w) = Ok s2 ->
    sys_step w (mk_system s2 (y_heap w) (l1 ++ l2) (t :: y_running w)
                          (y_selected w) (S (y_launched w)) (y_completed w))
| sys_abort : forall w l1 t l2 p t' h' tr,
    y_waiting w = l1 ++ t :: l2 ->
    pds_final t = Some p ->
    Complete.process_task_catch t p (y_heap w) = (t', h', tr) ->
    sys_step w (mk_system (y_sstate w) h' (l1 ++ l2) (y_running w)
                          (y_selected w) (y_launched w) (y_completed w))
| sys_respond : forall w l1 t l2 status e progress ngroups usage t1 s1 urgent,
    y_running w = l1 ++ t :: l2 ->
    gpupreagg_respond_task status
      (set_kern t (set_report (kern t) e progress ngroups usage))
      (y_sstate w) = (t1, s1, urgent) ->
    sys_step w (mk_system s1 (y_heap w) (y_waiting w) (l1 ++ t1 :: l2)
                          (y_selected w) (y_launched w) (y_completed w))
| sys_complete : forall w l1 t l2 o,
    y_running w = l1 ++ t :: l2 ->
    Complete.gpupreagg_complete_task retry_slot_length t
      (y_sstate w) (y_heap w) = Ok o ->
    sys_step w (mk_system (Complete.o_sstate o) (Complete.o_heap o)
                          (requeued o ++ y_waiting w) (l1 ++ l2)
                          (y_selected w) (y_launched w) (S (y_completed w)))
| sys_respond_terminator : forall w l1 t l2 status t1 s1 urgent,
    y_waiting w = l1 ++ t :: l2 ->
    reduction_mode (kern t) = GPUPREAGG_ONLY_TERMINATION ->
    gpupreagg_respond_task status t (y_sstate w) = (t1, s1, urgent) ->
    sys_step w (mk_system s1 (y_heap w) (l1 ++ t1 :: l2) (y_running w)
                          (y_selected w) (y_launched w) (y_completed w))
| sys_terminate : forall w l1 t l2 o,
    y_waiting w = l1 ++ t :: l2 ->
    reduction_mode (kern t) = GPUPREAGG_ONLY_TERMINATION ->
    Complete.gpupreagg_complete_task retry_slot_length t
      (y_sstate w) (y_heap w) = Ok o ->
    sys_step w (mk_system (Complete.o_sstate o) (Complete.o_heap o)
                          (l1 ++ l2) (y_running w)
                          (y_selected w) (y_launched w) (y_completed w)).

Inductive sys_steps : system -> system -> Prop :=
| sys_steps_refl : forall w, sys_steps w w
| sys_steps_snoc : forall w1 w2 w3,
    sys_steps w1 w2 -> sys_step w2 w3 -> sys_steps w1 w3.

End System.

(** The system when the shared state has just been created. *)
Definition new_system (p natts_ nrooms_ : Z) (h : heap) : system :=
  mk_system (create_gpupreagg_shared_state p natts_ nrooms_) h [] [] [] 0 0.

(** What every step keeps of the statistics: the planned number of groups
    is never assigned, the observed one is a [cl_uint], the counters count
    the reduction kernels (as long as they do not wrap), and a counted task
    has completed or is running. *)
Definition sys_inv (w : system) : Prop :=
  plan_ngroups (y_sstate w) = 0
  /\ 0 <= exec_ngroups (y_sstate w) < 2 ^ 32
  /\ counters_ok (y_sstate w) 0
  /\ n_tasks_nogrp (y_sstate w) + n_tasks_local (y_sstate w)
     + n_tasks_global (y_sstate w) + n_tasks_final (y_sstate w)
     = Z.of_nat (y_launched w)
  /\ y_launched w = (y_completed w + List.length (y_running w))%nat.

(** Two shared states with the same statistics. *)
Definition same_stats (a b : GpuPreAggSharedState) : Prop :=
  plan_ngroups a = plan_ngroups b
  /\ exec_ngroups a = exec_ngroups b
  /\ n_tasks_nogrp a = n_tasks_nogrp b
  /\ n_tasks_local a = n_tasks_local b
  /\ n_tasks_global a = n_tasks_global b
  /\ n_tasks_final a = n_tasks_final b.

(** The modes of a list of selections. *)
Definition selected_modes (l : list (Z * reduction_mode_t))
    : list reduction_mode_t := map snd l.

(** The order NO_GROUP, LOCAL, GLOBAL, FINAL_ONLY. *)
Definition mode_rank (m : reduction_mode_t) : Z :=
  match m with
  | GPUPREAGG_INVALID_REDUCTION => -1
  | GPUPREAGG_NOGROUP_REDUCTION => 0
  | GPUPREAGG_LOCAL_REDUCTION => 1
  | GPUPREAGG_GLOBAL_REDUCTION => 2
  | GPUPREAGG_FINAL_REDUCTION => 3
  | GPUPREAGG_ONLY_TERMINATION => 4
  end.

(** The modes of successive tasks never move backward. *)
Fixpoint never_regresses (ms : list reduction_mode_t) : Prop :=
  match ms with
  | [] => True
  | m :: ms' =>
      Forall (fun m' => mode_rank m <= mode_rank m') ms' /\ never_regresses ms'
  end.

End Run.
(* ===================================================================== *)
(** * The private data of the plan node *)
(* ===================================================================== *)

Module Info.
Import Nodes.

(** [cl_int] and [long] values: a conversion wraps into the signed range. *)
Definition s32 (z : Z) : Z := (z + 2 ^ 31) mod 2 ^ 32 - 2 ^ 31.
Definition s64 (z : Z) : Z := (z + 2 ^ 63) mod 2 ^ 64 - 2 ^ 63.

(** The [Value] nodes of [makeInteger] (a [long]) and [makeString]. *)
Inductive Value : Type :=
| Integer (ival : Z)
| String_ (sval : option string).

Definition makeInteger (i : Z) : Value := Integer (s64 i).
Definition makeString (s : option string) : Value := String_ s.

Section Info.
(** [double] values and the two bit casts of [pg_strom.h]. *)
Variable double : Type.
Variable double_as_long : double -> Z.
Variable long_as_double : Z -> double.

(** [GpuPreAggInfo]. *)
Record GpuPreAggInfo : Type := mk_info {
  i_num_group_keys  : Z;              (* cl_int *)
  i_plan_ngroups    : double;
  i_plan_nchunks    : Z;              (* cl_int *)
  i_plan_extra_sz   : Z;              (* cl_int *)
  i_key_dist_salt   : Z;              (* cl_int *)
  i_outer_nrows     : double;
  i_outer_scanrelid : Z;              (* Index *)
  i_outer_quals     : list Expr;
  i_kern_source     : option string;
  i_extra_flags     : Z;              (* int *)
  i_used_params     : list Expr
}.

(** [form_gpupreagg_info]: [custom_private] and [custom_exprs]. *)
Definition form_gpupreagg_info (gpa_info : GpuPreAggInfo)
    : list Value * list (list Expr) :=
  let privs := [] in
  let exprs := [] in
  let privs := privs ++ [makeInteger (i_num_group_keys gpa_info)] in
  let privs :=
    privs ++ [makeInteger (double_as_long (i_plan_ngroups gpa_info))] in
  let privs := privs ++ [makeInteger (i_plan_nchunks gpa_info)] in
  let privs := privs ++ [makeInteger (i_plan_extra_sz gpa_info)] in
  let privs := privs ++ [makeInteger (i_key_dist_salt gpa_info)] in
  let privs :=
    privs ++ [makeInteger (double_as_long (i_outer_nrows gpa_info))] in
  let privs := privs ++ [makeInteger (i_outer_scanrelid gpa_info)] in
  let exprs := exprs ++ [i_outer_quals gpa_info] in
  let privs := privs ++ [makeString (i_kern_source gpa_info)] in
  let privs := privs ++ [makeInteger (i_extra_flags gpa_info)] in
  let exprs := exprs ++ [i_used_params gpa_info] in
  (privs, exprs).

(** [list_nth] on a cell that is not there, and [intVal] / [strVal] on a
    node of the other kind, are errors. *)
Definition list_nth (A : Type) (l : list A) (n : nat) : result A :=
  match nth_error l n with
  | Some a => Ok a
  | None => Error "list_nth: no such cell"
  end.

Definition intVal (v : Value) : result Z :=
  match v with
  | Integer i => Ok i
  | String_ _ => Error "intVal of a String node"
  end.

Definition strVal (v : Value) : result (option string) :=
  match v with
  | String_ s => Ok s
  | Integer _ => Error "strVal of an Integer node"
  end.

(** [deform_gpupreagg_info]. *)
Definition deform_gpupreagg_info (privs : list Value)
    (exprs : list (list Expr)) : result GpuPreAggInfo :=
  let int_at n := v <- list_nth privs n ;; intVal v in
  num_group_keys <- int_at 0%nat ;;
  plan_ngroups <- int_at 1%nat ;;
  plan_nchunks <- int_at 2%nat ;;
  plan_extra_sz <- int_at 3%nat ;;
  key_dist_salt <- int_at 4%nat ;;
  outer_nrows <- int_at 5%nat ;;
  outer_scanrelid <- int_at 6%nat ;;
  outer_quals <- list_nth exprs 0%nat ;;
  kern_source <- (v <- list_nth privs 7%nat ;; strVal v) ;;
  extra_flags <- int_at 8%nat ;;
  used_params <- list_nth exprs 1%nat ;;
  Ok (mk_info (s32 num_group_keys) (long_as_double plan_ngroups)
              (s32 plan_nchunks) (s32 plan_extra_sz) (s32 key_dist_salt)
              (long_as_double outer_nrows) (Task.u32 outer_scanrelid)
              outer_quals kern_source (s32 extra_flags) used_params).

(** The integer fields hold values of their C types. *)
Definition info_in_range (gpa_info : GpuPreAggInfo) : Prop :=
  let int_ok z := - 2 ^ 31 <= z < 2 ^ 31 in
  int_ok (i_num_group_keys gpa_info) /\ int_ok (i_plan_nchunks gpa_info)
  /\ int_ok (i_plan_extra_sz gpa_info) /\ int_ok (i_key_dist_salt gpa_info)
  /\ int_ok (i_extra_flags gpa_info)
  /\ 0 <= i_outer_scanrelid gpa_info < 2 ^ 32.

End Info.

End Info.

(* ===================================================================== *)
(** * Which targets the device can compute *)
(* ===================================================================== *)

Module Executable.
Import Nodes Catalog Builder Codegen.

Section Executable.
(** The [pg_proc] cache, [pgstrom_devtype_lookup] with the [type_eqfunc]
    of a device type, [pgstrom_devfunc_lookup] (is there a device function?)
    and [pgstrom_device_expression]. *)
Variable proc_cache : Oid -> option Form_pg_proc.
Variable devtype_lookup : Oid -> option devtype_info.
Variable type_eqfunc : devtype_info -> Oid.
Variable devfunc_lookup : Oid -> Oid -> bool.
Variable pgstrom_device_expression : Expr -> bool.

(** A simple reference, or an expression the device can construct.  (Of
    the four node kinds the source lets through, [Var] and [Const] are
    among the nodes of this development.) *)
Definition device_constructable (e : Expr) : bool :=
  match e with
  | Var _ _ _ _ _ _ _ _ => true
  | Const _ _ _ _ _ _ _ => true
  | _ => pgstrom_device_expression e
  end.

(** The [foreach] over [target->exprs]; [resno] starts at 1.  A [return
    false] ends the loop. *)
Fixpoint device_executable_loop (sortgrouprefs : option (list Z))
    (resno : nat) (exprs : list Node) : result bool :=
  match exprs with
  | [] => Ok true
  | NAggref aggref :: rest =>
      match sortgrouprefs with
      | None => Error "null pointer dereference"
      | Some refs =>
          if nth (resno - 1) refs 0 >? 0 then Ok false
          else
            match aggfunc_lookup_by_oid proc_cache (aggfnoid aggref) with
            | LookupError => Error "cache lookup failed for function"
            | LookupDone None => Ok false
            | LookupDone (Some _) =>
                if forallb device_constructable (aggargs aggref)
                then device_executable_loop sortgrouprefs (S resno) rest
                else Ok false
            end
      end
  | NExpr e :: rest =>
      match devtype_lookup (exprType e) with
      | None => Ok false
      | Some dtype =>
          if negb (devfunc_lookup (type_eqfunc dtype) InvalidOid)
          then Ok false
          else if negb (device_constructable e) then Ok false
          else device_executable_loop sortgrouprefs (S resno) rest
      end
  end.

(** [gpupreagg_device_executable]. *)
Definition gpupreagg_device_executable (sortgrouprefs : option (list Z))
    (exprs : list Node) : result bool :=
  device_executable_loop sortgrouprefs 1 exprs.

(** What an accepted column is: an aggregate of the catalog that is no
    grouping key, over arguments the device can construct; or an
    expression the device can construct, of a device type with an equality
    function. *)
Definition accepted_column (sortgrouprefs : option (list Z)) (index : nat)
    (n : Node) : Prop :=
  match n with
  | NAggref aggref =>
      (exists refs, sortgrouprefs = Some refs /\ nth index refs 0 <= 0)
      /\ (exists cat,
            aggfunc_lookup_by_oid proc_cache (aggfnoid aggref)
            = LookupDone (Some cat))
      /\ Forall (fun a => device_constructable a = true) (aggargs aggref)
  | NExpr e =>
      (exists dtype,
         devtype_lookup (exprType e) = Some dtype
         /\ devfunc_lookup (type_eqfunc dtype) InvalidOid = true)
      /\ device_constructable e = true
  end.

End Executable.

End Executable.

(* ===================================================================== *)
(** * The device target list over the outer columns *)
(* ===================================================================== *)

Module Rewrite.
Import Nodes Builder Eval.

(** [primnodes.h] and [access/sysattr.h]. *)
Definition INDEX_VAR : Z := 65002.
Definition FirstLowInvalidHeapAttributeNumber : Z := -8.

(** A [Bitmapset] is the list of its members; [bms_add_member] refuses a
    negative member. *)
Definition bms_add_member (a : list Z) (x : Z) : result (list Z) :=
  if x <? 0 then Error "negative bitmapset member not allowed"
  else Ok (x :: a).

Section Rewrite.
Variable exprTypmod : Expr -> Z.
Variable exprCollation : Expr -> Oid.
(** The context of the walk: the scanned relation when the outer scan was
    pulled up, the target list of the outer plan otherwise. *)
Variable outer_scanrelid : Z.
Variable outer_tlist : list TargetEntry.

(** [exprType], [exprTypmod] and [exprCollation] of a node. *)
Definition nodeType (n : Node) : Oid :=
  match n with
  | NExpr e => exprType e
  | NAggref a => aggtype a
  end.

Definition nodeTypmod (n : Node) : Z :=
  match n with
  | NExpr e => exprTypmod e
  | NAggref _ => -1
  end.

Definition nodeCollation (n : Node) : Oid :=
  match n with
  | NExpr e => exprCollation e
  | NAggref a => aggcollid a
  end.

(** The [foreach] over [outer_tlist]: the first entry whose expression is
    [equal()] to the node. *)
Definition outer_entry (n : Node) : option TargetEntry :=
  find (fun tle => equal n (expr tle)) outer_tlist.

(** The reference to an entry of the outer plan that replaces the node. *)
Definition outer_var (tle : TargetEntry) (refs : list Z)
    : result (Expr * list Z) :=
  refs' <- bms_add_member refs
             (resno tle - FirstLowInvalidHeapAttributeNumber) ;;
  Ok (makeVar INDEX_VAR (resno tle) (nodeType (expr tle))
              (nodeTypmod (expr tle)) (nodeCollation (expr tle)) 0, refs').

(** [__make_tlist_device_projection] on an expression; [refs] is
    [con->outer_refs].  [children] is the call of
    [expression_tree_mutator]. *)
Fixpoint mutate (node : Expr) (refs : list Z) {struct node}
    : result (Expr * list Z) :=
  let children : result (Expr * list Z) :=
    match node with
    | Var _ _ _ _ _ _ _ _ => Ok (node, refs)
    | Const _ _ _ _ _ _ _ => Ok (node, refs)
    | NullTest a t r =>
        x <- mutate a refs ;; Ok (NullTest (fst x) t r, snd x)
    | BoolExpr op args =>
        x <- (fix go (l : list Expr) (refs : list Z)
                : result (list Expr * list Z) :=
                match l with
                | [] => Ok ([], refs)
                | e :: l' =>
                    x <- mutate e refs ;;
                    y <- go l' (snd x) ;;
                    Ok (fst x :: fst y, snd y)
                end) args refs ;;
        Ok (BoolExpr op (fst x), snd x)
    | CaseExpr t whens d =>
        x <- (fix go (l : list (Expr * Expr)) (refs : list Z)
                : result (list (Expr * Expr) * list Z) :=
                match l with
                | [] => Ok ([], refs)
                | w :: l' =>
                    c <- mutate (fst w) refs ;;
                    r <- mutate (snd w) (snd c) ;;
                    y <- go l' (snd r) ;;
                    Ok ((fst c, fst r) :: fst y, snd y)
                end) whens refs ;;
        y <- mutate d (snd x) ;;
        Ok (CaseExpr t (fst x) (fst y), snd y)
    | FuncExpr fid rt rs va ff fc ic args =>
        x <- (fix go (l : list Expr) (refs : list Z)
                : result (list Expr * list Z) :=
                match l with
                | [] => Ok ([], refs)
                | e :: l' =>
                    x <- mutate e refs ;;
                    y <- go l' (snd x) ;;
                    Ok (fst x :: fst y, snd y)
                end) args refs ;;
        Ok (FuncExpr fid rt rs va ff fc ic (fst x), snd x)
    | RelabelType a t tm c f =>
        x <- mutate a refs ;; Ok (RelabelType (fst x) t tm c f, snd x)
    end in
  if 0 <? outer_scanrelid
  then
    match node with
    | Var varno varattno t tm c lv _ _ =>
        if negb (varno =? outer_scanrelid)
        then Error "Bug? varnode references unknown relid"
        else
          refs' <- bms_add_member refs
                     (varattno - FirstLowInvalidHeapAttributeNumber) ;;
          Ok (makeVar INDEX_VAR varattno t tm c lv, refs')
    | _ => children
    end
  else
    match outer_entry (NExpr node) with
    | Some tle => outer_var tle refs
    | None =>
        match node with
        | Var _ _ _ _ _ _ _ _ =>
            Error "Bug? varnode references unknown outer entry"
        | _ => children
        end
    end.

(** The walk over a list of expressions, and over the WHEN clauses of a
    CASE. *)
Fixpoint mutate_list (l : list Expr) (refs : list Z)
    : result (list Expr * list Z) :=
  match l with
  | [] => Ok ([], refs)
  | e :: l' =>
      x <- mutate e refs ;;
      y <- mutate_list l' (snd x) ;;
      Ok (fst x :: fst y, snd y)
  end.

Fixpoint mutate_whens (l : list (Expr * Expr)) (refs : list Z)
    : result (list (Expr * Expr) * list Z) :=
  match l with
  | [] => Ok ([], refs)
  | w :: l' =>
      c <- mutate (fst w) refs ;;
      r <- mutate (snd w) (snd c) ;;
      y <- mutate_whens l' (snd r) ;;
      Ok ((fst c, fst r) :: fst y, snd y)
  end.

(** The walk on the expression of a target entry: an aggregate call is an
    expression like another (matched against the outer entries, or walked
    through its arguments and its FILTER). *)
Definition mutate_node (n : Node) (refs : list Z) : result (Node * list Z) :=
  match n with
  | NExpr e => x <- mutate e refs ;; Ok (NExpr (fst x), snd x)
  | NAggref a =>
      let children :=
        x <- mutate_list (aggargs a) refs ;;
        y <- (match aggfilter a with
              | None => Ok (None, snd x)
              | Some f => z <- mutate f (snd x) ;; Ok (Some (fst z), snd z)
              end) ;;
        Ok (NAggref (mk_aggref (aggfnoid a) (aggtype a) (aggcollid a)
                               (agginputcollid a) (fst x) (fst y)), snd y) in
      if 0 <? outer_scanrelid then children
      else
        match outer_entry n with
        | Some tle => x <- outer_var tle refs ;; Ok (NExpr (fst x), snd x)
        | None => children
        end
  end.

Fixpoint mutate_entries (tlist : list TargetEntry) (refs : list Z)
    : result (list TargetEntry * list Z) :=
  match tlist with
  | [] => Ok ([], refs)
  | tle :: rest =>
      x <- mutate_node (expr tle) refs ;;
      y <- mutate_entries rest (snd x) ;;
      Ok (makeTargetEntry (fst x) (resno tle) (resname tle) (resjunk tle)
            :: fst y, snd y)
  end.

(** [make_tlist_device_projection]: [tlist_alt] and [outer_refs]. *)
Definition make_tlist_device_projection (tlist_dev : list TargetEntry)
    : result (list TargetEntry * list Z) :=
  mutate_entries tlist_dev [].

End Rewrite.

(** The [Var] nodes of an expression: range-table index and attribute. *)
Fixpoint vars (e : Expr) : list (Z * Z) :=
  match e with
  | Var varno varattno _ _ _ _ _ _ => [(varno, varattno)]
  | Const _ _ _ _ _ _ _ => []
  | NullTest a _ _ => vars a
  | BoolExpr _ args => flat_map vars args
  | CaseExpr _ whens d =>
      flat_map (fun w => vars (fst w) ++ vars (snd w)) whens ++ vars d
  | FuncExpr _ _ _ _ _ _ _ args => flat_map vars args
  | RelabelType a _ _ _ _ => vars a
  end.

(** The tuple the outer plan returns for a row of its input: attribute [k]
    holds the value of the entry numbered [k]. *)
Definition outer_row (fsem : Oid -> list datum -> datum)
    (outer_tlist : list TargetEntry) (row : Z -> datum) : Z -> datum :=
  fun attno =>
    match find (fun tle => resno tle =? attno) outer_tlist with
    | Some tle =>
        match expr tle with
        | NExpr e => eval fsem row e
        | NAggref _ => None
        end
    | None => None
    end.

(** Every [Var] of the expression refers to the source tuple and its
    attribute is a member of the set ([k] stands for the attribute
    [k + FirstLowInvalidHeapAttributeNumber]). *)
Definition vars_recorded (refs : list Z) (e : Expr) : Prop :=
  Forall (fun v => fst v = INDEX_VAR
                   /\ In (snd v - FirstLowInvalidHeapAttributeNumber) refs)
         (vars e).

(** The tuple the rewritten expressions read: the scanned row itself when
    the outer scan was pulled up, the tuple of the outer plan otherwise. *)
Definition source_row (fsem : Oid -> list datum -> datum)
    (outer_scanrelid : Z) (outer_tlist : list TargetEntry)
    (row : Z -> datum) : Z -> datum :=
  if 0 <? outer_scanrelid then row else outer_row fsem outer_tlist row.

(** What a rewritten expression keeps of the original: its type, and its
    value, read from the source tuple. *)
Definition kept (fsem : Oid -> list datum -> datum)
    (outer_scanrelid : Z) (outer_tlist : list TargetEntry)
    (row : Z -> datum) (e e' : Expr) : Prop :=
  exprType e' = exprType e
  /\ eval fsem (source_row fsem outer_scanrelid outer_tlist row) e'
     = eval fsem row e.

(** An entry of the rewritten list against its original: the same slot,
    and an expression that keeps type and value. *)
Definition entry_kept (fsem : Oid -> list datum -> datum)
    (outer_scanrelid : Z) (outer_tlist : list TargetEntry)
    (row : Z -> datum) (d a : TargetEntry) : Prop :=
  resno a = resno d /\ resname a = resname d /\ resjunk a = resjunk d
  /\ forall e, expr d = NExpr e ->
       exists e', expr a = NExpr e'
                  /\ kept fsem outer_scanrelid outer_tlist row e e'.

End Rewrite.

(* ===================================================================== *)
(** * The generators of the hash, key-match and reduction functions *)
(* ===================================================================== *)

Module Kernel.
Import Nodes Builder Codegen.

(** A device column is a grouping key; it holds an argument of an
    aggregate. *)
Definition is_key_column (c : TargetEntry * Z) : bool :=
  snd c =? ALTFUNC_GROUPING_KEY.

Definition is_aggfn_column (c : TargetEntry * Z) : bool :=
  negb (snd c <? ALTFUNC_EXPR_NROWS).

(** The [switch (dtype->type_oid)] of [gpupreagg_codegen_common_calc]. *)
Definition aggcalc_type (t : Oid) : option string :=
  if t =? INT2OID then Some "SHORT"%string
  else if (t =? INT4OID) || (t =? DATEOID) then Some "INT"%string
  else if (t =? INT8OID) || (t =? CASHOID) || (t =? TIMEOID)
          || (t =? TIMESTAMPOID) || (t =? TIMESTAMPTZOID)
  then Some "LONG"%string
  else if t =? FLOAT4OID then Some "FLOAT"%string
  else if t =? FLOAT8OID then Some "DOUBLE"%string
  else if t =? NUMERICOID then Some "NUMERIC"%string
  else None.

Definition aggcalc_ops (action : Z) : string :=
  if action =? ALTFUNC_EXPR_PMIN then "PMIN"%string
  else if action =? ALTFUNC_EXPR_PMAX then "PMAX"%string
  else "PADD"%string.

Section Kernel.
(** [pgstrom_devtype_lookup_and_track], the comparison and equality
    functions of a device type, and [pgstrom_devfunc_lookup_and_track]
    (the [func_devname] of the device function, if there is one). *)
Variable exprCollation : Expr -> Oid.
Variable devtype_lookup : Oid -> option devtype_info.
Variable type_cmpfunc : devtype_info -> Oid.
Variable type_eqfunc : devtype_info -> Oid.
Variable devfunc_lookup : Oid -> Oid -> option string.

(** ** [gpupreagg_codegen_hashvalue] *)

Definition hashvalue_head : string :=
  ("STATIC_FUNCTION(cl_uint)" ++ nl ++
   "gpupreagg_hashvalue(kern_context *kcxt," ++ nl ++
   "                    cl_uint *crc32_table," ++ nl ++
   "                    cl_uint hash_value," ++ nl ++
   "                    kern_data_store *kds," ++ nl ++
   "                    size_t kds_index)" ++ nl ++
   "{" ++ nl)%string.

(** The [forboth] loop; [decl] and [body] are the two buffers. *)
Fixpoint hashvalue_loop (columns : list (TargetEntry * Z))
    (decl body : string) : result (string * string) :=
  match columns with
  | [] => Ok (decl, body)
  | (tle, action) :: rest =>
      if negb (action =? ALTFUNC_GROUPING_KEY)
      then hashvalue_loop rest decl body
      else
        match devtype_lookup (Rewrite.nodeType (expr tle)) with
        | None => Error "Bug? type is not supported"
        | Some dtype =>
            if type_cmpfunc dtype =? InvalidOid
            then Error "Bug? type is not supported"
            else
              hashvalue_loop rest
                (decl ++ "  pg_" ++ type_name dtype ++ "_t keyval_"
                   ++ fmt_u (resno tle) ++ " = pg_" ++ type_name dtype
                   ++ "_vref(kds,kcxt," ++ fmt_u (resno tle - 1)
                   ++ ",kds_index);" ++ nl)%string
                (body ++ "  hash_value = pg_" ++ type_name dtype
                   ++ "_comp_crc32(crc32_table, hash_value, keyval_"
                   ++ fmt_u (resno tle) ++ ");" ++ nl)%string
        end
  end.

(** The text appended to [kern]. *)
Definition gpupreagg_codegen_hashvalue (tlist_dev : list TargetEntry)
    (tlist_dev_action : list Z) : result string :=
  r <- hashvalue_loop (combine tlist_dev tlist_dev_action)
                      hashvalue_head "" ;;
  Ok (fst r ++ nl ++ snd r ++ nl ++ "  return hash_value;" ++ nl
      ++ "}" ++ nl ++ nl)%string.

(** ** [gpupreagg_codegen_keymatch] *)

Definition keymatch_head : string :=
  ("STATIC_FUNCTION(cl_bool)" ++ nl ++
   "gpupreagg_keymatch(kern_context *kcxt," ++ nl ++
   "                   kern_data_store *x_kds, size_t x_index," ++ nl ++
   "                   kern_data_store *y_kds, size_t y_index)" ++ nl ++
   "{" ++ nl ++
   "  pg_anytype_t temp_x  __attribute__((unused));" ++ nl ++
   "  pg_anytype_t temp_y  __attribute__((unused));" ++ nl ++
   nl)%string.

(** The comparison of one key. *)
Definition keymatch_column (tn fn : string) (resno_ : Z) : string :=
  ("  temp_x." ++ tn ++ "_v = pg_" ++ tn ++ "_vref(x_kds,kcxt,"
     ++ fmt_u (resno_ - 1) ++ ",x_index);" ++ nl ++
   "  temp_y." ++ tn ++ "_v = pg_" ++ tn ++ "_vref(y_kds,kcxt,"
     ++ fmt_u (resno_ - 1) ++ ",y_index);" ++ nl ++
   "  if (!temp_x." ++ tn ++ "_v.isnull && !temp_y." ++ tn
     ++ "_v.isnull)" ++ nl ++
   "  {" ++ nl ++
   "    if (!EVAL(pgfn_" ++ fn ++ "(kcxt, temp_x." ++ tn ++ "_v, temp_y."
     ++ tn ++ "_v)))" ++ nl ++
   "      return false;" ++ nl ++
   "  }" ++ nl ++
   "  else if ((temp_x." ++ tn ++ "_v.isnull && !temp_y." ++ tn
     ++ "_v.isnull) ||" ++ nl ++
   "           (!temp_x." ++ tn ++ "_v.isnull && temp_y." ++ tn
     ++ "_v.isnull))" ++ nl ++
   "      return false;" ++ nl ++
   nl)%string.

Fixpoint keymatch_loop (columns : list (TargetEntry * Z)) (kern : string)
    : result string :=
  match columns with
  | [] => Ok kern
  | (tle, action) :: rest =>
      if negb (action =? ALTFUNC_GROUPING_KEY)
      then keymatch_loop rest kern
      else
        match devtype_lookup (Rewrite.nodeType (expr tle)) with
        | None => Error "Bug? type has no device comparison function"
        | Some dtype =>
            if type_eqfunc dtype =? InvalidOid
            then Error "Bug? type has no device comparison function"
            else
              match devfunc_lookup (type_eqfunc dtype)
                      (Rewrite.nodeCollation exprCollation (expr tle)) with
              | None => Error "Bug? device function was not found"
              | Some func_devname =>
                  keymatch_loop rest
                    (kern ++ keymatch_column (type_name dtype) func_devname
                                             (resno tle))%string
              end
        end
  end.

Definition gpupreagg_codegen_keymatch (tlist_dev : list TargetEntry)
    (tlist_dev_action : list Z) : result string :=
  r <- keymatch_loop (combine tlist_dev tlist_dev_action) keymatch_head ;;
  Ok (r ++ "  return true;" ++ nl ++ "}" ++ nl ++ nl)%string.

(** ** [gpupreagg_codegen_common_calc] *)

Definition calc_case (resno_ : Z) (aggcalc_class ops type_ aggcalc_args : string)
    : string :=
  ("  case " ++ fmt_d (resno_ - 1) ++ ":" ++ nl ++
   "    AGGCALC_" ++ aggcalc_class ++ "_" ++ ops ++ "_" ++ type_ ++ "("
     ++ aggcalc_args ++ ");" ++ nl ++
   "    break;" ++ nl)%string.

Fixpoint common_calc_loop (columns : list (TargetEntry * Z))
    (aggcalc_class aggcalc_args : string) (kern : string) : result string :=
  match columns with
  | [] => Ok kern
  | (tle, action) :: rest =>
      if action <? ALTFUNC_EXPR_NROWS
      then common_calc_loop rest aggcalc_class aggcalc_args kern
      else
        match devtype_lookup (Rewrite.nodeType (expr tle)) with
        | None => Error "failed on device type lookup"
        | Some dtype =>
            match aggcalc_type (type_oid dtype) with
            | None => Error "Bug? type is not expected to use for GpuPreAgg"
            | Some type_ =>
                common_calc_loop rest aggcalc_class aggcalc_args
                  (kern ++ calc_case (resno tle) aggcalc_class
                                     (aggcalc_ops action) type_
                                     aggcalc_args)%string
            end
        end
  end.

Definition gpupreagg_codegen_common_calc (tlist_dev : list TargetEntry)
    (tlist_dev_action : list Z) (aggcalc_class aggcalc_args : string)
    : result string :=
  r <- common_calc_loop (combine tlist_dev tlist_dev_action)
                        aggcalc_class aggcalc_args
                        ("  switch (attnum)" ++ nl ++ "  {" ++ nl)%string ;;
  Ok (r ++ "  default:" ++ nl ++ "    break;" ++ nl ++ "  }" ++ nl)%string.

(** The three reduction functions: one [switch] each, under the heads of
    [gpupreagg_codegen_local_calc], [gpupreagg_codegen_nogroup_calc] and
    [gpupreagg_codegen_global_calc]. *)
Definition gpupreagg_codegen_local_calc (tlist_dev : list TargetEntry)
    (tlist_dev_action : list Z) : result string :=
  r <- gpupreagg_codegen_common_calc tlist_dev tlist_dev_action
         "LOCAL" "kcxt,accum,newval" ;;
  Ok ("STATIC_FUNCTION(void)" ++ nl ++
      "gpupreagg_local_calc(kern_context *kcxt," ++ nl ++
      "                     cl_int attnum," ++ nl ++
      "                     pagg_datum *accum," ++ nl ++
      "                     pagg_datum *newval)" ++ nl ++
      "{" ++ nl ++ r ++ "}" ++ nl ++ nl)%string.

Definition gpupreagg_codegen_nogroup_calc (tlist_dev : list TargetEntry)
    (tlist_dev_action : list Z) : result string :=
  r <- gpupreagg_codegen_common_calc tlist_dev tlist_dev_action
         "NOGROUP" "kcxt,accum,newval" ;;
  Ok ("STATIC_FUNCTION(void)" ++ nl ++
      "gpupreagg_nogroup_calc(kern_context *kcxt," ++ nl ++
      "                       cl_int attnum," ++ nl ++
      "                       pagg_datum *accum," ++ nl ++
      "                       pagg_datum *newval)" ++ nl ++
      "{" ++ nl ++ r ++ "}" ++ nl ++ nl)%string.

Definition gpupreagg_codegen_global_calc (tlist_dev : list TargetEntry)
    (tlist_dev_action : list Z) : result string :=
  r <- gpupreagg_codegen_common_calc tlist_dev tlist_dev_action
         "GLOBAL" "kcxt,accum_isnull,accum_value,new_isnull,new_value" ;;
  Ok ("STATIC_FUNCTION(void)" ++ nl ++
      "gpupreagg_global_calc(kern_context *kcxt," ++ nl ++
      "                      cl_int attnum," ++ nl ++
      "                      kern_data_store *accum_kds," ++ nl ++
      "                      size_t accum_index," ++ nl ++
      "                      kern_data_store *newval_kds," ++ nl ++
      "                      size_t newval_index)" ++ nl ++
      "{" ++ nl ++
      "  char    *accum_isnull    __attribute__((unused))" ++ nl ++
      "   = KERN_DATA_STORE_ISNULL(accum_kds,accum_index) + attnum;" ++ nl ++
      "  Datum   *accum_value     __attribute__((unused))" ++ nl ++
      "   = KERN_DATA_STORE_VALUES(accum_kds,accum_index) + attnum;" ++ nl ++
      "  char     new_isnull      __attribute__((unused))" ++ nl ++
      "   = KERN_DATA_STORE_ISNULL(newval_kds,newval_index)[attnum];" ++ nl ++
      "  Datum    new_value       __attribute__((unused))" ++ nl ++
      "   = KERN_DATA_STORE_VALUES(newval_kds,newval_index)[attnum];" ++ nl ++
      nl ++
      "  assert(accum_kds->format == KDS_FORMAT_SLOT);" ++ nl ++
      "  assert(newval_kds->format == KDS_FORMAT_SLOT);" ++ nl ++
      nl ++ r ++ "}" ++ nl ++ nl)%string.

(** An aggregate column the reduction functions can handle: its device
    type is known and is one of the eleven of the [switch]. *)
Definition calc_supported (c : TargetEntry * Z) : Prop :=
  is_aggfn_column c = true ->
  exists dtype type_,
    devtype_lookup (Rewrite.nodeType (expr (fst c))) = Some dtype
    /\ aggcalc_type (type_oid dtype) = Some type_.

End Kernel.

End Kernel.

(* ===================================================================== *)
(** * The size of the final buffer *)
(* ===================================================================== *)

Module Buffer.
Import Task.

(** [Size] and [CUdeviceptr] arithmetic wraps modulo 2^64. *)
Definition u64 (z : Z) : Z := z mod 2 ^ 64.

(** The number of rooms of the final buffer in
    [create_gpupreagg_shared_state]: [nrooms] is the planned number of
    groups with its margin, [head_sz] and [unit_sz] are the byte lengths of
    the head and of one room (matters of memory layout), [chunk_size] is
    [pgstrom_chunk_size()]. *)
Definition final_nrooms (chunk_size head_sz unit_sz nrooms : Z) : Z :=
  let length := u64 (head_sz + u64 (unit_sz * nrooms)) in
  if length <? chunk_size / 2
  then u32 (u64 (chunk_size - head_sz) / unit_sz)
  else if length <? chunk_size
  then u32 (u64 (u64 (2 * chunk_size) - head_sz) / unit_sz)
  else if length <? u64 (3 * chunk_size)
  then u32 (u64 (u64 (3 * chunk_size) - head_sz) / unit_sz)
  else nrooms.

(** How many chunks the buffer is sized for. *)
Definition chunk_budget (chunk_size length : Z) : Z :=
  if length <? chunk_size / 2 then 1
  else if length <? chunk_size then 2
  else 3.

End Buffer.

(* ===================================================================== *)
(** * The device memory of a reduction task *)
(* ===================================================================== *)

Module Device.
Import Task Buffer.

Inductive CUresult : Type :=
| CUDA_SUCCESS
| CUDA_ERROR_OUT_OF_MEMORY
| CUDA_ERROR_other (code : Z).

(** The byte lengths the allocation reads:
    [KERN_GPUPREAGG_LENGTH(&gpreagg->kern)], [gpreagg->kds_slot->length],
    [offsetof(kern_global_hashslot, hash_slot[hash_size])] and
    [pds_in->kds.length]. *)
Record device_lengths : Type := mk_lengths {
  len_gpreagg  : Z;
  len_kds_slot : Z;
  len_ghash    : Z;
  len_kds_in   : Z
}.

Definition set_device_ptrs (t : GpuPreAggTask) (nvme : bool)
    (gpreagg kds_in kds_slot_ ghash : Z) : GpuPreAggTask :=
  mk_task (task_errcode t) (cpu_fallback t) nvme (is_last_task t)
          (is_retry t) gpreagg kds_in kds_slot_ ghash
          (m_kds_final t) (m_fhash t) (pds_in t) (kds_slot t)
          (pds_final t) (kern t).

(** The task with its device pointers set, the cursor [devptr] after the
    last region and the [length] asked for; or the jump to
    [out_of_resource]. *)
Inductive allocation : Type :=
| Allocated (t : GpuPreAggTask) (devptr length : Z)
| OutOfResource (t : GpuPreAggTask).

Section Device.
Variable GPUMEMALIGN : Z -> Z.

(** "Allocation of own device memory" in
    [gpupreagg_process_reduction_task].  [iomap] and [alloc] are what
    [gpuMemAllocIOMap] and [gpuMemAlloc_v2] answer: a result code and the
    address. *)
Definition allocate_device_memory (t : GpuPreAggTask) (l : device_lengths)
    (iomap alloc : CUresult * Z) : result allocation :=
  let length :=
    u64 (u64 (GPUMEMALIGN (len_gpreagg l) + GPUMEMALIGN (len_kds_slot l))
         + GPUMEMALIGN (len_ghash l)) in
  r <- (if with_nvme_strom t
        then
          match fst iomap with
          | CUDA_SUCCESS => Ok (true, snd iomap, length)
          | CUDA_ERROR_OUT_OF_MEMORY =>
              Ok (false, 0, u64 (length + GPUMEMALIGN (len_kds_in l)))
          | CUDA_ERROR_other _ => Error "failed on gpuMemAllocIOMap"
          end
        else
          Ok (false, m_kds_in t, u64 (length + GPUMEMALIGN (len_kds_in l)))) ;;
  let '(nvme, kds_in0, length) := r in
  match fst alloc with
  | CUDA_ERROR_OUT_OF_MEMORY =>
      Ok (OutOfResource
            (set_device_ptrs t nvme (m_gpreagg t) kds_in0 (m_kds_slot t)
                             (m_ghash t)))
  | CUDA_ERROR_other _ => Error "failed on gpuMemAlloc"
  | CUDA_SUCCESS =>
      let devptr := snd alloc in
      let gpreagg := devptr in
      let devptr := u64 (devptr + GPUMEMALIGN (len_gpreagg l)) in
      let '(kds_in, devptr) :=
        if nvme then (kds_in0, devptr)
        else (devptr, u64 (devptr + GPUMEMALIGN (len_kds_in l))) in
      let kds_slot_ := devptr in
      let devptr := u64 (devptr + GPUMEMALIGN (len_kds_slot l)) in
      let ghash := devptr in
      let devptr := u64 (devptr + GPUMEMALIGN (len_ghash l)) in
      Ok (Allocated (set_device_ptrs t nvme gpreagg kds_in kds_slot_ ghash)
                    devptr length)
  end.

End Device.

(** Two tasks hold the same device memory. *)
Definition same_device_memory (a b : GpuPreAggTask) : Prop :=
  m_gpreagg a = m_gpreagg b /\ m_kds_in a = m_kds_in b
  /\ m_kds_slot a = m_kds_slot b /\ m_ghash a = m_ghash b
  /\ m_kds_final a = m_kds_final b /\ m_fhash a = m_fhash b.

(** A completion turns a reduction task into the termination-only task of
    its final buffer. *)
Definition promoted (t : GpuPreAggTask) (o : Complete.outcome) : Prop :=
  reduction_mode (kern t) <> GPUPREAGG_ONLY_TERMINATION
  /\ reduction_mode (kern (Complete.o_task o)) = GPUPREAGG_ONLY_TERMINATION.

(** A task that holds no device memory. *)
Definition no_device_memory (t : GpuPreAggTask) : Prop :=
  m_gpreagg t = 0 /\ m_kds_in t = 0 /\ m_kds_slot t = 0 /\ m_ghash t = 0
  /\ m_kds_final t = 0 /\ m_fhash t = 0.

End Device.

(* ===================================================================== *)
(** * The end of a task *)
(* ===================================================================== *)

Module Release.
Import Task.

Inductive release_effect : Type :=
| PDS_release_in (pds : pgstrom_data_store)
| PDS_release_final (p : Z)
| dmaBufferFree.

(** [gpupreagg_release_task]. *)
Definition gpupreagg_release_task (t : GpuPreAggTask) : list release_effect :=
  (match pds_in t with
   | Some pds => [PDS_release_in pds]
   | None => []
   end)
  ++ (match pds_final t with
      | Some p => [PDS_release_final p]
      | None => []
      end)
  ++ [dmaBufferFree].

Definition releases_final (p : Z) (e : release_effect) : bool :=
  match e with
  | PDS_release_final q => q =? p
  | _ => false
  end.

End Release.

(* ===================================================================== *)
(** * The tasks of one scan *)
(* ===================================================================== *)

Module Scan.
Import Task Create.

Section Scan.
Variable slot_length : Z -> Z -> Z.
Variable PDS_create_row : pgstrom_data_store.
Variable PDS_insert_tuple :
  pgstrom_data_store -> TupleTableSlot -> option pgstrom_data_store.

(** [n] calls of [gpupreagg_next_task] in a row. *)
Fixpoint next_tasks (n : nat) (gpas : GpuPreAggState)
    (s : GpuPreAggSharedState)
    : result (list GpuPreAggTask * GpuPreAggSharedState * GpuPreAggState) :=
  match n with
  | O => Ok ([], s, gpas)
  | S n' =>
      let '(r, gpas1) :=
        gpupreagg_next_task slot_length PDS_create_row PDS_insert_tuple
                            gpas s in
      x <- r ;;
      y <- next_tasks n' gpas1 (snd x) ;;
      let '(ts, s', gpas') := y in
      Ok (fst x :: ts, s', gpas')
  end.

(** The rows are inserted one after the other, all of them. *)
Fixpoint insert_rows (store : pgstrom_data_store)
    (rows : list TupleTableSlot) : option pgstrom_data_store :=
  match rows with
  | [] => Some store
  | slot :: rest =>
      match PDS_insert_tuple store slot with
      | Some store' => insert_rows store' rest
      | None => None
      end
  end.

End Scan.

(** The chunks a relation scan has still to hand out: the one read ahead
    and those of the relation. *)
Definition pending (gpas : GpuPreAggState) : list pgstrom_data_store :=
  match outer_pds gpas with
  | Some p => p :: rel_chunks gpas
  | None => rel_chunks gpas
  end.

(** A task can be made on the chunk: a chunk in block format needs the
    state of NVMe-Strom. *)
Definition creatable (gpas : GpuPreAggState) (c : pgstrom_data_store) : Prop :=
  kds_format c = KDS_FORMAT_BLOCK -> nvme_nrows_per_block gpas <> None.

End Scan.

(* ===================================================================== *)
(** * The run-time statistics *)
(* ===================================================================== *)

Module Stats.
Import Task.

(** The statistics of the shared state are consistent: the observed
    maxima are not below the current and the previous values. *)
Definition stats_consistent (s : GpuPreAggSharedState) : Prop :=
  f_nitems s <= exec_ngroups s /\ last_ngroups s <= exec_ngroups s
  /\ f_extra_sz s <= exec_extra_sz s /\ last_extra_sz s <= exec_extra_sz s.

End Stats.


(* ===================================================================== *)
(** * Aggregate calls that fit their catalog entry *)
(* ===================================================================== *)

Module Wellformed.
Import Catalog Nodes Builder.

(** An argument has the declared type; an argument declared as "any" has
    whatever type. *)
Definition arg_type_ok (e : Expr) (t : Oid) : bool :=
  (t =? ANYOID) || (exprType e =? t).

(** The call has the arguments its catalog entry declares. *)
Definition args_match (cat : aggfunc_catalog_t) (aggref : Aggref) : Prop :=
  Forall2 (fun e t => arg_type_ok e t = true) (aggargs aggref)
          (oid_cells (aggfn_nargs cat) (aggfn_argtypes cat)).

(** What an action needs of the declared arguments: an argument to take
    the minimum, maximum or sum of; a float or numeric argument to square;
    two float8 arguments for the co-variance. *)
Definition action_buildable (cat : aggfunc_catalog_t) (action : Z) : bool :=
  let t i := nth i (aggfn_argtypes cat) 0 in
  if action =? ALTFUNC_EXPR_NROWS then true
  else if (action =? ALTFUNC_EXPR_PMIN) || (action =? ALTFUNC_EXPR_PMAX)
          || (action =? ALTFUNC_EXPR_PSUM)
  then 1 <=? aggfn_nargs cat
  else if action =? ALTFUNC_EXPR_PSUM_X2
  then (1 <=? aggfn_nargs cat)
       && ((t 0%nat =? FLOAT4OID) || (t 0%nat =? FLOAT8OID)
           || (t 0%nat =? NUMERICOID))
  else if (ALTFUNC_EXPR_PCOV_X <=? action) && (action <=? ALTFUNC_EXPR_PCOV_XY)
  then (2 <=? aggfn_nargs cat)
       && (t 0%nat =? FLOAT8OID) && (t 1%nat =? FLOAT8OID)
  else false.

(** The slots of an entry: position, action and argument type of each
    argument of the alternative function. *)
Definition slots (cat : aggfunc_catalog_t) : list (Z * Oid) :=
  map (fun j => (nth j (altfn_argexprs cat) 0, nth j (altfn_argtypes cat) 0))
      (seq 0 (Z.to_nat (altfn_nargs cat))).

(** The entries of a target list are numbered by their positions, from
    1. *)
Definition well_numbered (l : list TargetEntry) : Prop :=
  forall i tle, nth_error l i = Some tle -> resno tle = Z.of_nat i + 1.

(** What the executor keeps of a target entry besides its expression. *)
Definition entry_slot (tle : TargetEntry) : Z * option string * bool :=
  (resno tle, resname tle, resjunk tle).

Definition is_aggregate_entry (tle : TargetEntry) : bool :=
  negb (is_plain_entry tle).

End Wellformed.

(* ===================================================================== *)
(** * The values of partial columns *)
(* ===================================================================== *)

Module Partial.
Import Nodes Builder Eval.

(** The product function [make_altfunc_psum_x2] picks for a type. *)
Definition square_function (t : Oid) : Oid :=
  if t =? FLOAT4OID then F_FLOAT4MUL
  else if t =? FLOAT8OID then F_FLOAT8MUL
  else F_NUMERIC_MUL.

(** The term of a co-variance a row contributes under an action: x, y,
    x*x, y*y or x*y. *)
Definition covariance_term (fsem : Oid -> list datum -> datum)
    (row : Z -> datum) (x y : Expr) (action : Z) : datum :=
  let vx := eval fsem row x in
  let vy := eval fsem row y in
  if action =? ALTFUNC_EXPR_PCOV_X then vx
  else if action =? ALTFUNC_EXPR_PCOV_Y then vy
  else if action =? ALTFUNC_EXPR_PCOV_X2 then fsem F_FLOAT8MUL [vx; vx]
  else if action =? ALTFUNC_EXPR_PCOV_Y2 then fsem F_FLOAT8MUL [vy; vy]
  else fsem F_FLOAT8MUL [vx; vy].

End Partial.


(* ===================================================================== *)
(** * Sample inputs *)
(* ===================================================================== *)

Module Samples.
Import Catalog Nodes Builder Eval Codegen Task Create Strategy Complete Run.

(** ** A query [SELECT count(x) FILTER (WHERE p), ... FROM t GROUP BY k]
    over columns [x] (int4, attribute 1), [p] (bool, attribute 2) and [k]
    (int4, attribute 3). *)
Definition INDEX_VAR : Z := 65002.
Definition col_x : Expr := makeVar INDEX_VAR 1 INT4OID (-1) InvalidOid 0.
Definition col_p : Expr := makeVar INDEX_VAR 2 BOOLOID (-1) InvalidOid 0.
Definition col_k : Expr := makeVar INDEX_VAR 3 INT4OID (-1) InvalidOid 0.

Definition no_typmod (e : Expr) : Z := -1.
Definition no_collation (e : Expr) : Oid := InvalidOid.
Definition typlen8 (t : Oid) : Z * bool := (8, true).
Definition no_functions (f : Oid) (args : list datum) : datum := None.

(** [pg_proc] rows of count(any), sum(int4) and avg(int4). *)
Definition sample_proc_cache (o : Oid) : option Form_pg_proc :=
  if o =? 2147 then Some (mk_proc "count" 1 [ANYOID])
  else if o =? 2108 then Some (mk_proc "sum" 1 [INT4OID])
  else if o =? 2101 then Some (mk_proc "avg" 1 [INT4OID])
  else None.

(** The cast int4 -> int8 is the function [int48] (Oid 481). *)
Definition sample_cast_cache (s t : Oid) : option Form_pg_cast :=
  if (s =? INT4OID) && (t =? INT8OID)
  then Some (mk_cast 481 COERCION_METHOD_FUNCTION)
  else None.

Definition sample_altfn_cache (name : string) (argtypes : list Oid)
    (ns : Oid) : option altfn_form :=
  Some (mk_altfn 16500 NUMERICOID false InvalidOid).

Definition sample_build :=
  build_custom_scan_tlist no_typmod no_collation typlen8 sample_proc_cache
    sample_cast_cache (Some 16400) sample_altfn_cache.

Definition count_x_filter_p : Aggref :=
  mk_aggref 2147 INT8OID InvalidOid InvalidOid [col_x] (Some col_p).
Definition sum_x : Aggref :=
  mk_aggref 2108 INT8OID InvalidOid InvalidOid [col_x] None.
Definition avg_x : Aggref :=
  mk_aggref 2101 NUMERICOID InvalidOid InvalidOid [col_x] None.

Definition tle (n : Node) (resno_ : Z) : TargetEntry :=
  makeTargetEntry n resno_ None false.

(** [SELECT sum(x), avg(x)]: both need PSUM(x). *)
Definition tlist_sum_avg : list TargetEntry :=
  [tle (NAggref sum_x) 1; tle (NAggref avg_x) 2].

(** [SELECT k, k, sum(x) ... GROUP BY 1, 2]: the grouping key twice. *)
Definition tlist_key_twice : list TargetEntry :=
  [tle (NExpr col_k) 1; tle (NExpr col_k) 2; tle (NAggref sum_x) 3].

(** The rows [(x=1,p=T)], [(x=NULL,p=T)], [(x=2,p=F)]. *)
Definition row_of (x p : datum) : Z -> datum :=
  fun attno => if attno =? 1 then x else if attno =? 2 then p else None.

Definition sample_rows : list (Z -> datum) :=
  [row_of (Some 1) (Some 1); row_of None (Some 1); row_of (Some 2) (Some 0)].

(** ** Device types *)
Definition devtype_int4 : devtype_info :=
  mk_devtype INT4OID "int4" (Some "INT_MAX"%string) (Some "INT_MIN"%string)
             (Some "0"%string).

Definition sample_devtype_lookup (t : Oid) : option devtype_info :=
  if t =? INT4OID then Some devtype_int4 else None.

Definition sample_codegen_expression (e : Expr) : string := "expr"%string.

(** ** Tasks and shared states *)
Definition sample_slot_length (ncols_ nitems_ : Z) : Z :=
  64 + 16 * ncols_ * nitems_.

Definition row_chunk (nitems_ : Z) : pgstrom_data_store :=
  mk_pds KDS_FORMAT_ROW nitems_ 0 0 false.

Definition empty_final : pgstrom_data_store :=
  mk_pds KDS_FORMAT_SLOT 0 0 0 false.

(** A grouping query on an outer plan that returns no row at all. *)
Definition gpas_empty_outer : GpuPreAggState :=
  mk_gpas 1 0 3 None false None None false [] [].

(** A grouping query that scans an empty relation itself. *)
Definition gpas_empty_relation : GpuPreAggState :=
  mk_gpas 1 0 3 None true None None false [] [].

(** A grouping query (one key). *)
Definition gpas_grouping : GpuPreAggState :=
  mk_gpas 1 0 3 None false None None false [] [].

(** A shared state after thirty-one counted tasks and 300 observed groups. *)
Definition busy_sstate : GpuPreAggSharedState :=
  mk_sstate 32 (Some 7) 20480 24576 3 1000 300 0 0 10 10 11 0 300 290 0 0.

Definition sample_insert (b : pgstrom_data_store) (s : TupleTableSlot)
    : option pgstrom_data_store :=
  if kds_nitems b <? 4
  then Some (mk_pds (kds_format b) (kds_nitems b + 1) (nblocks_uncached b)
                    (ntasks_running b) (is_dereferenced b))
  else None.

Definition sample_sstate : GpuPreAggSharedState :=
  create_gpupreagg_shared_state 7 3 1000.

Definition sample_heap : heap := fun _ => empty_final.

(** A task on a chunk of 1000 rows, attached to the final buffer at 7. *)
Definition sample_task (e : errcode_t) (progress : bool) : GpuPreAggTask :=
  mk_task e false false false false 4096 8192 12288 16384 20480 24576
          (Some (row_chunk 1000)) (mk_kds_head 3 (sample_slot_length 3 1000) 1000)
          (Some 7)
          (mk_kern GPUPREAGG_LOCAL_REDUCTION 1000 0 1000 e progress 10 0).

(** Tasks whose kernel on 1000 rows reported "no data space" before it
    wrote to the final buffer: one with a hash table of 2000 slots, and one
    whose hash table and slot buffer have 500. *)
Definition wide_task : GpuPreAggTask :=
  mk_task StromError_DataStoreNoSpace false false false false
          4096 8192 12288 16384 20480 24576
          (Some (row_chunk 1000)) (mk_kds_head 3 (sample_slot_length 3 1000) 1000)
          (Some 7)
          (mk_kern GPUPREAGG_LOCAL_REDUCTION 1000 0 2000
                   StromError_DataStoreNoSpace false 10 0).

Definition narrow_task : GpuPreAggTask :=
  mk_task StromError_DataStoreNoSpace false false false false
          4096 8192 12288 16384 20480 24576
          (Some (row_chunk 1000)) (mk_kds_head 3 (sample_slot_length 3 500) 500)
          (Some 7)
          (mk_kern GPUPREAGG_LOCAL_REDUCTION 1000 0 500
                   StromError_DataStoreNoSpace false 10 0).

(** The final buffer at 7 while two tasks run on it. *)
Definition shared_heap : heap :=
  heap_set sample_heap 7 (mk_pds KDS_FORMAT_SLOT 0 0 2 false).

(** A task on a chunk of 1000 rows before its set-up, the last of its
    scan. *)
Definition fresh_task : GpuPreAggTask :=
  mk_task StromError_Success false false true false 0 0 0 0 0 0
          (Some (row_chunk 1000)) (mk_kds_head 3 (sample_slot_length 3 1000) 1000)
          None
          (mk_kern GPUPREAGG_INVALID_REDUCTION 1000 0 1000
                   StromError_Success false 0 0).



(** The termination-only task of the final buffer at 7. *)
Definition sample_terminator : GpuPreAggTask :=
  set_kern (sample_task StromError_Success true)
           (set_mode (kern (sample_task StromError_Success true))
                     GPUPREAGG_ONLY_TERMINATION).

Definition sample_chunk (nitems_ ngroups : Z) : chunk :=
  mk_chunk (row_chunk nitems_) StromError_Success true ngroups 0.

(** Three chunks of one scan: the device finds 9000 groups in the first. *)
Definition regressing_run : list chunk :=
  [sample_chunk 10000 9000; sample_chunk 1000 10; sample_chunk 100000 10].

(** Chunks of equal size. *)
Definition steady_run : list chunk :=
  [sample_chunk 10000 9000; sample_chunk 10000 10; sample_chunk 10000 10].

Definition sample_world : Lifetime.world :=
  Lifetime.mk_world sample_sstate sample_heap 0 false false.

End Samples.

(* ===================================================================== *)
(** * More sample inputs *)
(* ===================================================================== *)

Module MoreSamples.
Import Catalog Nodes Builder Eval Codegen Task Create Strategy Complete.
Import Samples.

(** The catalog entry of avg(int4). *)
Definition avg_int4_entry : aggfunc_catalog_t :=
  mk_aggfunc "avg" 1 [INT4OID] "s:pavg_int4" 2 [INT8OID; INT8OID]
    [ALTFUNC_EXPR_NROWS; ALTFUNC_EXPR_PSUM] DEVKERNEL_NONE INT_MAX.

(** ** Device types and functions of the samples *)
Definition sample_eqfunc (d : devtype_info) : Oid := 65.
Definition sample_cmpfunc (d : devtype_info) : Oid := 351.
Definition sample_devfunc_found (f c : Oid) : bool := f =? 65.
Definition sample_devfunc_name (f c : Oid) : option string :=
  if f =? 65 then Some "int4eq"%string else None.
Definition only_simple (e : Expr) : bool := false.

(** The target [k, avg(x)] grouped by [k]. *)
Definition target_k_avg : list Node := [NExpr col_k; NAggref avg_x].

(** ** Float columns [f] (attribute 4) and [g] (attribute 5) *)
Definition col_f : Expr := makeVar INDEX_VAR 4 FLOAT8OID (-1) InvalidOid 0.
Definition col_g : Expr := makeVar INDEX_VAR 5 FLOAT8OID (-1) InvalidOid 0.

(** [var_samp(f)] and [covar_pop(f, g) FILTER (WHERE p)]. *)
Definition variance_f : Aggref :=
  mk_aggref 2644 FLOAT8OID InvalidOid InvalidOid [col_f] None.
Definition covar_fg : Aggref :=
  mk_aggref 2827 FLOAT8OID InvalidOid InvalidOid [col_f; col_g] (Some col_p).

(** Products of the samples are products of integers. *)
Definition mul_only (fid : Oid) (args : list datum) : datum :=
  if fid =? F_FLOAT8MUL
  then match args with
       | [Some a; Some b] => Some (a * b)
       | _ => None
       end
  else None.

Definition row_fg (f g p : datum) : Z -> datum :=
  fun attno =>
    if attno =? 4 then f else if attno =? 5 then g
    else if attno =? 2 then p else None.

(** ** An outer plan that returns the columns 7 and 9 of relation 1 as
    its entries 1 and 2, and a device list over them *)
Definition base_x : Expr := makeVar 1 7 INT4OID (-1) InvalidOid 0.
Definition base_k : Expr := makeVar 1 9 INT4OID (-1) InvalidOid 0.

Definition sample_outer_tlist : list TargetEntry :=
  [tle (NExpr base_x) 1; tle (NExpr base_k) 2].

Definition sample_tlist_dev : list TargetEntry :=
  [tle (NExpr base_k) 1; tle (NExpr (NullTest base_x IS_NOT_NULL false)) 2].

Definition sample_projection :=
  Rewrite.make_tlist_device_projection no_typmod no_collation 0
    sample_outer_tlist sample_tlist_dev.

(** ** A relation scan with two chunks to hand out *)
Definition gpas_two_chunks : GpuPreAggState :=
  mk_gpas 1 0 3 None true None None false [row_chunk 10; row_chunk 20] [].

(** An outer plan with six rows to return (a chunk of the samples takes
    four rows). *)
Definition six_rows : list TupleTableSlot :=
  [[Some 1]; [Some 2]; [Some 3]; [Some 4]; [Some 5]; [Some 6]].

Definition gpas_six_rows : GpuPreAggState :=
  mk_gpas 1 0 3 None false None None false [] six_rows.

(** ** Private data of a plan node; the two values of the stand-in for
    [double] have the bit patterns 0 and 1 *)
Definition flag_to_bits (b : bool) : Z := if b then 1 else 0.
Definition bits_to_flag (z : Z) : bool := z =? 1.

Definition sample_info : Info.GpuPreAggInfo bool :=
  Info.mk_info 1 true 4 0 1 false 1 [col_p] (Some "kernel"%string) 3 [].

End MoreSamples.


(* ===================================================================== *)
(** * Properties *)
(* ===================================================================== *)

Import Catalog Nodes Builder Eval Codegen Task Create Strategy Complete Run.
Import Samples.

Unset Implicit Arguments.

(** ** The catalog *)

Lemma catalog_size : List.length aggfunc_catalog = 61%nat.
Proof. reflexivity. Qed.

(** Every entry of "min" but the one of money takes the partial minimum of
    its argument. *)
Lemma min_entries_but_money :
  forall c, In c aggfunc_catalog ->
    aggfn_name c = "min"%string ->
    aggfn_argtypes c <> [CASHOID] ->
    altfn_argexprs c = [ALTFUNC_EXPR_PMIN].
Proof.
  intros c Hin Hname Hty.
  unfold aggfunc_catalog in Hin.
  repeat (destruct Hin as [<- | Hin];
          [ first [ discriminate Hname | reflexivity
                  | exfalso; apply Hty; reflexivity ] | ]).
  destruct Hin.
Qed.

(** C9: the catalog entry of min(money) assigns the partial-MAXIMUM role
    (PMAX) to the aggregate argument, where the claim (and every other entry
    of "min") has the partial-minimum role (PMIN).  The lookup of min(money)
    finds that entry. *)
Theorem min_money_takes_pmax :
  exists c,
    aggfunc_lookup (mk_proc "min" 1 [CASHOID]) = Some c
    /\ In c aggfunc_catalog
    /\ aggfn_name c = "min"%string
    /\ altfn_argexprs c = [ALTFUNC_EXPR_PMAX]
    /\ altfn_argexprs c <> [ALTFUNC_EXPR_PMIN].
Proof.
  eexists. split; [ reflexivity | ].
  split; [ | split; [ reflexivity | split; [ reflexivity | discriminate ] ] ].
  unfold aggfunc_catalog.
  do 25 right. left. reflexivity.
Qed.

(** ** The projection code generator *)

Lemma string_append_assoc :
  forall a b c : string, ((a ++ b) ++ c = a ++ (b ++ c))%string.
Proof.
  induction a as [| ch a IH]; intros b c; simpl; [ reflexivity | ].
  rewrite IH. reflexivity.
Qed.

(** The initializer of a column is emitted last. *)
Lemma projection_column_else_branch :
  forall lookup cg resno_ e action dtype c,
    lookup (exprType e) = Some dtype ->
    (action >=? ALTFUNC_EXPR_NROWS) = true ->
    null_const_value action dtype = Some c ->
    exists text,
      codegen_projection_column lookup cg resno_ e action
      = Ok (text ++ else_branch resno_ dtype c)%string.
Proof.
  intros lookup cg resno_ e action dtype c Hl Ha Hc.
  unfold codegen_projection_column.
  rewrite Hl, Ha, Hc.
  eexists. rewrite <- !string_append_assoc. reflexivity.
Qed.

(** C8: for a NULL input the generated projection stores, in a PARTIAL-MAX
    column, the [max_const] of the device type (its MAXIMUM value, where the
    claim has the minimum) and, in a PARTIAL-MIN column, its [min_const] (its
    MINIMUM value, where the claim has the maximum).  For MAX(x) over int4
    the emitted statement is [dst_values[0] = pg_int4_to_datum(INT_MAX)]. *)
Theorem projection_null_initializer :
  (forall dtype,
      null_const_value ALTFUNC_EXPR_PMAX dtype = max_const dtype
      /\ null_const_value ALTFUNC_EXPR_PMIN dtype = min_const dtype)
  /\ (exists text,
        codegen_projection_column sample_devtype_lookup
          sample_codegen_expression 1 col_x ALTFUNC_EXPR_PMAX
        = Ok (text ++ else_branch 1 devtype_int4 "INT_MAX")%string)
  /\ else_branch 1 devtype_int4 "INT_MAX"
     = ("  else" ++ nl ++
        "    dst_values[0] = pg_int4_to_datum(INT_MAX);" ++ nl)%string.
Proof.
  split; [ intros dtype; split; reflexivity | ].
  split; [ | reflexivity ].
  apply projection_column_else_branch; reflexivity.
Qed.

(** ** Task construction *)

(** The input batch is read before anything else. *)
Lemma create_task_null_batch :
  forall slot_length gpas s is_last,
    gpupreagg_create_task slot_length gpas s None is_last
    = Error "null pointer dereference".
Proof. reflexivity. Qed.

(** C10: [gpupreagg_create_task] reads the input batch before any test, so
    that it fails on a NULL batch and succeeds on a batch of rows; and when
    the outer source yields no batch (an empty relation, an outer plan
    without rows) [gpupreagg_next_task] calls it with a NULL batch. *)
Theorem next_task_null_batch :
  forall slot_length create_row insert gpas s,
    no_input gpas ->
    (forall is_last,
        gpupreagg_create_task slot_length gpas s None is_last
        = Error "null pointer dereference")
    /\ (forall pds is_last,
          kds_format pds = KDS_FORMAT_ROW ->
          exists t s', gpupreagg_create_task slot_length gpas s (Some pds) is_last
                       = Ok (t, s'))
    /\ fst (gpupreagg_next_task slot_length create_row insert gpas s)
       = gpupreagg_create_task slot_length gpas s None true
    /\ fst (gpupreagg_next_task slot_length create_row insert gpas s)
       = Error "null pointer dereference".
Proof.
  intros slot_length create_row insert gpas s Hno.
  split; [ reflexivity | ].
  split.
  { intros pds is_last Hfmt. unfold gpupreagg_create_task. rewrite Hfmt.
    simpl. eauto. }
  unfold no_input in Hno. unfold gpupreagg_next_task.
  destruct (ss_currentRelation gpas).
  - destruct Hno as [H1 H2]. rewrite H1, H2. simpl. split; reflexivity.
  - rewrite Hno. simpl. split; reflexivity.
Qed.

Lemma next_task_null_batch_witness :
  (no_input gpas_empty_outer
   /\ fst (gpupreagg_next_task sample_slot_length (row_chunk 0) sample_insert
             gpas_empty_outer sample_sstate)
      = Error "null pointer dereference")
  /\ (no_input gpas_empty_relation
      /\ fst (gpupreagg_next_task sample_slot_length (row_chunk 0)
                sample_insert gpas_empty_relation sample_sstate)
         = Error "null pointer dereference").
Proof.
  split; (split; [ unfold no_input; simpl; auto | ]).
  - apply (next_task_null_batch sample_slot_length (row_chunk 0) sample_insert
             gpas_empty_outer sample_sstate).
    reflexivity.
  - apply (next_task_null_batch sample_slot_length (row_chunk 0) sample_insert
             gpas_empty_relation sample_sstate).
    split; reflexivity.
Defined.

(** ** The row-count partial state *)

Lemma is_true_eval_and :
  forall vs anynull,
    is_true (eval_and vs anynull) = negb anynull && forallb is_true vs.
Proof.
  induction vs as [| [v |] vs IH]; intros anynull; simpl.
  - destruct anynull; reflexivity.
  - destruct (DatumGetBool v); [ apply IH | destruct anynull; reflexivity ].
  - rewrite IH. simpl. destruct anynull; reflexivity.
Qed.

(** A searched CASE with one WHEN. *)
Lemma eval_case_one :
  forall fsem row t c r d,
    eval fsem row (CaseExpr t [(c, r)] d)
    = if is_true (eval fsem row c) then eval fsem row r else eval fsem row d.
Proof.
  intros. simpl. destruct (eval fsem row c) as [v |]; simpl; [ | reflexivity ].
  destruct (DatumGetBool v); reflexivity.
Qed.

Lemma eval_conditional_zero :
  forall exprTypmod exprCollation get_typlenbyval fsem row e filter,
    eval fsem row
      (make_expr_conditional exprTypmod exprCollation get_typlenbyval
         e filter true)
    = if is_true (eval fsem row filter) then eval fsem row e else Some 0.
Proof.
  intros. unfold make_expr_conditional. simpl negb. cbv iota.
  destruct (get_typlenbyval (exprType e)) as [typlen typbyval].
  rewrite eval_case_one. reflexivity.
Qed.

Lemma is_true_nulltests :
  forall fsem row args,
    forallb is_true
      (map (eval fsem row) (map (fun e => NullTest e IS_NOT_NULL false) args))
    = forallb (fun a => is_notnull (eval fsem row a)) args.
Proof.
  induction args as [| a args IH]; simpl; [ reflexivity | ].
  rewrite IH. destruct (eval fsem row a); reflexivity.
Qed.

(** C7: on every row the ROW-COUNT partial expression of an aggregate call
    is 1 when all arguments of the aggregate are non-null and its FILTER
    clause (if any) passes, and 0 otherwise; COUNT(x) FILTER (WHERE p) over
    the rows (1,T), (NULL,T), (2,F) gives the row-count partial 1. *)
Theorem nrows_expr_counts_row :
  (forall exprTypmod exprCollation get_typlenbyval fsem row aggref,
      eval fsem row
        (make_altfunc_nrows_expr exprTypmod exprCollation get_typlenbyval
           aggref)
      = Some (if args_notnull fsem row aggref && filter_passes fsem row aggref
              then 1 else 0))
  /\ map (fun row =>
            eval no_functions row
              (make_altfunc_nrows_expr no_typmod no_collation typlen8
                 count_x_filter_p)) sample_rows
     = [Some 1; Some 0; Some 0]
  /\ partial_sum no_functions
       (make_altfunc_nrows_expr no_typmod no_collation typlen8
          count_x_filter_p) sample_rows = 1.
Proof.
  split; [ | split; reflexivity ].
  intros exprTypmod exprCollation get_typlenbyval fsem row aggref.
  unfold make_altfunc_nrows_expr, args_notnull, filter_passes.
  rewrite <- is_true_nulltests.
  set (tests := map (fun e => NullTest e IS_NOT_NULL false) (aggargs aggref)).
  assert (Hall :
    forallb is_true (map (eval fsem row) (tests ++ option_to_list (aggfilter aggref)))
    = forallb is_true (map (eval fsem row) tests)
      && match aggfilter aggref with
         | Some f => is_true (eval fsem row f)
         | None => true
         end).
  { rewrite map_app, forallb_app. f_equal.
    destruct (aggfilter aggref); simpl; [ apply andb_true_r | reflexivity ]. }
  rewrite <- Hall. clear Hall.
  destruct (tests ++ option_to_list (aggfilter aggref)) as [| c [| c' rest]].
  - reflexivity.
  - rewrite eval_conditional_zero. simpl.
    rewrite andb_true_r. destruct (is_true (eval fsem row c)); reflexivity.
  - rewrite eval_conditional_zero.
    replace (Z.of_nat (List.length (c :: c' :: rest)) <=? 1) with false
      by (symmetry; apply Z.leb_gt; simpl List.length; lia).
    unfold make_andclause.
    change (eval fsem row (BoolExpr AND_EXPR (c :: c' :: rest)))
      with (eval_and (map (eval fsem row) (c :: c' :: rest)) false).
    rewrite is_true_eval_and. simpl negb. rewrite andb_true_l.
    destruct (forallb is_true (map (eval fsem row) (c :: c' :: rest)));
      reflexivity.
Qed.

(** ** The device target list *)

(** Induction over expressions, with the lists of sub-expressions. *)
Lemma Expr_nested_ind :
  forall P : Expr -> Prop,
    (forall no att t tm c lv noold oatt, P (Var no att t tm c lv noold oatt)) ->
    (forall t tm c len v isnull byval, P (Const t tm c len v isnull byval)) ->
    (forall a t r, P a -> P (NullTest a t r)) ->
    (forall op args, Forall P args -> P (BoolExpr op args)) ->
    (forall t whens d,
        Forall (fun w => P (fst w) /\ P (snd w)) whens -> P d ->
        P (CaseExpr t whens d)) ->
    (forall fid rt rs va ff fc ic args,
        Forall P args -> P (FuncExpr fid rt rs va ff fc ic args)) ->
    (forall a t tm c f, P a -> P (RelabelType a t tm c f)) ->
    forall e, P e.
Proof.
  intros P HVar HConst HNull HBool HCase HFunc HRelabel.
  fix IH 1. intros e. destruct e as [no att t tm c lv noold oatt
                                    | t tm c len v isnull byval
                                    | a t r | op args | t whens d
                                    | fid rt rs va ff fc ic args
                                    | a t tm c f].
  - apply HVar.
  - apply HConst.
  - apply HNull. apply IH.
  - apply HBool. revert args. fix IHl 1. intros [| x l].
    + constructor.
    + constructor; [ apply IH | apply IHl ].
  - apply HCase; [ | apply IH ]. revert whens. fix IHl 1. intros [| w l].
    + constructor.
    + constructor; [ split; apply IH | apply IHl ].
  - apply HFunc. revert args. fix IHl 1. intros [| x l].
    + constructor.
    + constructor; [ apply IH | apply IHl ].
  - apply HRelabel. apply IH.
Qed.

(** [equal()] on the node kinds with sub-expressions. *)
Lemma expr_equal_NullTest :
  forall x t r x' t' r',
    expr_equal (NullTest x t r) (NullTest x' t' r')
    = expr_equal x x' && nulltesttype_eqb t t' && Bool.eqb r r'.
Proof. reflexivity. Qed.

Lemma expr_equal_BoolExpr :
  forall op l op' l',
    expr_equal (BoolExpr op l) (BoolExpr op' l')
    = boolop_eqb op op' && exprs_equal l l'.
Proof. reflexivity. Qed.

Lemma expr_equal_CaseExpr :
  forall ty ws d ty' ws' d',
    expr_equal (CaseExpr ty ws d) (CaseExpr ty' ws' d')
    = (ty =? ty') && whens_equal ws ws' && expr_equal d d'.
Proof. reflexivity. Qed.

Lemma expr_equal_FuncExpr :
  forall fid rt rs va ff fc ic l fid' rt' rs' va' ff' fc' ic' l',
    expr_equal (FuncExpr fid rt rs va ff fc ic l)
               (FuncExpr fid' rt' rs' va' ff' fc' ic' l')
    = (fid =? fid') && (rt =? rt') && Bool.eqb rs rs' && Bool.eqb va va'
      && (fc =? fc') && (ic =? ic') && exprs_equal l l'.
Proof. reflexivity. Qed.

Lemma expr_equal_RelabelType :
  forall x t tm c f x' t' tm' c' f',
    expr_equal (RelabelType x t tm c f) (RelabelType x' t' tm' c' f')
    = expr_equal x x' && (t =? t') && (tm =? tm') && (c =? c').
Proof. reflexivity. Qed.

Lemma bool_eqb_sym : forall a b : bool, Bool.eqb a b = Bool.eqb b a.
Proof. intros [] []; reflexivity. Qed.

Lemma exprs_equal_refl :
  forall l, Forall (fun x => expr_equal x x = true) l ->
    exprs_equal l l = true.
Proof.
  induction 1 as [| x l Hx _ IH]; simpl; [ reflexivity | ].
  rewrite Hx, IH. reflexivity.
Qed.

Lemma expr_equal_refl : forall e, expr_equal e e = true.
Proof.
  induction e using Expr_nested_ind.
  - simpl. rewrite !Z.eqb_refl. reflexivity.
  - simpl. rewrite !Z.eqb_refl, !eqb_reflx.
    destruct isnull; reflexivity.
  - rewrite expr_equal_NullTest, IHe, eqb_reflx. destruct t; reflexivity.
  - rewrite expr_equal_BoolExpr, exprs_equal_refl by assumption.
    destruct op; reflexivity.
  - rewrite expr_equal_CaseExpr, Z.eqb_refl, IHe.
    assert (Hw : whens_equal whens whens = true).
    { clear IHe. induction H as [| w l [H1 H2] _ IH]; simpl;
        [ reflexivity | ]. rewrite H1, H2, IH. reflexivity. }
    rewrite Hw. reflexivity.
  - rewrite expr_equal_FuncExpr, !Z.eqb_refl, !eqb_reflx,
      exprs_equal_refl by assumption. reflexivity.
  - rewrite expr_equal_RelabelType, IHe, !Z.eqb_refl. reflexivity.
Qed.

Lemma exprs_equal_sym :
  forall l, Forall (fun x => forall y, expr_equal x y = expr_equal y x) l ->
    forall l', exprs_equal l l' = exprs_equal l' l.
Proof.
  induction 1 as [| x l Hx _ IH]; intros [| y l']; simpl; try reflexivity.
  rewrite Hx, IH. reflexivity.
Qed.

Lemma expr_equal_sym : forall a b, expr_equal a b = expr_equal b a.
Proof.
  induction a using Expr_nested_ind; intros b; destruct b; try reflexivity.
  - simpl.
    rewrite (Z.eqb_sym no), (Z.eqb_sym att), (Z.eqb_sym t), (Z.eqb_sym tm),
      (Z.eqb_sym c), (Z.eqb_sym lv), (Z.eqb_sym noold), (Z.eqb_sym oatt).
    reflexivity.
  - simpl.
    rewrite (Z.eqb_sym t), (Z.eqb_sym tm), (Z.eqb_sym c), (Z.eqb_sym len),
      (Z.eqb_sym v), (bool_eqb_sym isnull), (bool_eqb_sym byval).
    destruct isnull; destruct constisnull; simpl;
      rewrite ?andb_false_r; reflexivity.
  - rewrite !expr_equal_NullTest, IHa, (bool_eqb_sym r).
    destruct t; destruct nulltesttype; reflexivity.
  - rewrite !expr_equal_BoolExpr, (exprs_equal_sym _ H).
    destruct op; destruct boolop; reflexivity.
  - rewrite !expr_equal_CaseExpr, (Z.eqb_sym t), IHa.
    assert (Hw : forall ws', whens_equal whens ws' = whens_equal ws' whens).
    { clear IHa. induction H as [| w l [H1 H2] _ IH]; intros [| w' l'];
        simpl; try reflexivity. rewrite H1, H2, IH. reflexivity. }
    rewrite Hw. reflexivity.
  - rewrite !expr_equal_FuncExpr, (Z.eqb_sym fid), (Z.eqb_sym rt),
      (Z.eqb_sym fc), (Z.eqb_sym ic), (bool_eqb_sym rs), (bool_eqb_sym va),
      (exprs_equal_sym _ H).
    reflexivity.
  - rewrite !expr_equal_RelabelType, IHa, (Z.eqb_sym t), (Z.eqb_sym tm),
      (Z.eqb_sym c). reflexivity.
Qed.

Lemma equal_refl : forall n, equal n n = true.
Proof.
  intros [e | a]; simpl; [ apply expr_equal_refl | ].
  unfold aggref_equal. rewrite !Z.eqb_refl.
  rewrite exprs_equal_refl
    by (apply Forall_forall; intros; apply expr_equal_refl).
  destruct (aggfilter a); [ apply expr_equal_refl | reflexivity ].
Qed.

Lemma equal_sym : forall a b, equal a b = equal b a.
Proof.
  intros [x | x] [y | y]; simpl; try reflexivity.
  - apply expr_equal_sym.
  - unfold aggref_equal.
    rewrite (Z.eqb_sym (aggfnoid x)), (Z.eqb_sym (aggtype x)),
      (Z.eqb_sym (aggcollid x)), (Z.eqb_sym (agginputcollid x)).
    rewrite (exprs_equal_sym (aggargs x))
      by (apply Forall_forall; intros; apply expr_equal_sym).
    destruct (aggfilter x); destruct (aggfilter y); try reflexivity.
    rewrite expr_equal_sym. reflexivity.
Qed.

Lemma same_column_refl : forall c, same_column c c.
Proof. intros c. split; [ reflexivity | apply equal_refl ]. Qed.

Lemma same_column_sym : forall a b, same_column a b -> same_column b a.
Proof.
  intros a b [H1 H2]. split; [ congruence | ].
  rewrite equal_sym. exact H2.
Qed.

Lemma same_column_aggfn :
  forall a b, same_column a b -> is_aggfn_arg a = is_aggfn_arg b.
Proof. intros a b [H _]. unfold is_aggfn_arg. rewrite H. reflexivity. Qed.

(** The scan of the device lists finds a column of the same pair. *)
Lemma tlist_dev_member_iff :
  forall dev acts action e,
    tlist_dev_member dev acts action e = true
    <-> InA same_column (action, NExpr e) (cols dev acts).
Proof.
  unfold tlist_dev_member, cols.
  induction dev as [| d dev IH]; intros [| a acts] action e;
    cbn [combine existsb map fst snd];
    try (split; [ discriminate | intros H; inversion H ]).
  rewrite orb_true_iff, andb_true_iff, Z.eqb_eq, IH, InA_cons.
  unfold same_column. cbn [fst snd]. split; intros [H | H]; auto.
  - left. destruct H as [<- H]. split; [ reflexivity | exact H ].
  - left. destruct H as [<- H]. split; [ reflexivity | exact H ].
Qed.

Lemma cols_snoc :
  forall dev acts d a,
    List.length dev = List.length acts ->
    cols (dev ++ [d]) (acts ++ [a]) = cols dev acts ++ [(a, expr d)].
Proof.
  unfold cols.
  induction dev as [| d0 dev IH]; intros [| a0 acts] d a Hlen;
    simpl in *; try discriminate; [ reflexivity | ].
  f_equal. apply IH. congruence.
Qed.

Lemma NoDupA_snoc :
  forall (l : list (Z * Node)) (x : Z * Node),
    NoDupA same_column l -> ~ InA same_column x l ->
    NoDupA same_column (l ++ [x]).
Proof.
  induction l as [| y l IH]; intros x Hnd Hni; simpl.
  - constructor; [ intros H; inversion H | constructor ].
  - inversion Hnd as [| y' l' Hy Hl]; subst. constructor.
    + rewrite InA_app_iff, InA_cons, InA_nil.
      intros [H | [H | []]]; [ contradiction | ].
      apply Hni. left. apply same_column_sym. exact H.
    + apply IH; [ assumption | ].
      intros H. apply Hni. right. exact H.
Qed.

Lemma filter_snoc :
  forall (A : Type) (f : A -> bool) (l : list A) (x : A),
    filter f (l ++ [x]) = filter f l ++ (if f x then [x] else []).
Proof.
  intros. rewrite filter_app. reflexivity.
Qed.

Lemma InA_filter_aggfn :
  forall c l,
    is_aggfn_arg c = true ->
    (InA same_column c (filter is_aggfn_arg l) <-> InA same_column c l).
Proof.
  intros c l Hc. induction l as [| y l IH]; simpl; [ tauto | ].
  destruct (is_aggfn_arg y) eqn:Ey.
  - rewrite !InA_cons, IH. tauto.
  - rewrite InA_cons, IH. split; [ tauto | ].
    intros [H | H]; [ | exact H ].
    apply same_column_aggfn in H. congruence.
Qed.

Lemma In_InA_same_column :
  forall c l, In c l -> InA same_column c l.
Proof.
  intros c l H. apply InA_alt. exists c. split;
    [ apply same_column_refl | exact H ].
Qed.

Lemma altfunc_expr_action :
  forall exprTypmod exprCollation get_typlenbyval aggref action e,
    altfunc_expr exprTypmod exprCollation get_typlenbyval aggref action = Ok e ->
    ALTFUNC_EXPR_NROWS <= action <= ALTFUNC_EXPR_PCOV_XY.
Proof.
  intros until e. unfold altfunc_expr.
  unfold ALTFUNC_EXPR_NROWS, ALTFUNC_EXPR_PMIN, ALTFUNC_EXPR_PMAX,
    ALTFUNC_EXPR_PSUM, ALTFUNC_EXPR_PSUM_X2, ALTFUNC_EXPR_PCOV_X,
    ALTFUNC_EXPR_PCOV_XY.
  repeat match goal with
         | |- context [if ?b then _ else _] =>
             let E := fresh "E" in destruct b eqn:E
         end;
    intros H; try discriminate H;
    repeat match goal with
           | E : (_ || _) = true |- _ => apply orb_true_iff in E
           | E : (_ && _) = true |- _ => apply andb_true_iff in E
           | E : (_ =? _) = true |- _ => apply Z.eqb_eq in E
           | E : (_ <=? _) = true |- _ => apply Z.leb_le in E
           | E : _ /\ _ |- _ => destruct E
           | E : _ \/ _ |- _ => destruct E
           end; lia.
Qed.

Section BuilderProofs.
Variable exprTypmod : Expr -> Z.
Variable exprCollation : Expr -> Oid.
Variable get_typlenbyval : Oid -> Z * bool.
Variable proc_cache : Oid -> option Form_pg_proc.
Variable cast_cache : Oid -> Oid -> option Form_pg_cast.
Variable pgstrom_namespace : option Oid.
Variable altfn_cache : string -> list Oid -> Oid -> option altfn_form.

Let requested :=
  requested_column exprTypmod exprCollation get_typlenbyval cast_cache.

(** What one turn of the argument loop keeps and adds: at most one column,
    the one the aggregate asks for under the action. *)
Lemma add_partial_spec :
  forall aggref dev acts action argtype e dev' acts',
    add_partial exprTypmod exprCollation get_typlenbyval cast_cache
      aggref (dev, acts) action argtype = Ok (e, (dev', acts')) ->
    dev_ok dev acts ->
    dev_ok dev' acts'
    /\ (exists extra,
          cols dev' acts' = cols dev acts ++ extra
          /\ forall c, In c extra ->
               requested aggref action argtype = Ok (Some c)
               /\ is_aggfn_arg c = true)
    /\ plain_count dev' acts' = plain_count dev acts
    /\ (forall c, requested aggref action argtype = Ok (Some c) ->
                  InA same_column c (cols dev' acts')
                  /\ is_aggfn_arg c = true).
Proof.
  intros aggref dev acts action argtype e dev' acts' Hadd [Hlen Hnd].
  unfold requested, requested_column. unfold add_partial in Hadd.
  simpl fst in Hadd. simpl snd in Hadd.
  destruct (action =? ALTFUNC_CONST_NULL).
  { inversion Hadd; subst.
    split; [ split; assumption | ].
    split; [ exists []; split; [ symmetry; apply app_nil_r
                               | intros c [] ] | ].
    split; [ reflexivity | ].
    intros c Hc; discriminate Hc. }
  destruct (altfunc_expr exprTypmod exprCollation get_typlenbyval aggref action)
    as [e0 |] eqn:He0; simpl in Hadd |- *; [ | discriminate ].
  destruct (make_expr_typecast exprTypmod exprCollation cast_cache e0 argtype)
    as [e1 |] eqn:He1; simpl in Hadd |- *; [ | discriminate ].
  assert (Hagg : is_aggfn_arg (action, NExpr e1) = true).
  { unfold is_aggfn_arg. simpl. apply Z.leb_le.
    apply altfunc_expr_action in He0. lia. }
  destruct (tlist_dev_member dev acts action e1) eqn:Hmem.
  - inversion Hadd; subst. apply tlist_dev_member_iff in Hmem.
    split; [ split; assumption | ].
    split; [ exists []; split; [ symmetry; apply app_nil_r
                               | intros c [] ] | ].
    split; [ reflexivity | ].
    intros c Hc; inversion Hc; subst; split; assumption.
  - inversion Hadd; subst. clear Hadd.
    assert (Hni : ~ InA same_column (action, NExpr e) (cols dev acts)).
    { intros H. apply tlist_dev_member_iff in H. congruence. }
    unfold dev_ok, plain_count.
    rewrite cols_snoc by assumption. simpl expr.
    rewrite !filter_snoc, Hagg. simpl negb. cbv iota. rewrite app_nil_r.
    split; [ split | ].
    + rewrite !length_app. simpl. congruence.
    + apply NoDupA_snoc; [ assumption | ].
      intros H. apply Hni. apply (InA_filter_aggfn _ _ Hagg). exact H.
    + split.
      { exists [(action, NExpr e)]. split; [ reflexivity | ].
        intros c [<- | []]. split; [ reflexivity | exact Hagg ]. }
      split; [ reflexivity | ].
      intros c Hc. inversion Hc; subst. split; [ | assumption ].
      apply In_InA_same_column, in_or_app. right. left. reflexivity.
Qed.

Lemma InA_app_l :
  forall c (l extra : list (Z * Node)),
    InA same_column c l -> InA same_column c (l ++ extra).
Proof. intros c l extra H. apply InA_app_iff. left. exact H. Qed.

Lemma add_partials_spec :
  forall aggref cat js dev acts args0 args' dev' acts',
    add_partials exprTypmod exprCollation get_typlenbyval cast_cache
      aggref cat js (dev, acts) args0 = Ok (args', (dev', acts')) ->
    dev_ok dev acts ->
    dev_ok dev' acts'
    /\ (exists extra,
          cols dev' acts' = cols dev acts ++ extra
          /\ forall c, In c extra ->
               is_aggfn_arg c = true
               /\ exists j, In j js
                    /\ requested aggref (nth j (altfn_argexprs cat) 0)
                         (nth j (altfn_argtypes cat) 0) = Ok (Some c))
    /\ plain_count dev' acts' = plain_count dev acts
    /\ (forall j c, In j js ->
          requested aggref (nth j (altfn_argexprs cat) 0)
                    (nth j (altfn_argtypes cat) 0) = Ok (Some c) ->
          InA same_column c (cols dev' acts') /\ is_aggfn_arg c = true).
Proof.
  intros aggref cat js. induction js as [| j js IH];
    intros dev acts args0 args' dev' acts' Hrun Hok; simpl in Hrun.
  - inversion Hrun; subst.
    split; [ assumption | ].
    split; [ exists []; split; [ symmetry; apply app_nil_r
                               | intros c [] ] | ].
    split; [ reflexivity | ].
    intros j c [].
  - destruct (add_partial exprTypmod exprCollation get_typlenbyval cast_cache
                aggref (dev, acts) (nth j (altfn_argexprs cat) 0)
                (nth j (altfn_argtypes cat) 0))
      as [[e [dev1 acts1]] |] eqn:Hstep; simpl in Hrun; [ | discriminate ].
    destruct (add_partial_spec _ _ _ _ _ _ _ _ Hstep Hok)
      as (Hok1 & (ex1 & Hex1 & Hreq1') & Hplain1 & Hreq1).
    destruct (IH _ _ _ _ _ _ Hrun Hok1)
      as (Hok2 & (ex2 & Hex2 & Hreq2') & Hplain2 & Hreq2).
    split; [ assumption | ].
    split.
    { exists (ex1 ++ ex2). split.
      - rewrite Hex2, Hex1, app_assoc. reflexivity.
      - intros c Hc. apply in_app_or in Hc. destruct Hc as [Hc | Hc].
        + destruct (Hreq1' c Hc) as [H1 H2]. split; [ exact H2 | ].
          exists j. split; [ left; reflexivity | exact H1 ].
        + destruct (Hreq2' c Hc) as [H1 (j' & Hj' & H2)].
          split; [ exact H1 | ]. exists j'. split; [ right | ]; assumption. }
    split; [ congruence | ].
    intros j' c [<- | Hin] Hc.
    + destruct (Hreq1 _ Hc) as [Hc1 Hc2]. split; [ | assumption ].
      rewrite Hex2. apply InA_app_l. exact Hc1.
    + eapply Hreq2; eassumption.
Qed.

Lemma plain_action_not_aggfn :
  forall refs index n, is_aggfn_arg (plain_action refs index, n) = false.
Proof.
  intros refs index n. unfold is_aggfn_arg, plain_action. simpl.
  destruct refs as [refs |]; [ destruct (nth index refs 0 >? 0) | ];
    reflexivity.
Qed.

Let asks :=
  asks_for exprTypmod exprCollation get_typlenbyval proc_cache cast_cache.

Let step :=
  build_step exprTypmod exprCollation get_typlenbyval proc_cache cast_cache
    pgstrom_namespace altfn_cache.

(** What one target entry keeps and adds. *)
Lemma build_step_spec :
  forall refs index st tle_ st',
    step refs index st tle_ = Ok st' ->
    dev_ok (tlist_dev st) (tlist_dev_action st) ->
    dev_ok (tlist_dev st') (tlist_dev_action st')
    /\ (exists extra,
          dev_columns st' = dev_columns st ++ extra
          /\ forall c, In c extra -> is_aggfn_arg c = true -> asks tle_ c)
    /\ plain_count (tlist_dev st') (tlist_dev_action st')
       = (plain_count (tlist_dev st) (tlist_dev_action st)
          + (if is_plain_entry tle_ then 1 else 0))%nat
    /\ (forall c, asks tle_ c ->
                  InA same_column c (dev_columns st')
                  /\ is_aggfn_arg c = true).
Proof.
  intros refs index st tle_ st' Hstep Hok.
  unfold step, build_step in Hstep. unfold asks, asks_for, is_plain_entry.
  destruct (expr tle_) as [e | aggref] eqn:Hexpr.
  - inversion Hstep; subst; clear Hstep. simpl.
    destruct Hok as [Hlen Hnd].
    unfold dev_ok, plain_count, dev_columns. simpl.
    fold (cols (tlist_dev st ++ [tle_])
               (tlist_dev_action st ++ [plain_action refs index])).
    fold (cols (tlist_dev st) (tlist_dev_action st)).
    rewrite cols_snoc by assumption.
    rewrite !filter_snoc, plain_action_not_aggfn. simpl negb. cbv iota.
    rewrite app_nil_r, !length_app. simpl.
    split; [ split; [ congruence | assumption ] | ].
    split.
    { eexists. split; [ reflexivity | ].
      intros c [<- | []] Hc. rewrite plain_action_not_aggfn in Hc.
      discriminate Hc. }
    split; [ reflexivity | ].
    intros c (aggref & cat & j & Habs & _). discriminate Habs.
  - destruct (aggfunc_lookup_by_oid proc_cache (aggfnoid aggref))
      as [| [cat |]] eqn:Hlook; try discriminate Hstep.
    destruct (add_partials exprTypmod exprCollation get_typlenbyval cast_cache
                aggref cat (seq 0 (Z.to_nat (altfn_nargs cat)))
                (tlist_dev st, tlist_dev_action st) [])
      as [[args' [dev' acts']] |] eqn:Hrun; simpl in Hstep; [ | discriminate ].
    destruct (host_entry pgstrom_namespace altfn_cache cat aggref tle_ args')
      as [h |]; simpl in Hstep; [ | discriminate ].
    inversion Hstep; subst; clear Hstep. simpl.
    destruct (add_partials_spec _ _ _ _ _ _ _ _ _ Hrun Hok)
      as (Hok' & (extra & Hex & Hreq') & Hplain & Hreq).
    split; [ assumption | ].
    split.
    { exists extra. split; [ exact Hex | ].
      intros c Hc _. destruct (Hreq' c Hc) as [_ (j & Hj & Hr)].
      exists aggref, cat, j. split; [ reflexivity | ].
      split; [ exact Hlook | ]. split; [ | exact Hr ].
      apply in_seq in Hj. lia. }
    split; [ rewrite Hplain; symmetry; apply Nat.add_0_r | ].
    intros c (aggref' & cat' & j & Ha & Hl & Hj & Hc).
    inversion Ha; subst aggref'. rewrite Hlook in Hl. inversion Hl; subst cat'.
    apply (Hreq j c); [ | assumption ].
    apply in_seq. lia.
Qed.

Lemma build_loop_spec :
  forall refs tlist_orig index st st',
    build_loop exprTypmod exprCollation get_typlenbyval proc_cache cast_cache
      pgstrom_namespace altfn_cache refs index st tlist_orig = Ok st' ->
    dev_ok (tlist_dev st) (tlist_dev_action st) ->
    dev_ok (tlist_dev st') (tlist_dev_action st')
    /\ (exists extra,
          dev_columns st' = dev_columns st ++ extra
          /\ forall c, In c extra -> is_aggfn_arg c = true ->
               exists tle_, In tle_ tlist_orig /\ asks tle_ c)
    /\ plain_count (tlist_dev st') (tlist_dev_action st')
       = (plain_count (tlist_dev st) (tlist_dev_action st)
          + List.length (filter is_plain_entry tlist_orig))%nat
    /\ (forall tle_ c, In tle_ tlist_orig -> asks tle_ c ->
                       InA same_column c (dev_columns st')
                       /\ is_aggfn_arg c = true).
Proof.
  intros refs tlist_orig.
  induction tlist_orig as [| tle_ rest IH]; intros index st st' Hrun Hok;
    simpl in Hrun.
  - inversion Hrun; subst.
    split; [ assumption | ].
    split; [ exists []; split; [ symmetry; apply app_nil_r
                               | intros c [] ] | ].
    split; [ simpl; symmetry; apply Nat.add_0_r | ].
    intros tle_ c [].
  - fold step in Hrun.
    destruct (step refs index st tle_) as [st1 |] eqn:Hstep;
      simpl in Hrun; [ | discriminate ].
    destruct (build_step_spec _ _ _ _ _ Hstep Hok)
      as (Hok1 & (ex1 & Hex1 & Hfrom1) & Hplain1 & Hasks1).
    destruct (IH _ _ _ Hrun Hok1)
      as (Hok2 & (ex2 & Hex2 & Hfrom2) & Hplain2 & Hasks2).
    split; [ assumption | ].
    split.
    { exists (ex1 ++ ex2). split.
      - rewrite Hex2, Hex1, app_assoc. reflexivity.
      - intros c Hc Hagg. apply in_app_or in Hc. destruct Hc as [Hc | Hc].
        + exists tle_. split; [ left; reflexivity | ].
          apply Hfrom1; assumption.
        + destruct (Hfrom2 c Hc Hagg) as (t' & Hin & Ht').
          exists t'. split; [ right | ]; assumption. }
    split.
    { rewrite Hplain2, Hplain1. simpl.
      destruct (is_plain_entry tle_); simpl; lia. }
    intros tle' c [<- | Hin] Hc.
    + destruct (Hasks1 _ Hc) as [H1 H2]. split; [ | assumption ].
      rewrite Hex2. apply InA_app_l. exact H1.
    + eapply Hasks2; eassumption.
Qed.

End BuilderProofs.

(** C6 (as amended): in the device target list, the columns that hold the
    partial state of aggregates are exactly one per distinct (action tag,
    expression) pair, where two pairs are the same when the tags are the
    same and the expressions are [equal()]: no two such columns are the
    same pair, every pair an aggregate of the target list asks for has its
    column, and every such column is a pair some aggregate of the target
    list asks for; the entries that are not aggregates (grouping keys,
    plain values) get one column each, appended without a scan. *)
Theorem aggregate_columns_unique :
  forall exprTypmod exprCollation get_typlenbyval proc_cache cast_cache
         pgstrom_namespace altfn_cache refs tlist_orig t,
    build_custom_scan_tlist exprTypmod exprCollation get_typlenbyval
      proc_cache cast_cache pgstrom_namespace altfn_cache refs tlist_orig
    = Ok t ->
    List.length (tlist_dev t) = List.length (tlist_dev_action t)
    /\ NoDupA same_column (filter is_aggfn_arg (dev_columns t))
    /\ (forall tle_ c,
          In tle_ tlist_orig ->
          asks_for exprTypmod exprCollation get_typlenbyval proc_cache
                   cast_cache tle_ c ->
          InA same_column c (filter is_aggfn_arg (dev_columns t)))
    /\ (forall c,
          In c (filter is_aggfn_arg (dev_columns t)) ->
          exists tle_,
            In tle_ tlist_orig
            /\ asks_for exprTypmod exprCollation get_typlenbyval proc_cache
                        cast_cache tle_ c)
    /\ List.length (filter (fun c => negb (is_aggfn_arg c)) (dev_columns t))
       = List.length (filter is_plain_entry tlist_orig).
Proof.
  intros exprTypmod exprCollation get_typlenbyval proc_cache cast_cache
         pgstrom_namespace altfn_cache refs tlist_orig t Hbuild.
  unfold build_custom_scan_tlist in Hbuild.
  apply build_loop_spec in Hbuild.
  - destruct Hbuild as ([Hlen Hnd] & (extra & Hex & Hfrom) & Hplain & Hasks).
    split; [ assumption | ].
    split; [ assumption | ].
    split.
    { intros tle_ c Hin Hc. destruct (Hasks tle_ c Hin Hc) as [H1 H2].
      apply (InA_filter_aggfn _ _ H2). exact H1. }
    split; [ | exact Hplain ].
    intros c Hc. apply filter_In in Hc. destruct Hc as [Hc Hagg].
    rewrite Hex in Hc. simpl in Hc. apply (Hfrom c Hc Hagg).
  - split; [ reflexivity | constructor ].
Qed.

Lemma aggregate_columns_unique_witness :
  exists t,
    sample_build None tlist_sum_avg = Ok t
    /\ NoDupA same_column (filter is_aggfn_arg (dev_columns t))
    /\ tlist_dev_action t = [ALTFUNC_EXPR_PSUM; ALTFUNC_EXPR_NROWS].
Proof.
  eexists. split; [ reflexivity | ]. split; [ | reflexivity ].
  eapply (aggregate_columns_unique no_typmod no_collation typlen8
            sample_proc_cache sample_cast_cache (Some 16400)
            sample_altfn_cache None tlist_sum_avg).
  reflexivity.
Defined.

(** The claim of C6 as it stands fails when a grouping key stands twice in
    the target list: both entries get a device column with the same action
    tag and the same expression. *)
Lemma key_twice_two_columns :
  exists t,
    sample_build (Some [1; 2; 0]) tlist_key_twice = Ok t
    /\ ~ one_column_per_pair t.
Proof.
  eexists. split; [ reflexivity | ].
  unfold one_column_per_pair. intros Hnd.
  inversion Hnd as [| c l Hni _]; subst.
  apply Hni. left. split; reflexivity.
Qed.

(** ** Double-precision arithmetic *)

Section DoubleFacts.
Import Double.

Ltac forget_pow :=
  repeat match goal with
         | |- context [Z.pow 2 ?e] =>
             let x := fresh "pw" in
             let Hx := fresh "Hpw" in
             remember (Z.pow 2 e) as x eqn:Hx in *; clear Hx
         | H : context [Z.pow 2 ?e] |- _ =>
             let x := fresh "pw" in
             let Hx := fresh "Hpw" in
             remember (Z.pow 2 e) as x eqn:Hx in *; clear Hx
         end.

(** The number of binary digits of a positive number. *)
Lemma digits2_pos_bounds :
  forall p, 2 ^ (Zpos (digits2_pos p) - 1) <= Zpos p < 2 ^ Zpos (digits2_pos p).
Proof.
  induction p as [p IH | p IH |]; simpl digits2_pos.
  - rewrite Pos2Z.inj_succ. replace (Z.succ (Zpos (digits2_pos p)) - 1)
      with (Z.succ (Zpos (digits2_pos p) - 1)) by lia.
    rewrite !Z.pow_succ_r by lia. rewrite (Pos2Z.inj_xI p). forget_pow. lia.
  - rewrite Pos2Z.inj_succ. replace (Z.succ (Zpos (digits2_pos p)) - 1)
      with (Z.succ (Zpos (digits2_pos p) - 1)) by lia.
    rewrite !Z.pow_succ_r by lia. rewrite (Pos2Z.inj_xO p). forget_pow. lia.
  - simpl. lia.
Qed.

Lemma digits2_pos_unique :
  forall p d, 2 ^ (d - 1) <= Zpos p < 2 ^ d -> Zpos (digits2_pos p) = d.
Proof.
  intros p d [Hlo Hhi].
  destruct (digits2_pos_bounds p) as [Hlo' Hhi'].
  assert (Hd : 0 < d).
  { destruct (Z_lt_le_dec 0 d) as [H | H]; [ exact H | ].
    exfalso. destruct (Z.eq_dec d 0) as [-> | Hne].
    - simpl in Hhi. lia.
    - rewrite (Z.pow_neg_r 2 d) in Hhi by lia. lia. }
  destruct (Z_lt_le_dec (Zpos (digits2_pos p)) d) as [H1 | H1].
  - exfalso.
    assert (2 ^ Zpos (digits2_pos p) <= 2 ^ (d - 1))
      by (apply Z.pow_le_mono_r; lia).
    lia.
  - destruct (Z_lt_le_dec d (Zpos (digits2_pos p))) as [H2 | H2]; [ | lia ].
    exfalso.
    assert (2 ^ d <= 2 ^ (Zpos (digits2_pos p) - 1))
      by (apply Z.pow_le_mono_r; lia).
    lia.
Qed.

(** Iteration over a positive number is iteration over a natural one. *)
Lemma iter_pos_nat :
  forall (A : Type) (f : A -> A) p x,
    iter_pos f p x = Nat.iter (Pos.to_nat p) f x.
Proof.
  intros A f. induction p as [p IH | p IH |]; intros x; simpl iter_pos.
  - rewrite !IH. rewrite Pos2Nat.inj_xI.
    replace (S (2 * Pos.to_nat p))%nat with (Pos.to_nat p + (Pos.to_nat p + 1))%nat by lia.
    rewrite !Nat.iter_add. simpl. reflexivity.
  - rewrite !IH. rewrite Pos2Nat.inj_xO.
    replace (2 * Pos.to_nat p)%nat with (Pos.to_nat p + Pos.to_nat p)%nat by lia.
    rewrite Nat.iter_add. reflexivity.
  - reflexivity.
Qed.

(** Shifting to the right, with the round and sticky bits. *)
Lemma shr_1_spec :
  forall m r s, 0 <= m ->
    shr_1 (Build_shr_record m r s)
    = Build_shr_record (m / 2) (Z.odd m) (r || s).
Proof.
  intros m r s Hm. rewrite <- Z.div2_div.
  destruct m as [| p | p]; [ reflexivity | | lia ].
  destruct p; reflexivity.
Qed.

Lemma shr_iter_spec :
  forall n m, 0 <= m ->
    Nat.iter (S n) shr_1 (Build_shr_record m false false)
    = Build_shr_record (m / 2 ^ Z.of_nat (S n))
                       (Z.odd (m / 2 ^ Z.of_nat n))
                       (negb (m mod 2 ^ Z.of_nat n =? 0)).
Proof.
  induction n as [| n IH]; intros m Hm.
  - change (Nat.iter 1 shr_1 (Build_shr_record m false false))
      with (shr_1 (Build_shr_record m false false)).
    rewrite shr_1_spec by assumption.
    change (2 ^ Z.of_nat 1) with 2. change (2 ^ Z.of_nat 0) with 1.
    rewrite Z.div_1_r, Z.mod_1_r. reflexivity.
  - change (Nat.iter (S (S n)) shr_1 (Build_shr_record m false false))
      with (shr_1 (Nat.iter (S n) shr_1 (Build_shr_record m false false))).
    rewrite IH by assumption.
    assert (Hp : 0 < 2 ^ Z.of_nat n) by (apply Z.pow_pos_nonneg; lia).
    assert (Hp1 : 2 ^ Z.of_nat (S n) = 2 ^ Z.of_nat n * 2).
    { rewrite Nat2Z.inj_succ, Z.pow_succ_r by lia. lia. }
    rewrite shr_1_spec by (apply Z.div_pos; lia).
    f_equal.
    + rewrite Z.div_div by lia.
      rewrite (Nat2Z.inj_succ (S n)), Z.pow_succ_r by lia.
      f_equal. lia.
    + rewrite Hp1. rewrite Z.rem_mul_r by lia.
      rewrite Zmod_odd.
      destruct (Z.odd (m / 2 ^ Z.of_nat n)); simpl.
      * pose proof (Z.mod_pos_bound m (2 ^ Z.of_nat n) Hp).
        symmetry. apply negb_true_iff, Z.eqb_neq. lia.
      * rewrite Z.mul_0_r, Z.add_0_r. reflexivity.
Qed.

Lemma round_shr :
  forall n m, 0 <= m ->
    let X := Nat.iter (S n) shr_1 (Build_shr_record m false false) in
    round_nearest_even (shr_m X) (loc_of_shr_record X)
    = rne m (Z.of_nat (S n)).
Proof.
  intros n m Hm X. subst X. rewrite shr_iter_spec by assumption.
  unfold rne. cbv zeta.
  assert (Hp : 0 < 2 ^ Z.of_nat n) by (apply Z.pow_pos_nonneg; lia).
  assert (Hp1 : 2 ^ Z.of_nat (S n) = 2 ^ Z.of_nat n * 2).
  { rewrite Nat2Z.inj_succ, Z.pow_succ_r by lia. lia. }
  assert (Hmod : m mod 2 ^ Z.of_nat (S n)
                 = m mod 2 ^ Z.of_nat n
                   + 2 ^ Z.of_nat n
                     * (if Z.odd (m / 2 ^ Z.of_nat n) then 1 else 0)).
  { rewrite Hp1, Z.rem_mul_r by lia. rewrite Zmod_odd. reflexivity. }
  pose proof (Z.mod_pos_bound m (2 ^ Z.of_nat n) Hp) as Hr.
  set (q := m / 2 ^ Z.of_nat (S n)).
  rewrite Hmod, Hp1. clear Hmod Hp1.
  set (h := 2 ^ Z.of_nat n) in *.
  set (r := m mod h) in *.
  cbv [shr_m loc_of_shr_record].
  destruct (Z.odd (m / h));
    destruct (Z.eqb_spec r 0) as [Ez | Ez]; cbv [negb round_nearest_even].
  - destruct (Z.ltb_spec (2 * (r + h * 1)) (h * 2)); [ lia | ].
    destruct (Z.ltb_spec (h * 2) (2 * (r + h * 1))); [ lia | ].
    reflexivity.
  - destruct (Z.ltb_spec (2 * (r + h * 1)) (h * 2)); [ lia | ].
    destruct (Z.ltb_spec (h * 2) (2 * (r + h * 1))); [ | lia ].
    reflexivity.
  - destruct (Z.ltb_spec (2 * (r + h * 0)) (h * 2)); [ | lia ].
    reflexivity.
  - destruct (Z.ltb_spec (2 * (r + h * 0)) (h * 2)); [ | lia ].
    reflexivity.
Qed.

Lemma rne_zero_shift : forall m, rne m 0 = m.
Proof.
  intros m. unfold rne. change (2 ^ 0) with 1.
  rewrite Z.div_1_r, Z.mod_1_r. reflexivity.
Qed.

Lemma rne_range :
  forall m k, 0 <= k -> 0 <= m ->
    m / 2 ^ k <= rne m k <= m / 2 ^ k + 1.
Proof.
  intros m k Hk Hm. unfold rne. cbv zeta.
  destruct (2 * (m mod 2 ^ k) <? 2 ^ k); [ lia | ].
  destruct (2 ^ k <? 2 * (m mod 2 ^ k)); [ lia | ].
  destruct (Z.even (m / 2 ^ k)); lia.
Qed.

Lemma rne_bounds :
  forall m k, 0 <= k ->
    2 ^ (52 + k) <= m < 2 ^ (53 + k) ->
    2 ^ 52 <= rne m k <= 2 ^ 53.
Proof.
  intros m k Hk [Hlo Hhi].
  assert (Hp : 0 < 2 ^ k) by (apply Z.pow_pos_nonneg; lia).
  rewrite Z.pow_add_r in Hlo, Hhi by lia.
  assert (Hm : 0 <= m).
  { assert (0 < 2 ^ 52) by reflexivity. nia. }
  pose proof (rne_range m k Hk Hm) as Hr.
  assert (2 ^ 52 <= m / 2 ^ k) by (apply Z.div_le_lower_bound; lia).
  assert (m / 2 ^ k < 2 ^ 53) by (apply Z.div_lt_upper_bound; lia).
  lia.
Qed.

Lemma bra_normal :
  forall sx m e,
    0 < m ->
    53 <= Zdigits2 m ->
    -1074 <= Zdigits2 m + e - 53 ->
    binary_round_aux 53 1024 sx m e loc_Exact
    = renorm sx (rne m (Zdigits2 m - 53)) (e + (Zdigits2 m - 53)).
Proof.
  intros sx m e Hm Hd He.
  destruct m as [| p | p]; try lia.
  pose proof (digits2_pos_bounds p) as Hb.
  change (Zdigits2 (Zpos p)) with (Zpos (digits2_pos p)) in *.
  set (d := Zpos (digits2_pos p)) in *.
  assert (Hq : 2 ^ 52 <= rne (Zpos p) (d - 53) <= 2 ^ 53).
  { apply rne_bounds; [ lia | ].
    replace (52 + (d - 53)) with (d - 1) by lia.
    replace (53 + (d - 53)) with d by lia. exact Hb. }
  unfold binary_round_aux.
  assert (Hfirst :
    shr_fexp 53 1024 (Zpos p) e loc_Exact
    = (if d - 53 =? 0
       then Build_shr_record (Zpos p) false false
       else Nat.iter (Z.to_nat (d - 53)) shr_1
              (Build_shr_record (Zpos p) false false),
       e + (d - 53))).
  { unfold shr_fexp, fexp, emin.
    change (Zdigits2 (Zpos p)) with d.
    rewrite Z.max_l by lia.
    replace (d + e - 53 - e) with (d - 53) by lia.
    unfold shr, shr_record_of_loc.
    destruct (d - 53) as [| k | k] eqn:Ek; [ | | lia ].
    - rewrite Z.add_0_r. reflexivity.
    - rewrite iter_pos_nat. reflexivity. }
  rewrite Hfirst. clear Hfirst.
  assert (Hround :
    round_nearest_even
      (shr_m (if d - 53 =? 0
              then Build_shr_record (Zpos p) false false
              else Nat.iter (Z.to_nat (d - 53)) shr_1
                     (Build_shr_record (Zpos p) false false)))
      (loc_of_shr_record
         (if d - 53 =? 0
          then Build_shr_record (Zpos p) false false
          else Nat.iter (Z.to_nat (d - 53)) shr_1
                 (Build_shr_record (Zpos p) false false)))
    = rne (Zpos p) (d - 53)).
  { destruct (Z.eqb_spec (d - 53) 0) as [E0 | E0].
    - rewrite E0, rne_zero_shift. reflexivity.
    - destruct (Z.to_nat (d - 53)) as [| n] eqn:En; [ lia | ].
      rewrite round_shr by lia. rewrite <- En. rewrite Z2Nat.id by lia.
      reflexivity. }
  rewrite Hround. clear Hround.
  set (q := rne (Zpos p) (d - 53)) in *.
  set (e1 := e + (d - 53)) in *.
  unfold renorm.
  destruct (Z.eqb_spec q (2 ^ 53)) as [E53 | E53].
  - rewrite E53.
    unfold shr_fexp, fexp, emin.
    change (Zdigits2 (2 ^ 53)) with 54.
    rewrite Z.max_l by lia.
    replace (54 + e1 - 53 - e1) with 1 by lia.
    reflexivity.
  - destruct q as [| qp | qp] eqn:Eq; try lia.
    assert (Hdq : Zpos (digits2_pos qp) = 53).
    { apply digits2_pos_unique. change (53 - 1) with 52. lia. }
    unfold shr_fexp, fexp, emin.
    change (Zdigits2 (Zpos qp)) with (Zpos (digits2_pos qp)).
    rewrite Hdq. rewrite Z.max_l by lia.
    replace (53 + e1 - 53 - e1) with 0 by lia.
    reflexivity.
Qed.

Lemma pos_iter_xO :
  forall n p, Zpos (Pos.iter xO p n) = Zpos p * 2 ^ Zpos n.
Proof.
  induction n as [| n IH] using Pos.peano_ind; intros p.
  - change (Pos.iter xO p 1) with (xO p). rewrite (Pos2Z.inj_xO p).
    change (2 ^ 1) with 2. ring.
  - rewrite Pos.iter_succ, Pos2Z.inj_succ, Z.pow_succ_r by lia.
    rewrite (Pos2Z.inj_xO (Pos.iter xO p n)), IH. ring.
Qed.

Lemma Zdigits2_small :
  forall n, 0 < n < 2 ^ 53 -> 1 <= Zdigits2 n <= 53.
Proof.
  intros n [Hlo Hhi]. destruct n as [| p | p]; try lia.
  change (Zdigits2 (Zpos p)) with (Zpos (digits2_pos p)).
  pose proof (digits2_pos_bounds p) as [Hb _].
  split; [ lia | ].
  destruct (Z_le_gt_dec (Zpos (digits2_pos p)) 53) as [H | H]; [ exact H | ].
  exfalso.
  assert (2 ^ 53 <= 2 ^ (Zpos (digits2_pos p) - 1))
    by (apply Z.pow_le_mono_r; lia).
  lia.
Qed.

Lemma int_mantissa_bounds :
  forall n, 0 < n < 2 ^ 53 -> 2 ^ 52 <= int_mantissa n < 2 ^ 53.
Proof.
  intros n Hn. pose proof (Zdigits2_small n Hn) as Hd.
  unfold int_mantissa.
  destruct n as [| p | p]; try lia.
  change (Zdigits2 (Zpos p)) with (Zpos (digits2_pos p)) in *.
  pose proof (digits2_pos_bounds p) as [Hlo Hhi].
  set (d := Zpos (digits2_pos p)) in *.
  assert (H52 : 2 ^ 52 = 2 ^ (d - 1) * 2 ^ (53 - d)).
  { rewrite <- Z.pow_add_r by lia. f_equal. lia. }
  assert (H53 : 2 ^ 53 = 2 ^ d * 2 ^ (53 - d)).
  { rewrite <- Z.pow_add_r by lia. f_equal. lia. }
  assert (Hp : 0 < 2 ^ (53 - d)) by (apply Z.pow_pos_nonneg; lia).
  rewrite H52, H53. split.
  - apply Z.mul_le_mono_nonneg_r; lia.
  - apply Z.mul_lt_mono_pos_r; lia.
Qed.

Lemma pack_finite :
  forall sx m e, 0 < m -> e <= 971 ->
    pack sx m e = S754_finite sx (Z.to_pos m) e.
Proof.
  intros sx m e Hm He. destruct m as [| p | p]; try lia.
  unfold pack. change (emax - prec) with 971.
  destruct (Z.leb_spec e 971); [ reflexivity | lia ].
Qed.

Lemma binary_round_small :
  forall sx p,
    Zpos p < 2 ^ 53 ->
    binary_round 53 1024 sx p 0
    = S754_finite sx (Z.to_pos (int_mantissa (Zpos p))) (int_exponent (Zpos p)).
Proof.
  intros sx p Hp.
  assert (Hn : 0 < Zpos p < 2 ^ 53) by lia.
  pose proof (Zdigits2_small _ Hn) as Hd.
  pose proof (int_mantissa_bounds _ Hn) as Hm.
  unfold int_mantissa, int_exponent in *.
  change (Zdigits2 (Zpos p)) with (Zpos (digits2_pos p)) in *.
  set (d := Zpos (digits2_pos p)) in *.
  unfold binary_round. fold d.
  assert (Hal : shl_align p 0 (fexp 53 1024 (d + 0))
                = (Z.to_pos (Zpos p * 2 ^ (53 - d)), d - 53)).
  { unfold fexp, emin. rewrite Z.max_l by lia. unfold shl_align.
    replace (d + 0 - 53 - 0) with (d - 53) by lia.
    destruct (d - 53) as [| k | k] eqn:Ek; [ | lia | ].
    - replace (53 - d) with 0 by lia. change (2 ^ 0) with 1.
      rewrite Z.mul_1_r. simpl Z.to_pos. f_equal; lia.
    - f_equal; [ | lia ].
      apply Pos2Z.inj. rewrite pos_iter_xO. rewrite Z2Pos.id by lia.
      f_equal. f_equal. lia. }
  rewrite Hal. clear Hal.
  assert (Hd53 : Zdigits2 (Zpos (Z.to_pos (Zpos p * 2 ^ (53 - d)))) = 53).
  { change (Zdigits2 (Zpos ?x)) with (Zpos (digits2_pos x)).
    apply digits2_pos_unique. rewrite Z2Pos.id by lia.
    change (53 - 1) with 52. exact Hm. }
  rewrite bra_normal; rewrite ?Hd53; try lia.
  replace (53 - 53) with 0 by lia. rewrite rne_zero_shift, Z.add_0_r.
  unfold renorm. rewrite Z2Pos.id by lia.
  destruct (Z.eqb_spec (Zpos p * 2 ^ (53 - d)) (2 ^ 53)); [ lia | ].
  apply pack_finite; lia.
Qed.

Lemma of_int_small :
  forall n, 0 < n < 2 ^ 53 ->
    of_int n = S754_finite false (Z.to_pos (int_mantissa n)) (int_exponent n).
Proof.
  intros n Hn. destruct n as [| p | p]; try lia.
  unfold of_int, binary_normalize, prec, emax. apply binary_round_small. lia.
Qed.

(** Any non-zero integer converts to a finite number with a full mantissa,
    or to an infinity, of its sign. *)
Lemma binary_round_shape :
  forall sx p,
    (exists m e, binary_round 53 1024 sx p 0 = S754_finite sx m e
                 /\ 2 ^ 52 <= Zpos m < 2 ^ 53)
    \/ binary_round 53 1024 sx p 0 = S754_infinity sx.
Proof.
  intros sx p.
  destruct (Z_lt_le_dec (Zpos p) (2 ^ 53)) as [Hs | Hl].
  - left. rewrite binary_round_small by assumption.
    eexists. eexists. split; [ reflexivity | ].
    assert (Hn : 0 < Zpos p < 2 ^ 53) by lia.
    pose proof (int_mantissa_bounds _ Hn).
    rewrite Z2Pos.id by lia. assumption.
  - pose proof (digits2_pos_bounds p) as [Hlo Hhi].
    set (d := Zpos (digits2_pos p)) in *.
    assert (Hd : 54 <= d).
    { destruct (Z_le_gt_dec 54 d) as [H | H]; [ exact H | ].
      exfalso. assert (2 ^ d <= 2 ^ 53) by (apply Z.pow_le_mono_r; lia).
      lia. }
    unfold binary_round. fold d.
    assert (Hal : shl_align p 0 (fexp 53 1024 (d + 0)) = (p, 0)).
    { unfold fexp, emin. rewrite Z.max_l by lia. unfold shl_align.
      destruct (d + 0 - 53 - 0) eqn:E; try lia; reflexivity. }
    rewrite Hal.
    rewrite bra_normal;
      change (Zdigits2 (Zpos p)) with d; try lia.
    assert (Hq : 2 ^ 52 <= rne (Zpos p) (d - 53) <= 2 ^ 53).
    { apply rne_bounds; [ lia | ].
      replace (52 + (d - 53)) with (d - 1) by lia.
      replace (53 + (d - 53)) with d by lia. split; assumption. }
    unfold renorm.
    destruct (Z.eqb_spec (rne (Zpos p) (d - 53)) (2 ^ 53)) as [E | E].
    + unfold pack. change (2 ^ 52) with (Zpos (Z.to_pos (2 ^ 52))).
      cbv iota.
      destruct (0 + (d - 53) + 1 <=? emax - prec);
        [ left; eexists; eexists; split; [ reflexivity | ] | right; reflexivity ].
      rewrite Z2Pos.id by reflexivity. split; [ lia | reflexivity ].
    + destruct (rne (Zpos p) (d - 53)) as [| q | q] eqn:Eq; try lia.
      unfold pack.
      destruct (0 + (d - 53) <=? emax - prec);
        [ left; eexists; eexists; split; [ reflexivity | lia ]
        | right; reflexivity ].
Qed.

(** ** Order *)

Lemma leb_finite :
  forall m1 e1 m2 e2,
    le (S754_finite false m1 e1) (S754_finite false m2 e2) = true
    <-> e1 < e2 \/ (e1 = e2 /\ Zpos m1 <= Zpos m2).
Proof.
  intros m1 e1 m2 e2. unfold le, SFleb, SFcompare.
  destruct (Z.compare_spec e1 e2) as [E | E | E].
  - change (Pos.compare_cont Eq m1 m2) with (Pos.compare m1 m2).
    rewrite Pos2Z.inj_compare.
    destruct (Z.compare_spec (Zpos m1) (Zpos m2)); split; intros H';
      try reflexivity; try discriminate; lia.
  - split; intros H; [ lia | reflexivity ].
  - split; intros H; [ discriminate | lia ].
Qed.

Lemma ltb_finite :
  forall m1 e1 m2 e2,
    lt (S754_finite false m1 e1) (S754_finite false m2 e2) = true
    <-> e1 < e2 \/ (e1 = e2 /\ Zpos m1 < Zpos m2).
Proof.
  intros m1 e1 m2 e2. unfold lt, SFltb, SFcompare.
  destruct (Z.compare_spec e1 e2) as [E | E | E].
  - change (Pos.compare_cont Eq m1 m2) with (Pos.compare m1 m2).
    rewrite Pos2Z.inj_compare.
    destruct (Z.compare_spec (Zpos m1) (Zpos m2)); split; intros H';
      try reflexivity; try discriminate; lia.
  - split; intros H; [ lia | reflexivity ].
  - split; intros H; [ discriminate | lia ].
Qed.

Lemma leb_zero_l :
  forall x, nonneg x -> le (S754_zero false) x = true.
Proof.
  intros [s | s | | s m e] H; simpl in H; try contradiction.
  - reflexivity.
  - destruct H as [-> _]. reflexivity.
Qed.

Lemma leb_refl : forall x, nonneg x -> le x x = true.
Proof.
  intros [s | s | | s m e] H; simpl in H; try contradiction.
  - reflexivity.
  - destruct H as [-> _]. apply leb_finite. lia.
Qed.

Lemma leb_trans :
  forall a b c, nonneg a -> nonneg b -> nonneg c ->
    le a b = true -> le b c = true -> le a c = true.
Proof.
  intros [sa | sa | | sa ma ea] [sb | sb | | sb mb eb] [sc | sc | | sc mc ec]
         Ha Hb Hc; simpl in Ha, Hb, Hc; try contradiction;
    repeat match goal with
           | H : _ /\ _ |- _ => destruct H
           end; subst; intros Hab Hbc;
    try reflexivity; try discriminate.
  apply leb_finite in Hab. apply leb_finite in Hbc. apply leb_finite. lia.
Qed.

(** A bound of the comparison [b < c] passes to a smaller [a]; [c] is any
    number but NaN with a non-negative sign or anything negative. *)
Lemma leb_ltb_trans :
  forall a b c, nonneg a -> nonneg b -> c <> S754_nan ->
    le a b = true -> lt b c = true -> lt a c = true.
Proof.
  intros [sa | sa | | sa ma ea] [sb | sb | | sb mb eb] [sc | sc | | sc mc ec]
         Ha Hb Hc; simpl in Ha, Hb; try contradiction;
    repeat match goal with
           | H : _ /\ _ |- _ => destruct H
           end; subst; intros Hab Hbc;
    try reflexivity; try discriminate; try congruence;
    try (destruct sc; try discriminate; reflexivity).
  destruct sc; [ discriminate | ].
  apply leb_finite in Hab. apply ltb_finite in Hbc. apply ltb_finite. lia.
Qed.

Lemma Zdigits2_mono :
  forall a b, 0 < a <= b -> Zdigits2 a <= Zdigits2 b.
Proof.
  intros a b Hab. destruct a as [| p | p]; try lia.
  destruct b as [| q | q]; try lia.
  change (Zpos (digits2_pos p) <= Zpos (digits2_pos q)).
  pose proof (digits2_pos_bounds p) as [Hp _].
  pose proof (digits2_pos_bounds q) as [_ Hq].
  destruct (Z_le_gt_dec (Zpos (digits2_pos p)) (Zpos (digits2_pos q)))
    as [H | H]; [ exact H | exfalso ].
  assert (2 ^ Zpos (digits2_pos q) <= 2 ^ (Zpos (digits2_pos p) - 1))
    by (apply Z.pow_le_mono_r; lia).
  lia.
Qed.

Lemma of_int_zero : of_int 0 = S754_zero false.
Proof. reflexivity. Qed.

Lemma of_int_nonneg :
  forall n, 0 <= n < 2 ^ 53 -> nonneg (of_int n).
Proof.
  intros n Hn. destruct (Z.eq_dec n 0) as [-> | Hne].
  - reflexivity.
  - rewrite of_int_small by lia. simpl. split; [ reflexivity | ].
    pose proof (int_mantissa_bounds n ltac:(lia)).
    rewrite Z2Pos.id by lia. assumption.
Qed.

Lemma of_int_compare :
  forall a b, 0 <= a < 2 ^ 53 -> 0 <= b < 2 ^ 53 ->
    SFcompare (of_int a) (of_int b) = Some (a ?= b).
Proof.
  intros a b Ha Hb.
  destruct (Z.eq_dec a 0) as [-> | Hane];
    destruct (Z.eq_dec b 0) as [-> | Hbne].
  - reflexivity.
  - rewrite of_int_zero, of_int_small by lia. simpl.
    destruct b; try lia; reflexivity.
  - rewrite of_int_zero, of_int_small by lia. simpl.
    destruct a; try lia; reflexivity.
  - rewrite !of_int_small by lia.
    pose proof (int_mantissa_bounds a ltac:(lia)) as Hma.
    pose proof (int_mantissa_bounds b ltac:(lia)) as Hmb.
    unfold SFcompare, int_exponent. f_equal.
    destruct a as [| p | p]; try lia. destruct b as [| q | q]; try lia.
    change (Zdigits2 (Zpos p)) with (Zpos (digits2_pos p)) in *.
    change (Zdigits2 (Zpos q)) with (Zpos (digits2_pos q)) in *.
    pose proof (digits2_pos_bounds p) as [Hp1 Hp2].
    pose proof (digits2_pos_bounds q) as [Hq1 Hq2].
    unfold int_mantissa in *.
    change (Zdigits2 (Zpos p)) with (Zpos (digits2_pos p)) in *.
    change (Zdigits2 (Zpos q)) with (Zpos (digits2_pos q)) in *.
    set (dp := Zpos (digits2_pos p)) in *.
    set (dq := Zpos (digits2_pos q)) in *.
    destruct (Z.compare_spec (dp - 53) (dq - 53)) as [E | E | E].
    + assert (Ed : dp = dq) by lia.
      change (Pos.compare_cont Eq ?x ?y) with (Pos.compare x y).
      rewrite Pos2Z.inj_compare, !Z2Pos.id by lia.
      rewrite Ed.
      assert (Hpw : 0 < 2 ^ (53 - dq)).
      { apply Z.pow_pos_nonneg; [ lia | ].
        pose proof (Zdigits2_small (Zpos q) ltac:(lia)). 
        change (Zdigits2 (Zpos q)) with dq in *. lia. }
      symmetry. apply Zmult_compare_compat_r. lia.
    + assert (2 ^ dp <= 2 ^ (dq - 1)) by (apply Z.pow_le_mono_r; lia).
      symmetry. apply Z.compare_lt_iff. lia.
    + assert (2 ^ dq <= 2 ^ (dp - 1)) by (apply Z.pow_le_mono_r; lia).
      symmetry. apply Z.compare_gt_iff. lia.
Qed.

Lemma of_int_ltb :
  forall a b, 0 <= a < 2 ^ 53 -> 0 <= b < 2 ^ 53 ->
    lt (of_int a) (of_int b) = (a <? b).
Proof.
  intros a b Ha Hb. unfold lt, SFltb. rewrite of_int_compare by assumption.
  unfold Z.ltb. destruct (a ?= b); reflexivity.
Qed.

Lemma of_int_leb :
  forall a b, 0 <= a < 2 ^ 53 -> 0 <= b < 2 ^ 53 ->
    le (of_int a) (of_int b) = (a <=? b).
Proof.
  intros a b Ha Hb. unfold le, SFleb. rewrite of_int_compare by assumption.
  unfold Z.leb. destruct (a ?= b); reflexivity.
Qed.

Lemma of_int_not_nan : forall z, of_int z <> S754_nan.
Proof.
  intros [| p | p]; unfold of_int, binary_normalize, prec, emax.
  - discriminate.
  - destruct (binary_round_shape false p) as [(m & e & H & _) | H];
      rewrite H; discriminate.
  - destruct (binary_round_shape true p) as [(m & e & H & _) | H];
      rewrite H; discriminate.
Qed.

Lemma of_int_positive :
  forall z s, 0 < z -> lt (S754_zero s) (of_int z) = true.
Proof.
  intros z s Hz. destruct z as [| p | p]; try lia.
  unfold of_int, binary_normalize, prec, emax.
  destruct (binary_round_shape false p) as [(m & e & H & _) | H];
    rewrite H; reflexivity.
Qed.

(** ** Rounding is monotone *)

Lemma rne_mono :
  forall k m m', 0 <= k -> 0 <= m <= m' -> rne m k <= rne m' k.
Proof.
  intros k m m' Hk Hm. unfold rne. cbv zeta.
  assert (Hp : 0 < 2 ^ k) by (apply Z.pow_pos_nonneg; lia).
  pose proof (Z.div_mod m (2 ^ k) ltac:(lia)) as E1.
  pose proof (Z.div_mod m' (2 ^ k) ltac:(lia)) as E2.
  pose proof (Z.mod_pos_bound m (2 ^ k) Hp) as B1.
  pose proof (Z.mod_pos_bound m' (2 ^ k) Hp) as B2.
  assert (Hq : m / 2 ^ k <= m' / 2 ^ k) by (apply Z.div_le_mono; lia).
  set (q := m / 2 ^ k) in *. set (q' := m' / 2 ^ k) in *.
  set (r := m mod 2 ^ k) in *. set (r' := m' mod 2 ^ k) in *.
  set (B := 2 ^ k) in *.
  destruct (Z.eq_dec q q') as [Eq | Hne].
  - rewrite <- Eq in *. assert (r <= r') by lia.
    destruct (Z.ltb_spec (2 * r) B); destruct (Z.ltb_spec (2 * r') B);
      destruct (Z.ltb_spec B (2 * r)); destruct (Z.ltb_spec B (2 * r'));
      destruct (Z.even q); lia.
  - assert (q + 1 <= q') by lia.
    destruct (Z.ltb_spec (2 * r) B); destruct (Z.ltb_spec (2 * r') B);
      destruct (Z.ltb_spec B (2 * r)); destruct (Z.ltb_spec B (2 * r'));
      destruct (Z.even q); destruct (Z.even q'); lia.
Qed.

Lemma rne_double :
  forall k m, 0 <= k -> rne (2 * m) (k + 1) = rne m k.
Proof.
  intros k m Hk. unfold rne. cbv zeta.
  assert (Hp : 0 < 2 ^ k) by (apply Z.pow_pos_nonneg; lia).
  rewrite Z.pow_add_r by lia. change (2 ^ 1) with 2.
  rewrite (Z.mul_comm (2 ^ k) 2).
  rewrite Z.div_mul_cancel_l by lia.
  rewrite Z.mul_mod_distr_l by lia.
  set (q := m / 2 ^ k). set (r := m mod 2 ^ k). set (B := 2 ^ k) in *.
  destruct (Z.ltb_spec (2 * (2 * r)) (2 * B)); destruct (Z.ltb_spec (2 * r) B);
    try lia; try reflexivity.
  destruct (Z.ltb_spec (2 * B) (2 * (2 * r))); destruct (Z.ltb_spec B (2 * r));
    try lia; reflexivity.
Qed.


(** ** Products of numbers with a full mantissa *)

Lemma mul_pair_bounds :
  forall P s, 2 ^ 104 <= P < 2 ^ 106 ->
    2 ^ 52 <= fst (mul_pair P s) < 2 ^ 53
    /\ s + 52 <= snd (mul_pair P s) <= s + 54.
Proof.
  intros P s HP. unfold mul_pair. cbv zeta.
  destruct (Z.ltb_spec P (2 ^ 105)) as [H | H].
  - pose proof (rne_bounds P 52 ltac:(lia) ltac:(simpl; lia)) as Hq.
    destruct (Z.eqb_spec (rne P 52) (2 ^ 53)); simpl; lia.
  - pose proof (rne_bounds P 53 ltac:(lia) ltac:(simpl; lia)) as Hq.
    destruct (Z.eqb_spec (rne P 53) (2 ^ 53)); simpl; lia.
Qed.

Lemma mul_finite :
  forall s1 m1 e1 s2 m2 e2,
    2 ^ 52 <= Zpos m1 < 2 ^ 53 -> 2 ^ 52 <= Zpos m2 < 2 ^ 53 ->
    -1074 <= e1 + e2 + 52 -> e1 + e2 + 54 <= 971 ->
    mul (S754_finite s1 m1 e1) (S754_finite s2 m2 e2)
    = S754_finite (xorb s1 s2)
        (Z.to_pos (fst (mul_pair (Zpos m1 * Zpos m2) (e1 + e2))))
        (snd (mul_pair (Zpos m1 * Zpos m2) (e1 + e2))).
Proof.
  intros s1 m1 e1 s2 m2 e2 H1 H2 Hlo Hhi.
  unfold mul, SFmul, prec, emax. rewrite Pos2Z.inj_mul.
  set (P := Zpos m1 * Zpos m2).
  assert (HP : 2 ^ 104 <= P < 2 ^ 106).
  { unfold P. change (2 ^ 104) with (2 ^ 52 * 2 ^ 52).
    change (2 ^ 106) with (2 ^ 53 * 2 ^ 53). nia. }
  assert (Hd : Zdigits2 P = if P <? 2 ^ 105 then 105 else 106).
  { unfold P. rewrite <- Pos2Z.inj_mul.
    change (Zdigits2 (Zpos ?x)) with (Zpos (digits2_pos x)).
    apply digits2_pos_unique. rewrite Pos2Z.inj_mul. fold P.
    destruct (Z.ltb_spec P (2 ^ 105)); simpl; lia. }
  rewrite bra_normal; rewrite ?Hd; try lia;
    try (destruct (P <? 2 ^ 105); lia).
  pose proof (mul_pair_bounds P (e1 + e2) HP) as [Hf Hs].
  unfold mul_pair in *. cbv zeta in *.
  destruct (Z.ltb_spec P (2 ^ 105)) as [H | H].
  - change (105 - 53) with 52.
    unfold renorm.
    destruct (Z.eqb_spec (rne P 52) (2 ^ 53)) as [E | E]; simpl fst in *;
      simpl snd in *.
    + rewrite pack_finite by lia. f_equal. 
    + rewrite pack_finite by lia. reflexivity.
  - change (106 - 53) with 53.
    unfold renorm.
    destruct (Z.eqb_spec (rne P 53) (2 ^ 53)) as [E | E]; simpl fst in *;
      simpl snd in *.
    + rewrite pack_finite by lia. f_equal.
    + rewrite pack_finite by lia. reflexivity.
Qed.

Lemma mul_pair_mono :
  forall P s P' s',
    2 ^ 104 <= P < 2 ^ 106 -> 2 ^ 104 <= P' < 2 ^ 106 ->
    (s = s' /\ P <= P') \/ (s < s' /\ P <= 2 * P') ->
    lexle (mul_pair P s) (mul_pair P' s').
Proof.
  intros P s P' s' HP HP' Hle.
  pose proof (mul_pair_bounds P s HP) as Hb.
  pose proof (mul_pair_bounds P' s' HP') as Hb'.
  unfold lexle, mul_pair in *. cbv zeta in *.
  destruct (Z.ltb_spec P (2 ^ 105)) as [H | H];
    destruct (Z.ltb_spec P' (2 ^ 105)) as [H' | H'].
  - (* 105, 105 *)
    pose proof (rne_bounds P 52 ltac:(lia) ltac:(simpl; lia)) as Hq.
    pose proof (rne_bounds P' 52 ltac:(lia) ltac:(simpl; lia)) as Hq'.
    destruct Hle as [[-> Hle] | [Hs Hle]].
    + pose proof (rne_mono 52 P P' ltac:(lia) ltac:(lia)) as Hm.
      destruct (Z.eqb_spec (rne P 52) (2 ^ 53));
        destruct (Z.eqb_spec (rne P' 52) (2 ^ 53)); simpl in *; lia.
    + destruct (Z.eqb_spec (rne P 52) (2 ^ 53));
        destruct (Z.eqb_spec (rne P' 52) (2 ^ 53)); simpl in *; lia.
  - (* 105, 106 *)
    pose proof (rne_bounds P 52 ltac:(lia) ltac:(simpl; lia)) as Hq.
    pose proof (rne_bounds P' 53 ltac:(lia) ltac:(simpl; lia)) as Hq'.
    destruct Hle as [[-> Hle] | [Hs Hle]];
      destruct (Z.eqb_spec (rne P 52) (2 ^ 53));
      destruct (Z.eqb_spec (rne P' 53) (2 ^ 53)); simpl in *; lia.
  - (* 106, 105 *)
    pose proof (rne_bounds P 53 ltac:(lia) ltac:(simpl; lia)) as Hq.
    pose proof (rne_bounds P' 52 ltac:(lia) ltac:(simpl; lia)) as Hq'.
    destruct Hle as [[-> Hle] | [Hs Hle]]; [ lia | ].
    pose proof (rne_double 52 P' ltac:(lia)) as Hd.
    change (52 + 1) with 53 in Hd.
    pose proof (rne_mono 53 P (2 * P') ltac:(lia) ltac:(lia)) as Hm.
    rewrite Hd in Hm.
    destruct (Z.eqb_spec (rne P 53) (2 ^ 53));
      destruct (Z.eqb_spec (rne P' 52) (2 ^ 53)); simpl in *; lia.
  - (* 106, 106 *)
    pose proof (rne_bounds P 53 ltac:(lia) ltac:(simpl; lia)) as Hq.
    pose proof (rne_bounds P' 53 ltac:(lia) ltac:(simpl; lia)) as Hq'.
    destruct Hle as [[-> Hle] | [Hs Hle]].
    + pose proof (rne_mono 53 P P' ltac:(lia) ltac:(lia)) as Hm.
      destruct (Z.eqb_spec (rne P 53) (2 ^ 53));
        destruct (Z.eqb_spec (rne P' 53) (2 ^ 53)); simpl in *; lia.
    + destruct (Z.eqb_spec (rne P 53) (2 ^ 53));
        destruct (Z.eqb_spec (rne P' 53) (2 ^ 53)); simpl in *; lia.
Qed.

End DoubleFacts.

Section ProductFacts.
Import Double.

Lemma smallb_small : forall x, smallb x = true -> small x.
Proof.
  intros [s | s | | s m e]; unfold smallb, small; try discriminate.
  - intros H. apply negb_true_iff in H. exact H.
  - intros H. rewrite !andb_true_iff in H.
    destruct H as ((((H1 & H2) & H3) & H4) & H5).
    apply negb_true_iff in H1. apply Z.leb_le in H2. apply Z.ltb_lt in H3.
    apply Z.leb_le in H4. apply Z.leb_le in H5.
    repeat split; assumption.
Qed.

Lemma small_nonneg : forall x, small x -> nonneg x.
Proof.
  intros [s | s | | s m e]; simpl; try tauto.
Qed.

Lemma mul_comm : forall x y, mul x y = mul y x.
Proof.
  intros [sx | sx | | sx mx ex] [sy | sy | | sy my ey]; unfold mul; simpl;
    rewrite ?(xorb_comm sx sy); try reflexivity.
  rewrite (Pos.mul_comm mx my), (Z.add_comm ex ey). reflexivity.
Qed.

(** The product of two small numbers, by cases. *)
Lemma mul_small :
  forall x y, small x -> small y ->
    match x, y with
    | S754_finite _ mx ex, S754_finite _ my ey =>
        mul x y
        = S754_finite false
            (Z.to_pos (fst (mul_pair (Zpos mx * Zpos my) (ex + ey))))
            (snd (mul_pair (Zpos mx * Zpos my) (ex + ey)))
    | _, _ => mul x y = S754_zero false
    end.
Proof.
  intros [sx | sx | | sx mx ex] [sy | sy | | sy my ey] Hx Hy;
    unfold small in Hx, Hy; try contradiction;
    repeat match goal with
           | H : _ /\ _ |- _ => destruct H
           end; subst; try reflexivity.
  rewrite mul_finite by lia. reflexivity.
Qed.

Lemma mul_nonneg :
  forall x y, small x -> small y -> nonneg (mul x y).
Proof.
  intros x y Hx Hy. pose proof (mul_small x y Hx Hy) as H.
  destruct x as [sx | sx | | sx mx ex]; unfold small in Hx;
    try contradiction;
    destruct y as [sy | sy | | sy my ey]; unfold small in Hy;
    try contradiction;
    rewrite H; unfold nonneg; try reflexivity.
  split; [ reflexivity | ].
  destruct Hx as (_ & Hx & _). destruct Hy as (_ & Hy & _).
  assert (HP : 2 ^ 104 <= Zpos mx * Zpos my < 2 ^ 106).
  { change (2 ^ 104) with (2 ^ 52 * 2 ^ 52).
    change (2 ^ 106) with (2 ^ 53 * 2 ^ 53). nia. }
  pose proof (mul_pair_bounds _ (ex + ey) HP) as [Hb _].
  rewrite Z2Pos.id by lia. exact Hb.
Qed.

Lemma mul_mono_l :
  forall x x' y, small x -> small x' -> small y ->
    le x x' = true -> le (mul x y) (mul x' y) = true.
Proof.
  intros x x' y Hx Hx' Hy Hle.
  pose proof (mul_small x y Hx Hy) as E.
  pose proof (mul_small x' y Hx' Hy) as E'.
  pose proof (mul_nonneg x' y Hx' Hy) as Hn'.
  destruct y as [sy | sy | | sy my ey]; unfold small in Hy;
    try contradiction.
  - (* y = 0 *)
    destruct x as [sx | sx | | sx mx ex]; unfold small in Hx;
      try contradiction;
      destruct x' as [sx' | sx' | | sx' mx' ex']; unfold small in Hx';
      try contradiction; rewrite E, E'; reflexivity.
  - destruct x as [sx | sx | | sx mx ex]; unfold small in Hx;
      try contradiction.
    + rewrite E. apply leb_zero_l. exact Hn'.
    + destruct x' as [sx' | sx' | | sx' mx' ex']; unfold small in Hx';
        try contradiction.
      * destruct Hx as [-> _]. discriminate Hle.
      * rewrite E, E'.
        destruct Hx as (-> & Hm & He). destruct Hx' as (-> & Hm' & He').
        destruct Hy as (-> & Hmy & Hey).
        apply leb_finite in Hle.
        assert (HP : 2 ^ 104 <= Zpos mx * Zpos my < 2 ^ 106).
        { change (2 ^ 104) with (2 ^ 52 * 2 ^ 52).
          change (2 ^ 106) with (2 ^ 53 * 2 ^ 53). nia. }
        assert (HP' : 2 ^ 104 <= Zpos mx' * Zpos my < 2 ^ 106).
        { change (2 ^ 104) with (2 ^ 52 * 2 ^ 52).
          change (2 ^ 106) with (2 ^ 53 * 2 ^ 53). nia. }
        pose proof (mul_pair_bounds _ (ex + ey) HP) as [Hb _].
        pose proof (mul_pair_bounds _ (ex' + ey) HP') as [Hb' _].
        apply leb_finite. rewrite !Z2Pos.id by lia.
        apply (mul_pair_mono _ _ _ _ HP HP').
        destruct Hle as [Hlt | [-> Hmm]].
        -- right. split; [ lia | ].
           assert (Zpos mx <= 2 * Zpos mx') by lia. nia.
        -- left. split; [ reflexivity | nia ].
Qed.

Lemma mul_mono :
  forall x x' y y', small x -> small x' -> small y -> small y' ->
    le x x' = true -> le y y' = true -> le (mul x y) (mul x' y') = true.
Proof.
  intros x x' y y' Hx Hx' Hy Hy' H1 H2.
  apply (leb_trans _ (mul x' y)); try (apply mul_nonneg; assumption).
  - apply mul_mono_l; assumption.
  - rewrite (mul_comm x' y), (mul_comm x' y').
    apply mul_mono_l; assumption.
Qed.


Lemma of_int_small_u32 :
  forall n, 0 <= n < 2 ^ 32 -> small (of_int n).
Proof.
  intros n Hn. destruct (Z.eq_dec n 0) as [-> | Hne]; [ reflexivity | ].
  assert (H53 : 0 < n < 2 ^ 53).
  { split; [ lia | ]. apply Z.lt_trans with (2 ^ 32); [ lia | reflexivity ]. }
  rewrite of_int_small by assumption. unfold small.
  split; [ reflexivity | ].
  pose proof (int_mantissa_bounds n H53).
  rewrite Z2Pos.id by lia. split; [ assumption | ].
  pose proof (Zdigits2_small n H53). unfold int_exponent. lia.
Qed.

Lemma add_zero_l :
  forall y, nonneg y -> add (S754_zero false) y = y.
Proof.
  intros [s | s | | s m e] H; simpl in H; try contradiction.
  - subst. reflexivity.
  - reflexivity.
Qed.

End ProductFacts.

(** ** The reduction mode *)

Section BlendFacts.
Import Double.

Lemma num_tasks_range : forall s, 0 <= num_tasks s < 2 ^ 32.
Proof. intros s. unfold num_tasks, u32. apply Z.mod_pos_bound. lia. Qed.

Lemma u32_small : forall z, 0 <= z < 2 ^ 32 -> u32 z = z.
Proof. intros z H. unfold u32. apply Z.mod_small. exact H. Qed.

Lemma Max_ge : forall x y, x <= Max x y /\ y <= Max x y.
Proof.
  intros x y. unfold Max. destruct (Z.gtb_spec x y); lia.
Qed.

Lemma Max_cases : forall x y, Max x y = x \/ Max x y = y.
Proof. intros x y. unfold Max. destruct (x >? y); auto. Qed.

Lemma u32_range : forall z, 0 <= u32 z < 2 ^ 32.
Proof. intros z. unfold u32. apply Z.mod_pos_bound. lia. Qed.

(** The thirty-one weights, computed. *)
Lemma weight_checked :
  forallb (fun k => smallb (weight k)
                    && smallb (sub (of_int 1) (weight k))
                    && le (weight k) (weight (Z.min (k + 1) 30)))
          (map Z.of_nat (seq 0 31)) = true.
Proof. vm_compute. reflexivity. Qed.

Lemma weight_facts :
  forall k, 0 <= k <= 30 ->
    small (weight k)
    /\ small (sub (of_int 1) (weight k))
    /\ le (weight k) (weight (Z.min (k + 1) 30)) = true.
Proof.
  intros k Hk. pose proof weight_checked as H.
  rewrite forallb_forall in H.
  assert (Hin : In k (map Z.of_nat (seq 0 31))).
  { rewrite <- (Z2Nat.id k) by lia. apply in_map. apply in_seq. lia. }
  specialize (H k Hin). rewrite !andb_true_iff in H.
  destruct H as [[H1 H2] H3].
  split; [ apply smallb_small; exact H1 | ].
  split; [ apply smallb_small; exact H2 | exact H3 ].
Qed.

Lemma weight_mono :
  forall k k', 0 <= k <= k' -> k' <= 30 ->
    le (weight k) (weight k') = true.
Proof.
  intros k k' Hk Hk'.
  replace k' with (k + Z.of_nat (Z.to_nat (k' - k))) in * by lia.
  induction (Z.to_nat (k' - k)) as [| n IH].
  - rewrite Z.add_0_r. apply leb_refl, small_nonneg, weight_facts. lia.
  - assert (Hn : k + Z.of_nat n <= 29) by lia.
    apply (leb_trans _ (weight (k + Z.of_nat n)));
      try (apply small_nonneg, weight_facts; lia).
    + apply IH; lia.
    + destruct (weight_facts (k + Z.of_nat n) ltac:(lia)) as (_ & _ & H).
      rewrite Z.min_l in H by lia.
      replace (k + Z.of_nat (S n)) with (k + Z.of_nat n + 1) by lia.
      exact H.
Qed.

(** The weight of the observed number of groups is the one of the number
    of counted tasks, thirty at most. *)
Lemma exec_ratio_weight :
  forall s, exec_ratio s = weight (Z.min (num_tasks s) 30).
Proof.
  intros s. unfold exec_ratio, Min, weight.
  pose proof (num_tasks_range s) as Hn.
  rewrite of_int_ltb;
    try (split; [ lia | apply Z.lt_trans with (2 ^ 32); [ lia | reflexivity ] ]);
    try (split; reflexivity).
  destruct (Z.ltb_spec (num_tasks s) 30) as [H | H].
  - rewrite Z.min_l by lia. reflexivity.
  - rewrite Z.min_r by lia. reflexivity.
Qed.

(** With a planned number of groups of zero the estimate is the product of
    the observed number of groups and the weight. *)
Lemma real_ngroups_plan0 :
  forall s, plan_ngroups s = 0 -> 0 <= exec_ngroups s < 2 ^ 32 ->
    real_ngroups s
    = mul (of_int (exec_ngroups s)) (weight (Z.min (num_tasks s) 30)).
Proof.
  intros s Hplan Hexec. unfold real_ngroups.
  rewrite exec_ratio_weight, Hplan.
  pose proof (num_tasks_range s) as Hn.
  destruct (weight_facts (Z.min (num_tasks s) 30) ltac:(lia))
    as (Hw & Hs & _).
  pose proof (mul_small (of_int 0) _ (of_int_small_u32 0 ltac:(lia)) Hs)
    as Hz.
  change (of_int 0) with (S754_zero false) in *. cbv iota in Hz.
  rewrite Hz. apply add_zero_l.
  apply mul_nonneg; [ apply of_int_small_u32; assumption | exact Hw ].
Qed.


(** The estimate grows with the observed number of groups and with the
    number of counted tasks. *)
Lemma real_ngroups_mono :
  forall a b,
    plan_ngroups a = 0 -> plan_ngroups b = 0 ->
    0 <= exec_ngroups a -> exec_ngroups a <= exec_ngroups b ->
    exec_ngroups b < 2 ^ 32 ->
    num_tasks a <= num_tasks b ->
    le (real_ngroups a) (real_ngroups b) = true
    /\ nonneg (real_ngroups a) /\ nonneg (real_ngroups b).
Proof.
  intros a b Hpa Hpb He0 Hab Heb Hn.
  pose proof (num_tasks_range a) as Hna.
  pose proof (num_tasks_range b) as Hnb.
  rewrite !real_ngroups_plan0 by (try assumption; lia).
  destruct (weight_facts (Z.min (num_tasks a) 30) ltac:(lia)) as (Hwa & _).
  destruct (weight_facts (Z.min (num_tasks b) 30) ltac:(lia)) as (Hwb & _).
  assert (Hsa : small (of_int (exec_ngroups a)))
    by (apply of_int_small_u32; lia).
  assert (Hsb : small (of_int (exec_ngroups b)))
    by (apply of_int_small_u32; lia).
  split; [ | split; apply mul_nonneg; assumption ].
  apply mul_mono; try assumption.
  - rewrite of_int_leb;
      try (split; [ lia | apply Z.lt_trans with (2 ^ 32);
                          [ lia | reflexivity ] ]).
    apply Z.leb_le. exact Hab.
  - apply weight_mono; lia.
Qed.

End BlendFacts.

(** The selection is LOCAL, GLOBAL or FINAL. *)
Lemma select_reduction_mode_range :
  forall T s n,
    select_reduction_mode T s n = GPUPREAGG_LOCAL_REDUCTION
    \/ select_reduction_mode T s n = GPUPREAGG_GLOBAL_REDUCTION
    \/ select_reduction_mode T s n = GPUPREAGG_FINAL_REDUCTION.
Proof.
  intros T s n. unfold select_reduction_mode.
  destruct (Double.lt _ _); [ auto | ].
  destruct (Double.lt _ _); auto.
Qed.

(** With the same thresholds a larger estimate never selects an earlier
    mode. *)
Lemma select_mode_monotone :
  forall T a b n,
    plan_ngroups a = 0 -> plan_ngroups b = 0 ->
    0 <= exec_ngroups a -> exec_ngroups a <= exec_ngroups b ->
    exec_ngroups b < 2 ^ 32 ->
    num_tasks a <= num_tasks b ->
    mode_rank (select_reduction_mode T a n)
    <= mode_rank (select_reduction_mode T b n).
Proof.
  intros T a b n Hpa Hpb He0 Hab Heb Hn.
  destruct (real_ngroups_mono a b Hpa Hpb He0 Hab Heb Hn) as (Hle & Ha & Hb).
  unfold select_reduction_mode.
  destruct (Double.lt (real_ngroups b) (Double.of_int (T ÷ 4))) eqn:E1.
  - rewrite (leb_ltb_trans _ _ _ Ha Hb (of_int_not_nan _) Hle E1).
    simpl. lia.
  - destruct (Double.lt (real_ngroups b) (Double.of_int (n / 4))) eqn:E2.
    + rewrite (leb_ltb_trans _ _ _ Ha Hb (of_int_not_nan _) Hle E2).
      destruct (Double.lt (real_ngroups a) (Double.of_int (T ÷ 4)));
        simpl; lia.
    + destruct (Double.lt (real_ngroups a) (Double.of_int (T ÷ 4)));
        [ simpl; lia | ].
      destruct (Double.lt (real_ngroups a) (Double.of_int (n / 4)));
        simpl; lia.
Qed.

Lemma create_task_mode :
  forall slot_length gpas s pds is_last t s',
    gpupreagg_create_task slot_length gpas s pds is_last = Ok (t, s') ->
    reduction_mode (kern t)
    = (if num_group_keys gpas =? 0
       then GPUPREAGG_NOGROUP_REDUCTION
       else GPUPREAGG_INVALID_REDUCTION)
    /\ hash_size (kern t) = nitems_real (kern t)
    /\ nrooms (kds_slot t) = nitems_real (kern t)
    /\ cpu_fallback t = false.
Proof.
  intros slot_length gpas s pds is_last t s' H.
  unfold gpupreagg_create_task in H.
  destruct pds as [pds |]; [ | discriminate ].
  destruct (kds_format pds); simpl in H;
    try (inversion H; subst; simpl; auto; fail).
  destruct (nvme_nrows_per_block gpas); simpl in H; [ | discriminate ].
  inversion H; subst; simpl; auto.
Qed.

Lemma create_task_sstate :
  forall slot_length gpas s pds last t s',
    gpupreagg_create_task slot_length gpas s pds last = Ok (t, s') ->
    s' = get_gpupreagg_shared_state s.
Proof.
  intros slot_length gpas s pds last t s' H.
  unfold gpupreagg_create_task in H.
  destruct pds as [c |]; [ | discriminate ].
  destruct (kds_format c); simpl in H;
    try (inversion H; reflexivity).
  destruct (nvme_nrows_per_block gpas); simpl in H;
    [ inversion H; reflexivity | discriminate ].
Qed.

(** The mode of a task that comes to its set-up without one. *)
Lemma setup_strategy_decides :
  forall T t s h,
    reduction_mode (kern t) = GPUPREAGG_INVALID_REDUCTION ->
    let m := select_reduction_mode T s (nitems_real (kern t)) in
    reduction_mode (kern (setup_task (fst (gpupreagg_setup_strategy T t s h))))
    = m
    /\ exists mid,
         snd (gpupreagg_setup_strategy T t s h)
         = SpinLockAcquire :: DecideMode m :: mid ++ [SpinLockRelease].
Proof.
  intros T t s h Hinv m. unfold gpupreagg_setup_strategy.
  rewrite Hinv. fold m.
  destruct (ss_pds_final s) as [p |]; simpl.
  - split; [ reflexivity | ]. exists [AttachFinal p]. reflexivity.
  - split; [ reflexivity | ]. exists []. reflexivity.
Qed.
(** ** Task completion *)

Lemma mode_eqb_eq : forall a b, mode_eqb a b = true <-> a = b.
Proof. intros [] []; simpl; split; intros H; congruence. Qed.

Lemma mode_eqb_neq : forall a b, a <> b -> mode_eqb a b = false.
Proof.
  intros a b H. destruct (mode_eqb a b) eqn:E; [ | reflexivity ].
  apply mode_eqb_eq in E. contradiction.
Qed.

Lemma errcode_eqb_eq : forall a b, errcode_eqb a b = true <-> a = b.
Proof.
  intros [| | | x] [| | | y]; simpl; split; intros H;
    try congruence; try discriminate.
  - apply Z.eqb_eq in H. congruence.
  - inversion H. apply Z.eqb_refl.
Qed.

Lemma cleanup_spec :
  forall t b,
    kern (fst (gpupreagg_cleanup_cuda_resources t b)) = kern t
    /\ task_errcode (fst (gpupreagg_cleanup_cuda_resources t b)) = task_errcode t
    /\ cpu_fallback (fst (gpupreagg_cleanup_cuda_resources t b)) = cpu_fallback t
    /\ kds_slot (fst (gpupreagg_cleanup_cuda_resources t b)) = kds_slot t
    /\ existsb Lifetime.is_free_final
         (snd (gpupreagg_cleanup_cuda_resources t b)) = b
    /\ existsb Lifetime.is_push
         (snd (gpupreagg_cleanup_cuda_resources t b)) = false
    /\ (b = false ->
        forallb is_own_free (snd (gpupreagg_cleanup_cuda_resources t b)) = true).
Proof.
  intros t b. unfold gpupreagg_cleanup_cuda_resources. simpl.
  destruct (with_nvme_strom t && negb (m_kds_in t =? 0)); destruct b;
    simpl; repeat split; try reflexivity; intros; discriminate.
Qed.

(** C2 (as amended): when a completed reduction task reports "no data
    space" and has not begun to write into the final buffer, its hash size
    becomes the larger of its hash size and the real number of its rows --
    it never shrinks, and it is the number of rows when it was not above
    it -- the capacity of its working slot buffer becomes the real number
    of its rows, with the length that goes with it, the task is queued
    again ([retval] 1, [is_retry]), and neither the shared state nor any
    final buffer changes: only device memory of the task itself is
    released. *)
Theorem overflow_before_final_retries :
  forall retry_slot_length t s h,
    reduction_mode (kern t) <> GPUPREAGG_ONLY_TERMINATION ->
    task_errcode t = StromError_DataStoreNoSpace ->
    progress_final (kern t) = false ->
    exists o,
      gpupreagg_complete_task retry_slot_length t s h = Ok o
      /\ retval o = 1
      /\ is_retry (o_task o) = true
      /\ hash_size (kern (o_task o))
         = Max (hash_size (kern t)) (nitems_real (kern t))
      /\ hash_size (kern t) <= hash_size (kern (o_task o))
      /\ nitems_real (kern t) <= hash_size (kern (o_task o))
      /\ (hash_size (kern t) <= nitems_real (kern t) ->
          hash_size (kern (o_task o)) = nitems_real (kern t))
      /\ nrooms (kds_slot (o_task o)) = nitems_real (kern t)
      /\ kds_length (kds_slot (o_task o))
         = retry_slot_length (ncols (kds_slot t)) (nitems_real (kern t))
      /\ nitems_real (kern (o_task o)) = nitems_real (kern t)
      /\ reduction_mode (kern (o_task o)) = reduction_mode (kern t)
      /\ pds_final (o_task o) = pds_final t
      /\ o_sstate o = s
      /\ o_heap o = h
      /\ forallb is_own_free (o_trace o) = true.
Proof.
  intros retry_slot_length t s h Hmode Herr Hprog.
  unfold gpupreagg_complete_task.
  rewrite (mode_eqb_neq _ _ Hmode), Herr, Hprog. simpl.
  eexists. split; [ reflexivity | ].
  unfold retry_with_larger_slot. simpl.
  pose proof (Max_ge (hash_size (kern t)) (nitems_real (kern t)))
    as [Hge1 Hge2].
  repeat split; try reflexivity; try assumption.
  - intros Hle. unfold Max.
    destruct (Z.gtb_spec (hash_size (kern t)) (nitems_real (kern t))); lia.
  - destruct (with_nvme_strom t && negb (m_kds_in t =? 0)); reflexivity.
Qed.

Lemma overflow_before_final_retries_witness :
  exists o,
    gpupreagg_complete_task sample_slot_length narrow_task sample_sstate
      sample_heap = Ok o
    /\ hash_size (kern narrow_task) = 500
    /\ nrooms (kds_slot narrow_task) = 500
    /\ hash_size (kern (o_task o)) = 1000
    /\ nrooms (kds_slot (o_task o)) = 1000
    /\ retval o = 1.
Proof.
  destruct (overflow_before_final_retries sample_slot_length narrow_task
              sample_sstate sample_heap)
    as (o & H & Hret & _ & _ & _ & _ & Hh & Hr & _).
  - discriminate.
  - reflexivity.
  - reflexivity.
  - exists o. split; [ exact H | ].
    split; [ reflexivity | ]. split; [ reflexivity | ].
    split; [ apply Hh; simpl; lia | ].
    split; [ exact Hr | exact Hret ].
Defined.

(** The claim of C2 as it stands fails on a task whose hash table is larger
    than its chunk: with 2000 hash slots and 1000 rows, the hash size after
    the completion is 2000, not the number of rows. *)
Lemma overflow_keeps_larger_hash_size :
  task_errcode wide_task = StromError_DataStoreNoSpace
  /\ progress_final (kern wide_task) = false
  /\ nitems_real (kern wide_task) = 1000
  /\ exists o,
       gpupreagg_complete_task sample_slot_length wide_task sample_sstate
         sample_heap = Ok o
       /\ retval o = 1
       /\ hash_size (kern (o_task o)) = 2000
       /\ hash_size (kern (o_task o)) <> nitems_real (kern wide_task).
Proof.
  split; [ reflexivity | ]. split; [ reflexivity | ].
  split; [ reflexivity | ].
  eexists. split; [ reflexivity | ].
  split; [ reflexivity | ]. split; [ reflexivity | ].
  simpl. discriminate.
Qed.

(** A task is created with a hash size equal to the number of its rows
    ([create_task_mode]), and a completion leaves them equal. *)
Lemma retry_keeps_hash_size :
  forall retry_slot_length t s h o,
    hash_size (kern t) = nitems_real (kern t) ->
    gpupreagg_complete_task retry_slot_length t s h = Ok o ->
    hash_size (kern (o_task o)) = nitems_real (kern (o_task o)).
Proof.
  intros retry_slot_length t s h o Hh Hc.
  unfold gpupreagg_complete_task in Hc.
  destruct (mode_eqb (reduction_mode (kern t)) GPUPREAGG_ONLY_TERMINATION).
  { inversion Hc; subst. simpl. exact Hh. }
  destruct (errcode_eqb (task_errcode t) StromError_DataStoreNoSpace).
  - destruct (progress_final (kern t)); simpl in Hc.
    + destruct (pds_final t) as [p |]; [ | discriminate ].
      inversion Hc; subst. unfold retry_with_new_final.
      destruct (ntasks_running
                  (set_ntasks_running (set_is_dereferenced (h p) true)
                     (ntasks_running (set_is_dereferenced (h p) true) - 1))
                =? 0); simpl; exact Hh.
    + inversion Hc; subst. unfold retry_with_larger_slot. simpl.
      unfold Max. rewrite Hh, Z.gtb_ltb, Z.ltb_irrefl. reflexivity.
  - destruct (pds_final t) as [p |]; [ | discriminate ].
    inversion Hc; subst. unfold finish_task.
    repeat match goal with
           | |- context [if ?b then _ else _] => destruct b
           end; simpl; exact Hh.
Qed.

(** A termination-only task returns before its error is looked at: the
    error and [cpu_fallback] are left as they are. *)
Lemma terminator_keeps_error :
  forall retry_slot_length t s h,
    reduction_mode (kern t) = GPUPREAGG_ONLY_TERMINATION ->
    exists o,
      gpupreagg_complete_task retry_slot_length t s h = Ok o
      /\ retval o = 0
      /\ task_errcode (o_task o) = task_errcode t
      /\ cpu_fallback (o_task o) = cpu_fallback t.
Proof.
  intros retry_slot_length t s h Hmode.
  unfold gpupreagg_complete_task. rewrite Hmode. simpl.
  eexists. repeat split; reflexivity.
Qed.

(** The flags of the CPU fallback: the error of a completed reduction task
    is cleared and [cpu_fallback] set if and only if its error is
    CpuReCheck and it has not begun to write into the final buffer; a
    CpuReCheck error after that is kept, [cpu_fallback] is left as it was,
    and the task goes back to the backend with its error ([retval] 0). *)
Lemma fallback_flags_iff_recheck_before_final :
  forall retry_slot_length t s h o,
    reduction_mode (kern t) <> GPUPREAGG_ONLY_TERMINATION ->
    gpupreagg_complete_task retry_slot_length t s h = Ok o ->
    (switched_to_fallback t o
     <-> task_errcode t = StromError_CpuReCheck
         /\ progress_final (kern t) = false)
    /\ (task_errcode t = StromError_CpuReCheck ->
        progress_final (kern t) = true ->
        task_errcode (o_task o) = StromError_CpuReCheck
        /\ cpu_fallback (o_task o) = cpu_fallback t
        /\ retval o = 0).
Proof.
  intros retry_slot_length t s h o Hmode Hc.
  unfold gpupreagg_complete_task in Hc.
  rewrite (mode_eqb_neq _ _ Hmode) in Hc.
  unfold switched_to_fallback.
  destruct (task_errcode t) as [| | | code] eqn:Herr; simpl in Hc.
  - (* no error *)
    destruct (pds_final t) as [p |]; [ | discriminate ].
    inversion Hc; subst; clear Hc.
    split; [ | intros; discriminate ].
    split; [ intros [H _]; congruence | intros [H _]; discriminate ].
  - (* CpuReCheck *)
    destruct (pds_final t) as [p |]; [ | discriminate ].
    inversion Hc; subst; clear Hc. unfold finish_task. rewrite Herr. simpl.
    destruct (progress_final (kern t)); simpl.
    + rewrite Herr. simpl.
      split; [ split; [ intros (_ & H & _); discriminate
                      | intros [_ H]; discriminate ] | ].
      intros _ _. repeat split; try reflexivity; exact Herr.
    + split; [ | intros _ H; discriminate ].
      split; [ intros _; split; reflexivity | ].
      intros _. split; [ discriminate | ].
      destruct ((ntasks_running (h p) - 1 =? 0) && is_dereferenced (h p));
        simpl; split; reflexivity.
  - (* no data space *)
    split; [ | intros H; discriminate ].
    split; [ | intros [H _]; discriminate ].
    intros (_ & H & _). exfalso.
    destruct (progress_final (kern t)); simpl in Hc.
    + destruct (pds_final t) as [p |]; [ | discriminate ].
      inversion Hc; subst; clear Hc. unfold retry_with_new_final in H.
      destruct (ntasks_running
                  (set_ntasks_running (set_is_dereferenced (h p) true)
                     (ntasks_running (set_is_dereferenced (h p) true) - 1))
                =? 0); simpl in H; congruence.
    + inversion Hc; subst; clear Hc. simpl in H. congruence.
  - (* any other error *)
    destruct (pds_final t) as [p |]; [ | discriminate ].
    inversion Hc; subst; clear Hc.
    split; [ | intros; discriminate ].
    split; [ | intros [H _]; discriminate ].
    intros (_ & H & _). exfalso.
    unfold finish_task in H. rewrite Herr in H. simpl in H.
    repeat match type of H with
           | context [if ?b then _ else _] => destruct b
           end; simpl in H; congruence.
Qed.

(** C3: the completion of a reduction task whose kernel reported
    CpuReCheck before it wrote to the final buffer, on a final buffer that
    other tasks still use (or that is not dereferenced): the error is
    cleared and [cpu_fallback] set, and then, the error being cleared, the
    task takes the branch of the tasks that succeeded: the completion
    returns -1, which releases the task.  It is not returned to the
    backend, so that [gpupreagg_next_tuple] never reads its rows through
    the fallback. *)
Theorem cpu_fallback_task_released :
  forall retry_slot_length t s h p,
    reduction_mode (kern t) <> GPUPREAGG_ONLY_TERMINATION ->
    task_errcode t = StromError_CpuReCheck ->
    progress_final (kern t) = false ->
    pds_final t = Some p ->
    (ntasks_running (h p) - 1 =? 0) && is_dereferenced (h p) = false ->
    exists o,
      gpupreagg_complete_task retry_slot_length t s h = Ok o
      /\ switched_to_fallback t o
      /\ gpupreagg_next_tuple (o_task o) = FromFallback
      /\ retval o = -1
      /\ dispose (retval o) = ReleaseTask
      /\ ~ rows_reevaluated o.
Proof.
  intros retry_slot_length t s h p Hmode Herr Hprog Hp Hlast.
  unfold gpupreagg_complete_task.
  rewrite (mode_eqb_neq _ _ Hmode), Herr, Hp. simpl.
  eexists. split; [ reflexivity | ].
  unfold finish_task, switched_to_fallback, rows_reevaluated,
    gpupreagg_next_tuple.
  rewrite Herr, Hprog. simpl. rewrite Hlast. simpl.
  repeat split; try reflexivity; try discriminate.
  intros [H _]. discriminate.
Qed.

Lemma cpu_fallback_task_released_witness :
  exists o,
    gpupreagg_complete_task sample_slot_length
      (sample_task StromError_CpuReCheck false) sample_sstate shared_heap
    = Ok o
    /\ ntasks_running (shared_heap 7) = 2
    /\ cpu_fallback (o_task o) = true
    /\ retval o = -1
    /\ ~ rows_reevaluated o.
Proof.
  destruct (cpu_fallback_task_released sample_slot_length
              (sample_task StromError_CpuReCheck false)
              sample_sstate shared_heap 7)
    as (o & H & (_ & _ & Hf) & _ & Hret & _ & Hno).
  - discriminate.
  - reflexivity.
  - reflexivity.
  - reflexivity.
  - reflexivity.
  - exists o. split; [ exact H | ]. split; [ reflexivity | ].
    split; [ exact Hf | ]. split; [ exact Hret | exact Hno ].
Defined.

(** ** The life of a final buffer *)

Lemma heap_set_same : forall h p v, heap_set h p v p = v.
Proof. intros h p v. unfold heap_set. rewrite Z.eqb_refl. reflexivity. Qed.

(** The overflow before the final buffer is written leaves the buffer
    alone. *)
Lemma retry_with_larger_slot_quiet :
  forall retry_slot_length t s h,
    reduction_mode (kern t) <> GPUPREAGG_ONLY_TERMINATION ->
    let o := retry_with_larger_slot retry_slot_length t s h in
    o_sstate o = s /\ o_heap o = h
    /\ Lifetime.fires_terminator o = false
    /\ Lifetime.frees_final o = false.
Proof.
  intros retry_slot_length t s h Hmode o. subst o.
  unfold retry_with_larger_slot, Lifetime.fires_terminator,
    Lifetime.frees_final. simpl.
  rewrite (mode_eqb_neq _ _ Hmode).
  destruct (with_nvme_strom t && negb (m_kds_in t =? 0)); simpl; auto.
Qed.

(** The overflow of the final buffer dereferences it, and fires the
    terminator when the task was the last one running on it. *)
Lemma retry_with_new_final_spec :
  forall t p s h,
    let o := retry_with_new_final t p s h in
    ntasks_running (o_heap o p) = ntasks_running (h p) - 1
    /\ is_dereferenced (o_heap o p) = true
    /\ ss_pds_final (o_sstate o) <> Some p
    /\ Lifetime.fires_terminator o = (ntasks_running (h p) - 1 =? 0)
    /\ Lifetime.frees_final o = false.
Proof.
  intros t p s h o. subst o. unfold retry_with_new_final.
  simpl ntasks_running.
  assert (Hss : ss_pds_final
                  (if same_final (ss_pds_final s) p then detach_final s else s)
                <> Some p).
  { unfold same_final. destruct (ss_pds_final s) as [q |] eqn:E.
    - destruct (Z.eqb_spec q p) as [-> | Hne]; simpl.
      + discriminate.
      + rewrite E. congruence.
    - rewrite E. discriminate. }
  unfold Lifetime.fires_terminator, Lifetime.frees_final.
  destruct (ntasks_running (h p) - 1 =? 0) eqn:E; simpl;
    rewrite heap_set_same; simpl;
    destruct (with_nvme_strom t && negb (m_kds_in t =? 0)); simpl;
    repeat split; try reflexivity; try exact Hss.
Qed.

(** Any other completion releases the task's hold on the buffer; the
    terminator is fired, or the buffer freed, exactly when no task runs on
    the buffer any more and the buffer is dereferenced. *)
Lemma finish_task_spec :
  forall t p s h,
    reduction_mode (kern t) <> GPUPREAGG_ONLY_TERMINATION ->
    let o := finish_task t p s h in
    ntasks_running (o_heap o p) = ntasks_running (h p) - 1
    /\ is_dereferenced (o_heap o p) = is_dereferenced (h p)
    /\ o_sstate o = s
    /\ Lifetime.fires_terminator o || Lifetime.frees_final o
       = (ntasks_running (h p) - 1 =? 0) && is_dereferenced (h p)
    /\ (Lifetime.frees_final o = true ->
        (ntasks_running (h p) - 1 =? 0) && is_dereferenced (h p) = true).
Proof.
  intros t p s h Hmode o. subst o. unfold finish_task.
  simpl ntasks_running. simpl is_dereferenced.
  unfold Lifetime.fires_terminator, Lifetime.frees_final.
  pose proof (mode_eqb_neq _ _ Hmode) as Hm.
  destruct ((ntasks_running (h p) - 1 =? 0) && is_dereferenced (h p));
    destruct (errcode_eqb (task_errcode t) StromError_CpuReCheck
              && negb (progress_final (kern t)));
    simpl;
    try destruct (errcode_eqb (task_errcode t) StromError_Success);
    simpl; rewrite ?heap_set_same; simpl; rewrite ?Hm;
    destruct (with_nvme_strom t && negb (m_kds_in t =? 0)); simpl;
    repeat split; try reflexivity; intros; try discriminate.
Qed.

(** A failed launch releases the hold of the task; the buffer is freed
    exactly when no task runs on it any more and it is dereferenced. *)
Lemma process_task_catch_spec :
  forall t p h t' h' tr,
    process_task_catch t p h = (t', h', tr) ->
    ntasks_running (h' p) = ntasks_running (h p) - 1
    /\ is_dereferenced (h' p) = is_dereferenced (h p)
    /\ existsb Lifetime.is_free_final tr
       = (ntasks_running (h p) - 1 =? 0) && is_dereferenced (h p).
Proof.
  intros t p h t' h' tr H. unfold process_task_catch in H.
  simpl ntasks_running in H. simpl is_dereferenced in H.
  destruct (cleanup_spec t ((ntasks_running (h p) - 1 =? 0)
                            && is_dereferenced (h p)))
    as (_ & _ & _ & _ & Hfree & _).
  destruct (gpupreagg_cleanup_cuda_resources t
              ((ntasks_running (h p) - 1 =? 0) && is_dereferenced (h p)))
    as [t1 tr1].
  inversion H; subst; clear H. rewrite heap_set_same. simpl.
  repeat split; try reflexivity. exact Hfree.
Qed.

(** The termination-only task releases the device memory of the buffer. *)
Lemma terminator_frees :
  forall retry_slot_length t s h,
    reduction_mode (kern t) = GPUPREAGG_ONLY_TERMINATION ->
    exists o,
      gpupreagg_complete_task retry_slot_length t s h = Ok o
      /\ o_sstate o = s /\ o_heap o = h /\ retval o = 0
      /\ Lifetime.frees_final o = true.
Proof.
  intros retry_slot_length t s h Hmode.
  unfold gpupreagg_complete_task. rewrite Hmode. simpl.
  eexists. split; [ reflexivity | ].
  unfold Lifetime.frees_final. simpl.
  destruct (with_nvme_strom t && negb (m_kds_in t =? 0)); simpl; auto.
Qed.

Section LifetimeProofs.
Variable retry_slot_length : Z -> Z -> Z.
Variable T : Z.
Variable p : Z.

Let inv := Lifetime.lifetime_inv p.
Let step := Lifetime.step retry_slot_length T p.

Lemma initial_inv : forall w, Lifetime.initial p w -> inv w.
Proof.
  intros w (Ha & Ht & Hf & Hd & Hn).
  unfold inv, Lifetime.lifetime_inv, Lifetime.released_condition.
  rewrite Ha, Ht, Hf, Hd. simpl.
  split; [ exact Hn | ].
  split; [ discriminate | ].
  split; [ intros [H | H]; discriminate | intros [_ H]; discriminate ].
Qed.

(** Every event keeps the invariant. *)
Lemma step_inv : forall w w', step w w' -> inv w -> inv w'.
Proof.
  intros w w' Hstep (Hcnt & Hderef & Hfire).
  unfold inv, Lifetime.lifetime_inv, Lifetime.released_condition in *.
  destruct Hstep as [w t t' h' tr Hss Hsetup
                    | w t t' s' h' Hss Hatt
                    | w t o Hp Hmode Hpos Hc
                    | w t t' h' tr Hp Hmode Hpos Hcatch
                    | w t o Hterm Hmode Hc
                    | w s' h' Hh Hs]; simpl.
  - (* a task attaches the buffer *)
    unfold gpupreagg_setup_strategy in Hsetup. rewrite Hss in Hsetup.
    inversion Hsetup; subst; clear Hsetup. rewrite heap_set_same. simpl.
    assert (Hnd : is_dereferenced (Lifetime.w_heap w p) = false).
    { destruct (is_dereferenced (Lifetime.w_heap w p)); [ | reflexivity ].
      exfalso. apply Hderef; [ reflexivity | exact Hss ]. }
    rewrite Hnd in *.
    split; [ lia | ].
    split; [ discriminate | ].
    split; [ intros H; apply Hfire in H; destruct H; discriminate
           | intros [_ H]; discriminate ].
  - (* a task attaches the buffer, the last one dereferences it *)
    unfold attach_final_buffer in Hatt. rewrite Hss in Hatt.
    assert (Hnd : is_dereferenced (Lifetime.w_heap w p) = false).
    { destruct (is_dereferenced (Lifetime.w_heap w p)); [ | reflexivity ].
      exfalso. apply Hderef; [ reflexivity | exact Hss ]. }
    assert (Hnf : ~ (Lifetime.w_terminating w = true
                     \/ Lifetime.w_freed w = true)).
    { intros H. apply Hfire in H. destruct H. congruence. }
    destruct (is_last_task t); inversion Hatt; subst; clear Hatt;
      rewrite heap_set_same; simpl.
    + split; [ lia | ].
      split; [ intros _; discriminate | ].
      split; [ tauto | intros [H _]; lia ].
    + rewrite Hnd.
      split; [ lia | ].
      split; [ discriminate | ].
      split; [ tauto | intros [_ H]; discriminate ].
  - (* a task that holds the buffer completes *)
    assert (Hrun : 1 <= ntasks_running (Lifetime.w_heap w p)) by lia.
    assert (Hnf : Lifetime.w_terminating w = false
                  /\ Lifetime.w_freed w = false).
    { destruct (Lifetime.w_terminating w) eqn:E1;
        destruct (Lifetime.w_freed w) eqn:E2; try (split; reflexivity);
        exfalso;
        assert (H : ntasks_running (Lifetime.w_heap w p) = 0) by
          (apply Hfire; auto); lia. }
    destruct Hnf as [Hnt Hnf]. rewrite Hnt, Hnf. simpl.
    unfold gpupreagg_complete_task in Hc.
    rewrite (mode_eqb_neq _ _ Hmode), Hp in Hc.
    destruct (errcode_eqb (task_errcode t) StromError_DataStoreNoSpace).
    + destruct (progress_final (kern t)); simpl in Hc;
        inversion Hc; subst o; clear Hc.
      * destruct (retry_with_new_final_spec t p (Lifetime.w_sstate w)
                    (Lifetime.w_heap w)) as (H1 & H2 & H3 & H4 & H5).
        rewrite H1, H2, H4, H5.
        split; [ lia | ].
        split; [ intros _; exact H3 | ].
        split; [ intros [H | H]; [ | discriminate ];
                 apply Z.eqb_eq in H; split; [ lia | reflexivity ]
               | intros [H _]; left; apply Z.eqb_eq; lia ].
      * destruct (retry_with_larger_slot_quiet retry_slot_length t
                    (Lifetime.w_sstate w) (Lifetime.w_heap w) Hmode)
          as (H1 & H2 & H3 & H4).
        rewrite H1, H2, H3, H4.
        split; [ lia | ].
        split; [ exact Hderef | ].
        split; [ intros [H | H]; discriminate | intros [H _]; lia ].
    + inversion Hc; subst o; clear Hc.
      destruct (finish_task_spec t p (Lifetime.w_sstate w)
                  (Lifetime.w_heap w) Hmode) as (H1 & H2 & H3 & H4 & H5).
      rewrite H1, H2, H3.
      split; [ lia | ].
      split; [ exact Hderef | ].
      rewrite <- orb_true_iff, H4, andb_true_iff, Z.eqb_eq.
      split; intros [Ha Hb]; split; try assumption; lia.
  - (* a task that holds the buffer fails at its launch *)
    assert (Hnf : Lifetime.w_terminating w = false
                  /\ Lifetime.w_freed w = false).
    { destruct (Lifetime.w_terminating w) eqn:E1;
        destruct (Lifetime.w_freed w) eqn:E2; try (split; reflexivity);
        exfalso;
        assert (H : ntasks_running (Lifetime.w_heap w p) = 0) by
          (apply Hfire; auto); lia. }
    destruct Hnf as [Hnt Hnf]. rewrite Hnt, Hnf. simpl.
    destruct (process_task_catch_spec _ _ _ _ _ _ Hcatch) as (H1 & H2 & H3).
    rewrite H1, H2, H3.
    split; [ lia | ].
    split; [ exact Hderef | ].
    rewrite andb_true_iff, Z.eqb_eq.
    split; [ intros [H | H]; [ discriminate | exact H ]
           | intros H; right; exact H ].
  - (* the termination-only task completes *)
    destruct (terminator_frees retry_slot_length t (Lifetime.w_sstate w)
                (Lifetime.w_heap w) Hmode) as (o' & Ho & H1 & H2 & _ & H4).
    rewrite Ho in Hc. inversion Hc; subst o'; clear Hc.
    rewrite H1, H2, H4, orb_true_r.
    split; [ exact Hcnt | ].
    split; [ exact Hderef | ].
    split; [ intros _; apply Hfire; left; exact Hterm
           | intros _; right; reflexivity ].
  - (* something happens elsewhere *)
    rewrite Hh.
    split; [ exact Hcnt | ].
    split; [ intros Hd Hs'; apply (Hderef Hd), Hs, Hs' | exact Hfire ].
Qed.

Lemma steps_inv :
  forall w0 w,
    Lifetime.steps retry_slot_length T p w0 w -> inv w0 -> inv w.
Proof.
  intros w0 w Hsteps. induction Hsteps as [| w1 w2 w3 _ IH Hstep]; intros H0.
  - exact H0.
  - apply (step_inv w2 w3 Hstep). apply IH. exact H0.
Qed.

(** The release of a reference to the shared state ([ExecEndGpuPreAgg])
    touches no final buffer: for the buffer under watch it is an event
    elsewhere. *)
Lemma put_shared_state_elsewhere :
  forall w,
    step w (Lifetime.mk_world
              (fst (put_gpupreagg_shared_state (Lifetime.w_sstate w)))
              (Lifetime.w_heap w) (Lifetime.w_attached w)
              (Lifetime.w_terminating w) (Lifetime.w_freed w)).
Proof.
  intros w. apply Lifetime.step_elsewhere; [ reflexivity | ].
  simpl. intros H. exact H.
Qed.

End LifetimeProofs.

(** C1: along every sequence of events on one final buffer (tasks attach
    it, tasks that hold it complete, its terminator completes), the
    terminator of the buffer has been fired -- the termination-only task is
    queued or has already released the device memory of the buffer -- if and
    only if no task runs on the buffer any more and the buffer is
    dereferenced; the device memory is never released while a task runs on
    the buffer or before the buffer is dereferenced, and the queued
    termination-only task does release it. *)
Theorem final_buffer_release :
  forall retry_slot_length T p w0 w,
    Lifetime.initial p w0 ->
    Lifetime.steps retry_slot_length T p w0 w ->
    ((Lifetime.w_terminating w = true \/ Lifetime.w_freed w = true)
     <-> ntasks_running (Lifetime.w_heap w p) = 0
         /\ is_dereferenced (Lifetime.w_heap w p) = true)
    /\ (Lifetime.w_freed w = true ->
        ntasks_running (Lifetime.w_heap w p) = 0
        /\ is_dereferenced (Lifetime.w_heap w p) = true)
    /\ (Lifetime.w_terminating w = true ->
        forall t,
          reduction_mode (kern t) = GPUPREAGG_ONLY_TERMINATION ->
          exists o,
            gpupreagg_complete_task retry_slot_length t
              (Lifetime.w_sstate w) (Lifetime.w_heap w) = Ok o
            /\ Lifetime.frees_final o = true).
Proof.
  intros retry_slot_length T p w0 w Hinit Hsteps.
  pose proof (steps_inv retry_slot_length T p w0 w Hsteps
                (initial_inv p w0 Hinit)) as (_ & _ & Hfire).
  unfold Lifetime.released_condition in Hfire.
  split; [ exact Hfire | ].
  split; [ intros H; apply Hfire; right; exact H | ].
  intros _ t Hmode.
  destruct (terminator_frees retry_slot_length t (Lifetime.w_sstate w)
              (Lifetime.w_heap w) Hmode) as (o & Ho & _ & _ & _ & Hf).
  exists o. split; assumption.
Qed.

Lemma final_buffer_release_witness :
  exists w,
    Lifetime.initial 7 sample_world
    /\ Lifetime.steps sample_slot_length 1024 7 sample_world w
    /\ Lifetime.w_freed w = true
    /\ ntasks_running (Lifetime.w_heap w 7) = 0
    /\ is_dereferenced (Lifetime.w_heap w 7) = true.
Proof.
  assert (Hinit : Lifetime.initial 7 sample_world).
  { unfold Lifetime.initial. simpl. repeat split; try reflexivity. }
  assert (Hrun : exists w,
             Lifetime.steps sample_slot_length 1024 7 sample_world w
             /\ Lifetime.w_freed w = true).
  { eexists. split.
    - eapply Lifetime.steps_snoc.
      + eapply Lifetime.steps_snoc.
        * eapply Lifetime.steps_snoc.
          -- apply Lifetime.steps_refl.
          -- eapply Lifetime.step_attach_last with (t := fresh_task);
               reflexivity.
        * eapply Lifetime.step_complete
            with (t := sample_task StromError_Success true);
            [ reflexivity | discriminate | simpl; lia | reflexivity ].
      + eapply Lifetime.step_terminate with (t := sample_terminator);
          reflexivity.
    - reflexivity. }
  destruct Hrun as (w & Hsteps & Hfreed).
  exists w. split; [ exact Hinit | ]. split; [ exact Hsteps | ].
  split; [ exact Hfreed | ].
  apply (final_buffer_release sample_slot_length 1024 7 sample_world w
           Hinit Hsteps).
  exact Hfreed.
Defined.

(** ** The tasks of one shared state *)

Lemma same_stats_refl : forall s, same_stats s s.
Proof. intros s. unfold same_stats. repeat split. Qed.

(** A completion leaves the statistics of the shared state alone. *)
Lemma complete_task_stats :
  forall retry_slot_length t s h o,
    gpupreagg_complete_task retry_slot_length t s h = Ok o ->
    same_stats (o_sstate o) s.
Proof.
  intros retry_slot_length t s h o H.
  unfold gpupreagg_complete_task in H.
  destruct (mode_eqb (reduction_mode (kern t)) GPUPREAGG_ONLY_TERMINATION).
  { destruct (gpupreagg_cleanup_cuda_resources t true) as [t1 tr].
    inversion H; subst. apply same_stats_refl. }
  destruct (errcode_eqb (task_errcode t) StromError_DataStoreNoSpace).
  - destruct (negb (progress_final (kern t))).
    + inversion H; subst. unfold retry_with_larger_slot.
      destruct (gpupreagg_cleanup_cuda_resources t false) as [t1 tr].
      apply same_stats_refl.
    + destruct (pds_final t) as [p |]; [ | discriminate ].
      inversion H; subst. unfold retry_with_new_final.
      destruct (ntasks_running _ =? 0).
      * destruct (gpupreagg_push_terminator_task t) as [t1 tr1].
        destruct (gpupreagg_cleanup_cuda_resources t1 false) as [t2 tr2].
        simpl. destruct (same_final (ss_pds_final s) p);
          unfold same_stats; simpl; repeat split.
      * destruct (gpupreagg_cleanup_cuda_resources t false) as [t2 tr2].
        simpl. destruct (same_final (ss_pds_final s) p);
          unfold same_stats; simpl; repeat split.
  - destruct (pds_final t) as [p |]; [ | discriminate ].
    inversion H; subst. unfold finish_task. cbv zeta.
    destruct (errcode_eqb (task_errcode _) StromError_Success).
    + destruct (negb _).
      * destruct (gpupreagg_cleanup_cuda_resources _ false) as [t2 tr].
        apply same_stats_refl.
      * apply same_stats_refl.
    + destruct (gpupreagg_cleanup_cuda_resources _ _) as [t2 tr].
      apply same_stats_refl.
Qed.

(** A response of the device never lowers the observed number of groups,
    which stays a [cl_uint], and leaves the rest of the statistics alone. *)
Lemma respond_task_stats :
  forall status t s t1 s1 urgent,
    gpupreagg_respond_task status t s = (t1, s1, urgent) ->
    0 <= exec_ngroups s < 2 ^ 32 ->
    plan_ngroups s1 = plan_ngroups s
    /\ exec_ngroups s <= exec_ngroups s1 < 2 ^ 32
    /\ n_tasks_nogrp s1 = n_tasks_nogrp s
    /\ n_tasks_local s1 = n_tasks_local s
    /\ n_tasks_global s1 = n_tasks_global s
    /\ n_tasks_final s1 = n_tasks_final s.
Proof.
  intros status t s t1 s1 urgent H Hexec.
  unfold gpupreagg_respond_task in H.
  destruct (status =? 0).
  - cbv zeta in H.
    destruct (errcode_eqb _ StromError_Success); inversion H; subst; simpl;
      repeat split; try lia.
    + apply Max_ge.
    + pose proof (u32_range (f_nitems s + num_groups (kern t))) as Hu.
      destruct (Max_cases (exec_ngroups s)
                  (u32 (f_nitems s + num_groups (kern t)))) as [E | E];
        rewrite E; lia.
  - inversion H; subst. repeat split; lia.
Qed.

(** Counting one more kernel, as long as the counters do not wrap. *)
Lemma count_kernel_stats :
  forall m s s2,
    count_reduction_kernel m s = Ok s2 ->
    counters_ok s 1 ->
    plan_ngroups s2 = plan_ngroups s
    /\ exec_ngroups s2 = exec_ngroups s
    /\ counters_ok s2 0
    /\ n_tasks_nogrp s2 + n_tasks_local s2 + n_tasks_global s2
       + n_tasks_final s2
       = n_tasks_nogrp s + n_tasks_local s + n_tasks_global s
         + n_tasks_final s + 1.
Proof.
  intros m s s2 H (H1 & H2 & H3 & H4 & Hsum).
  change (Z.of_nat 1) with 1 in Hsum.
  destruct m; simpl in H; inversion H; subst; clear H;
    unfold counters_ok; simpl;
    rewrite ?(u32_small (_ + 1)) by lia;
    repeat split; lia.
Qed.

Lemma num_tasks_counted :
  forall w, sys_inv w -> num_tasks (y_sstate w) = Z.of_nat (y_launched w).
Proof.
  intros w (_ & _ & (H1 & H2 & H3 & H4 & Hsum) & Hl & _).
  unfold num_tasks. rewrite Hl. apply u32_small. lia.
Qed.

Section SystemFacts.
Variables slot_length retry_slot_length : Z -> Z -> Z.
Variable T : Z.
Variable gpas : GpuPreAggState.

(** A step selects at most one mode: the one the shared state gives for
    the rows of the task, at a set-up that leaves the shared state as it
    is. *)
Lemma sys_step_selected :
  forall w w',
    sys_step slot_length retry_slot_length T gpas w w' ->
    y_selected w' = y_selected w
    \/ exists n,
         y_selected w'
         = y_selected w ++ [(n, select_reduction_mode T (y_sstate w) n)]
         /\ y_sstate w' = y_sstate w.
Proof.
  assert (Hsel : forall t t1 s h o tr,
            gpupreagg_setup_strategy T t s h = (o, tr) ->
            setup_task o = t1 ->
            selection t t1 = []
            \/ selection t t1
               = [(nitems_real (kern t),
                   select_reduction_mode T s (nitems_real (kern t)))]).
  { intros t t1 s h o tr Hsetup Ho. unfold selection.
    destruct (reduction_mode (kern t)) eqn:Em; try (left; reflexivity).
    right. destruct (setup_strategy_decides T t s h Em) as [Hm _].
    rewrite Hsetup in Hm. simpl in Hm. rewrite Ho in Hm. rewrite Hm.
    reflexivity. }
  intros w w' Hstep.
  destruct Hstep as
    [ w pds is_last t s1 Hcreate
    | w l1 t l2 t1 h1 tr Hw Hmode Hsetup
    | w l1 t l2 t1 tr Hw Hmode Hsetup
    | w l1 t l2 s2 Hw Hcount
    | w l1 t l2 p t' h' tr Hw Hp Hcatch
    | w l1 t l2 status e progress ngroups usage t1 s1 urgent Hr Hresp
    | w l1 t l2 o Hr Hcomp
    | w l1 t l2 status t1 s1 urgent Hw Hmode Hresp
    | w l1 t l2 o Hw Hmode Hcomp ];
    cbn [y_sstate y_selected]; try (left; reflexivity).
  - destruct (Hsel _ t1 _ _ _ _ Hsetup eq_refl) as [E | E]; rewrite E.
    + left. apply app_nil_r.
    + right. eexists. split; reflexivity.
  - destruct (Hsel _ t1 _ _ _ _ Hsetup eq_refl) as [E | E]; rewrite E.
    + left. apply app_nil_r.
    + right. eexists. split; reflexivity.
Qed.

(** What one step does to the statistics. *)
Lemma sys_step_facts :
  forall w w',
    sys_step slot_length retry_slot_length T gpas w w' ->
    sys_inv w ->
    Z.of_nat (y_launched w') < 2 ^ 32 ->
    sys_inv w'
    /\ exec_ngroups (y_sstate w) <= exec_ngroups (y_sstate w')
    /\ (y_launched w <= y_launched w')%nat.
Proof.
  intros w w' Hstep (Hplan & Hexec & Hcnt & Hsum & Hrun) Hlt.
  destruct Hstep as
    [ w pds is_last t s1 Hcreate
    | w l1 t l2 t1 h1 tr Hw Hmode Hsetup
    | w l1 t l2 t1 tr Hw Hmode Hsetup
    | w l1 t l2 s2 Hw Hcount
    | w l1 t l2 p t' h' tr Hw Hp Hcatch
    | w l1 t l2 status e progress ngroups usage t1 s1 urgent Hr Hresp
    | w l1 t l2 o Hr Hcomp
    | w l1 t l2 status t1 s1 urgent Hw Hmode Hresp
    | w l1 t l2 o Hw Hmode Hcomp ];
    unfold sys_inv;
    cbn [y_sstate y_heap y_waiting y_running y_selected y_launched
         y_completed] in *.
  - apply create_task_sstate in Hcreate. subst s1.
    split; [ | simpl; lia ].
    unfold counters_ok in *. simpl. tauto.
  - split; [ tauto | lia ].
  - split; [ tauto | lia ].
  - assert (Hc1 : counters_ok (y_sstate w) 1).
    { unfold counters_ok in *. lia. }
    destruct (count_kernel_stats _ _ _ Hcount Hc1) as (Hp & He & Hc & Hs).
    rewrite Hp, He, Hs, Hsum.
    split; [ | lia ].
    split; [ exact Hplan | ]. split; [ exact Hexec | ].
    split; [ exact Hc | ]. simpl List.length. lia.
  - split; [ tauto | lia ].
  - destruct (respond_task_stats _ _ _ _ _ _ Hresp Hexec)
      as (Hp & He & H1 & H2 & H3 & H4).
    split; [ | lia ].
    unfold counters_ok in *. rewrite Hp, H1, H2, H3, H4.
    repeat split; try tauto; try lia.
    rewrite Hrun, Hr, !length_app. simpl. lia.
  - destruct (complete_task_stats _ _ _ _ _ Hcomp)
      as (Hp & He & H1 & H2 & H3 & H4).
    split; [ | lia ].
    unfold counters_ok in *. rewrite Hp, He, H1, H2, H3, H4.
    repeat split; try tauto; try lia.
    rewrite Hrun, Hr, !length_app. simpl. lia.
  - destruct (respond_task_stats _ _ _ _ _ _ Hresp Hexec)
      as (Hp & He & H1 & H2 & H3 & H4).
    split; [ | lia ].
    unfold counters_ok in *. rewrite Hp, H1, H2, H3, H4.
    repeat split; try tauto; try lia.
  - destruct (complete_task_stats _ _ _ _ _ Hcomp)
      as (Hp & He & H1 & H2 & H3 & H4).
    split; [ | lia ].
    unfold counters_ok in *. rewrite Hp, He, H1, H2, H3, H4.
    repeat split; try tauto; try lia.
Qed.

Lemma new_system_inv :
  forall p natts_ nrooms_ h, sys_inv (new_system p natts_ nrooms_ h).
Proof.
  intros. unfold sys_inv, counters_ok. simpl. repeat split; try lia.
Qed.

(** The number of counted kernels only grows. *)
Lemma sys_steps_launched :
  forall w0 w,
    sys_steps slot_length retry_slot_length T gpas w0 w ->
    sys_inv w0 ->
    Z.of_nat (y_launched w) < 2 ^ 32 ->
    sys_inv w /\ (y_launched w0 <= y_launched w)%nat.
Proof.
  intros w0 w Hsteps. induction Hsteps as [w | w1 w2 w3 Hsteps IH Hstep];
    intros Hinv Hlt.
  - split; [ exact Hinv | lia ].
  - assert (Hl : (y_launched w2 <= y_launched w3)%nat).
    { destruct Hstep; simpl; lia. }
    destruct (IH Hinv ltac:(lia)) as [Hinv2 Hle].
    destruct (sys_step_facts _ _ Hstep Hinv2 Hlt) as (Hinv3 & _).
    split; [ exact Hinv3 | lia ].
Qed.

Lemma sys_steps_cons :
  forall w1 w2 w3,
    sys_step slot_length retry_slot_length T gpas w1 w2 ->
    sys_steps slot_length retry_slot_length T gpas w2 w3 ->
    sys_steps slot_length retry_slot_length T gpas w1 w3.
Proof.
  intros w1 w2 w3 Hstep Hsteps.
  induction Hsteps as [w | w2 w3 w4 Hsteps IH Hlast].
  - eapply sys_steps_snoc; [ apply sys_steps_refl | exact Hstep ].
  - eapply sys_steps_snoc; [ apply IH; exact Hstep | exact Hlast ].
Qed.

(** Every selected mode is LOCAL, GLOBAL or FINAL. *)
Lemma sys_steps_selected_range :
  forall w0 w,
    sys_steps slot_length retry_slot_length T gpas w0 w ->
    y_selected w0 = [] ->
    Forall (fun m => m = GPUPREAGG_LOCAL_REDUCTION
                     \/ m = GPUPREAGG_GLOBAL_REDUCTION
                     \/ m = GPUPREAGG_FINAL_REDUCTION)
           (selected_modes (y_selected w)).
Proof.
  intros w0 w Hsteps. induction Hsteps as [w | w1 w2 w3 Hsteps IH Hstep];
    intros Hnil.
  - rewrite Hnil. constructor.
  - destruct (sys_step_selected _ _ Hstep) as [E | (k & E & _)]; rewrite E.
    + apply IH, Hnil.
    + unfold selected_modes. rewrite map_app. apply Forall_app.
      split; [ apply IH, Hnil | ].
      constructor; [ apply select_reduction_mode_range | constructor ].
Qed.

Lemma never_regresses_snoc :
  forall l m,
    never_regresses l ->
    Forall (fun m' => mode_rank m' <= mode_rank m) l ->
    never_regresses (l ++ [m]).
Proof.
  induction l as [| a l IH]; intros m Hn Hle; simpl.
  - split; [ constructor | exact I ].
  - destruct Hn as [Ha Hn]. inversion Hle as [| a' l' Ham Hl]; subst.
    split.
    + apply Forall_app. split; [ exact Ha | ].
      constructor; [ exact Ham | constructor ].
    + apply IH; assumption.
Qed.

(** While all selections are made for tasks of [n] rows, each selected
    mode is at most the one the present state would select, and the
    selected modes never move backward. *)
Lemma sys_steps_selected :
  forall n w0 w,
    sys_steps slot_length retry_slot_length T gpas w0 w ->
    sys_inv w0 ->
    y_selected w0 = [] ->
    Z.of_nat (y_launched w) < 2 ^ 32 ->
    Forall (fun x => fst x = n) (y_selected w) ->
    Forall (fun m => mode_rank m
                     <= mode_rank (select_reduction_mode T (y_sstate w) n))
           (selected_modes (y_selected w))
    /\ never_regresses (selected_modes (y_selected w)).
Proof.
  intros n w0 w Hsteps.
  induction Hsteps as [w | w1 w2 w3 Hsteps IH Hstep];
    intros Hinv Hnil Hlt Hall.
  - rewrite Hnil. simpl. split; [ constructor | exact I ].
  - assert (Hl : (y_launched w2 <= y_launched w3)%nat).
    { destruct Hstep; simpl; lia. }
    destruct (sys_steps_launched _ _ Hsteps Hinv ltac:(lia)) as [Hinv2 _].
    destruct (sys_step_facts _ _ Hstep Hinv2 Hlt) as (Hinv3 & Hexec & _).
    pose proof (sys_step_selected _ _ Hstep) as Hsel.
    assert (Hall2 : Forall (fun x => fst x = n) (y_selected w2)).
    { destruct Hsel as [E | (k & E & _)]; rewrite E in Hall;
        [ exact Hall | apply Forall_app in Hall; tauto ]. }
    destruct (IH Hinv Hnil ltac:(lia) Hall2) as [Hle Hnr].
    assert (Hmono :
      mode_rank (select_reduction_mode T (y_sstate w2) n)
      <= mode_rank (select_reduction_mode T (y_sstate w3) n)).
    { pose proof Hinv2 as (Hp2 & He2 & _).
      pose proof Hinv3 as (Hp3 & He3 & _).
      apply select_mode_monotone; try assumption; try lia.
      rewrite (num_tasks_counted w2 Hinv2), (num_tasks_counted w3 Hinv3).
      lia. }
    destruct Hsel as [E | (k & E & Es)].
    + rewrite E. split; [ | exact Hnr ].
      eapply Forall_impl; [ | exact Hle ]. simpl. intros m Hm. lia.
    + rewrite E in Hall |- *. unfold selected_modes in *.
      rewrite map_app. simpl.
      apply Forall_app in Hall. destruct Hall as [_ Hk].
      assert (Hkn : k = n).
      { inversion Hk as [| x l Hx _]. exact Hx. }
      subst k.
      rewrite Es.
      split.
      * apply Forall_app. split; [ exact Hle | ].
        constructor; [ lia | constructor ].
      * apply never_regresses_snoc; assumption.
Qed.

End SystemFacts.



(** ** The modes of successive tasks *)

(** A task that a completion queues comes with a mode: the one it had, or
    FINAL-ONLY, or it is a termination-only task. *)
Lemma requeued_has_mode :
  forall retry_slot_length t s h o t',
    gpupreagg_complete_task retry_slot_length t s h = Ok o ->
    In t' (requeued o) ->
    reduction_mode (kern t') = reduction_mode (kern t)
    \/ reduction_mode (kern t') = GPUPREAGG_FINAL_REDUCTION
    \/ reduction_mode (kern t') = GPUPREAGG_ONLY_TERMINATION.
Proof.
  intros retry_slot_length t s h o t' H Hin.
  unfold gpupreagg_complete_task, retry_with_larger_slot,
    retry_with_new_final, finish_task, gpupreagg_push_terminator_task,
    gpupreagg_cleanup_cuda_resources in H.
  cbv zeta in H.
  repeat match type of H with
         | context [match pds_final t with _ => _ end] =>
             destruct (pds_final t)
         | context [if ?b then _ else _] => destruct b
         end;
    try discriminate;
    inversion H; subst o; clear H;
    unfold requeued, pushed in Hin; simpl in Hin;
    repeat match type of Hin with
           | _ \/ _ => destruct Hin as [Hin | Hin]
           | False => contradiction
           end;
    subst t'; simpl; auto.
Qed.

(** C5 (as amended): in every run of tasks on a new shared state, while the
    32-bit task counters do not wrap, when the modes were all selected for
    tasks with the same number of rows they never move backward along
    LOCAL, GLOBAL, FINAL-ONLY, and they are all among these three; a task
    that a completion queues again comes with the mode it had, with
    FINAL-ONLY, or as a termination-only task, and its next set-up selects
    nothing. *)
Theorem mode_never_regresses_on_equal_chunks :
  forall slot_length retry_slot_length T gpas p natts_ nrooms_ h n w,
    sys_steps slot_length retry_slot_length T gpas
      (new_system p natts_ nrooms_ h) w ->
    Z.of_nat (y_launched w) < 2 ^ 32 ->
    Forall (fun x => fst x = n) (y_selected w) ->
    never_regresses (selected_modes (y_selected w))
    /\ Forall (fun m => m = GPUPREAGG_LOCAL_REDUCTION
                        \/ m = GPUPREAGG_GLOBAL_REDUCTION
                        \/ m = GPUPREAGG_FINAL_REDUCTION)
              (selected_modes (y_selected w))
    /\ (forall t s' h' o t' t1,
          reduction_mode (kern t) <> GPUPREAGG_INVALID_REDUCTION ->
          gpupreagg_complete_task retry_slot_length t s' h' = Ok o ->
          In t' (requeued o) ->
          (reduction_mode (kern t') = reduction_mode (kern t)
           \/ reduction_mode (kern t') = GPUPREAGG_FINAL_REDUCTION
           \/ reduction_mode (kern t') = GPUPREAGG_ONLY_TERMINATION)
          /\ selection t' t1 = []).
Proof.
  intros slot_length retry_slot_length T gpas p natts_ nrooms_ h n w
         Hsteps Hlt Hall.
  split; [ | split ].
  - apply (sys_steps_selected _ _ _ _ n _ _ Hsteps
             (new_system_inv p natts_ nrooms_ h) eq_refl Hlt Hall).
  - apply (sys_steps_selected_range _ _ _ _ _ _ Hsteps eq_refl).
  - intros t s' h' o t' t1 Hmode Hcomp Hin.
    pose proof (requeued_has_mode _ _ _ _ _ _ Hcomp Hin) as Hm.
    split; [ exact Hm | ].
    unfold selection.
    destruct Hm as [E | [E | E]]; rewrite E; try reflexivity.
    destruct (reduction_mode (kern t)); try reflexivity.
    contradiction Hmode. reflexivity.
Qed.

(** The call on the left of an equation is evaluated, and its result
    taken for the right. *)
Ltac evaluate_call :=
  lazymatch goal with
  | |- ?lhs = _ =>
      let v := eval vm_compute in lhs in
      transitivity v; [ vm_compute; reflexivity | reflexivity ]
  end.

(** The state a step has led to is evaluated. *)
Ltac evaluate_state :=
  lazymatch goal with
  | |- sys_steps _ _ _ _ ?w _ =>
      let v := eval vm_compute in w in change w with v
  end.

(** A run on a new shared state: a task on a chunk of 10000 rows is
    created, set up, counted, reports 9000 groups and completes; a second
    task on a chunk of 10000 rows is created and set up. *)
Lemma steady_system_run :
  exists w,
    sys_steps sample_slot_length sample_slot_length 1024 gpas_grouping
      (new_system 7 3 1000 sample_heap) w
    /\ y_selected w = [(10000, GPUPREAGG_LOCAL_REDUCTION);
                       (10000, GPUPREAGG_GLOBAL_REDUCTION)]
    /\ y_launched w = 1%nat
    /\ y_completed w = 1%nat.
Proof.
  eexists. split.
  - eapply sys_steps_cons.
    { eapply sys_create with (pds := row_chunk 10000) (is_last := false).
      evaluate_call. }
    evaluate_state. eapply sys_steps_cons.
    { eapply sys_setup with (l1 := []) (l2 := []);
        [ reflexivity | discriminate | evaluate_call ]. }
    evaluate_state. eapply sys_steps_cons.
    { eapply sys_count with (l1 := []) (l2 := []);
        [ reflexivity | evaluate_call ]. }
    evaluate_state. eapply sys_steps_cons.
    { eapply sys_respond with (l1 := []) (l2 := []) (status := 0)
        (e := StromError_Success) (progress := true) (ngroups := 9000)
        (usage := 0); [ reflexivity | evaluate_call ]. }
    evaluate_state. eapply sys_steps_cons.
    { eapply sys_complete with (l1 := []) (l2 := []);
        [ reflexivity | evaluate_call ]. }
    evaluate_state. eapply sys_steps_cons.
    { eapply sys_create with (pds := row_chunk 10000) (is_last := false).
      evaluate_call. }
    evaluate_state. eapply sys_steps_cons.
    { eapply sys_setup with (l1 := []) (l2 := []);
        [ reflexivity | discriminate | evaluate_call ]. }
    evaluate_state. apply sys_steps_refl.
  - split; [ reflexivity | ].
    split; reflexivity.
Qed.

Lemma mode_never_regresses_on_equal_chunks_witness :
  exists w,
    sys_steps sample_slot_length sample_slot_length 1024 gpas_grouping
      (new_system 7 3 1000 sample_heap) w
    /\ selected_modes (y_selected w)
       = [GPUPREAGG_LOCAL_REDUCTION; GPUPREAGG_GLOBAL_REDUCTION]
    /\ never_regresses (selected_modes (y_selected w)).
Proof.
  destruct steady_system_run as (w & Hsteps & Hsel & Hl & _).
  exists w. split; [ exact Hsteps | ].
  split; [ rewrite Hsel; reflexivity | ].
  apply (mode_never_regresses_on_equal_chunks sample_slot_length
           sample_slot_length 1024 gpas_grouping 7 3 1000 sample_heap
           10000 w Hsteps).
  - rewrite Hl. reflexivity.
  - rewrite Hsel. repeat constructor.
Defined.

(** The claim of C5 as it stands fails on three chunks of one scan, all on
    the same final buffer: while the observed number of groups grows (9000,
    9010, 9020 after the first, second and third task), the task of a chunk
    of 1000 rows runs FINAL-ONLY and the next one, on a chunk of 100000
    rows, falls back to GLOBAL. *)
Lemma mode_regresses_on_larger_chunk :
  run_summary sample_slot_length 1024 gpas_grouping
    (sample_sstate, sample_heap) [sample_chunk 10000 9000]
  = Some ([GPUPREAGG_LOCAL_REDUCTION], 9000, Some 7)
  /\ run_summary sample_slot_length 1024 gpas_grouping
       (sample_sstate, sample_heap)
       [sample_chunk 10000 9000; sample_chunk 1000 10]
     = Some ([GPUPREAGG_LOCAL_REDUCTION; GPUPREAGG_FINAL_REDUCTION],
             9010, Some 7)
  /\ run_summary sample_slot_length 1024 gpas_grouping
       (sample_sstate, sample_heap) regressing_run
     = Some ([GPUPREAGG_LOCAL_REDUCTION; GPUPREAGG_FINAL_REDUCTION;
              GPUPREAGG_GLOBAL_REDUCTION], 9020, Some 7)
  /\ ~ never_regresses [GPUPREAGG_LOCAL_REDUCTION; GPUPREAGG_FINAL_REDUCTION;
                        GPUPREAGG_GLOBAL_REDUCTION].
Proof.
  split; [ vm_compute; reflexivity | ].
  split; [ vm_compute; reflexivity | ].
  split; [ vm_compute; reflexivity | ].
  simpl. intros [_ [H _]]. inversion H; subst. simpl in *. lia.
Qed.

(* ===================================================================== *)
(** * Further properties of the catalog and of the planner side *)
(* ===================================================================== *)

Import Info Executable Rewrite Kernel Buffer Device Release Scan Stats.
Import Wellformed Partial.

(** ** Lookups in the catalog *)

Lemma oids_eqb_eq : forall a b, oids_eqb a b = true <-> a = b.
Proof.
  induction a as [| x a IH]; intros [| y b]; simpl; split; intros H;
    try reflexivity; try discriminate.
  - apply andb_true_iff in H. destruct H as [Hx Hab].
    apply Z.eqb_eq in Hx. apply IH in Hab. congruence.
  - inversion H; subst. rewrite Z.eqb_refl. simpl. apply IH. reflexivity.
Qed.

Lemma oid_cells_eq :
  forall n a b,
    oid_cells n a = oid_cells n b
    <-> (forall i, (i < Z.to_nat n)%nat -> nth i a 0 = nth i b 0).
Proof.
  intros n a b. unfold oid_cells. split.
  - intros H i Hi.
    apply map_ext_in_iff with (a := i) in H; [ exact H | ].
    apply in_seq. lia.
  - intros H. apply map_ext_in. intros i Hi. apply in_seq in Hi.
    apply H. lia.
Qed.

Lemma catalog_matches_iff :
  forall c p,
    catalog_matches c p = true
    <-> aggfn_name c = proname p
        /\ aggfn_nargs c = pronargs p
        /\ (forall i, (i < Z.to_nat (aggfn_nargs c))%nat ->
              nth i (aggfn_argtypes c) 0 = nth i (proargtypes p) 0).
Proof.
  intros c p. unfold catalog_matches.
  rewrite !andb_true_iff, String.eqb_eq, Z.eqb_eq, oids_eqb_eq, oid_cells_eq.
  tauto.
Qed.

(** X1: every entry of the catalog is the one the lookup returns for a
    function with the entry's own name, arity and argument types: no entry
    is hidden behind an earlier one. *)
Theorem catalog_entry_found_by_own_signature :
  forall syscache oid c,
    In c aggfunc_catalog ->
    syscache oid
    = Some (mk_proc (aggfn_name c) (aggfn_nargs c) (aggfn_argtypes c)) ->
    aggfunc_lookup_by_oid syscache oid = LookupDone (Some c).
Proof.
  intros syscache oid c Hin Hrow.
  unfold aggfunc_lookup_by_oid. rewrite Hrow. f_equal.
  unfold aggfunc_catalog in Hin. simpl in Hin.
  repeat (destruct Hin as [<- | Hin]; [ vm_compute; reflexivity | ]).
  contradiction.
Qed.

Lemma catalog_entry_found_by_own_signature_witness :
  aggfunc_lookup_by_oid sample_proc_cache 2101
  = LookupDone (Some (mk_aggfunc "avg" 1 [INT4OID] "s:pavg_int4" 2
                        [INT8OID; INT8OID]
                        [ALTFUNC_EXPR_NROWS; ALTFUNC_EXPR_PSUM]
                        DEVKERNEL_NONE INT_MAX)).
Proof.
  apply (catalog_entry_found_by_own_signature sample_proc_cache 2101).
  - unfold aggfunc_catalog. simpl. right. left. reflexivity.
  - reflexivity.
Defined.

(** X2: the lookup is an exact match: the entry it returns has the name,
    the arity and, argument by argument, the argument types of the function
    (no coercion is tried); it returns NULL only when no entry of the
    catalog has them; and it raises an error exactly when the function has
    no [pg_proc] row. *)
Theorem lookup_is_exact_match :
  forall syscache oid,
    (forall c,
        aggfunc_lookup_by_oid syscache oid = LookupDone (Some c) ->
        exists p,
          syscache oid = Some p /\ In c aggfunc_catalog
          /\ aggfn_name c = proname p /\ aggfn_nargs c = pronargs p
          /\ (forall i, (i < Z.to_nat (aggfn_nargs c))%nat ->
                nth i (aggfn_argtypes c) 0 = nth i (proargtypes p) 0))
    /\ (aggfunc_lookup_by_oid syscache oid = LookupDone None ->
        exists p,
          syscache oid = Some p
          /\ forall c, In c aggfunc_catalog ->
               ~ (aggfn_name c = proname p /\ aggfn_nargs c = pronargs p
                  /\ (forall i, (i < Z.to_nat (aggfn_nargs c))%nat ->
                        nth i (aggfn_argtypes c) 0
                        = nth i (proargtypes p) 0)))
    /\ (aggfunc_lookup_by_oid syscache oid = LookupError
        <-> syscache oid = None).
Proof.
  intros syscache oid. unfold aggfunc_lookup_by_oid, aggfunc_lookup.
  destruct (syscache oid) as [p |].
  - split; [ | split ].
    + intros c H.
      assert (Hfind : find (fun c0 => catalog_matches c0 p) aggfunc_catalog
                      = Some c) by congruence.
      clear H. exists p.
      apply find_some in Hfind. destruct Hfind as [Hin Hm].
      apply catalog_matches_iff in Hm. tauto.
    + intros H.
      assert (Hfind : find (fun c0 => catalog_matches c0 p) aggfunc_catalog
                      = None) by congruence.
      clear H. exists p.
      split; [ reflexivity | ]. intros c Hin Hm.
      apply catalog_matches_iff in Hm.
      pose proof (find_none _ _ Hfind c Hin) as Hno. simpl in Hno.
      congruence.
    + split; intros H; discriminate.
  - split; [ | split ]; try (intros; discriminate).
    split; reflexivity.
Qed.

(** ** The catalog against the builder *)

Lemma oid_cells_cons :
  forall n a,
    0 < n ->
    oid_cells n a
    = nth 0 a 0 :: map (fun i => nth i a 0) (seq 1 (Z.to_nat n - 1)).
Proof.
  intros n a Hn. unfold oid_cells.
  replace (Z.to_nat n) with (S (Z.to_nat n - 1)) at 1 by lia.
  reflexivity.
Qed.

Lemma oid_cells_cons2 :
  forall n a,
    1 < n ->
    oid_cells n a
    = nth 0 a 0 :: nth 1 a 0
        :: map (fun i => nth i a 0) (seq 2 (Z.to_nat n - 2)).
Proof.
  intros n a Hn. unfold oid_cells.
  replace (Z.to_nat n) with (S (S (Z.to_nat n - 2))) at 1 by lia.
  reflexivity.
Qed.

(** An action the declared arguments allow is built without error on every
    call that has these arguments. *)
Lemma buildable_action_is_built :
  forall exprTypmod exprCollation get_typlenbyval cat aggref action,
    action_buildable cat action = true ->
    args_match cat aggref ->
    exists e,
      altfunc_expr exprTypmod exprCollation get_typlenbyval aggref action
      = Ok e.
Proof.
  intros exprTypmod exprCollation get_typlenbyval cat aggref action Hb Hm.
  unfold action_buildable in Hb. unfold altfunc_expr. cbv zeta in Hb.
  unfold args_match in Hm.
  destruct (action =? ALTFUNC_EXPR_NROWS); [ eexists; reflexivity | ].
  destruct (action =? ALTFUNC_EXPR_PMIN) eqn:Emin;
    [ | destruct (action =? ALTFUNC_EXPR_PMAX) eqn:Emax ];
    simpl in Hb |- *.
  - apply Z.leb_le in Hb. rewrite oid_cells_cons in Hm by lia.
    inversion Hm as [| e t args ts He Hrest Hargs Hts]. subst.
    unfold make_altfunc_simple_expr. rewrite <- Hargs.
    destruct (aggfilter aggref); eexists; reflexivity.
  - apply Z.leb_le in Hb. rewrite oid_cells_cons in Hm by lia.
    inversion Hm as [| e t args ts He Hrest Hargs Hts]. subst.
    unfold make_altfunc_simple_expr. rewrite <- Hargs.
    destruct (aggfilter aggref); eexists; reflexivity.
  - destruct (action =? ALTFUNC_EXPR_PSUM) eqn:Esum; simpl in Hb |- *.
    + apply Z.leb_le in Hb. rewrite oid_cells_cons in Hm by lia.
      inversion Hm as [| e t args ts He Hrest Hargs Hts]. subst.
      unfold make_altfunc_simple_expr. rewrite <- Hargs.
      destruct (aggfilter aggref); eexists; reflexivity.
    + destruct (action =? ALTFUNC_EXPR_PSUM_X2) eqn:Ex2.
      * apply andb_true_iff in Hb. destruct Hb as [Hn Hty].
        apply Z.leb_le in Hn. rewrite oid_cells_cons in Hm by lia.
        inversion Hm as [| e t args ts He Hrest Hargs Hts]. subst.
        unfold make_altfunc_psum_x2. rewrite <- Hargs.
        unfold arg_type_ok in He.
        assert (Het : exprType e = nth 0 (aggfn_argtypes cat) 0).
        { apply orb_true_iff in He. destruct He as [He | He].
          - apply Z.eqb_eq in He. rewrite He in Hty. discriminate Hty.
          - apply Z.eqb_eq in He. exact He. }
        rewrite Het.
        destruct (nth 0 (aggfn_argtypes cat) 0 =? FLOAT4OID);
          [ simpl; destruct (aggfilter aggref); eexists; reflexivity | ].
        destruct (nth 0 (aggfn_argtypes cat) 0 =? FLOAT8OID);
          [ simpl; destruct (aggfilter aggref); eexists; reflexivity | ].
        destruct (nth 0 (aggfn_argtypes cat) 0 =? NUMERICOID);
          [ simpl; destruct (aggfilter aggref); eexists; reflexivity | ].
        discriminate Hty.
      * destruct ((ALTFUNC_EXPR_PCOV_X <=? action)
                  && (action <=? ALTFUNC_EXPR_PCOV_XY)) eqn:Ecov;
          [ | discriminate Hb ].
        apply andb_true_iff in Hb. destruct Hb as [Hb Hy].
        apply andb_true_iff in Hb. destruct Hb as [Hn Hx].
        apply Z.leb_le in Hn. apply Z.eqb_eq in Hx, Hy.
        rewrite oid_cells_cons2 in Hm by lia. rewrite Hx, Hy in Hm.
        inversion Hm as [| x tx args ts Hex Hrest Hargs Hts]. subst.
        inversion Hrest as [| y ty args' ts' Hey Hrest' Hargs' Hts']. subst.
        unfold make_altfunc_pcov_xy. rewrite <- Hargs.
        unfold arg_type_ok in Hex, Hey. simpl in Hex, Hey.
        rewrite Hex, Hey. simpl.
        apply andb_true_iff in Ecov. destruct Ecov as [Hlo Hhi].
        apply Z.leb_le in Hlo, Hhi.
        unfold ALTFUNC_EXPR_PCOV_X, ALTFUNC_EXPR_PCOV_Y, ALTFUNC_EXPR_PCOV_X2,
          ALTFUNC_EXPR_PCOV_Y2, ALTFUNC_EXPR_PCOV_XY in *.
        assert (Hcases : action = 106 \/ action = 107 \/ action = 108
                         \/ action = 109 \/ action = 110) by lia.
        destruct Hcases as [-> | [-> | [-> | [-> | ->]]]];
          eexists; reflexivity.
Qed.

(** Every slot of every entry of the catalog is the NULL placeholder or an
    action its declared arguments allow. *)
Lemma catalog_slots_buildable :
  forallb (fun cat =>
             forallb (fun sl => (fst sl =? ALTFUNC_CONST_NULL)
                                || action_buildable cat (fst sl))
                     (slots cat))
          aggfunc_catalog = true.
Proof. vm_compute. reflexivity. Qed.

Lemma slots_nth :
  forall cat j,
    (j < Z.to_nat (altfn_nargs cat))%nat ->
    In (nth j (altfn_argexprs cat) 0, nth j (altfn_argtypes cat) 0)
       (slots cat).
Proof.
  intros cat j Hj. unfold slots.
  apply in_map_iff. exists j. split; [ reflexivity | ].
  apply in_seq. lia.
Qed.

(** X3: for an aggregate of the catalog called with the arguments its
    entry declares, the expression of every partial column is built: the
    "Bug?" errors of the constructors of partial expressions and their
    reads of a missing argument cannot happen. *)
Theorem catalogued_aggregate_is_built :
  forall exprTypmod exprCollation get_typlenbyval cat aggref j,
    In cat aggfunc_catalog ->
    args_match cat aggref ->
    (j < Z.to_nat (altfn_nargs cat))%nat ->
    nth j (altfn_argexprs cat) 0 <> ALTFUNC_CONST_NULL ->
    exists e,
      altfunc_expr exprTypmod exprCollation get_typlenbyval aggref
                   (nth j (altfn_argexprs cat) 0) = Ok e.
Proof.
  intros exprTypmod exprCollation get_typlenbyval cat aggref j Hin Hm Hj Hnn.
  apply buildable_action_is_built with (cat := cat); [ | exact Hm ].
  pose proof catalog_slots_buildable as Hall.
  rewrite forallb_forall in Hall. specialize (Hall cat Hin).
  rewrite forallb_forall in Hall.
  specialize (Hall _ (slots_nth cat j Hj)). simpl in Hall.
  apply orb_true_iff in Hall. destruct Hall as [Hnull | Hok];
    [ | exact Hok ].
  apply Z.eqb_eq in Hnull. contradiction.
Qed.

Lemma catalogued_aggregate_is_built_witness :
  exists e,
    altfunc_expr no_typmod no_collation typlen8 avg_x ALTFUNC_EXPR_PSUM = Ok e.
Proof.
  apply (catalogued_aggregate_is_built no_typmod no_collation typlen8
           MoreSamples.avg_int4_entry avg_x 1%nat).
  - unfold aggfunc_catalog. simpl. right. left. reflexivity.
  - unfold args_match. simpl. constructor; [ reflexivity | constructor ].
  - simpl. lia.
  - simpl. unfold ALTFUNC_EXPR_PSUM, ALTFUNC_CONST_NULL. lia.
Defined.

Lemma typecast_type :
  forall exprTypmod exprCollation cast_cache e t e',
    make_expr_typecast exprTypmod exprCollation cast_cache e t = Ok e' ->
    exprType e' = t.
Proof.
  intros exprTypmod exprCollation cast_cache e t e' H.
  unfold make_expr_typecast in H.
  destruct (exprType e =? t) eqn:E.
  - apply Z.eqb_eq in E. congruence.
  - destruct (cast_cache (exprType e) t) as [cast |]; [ | discriminate ].
    destruct (castmethod cast); inversion H; reflexivity.
Qed.

Lemma add_partial_type :
  forall exprTypmod exprCollation get_typlenbyval cast_cache aggref st action
         argtype e st',
    add_partial exprTypmod exprCollation get_typlenbyval cast_cache aggref st
                action argtype = Ok (e, st') ->
    exprType e = if action =? ALTFUNC_CONST_NULL then INTERNALOID else argtype.
Proof.
  intros exprTypmod exprCollation get_typlenbyval cast_cache aggref st action
         argtype e st' H.
  unfold add_partial in H.
  destruct (action =? ALTFUNC_CONST_NULL).
  - inversion H. unfold make_altfunc_null_const, makeNullConst.
    destruct (get_typlenbyval INTERNALOID). reflexivity.
  - destruct (altfunc_expr exprTypmod exprCollation get_typlenbyval aggref
                action) as [e0 |]; simpl in H; [ | discriminate ].
    destruct (make_expr_typecast exprTypmod exprCollation cast_cache e0
                argtype) as [e1 |] eqn:Ecast; simpl in H; [ | discriminate ].
    apply typecast_type in Ecast.
    destruct (tlist_dev_member (fst st) (snd st) action e1);
      injection H as He Hst; rewrite <- He; exact Ecast.
Qed.

Lemma add_partials_types :
  forall exprTypmod exprCollation get_typlenbyval cast_cache aggref cat js st
         args0 args st',
    (forall j, In j js ->
       nth j (altfn_argexprs cat) 0 = ALTFUNC_CONST_NULL ->
       nth j (altfn_argtypes cat) 0 = INTERNALOID) ->
    add_partials exprTypmod exprCollation get_typlenbyval cast_cache aggref
                 cat js st args0 = Ok (args, st') ->
    map exprType args
    = map exprType args0 ++ map (fun j => nth j (altfn_argtypes cat) 0) js.
Proof.
  intros exprTypmod exprCollation get_typlenbyval cast_cache aggref cat.
  induction js as [| j js IH]; intros st args0 args st' Hnull H; simpl in H.
  - inversion H. simpl. rewrite app_nil_r. reflexivity.
  - destruct (add_partial exprTypmod exprCollation get_typlenbyval cast_cache
                aggref st (nth j (altfn_argexprs cat) 0)
                (nth j (altfn_argtypes cat) 0)) as [[e st1] |] eqn:E;
      simpl in H; [ | discriminate ].
    apply IH in H; [ | intros k Hk; apply Hnull; right; exact Hk ].
    rewrite H, map_app. simpl. rewrite <- app_assoc. simpl.
    apply add_partial_type in E.
    destruct (nth j (altfn_argexprs cat) 0 =? ALTFUNC_CONST_NULL) eqn:En.
    + apply Z.eqb_eq in En. rewrite (Hnull j (or_introl eq_refl) En), E.
      reflexivity.
    + rewrite E. reflexivity.
Qed.

(** The NULL placeholders of the catalog are declared as "internal", and
    every other slot has a type the reduction functions handle. *)
Lemma catalog_slot_types :
  forallb (fun cat =>
             forallb (fun sl =>
                        if fst sl =? ALTFUNC_CONST_NULL
                        then snd sl =? INTERNALOID
                        else match aggcalc_type (snd sl) with
                             | Some _ => true
                             | None => false
                             end)
                     (slots cat))
          aggfunc_catalog = true.
Proof. vm_compute. reflexivity. Qed.

Lemma catalog_slot_type :
  forall cat j,
    In cat aggfunc_catalog ->
    (j < Z.to_nat (altfn_nargs cat))%nat ->
    if nth j (altfn_argexprs cat) 0 =? ALTFUNC_CONST_NULL
    then nth j (altfn_argtypes cat) 0 = INTERNALOID
    else exists ty, aggcalc_type (nth j (altfn_argtypes cat) 0) = Some ty.
Proof.
  intros cat j Hin Hj.
  pose proof catalog_slot_types as Hall.
  rewrite forallb_forall in Hall. specialize (Hall cat Hin).
  rewrite forallb_forall in Hall.
  specialize (Hall _ (slots_nth cat j Hj)). simpl in Hall.
  destruct (nth j (altfn_argexprs cat) 0 =? ALTFUNC_CONST_NULL).
  - apply Z.eqb_eq. exact Hall.
  - destruct (aggcalc_type (nth j (altfn_argtypes cat) 0)) as [ty |];
      [ exists ty; reflexivity | discriminate ].
Qed.

(** X4: the arguments the builder hands to the alternative function of a
    catalogued aggregate have, one by one, the argument types under which
    that function is looked up: each partial column was cast to the declared
    type of its slot, and a NULL placeholder stands in an "internal" slot. *)
Theorem partial_columns_have_declared_types :
  forall exprTypmod exprCollation get_typlenbyval cast_cache cat aggref st
         args st',
    In cat aggfunc_catalog ->
    add_partials exprTypmod exprCollation get_typlenbyval cast_cache aggref
                 cat (seq 0 (Z.to_nat (altfn_nargs cat))) st [] = Ok (args, st') ->
    map exprType args = oid_cells (altfn_nargs cat) (altfn_argtypes cat).
Proof.
  intros exprTypmod exprCollation get_typlenbyval cast_cache cat aggref st
         args st' Hin H.
  apply add_partials_types in H; [ exact H | ].
  intros j Hj Hnull. apply in_seq in Hj.
  pose proof (catalog_slot_type cat j Hin) as Hslot.
  rewrite Hnull, Z.eqb_refl in Hslot. apply Hslot. lia.
Qed.

Lemma partial_columns_have_declared_types_witness :
  match add_partials no_typmod no_collation typlen8 sample_cast_cache avg_x
          MoreSamples.avg_int4_entry [0%nat; 1%nat] ([], []) [] with
  | Ok (args, _) => map exprType args = [INT8OID; INT8OID]
  | Error _ => False
  end.
Proof.
  destruct (add_partials no_typmod no_collation typlen8 sample_cast_cache
              avg_x MoreSamples.avg_int4_entry [0%nat; 1%nat] ([], []) [])
    as [[args st'] |] eqn:E.
  - apply (partial_columns_have_declared_types no_typmod no_collation typlen8
             sample_cast_cache MoreSamples.avg_int4_entry avg_x ([], [])
             args st').
    + unfold aggfunc_catalog. simpl. right. left. reflexivity.
    + exact E.
  - vm_compute in E. discriminate E.
Defined.

(** X5: a partial column the builder makes for a catalogued aggregate
    carries an aggregate action and has one of the types the generator of
    the reduction functions handles (SHORT, INT, LONG, FLOAT, DOUBLE or
    NUMERIC), so that generator's "not expected" error is out of reach for
    such a column. *)
Theorem partial_column_type_is_reducible :
  forall exprTypmod exprCollation get_typlenbyval cast_cache cat aggref j a e,
    In cat aggfunc_catalog ->
    (j < Z.to_nat (altfn_nargs cat))%nat ->
    requested_column exprTypmod exprCollation get_typlenbyval cast_cache
      aggref (nth j (altfn_argexprs cat) 0) (nth j (altfn_argtypes cat) 0)
    = Ok (Some (a, NExpr e)) ->
    is_aggfn_arg (a, NExpr e) = true
    /\ exists ty, aggcalc_type (exprType e) = Some ty.
Proof.
  intros exprTypmod exprCollation get_typlenbyval cast_cache cat aggref j a e
         Hin Hj H.
  pose proof (catalog_slot_type cat j Hin Hj) as Hslot.
  unfold requested_column in H.
  destruct (nth j (altfn_argexprs cat) 0 =? ALTFUNC_CONST_NULL);
    [ discriminate | ].
  destruct (altfunc_expr exprTypmod exprCollation get_typlenbyval aggref
              (nth j (altfn_argexprs cat) 0)) as [e0 |] eqn:E0;
    simpl in H; [ | discriminate ].
  destruct (make_expr_typecast exprTypmod exprCollation cast_cache e0
              (nth j (altfn_argtypes cat) 0)) as [e1 |] eqn:E1;
    simpl in H; [ | discriminate ].
  inversion H; subst. apply typecast_type in E1. rewrite E1.
  split; [ | exact Hslot ].
  apply altfunc_expr_action in E0. unfold is_aggfn_arg. simpl.
  apply Z.leb_le. lia.
Qed.

Lemma partial_column_type_is_reducible_witness :
  match requested_column no_typmod no_collation typlen8 sample_cast_cache
          avg_x ALTFUNC_EXPR_PSUM INT8OID with
  | Ok (Some (a, NExpr e)) => aggcalc_type (exprType e) = Some "LONG"%string
  | _ => False
  end.
Proof.
  destruct (requested_column no_typmod no_collation typlen8 sample_cast_cache
              avg_x ALTFUNC_EXPR_PSUM INT8OID)
    as [[[a [e | ag]] |] |] eqn:E;
    try (vm_compute in E; discriminate E).
  destruct (partial_column_type_is_reducible no_typmod no_collation typlen8
              sample_cast_cache MoreSamples.avg_int4_entry avg_x 1%nat a e)
    as [_ [ty Hty]].
  - unfold aggfunc_catalog. simpl. right. left. reflexivity.
  - simpl. lia.
  - exact E.
  - vm_compute in E. inversion E; subst. reflexivity.
Defined.

(** ** The target lists of the builder *)

Section BuilderMore.
Variable exprTypmod : Expr -> Z.
Variable exprCollation : Expr -> Oid.
Variable get_typlenbyval : Oid -> Z * bool.
Variable proc_cache : Oid -> option Form_pg_proc.
Variable cast_cache : Oid -> Oid -> option Form_pg_cast.
Variable pgstrom_namespace : option Oid.
Variable altfn_cache : string -> list Oid -> Oid -> option altfn_form.

Let loop :=
  build_loop exprTypmod exprCollation get_typlenbyval proc_cache cast_cache
    pgstrom_namespace altfn_cache.

Let step1 :=
  build_step exprTypmod exprCollation get_typlenbyval proc_cache cast_cache
    pgstrom_namespace altfn_cache.

Lemma host_entry_slot :
  forall cat aggref tle_ args h,
    host_entry pgstrom_namespace altfn_cache cat aggref tle_ args = Ok h ->
    entry_slot h = entry_slot tle_.
Proof.
  intros cat aggref tle_ args h H. unfold host_entry in H.
  destruct (String.eqb (altfn_name cat) "varref").
  - destruct args as [| e args]; [ discriminate | ].
    inversion H. reflexivity.
  - destruct (if String.prefix "c:" (altfn_name cat)
              then Ok PG_CATALOG_NAMESPACE
              else if String.prefix "s:" (altfn_name cat)
                   then match pgstrom_namespace with
                        | Some o => Ok o
                        | None => Error "schema pgstrom was not found"
                        end
                   else Error "Bug? incorrect alternative function catalog")
      as [ns |]; simpl in H; [ | discriminate ].
    destruct (altfn_cache _ _ ns) as [form |]; [ | discriminate ].
    inversion H. reflexivity.
Qed.

(** One target entry: the host list grows by one entry in the same slot;
    an aggregate must be in the catalog. *)
Lemma build_step_host :
  forall refs index st tle_ st',
    step1 refs index st tle_ = Ok st' ->
    (exists h, tlist_host st' = tlist_host st ++ [h]
               /\ entry_slot h = entry_slot tle_)
    /\ (forall aggref, expr tle_ = NAggref aggref ->
          exists cat, aggfunc_lookup_by_oid proc_cache (aggfnoid aggref)
                      = LookupDone (Some cat)).
Proof.
  intros refs index st tle_ st' H. unfold step1, build_step in H.
  destruct (expr tle_) as [e | aggref] eqn:Hexpr.
  - inversion H; subst; clear H. simpl.
    split; [ exists tle_; split; reflexivity | ].
    intros aggref Habs. discriminate Habs.
  - destruct (aggfunc_lookup_by_oid proc_cache (aggfnoid aggref))
      as [| [cat |]] eqn:Hlook; try discriminate H.
    destruct (add_partials exprTypmod exprCollation get_typlenbyval cast_cache
                aggref cat (seq 0 (Z.to_nat (altfn_nargs cat)))
                (tlist_dev st, tlist_dev_action st) [])
      as [[args' [dev' acts']] |] eqn:Hrun; simpl in H; [ | discriminate ].
    destruct (host_entry pgstrom_namespace altfn_cache cat aggref tle_ args')
      as [h |] eqn:Hhost; simpl in H; [ | discriminate ].
    inversion H; subst; clear H. simpl.
    split.
    + exists h. split; [ reflexivity | ].
      eapply host_entry_slot; eassumption.
    + intros a Ha. inversion Ha; subst a. exists cat. exact Hlook.
Qed.

Lemma build_loop_host :
  forall refs tlist_orig index st st',
    loop refs index st tlist_orig = Ok st' ->
    map entry_slot (tlist_host st')
    = map entry_slot (tlist_host st) ++ map entry_slot tlist_orig
    /\ Forall (fun tle_ =>
                 forall aggref, expr tle_ = NAggref aggref ->
                   exists cat, aggfunc_lookup_by_oid proc_cache (aggfnoid aggref)
                               = LookupDone (Some cat)) tlist_orig.
Proof.
  intros refs tlist_orig.
  induction tlist_orig as [| tle_ rest IH]; intros index st st' H;
    unfold loop in H; simpl in H.
  - inversion H; subst. simpl. rewrite app_nil_r. split; [ reflexivity | ].
    constructor.
  - fold step1 in H.
    destruct (step1 refs index st tle_) as [st1 |] eqn:Hstep;
      simpl in H; [ | discriminate ].
    destruct (build_step_host _ _ _ _ _ Hstep) as [[h [Hh Hslot]] Hcat].
    destruct (IH _ _ _ H) as [Hmap Hall].
    split.
    + rewrite Hmap, Hh, map_app. simpl. rewrite Hslot, <- app_assoc.
      reflexivity.
    + constructor; assumption.
Qed.

(** X6: the host target list lines up with the input target list: it has
    one entry per input entry, in the same order, with the same [resno],
    [resname] and [resjunk]. *)
Theorem host_list_lines_up :
  forall refs tlist_orig t,
    build_custom_scan_tlist exprTypmod exprCollation get_typlenbyval
      proc_cache cast_cache pgstrom_namespace altfn_cache refs tlist_orig
    = Ok t ->
    map entry_slot (tlist_host t) = map entry_slot tlist_orig
    /\ List.length (tlist_host t) = List.length tlist_orig.
Proof.
  intros refs tlist_orig t H. unfold build_custom_scan_tlist in H.
  destruct (build_loop_host _ _ _ _ _ H) as [Hmap _]. simpl in Hmap.
  split; [ exact Hmap | ].
  rewrite <- (length_map entry_slot (tlist_host t)), Hmap.
  apply length_map.
Qed.

(** X7: the builder succeeds only on target lists whose aggregates are
    all in the catalog: an aggregate without a [pg_proc] row or without a
    catalog entry, wherever it stands, makes it fail. *)
Theorem build_needs_catalogued_aggregates :
  forall refs tlist_orig t tle_ aggref,
    build_custom_scan_tlist exprTypmod exprCollation get_typlenbyval
      proc_cache cast_cache pgstrom_namespace altfn_cache refs tlist_orig
    = Ok t ->
    In tle_ tlist_orig ->
    expr tle_ = NAggref aggref ->
    exists cat, aggfunc_lookup_by_oid proc_cache (aggfnoid aggref)
                = LookupDone (Some cat).
Proof.
  intros refs tlist_orig t tle_ aggref H Hin Hexpr.
  unfold build_custom_scan_tlist in H.
  destruct (build_loop_host _ _ _ _ _ H) as [_ Hall].
  rewrite Forall_forall in Hall. exact (Hall tle_ Hin aggref Hexpr).
Qed.

End BuilderMore.

Lemma host_list_lines_up_witness :
  match sample_build None tlist_sum_avg with
  | Ok t => map entry_slot (tlist_host t) = [(1, None, false); (2, None, false)]
  | Error _ => False
  end.
Proof.
  destruct (sample_build None tlist_sum_avg) as [t |] eqn:E.
  - exact (proj1 (host_list_lines_up no_typmod no_collation typlen8
                    sample_proc_cache sample_cast_cache (Some 16400)
                    sample_altfn_cache None tlist_sum_avg t E)).
  - vm_compute in E. discriminate E.
Defined.

Lemma build_needs_catalogued_aggregates_witness :
  match sample_build None tlist_sum_avg with
  | Ok t => exists cat, aggfunc_lookup_by_oid sample_proc_cache 2101
                        = LookupDone (Some cat)
  | Error _ => False
  end.
Proof.
  destruct (sample_build None tlist_sum_avg) as [t |] eqn:E.
  - apply (build_needs_catalogued_aggregates no_typmod no_collation typlen8
             sample_proc_cache sample_cast_cache (Some 16400)
             sample_altfn_cache None tlist_sum_avg t
             (tle (NAggref avg_x) 2) avg_x E).
    + right. left. reflexivity.
    + reflexivity.
  - vm_compute in E. discriminate E.
Defined.

Section BuilderNumbering.
Variable exprTypmod : Expr -> Z.
Variable exprCollation : Expr -> Oid.
Variable get_typlenbyval : Oid -> Z * bool.
Variable proc_cache : Oid -> option Form_pg_proc.
Variable cast_cache : Oid -> Oid -> option Form_pg_cast.
Variable pgstrom_namespace : option Oid.
Variable altfn_cache : string -> list Oid -> Oid -> option altfn_form.

Let loop :=
  build_loop exprTypmod exprCollation get_typlenbyval proc_cache cast_cache
    pgstrom_namespace altfn_cache.

Let step1 :=
  build_step exprTypmod exprCollation get_typlenbyval proc_cache cast_cache
    pgstrom_namespace altfn_cache.

Lemma build_loop_app :
  forall refs l1 l2 index st,
    loop refs index st (l1 ++ l2)
    = (st1 <- loop refs index st l1 ;;
       loop refs (index + List.length l1)%nat st1 l2).
Proof.
  intros refs l1 l2. induction l1 as [| tle_ l1 IH]; intros index st; simpl.
  - rewrite Nat.add_0_r. reflexivity.
  - unfold loop. simpl. fold loop. fold step1.
    destruct (step1 refs index st tle_) as [st1 |]; simpl; [ | reflexivity ].
    rewrite IH. rewrite Nat.add_succ_r. reflexivity.
Qed.

(** Entries that are not aggregates pass through the loop. *)
Lemma build_loop_plain :
  forall refs l index st,
    Forall (fun tle_ => is_plain_entry tle_ = true) l ->
    loop refs index st l
    = Ok (mk_tlists (tlist_host st ++ l) (tlist_dev st ++ l)
            (tlist_dev_action st
             ++ map (plain_action refs) (seq index (List.length l)))).
Proof.
  intros refs l. induction l as [| tle_ l IH]; intros index st Hall.
  - simpl. rewrite !app_nil_r. destruct st; reflexivity.
  - inversion Hall as [| x xs Hplain Hrest]; subst.
    unfold loop. simpl. fold loop. unfold build_step.
    unfold is_plain_entry in Hplain.
    destruct (expr tle_) as [e | a]; [ | discriminate ]. simpl.
    rewrite IH by assumption. simpl.
    rewrite <- !app_assoc. reflexivity.
Qed.

Lemma well_numbered_snoc :
  forall l tle_,
    well_numbered l ->
    resno tle_ = Z.of_nat (List.length l) + 1 ->
    well_numbered (l ++ [tle_]).
Proof.
  intros l tle_ Hl Hres i x Hnth.
  destruct (Nat.lt_ge_cases i (List.length l)) as [Hlt | Hge].
  - rewrite nth_error_app1 in Hnth by assumption. apply Hl. exact Hnth.
  - rewrite nth_error_app2 in Hnth by assumption.
    destruct (i - List.length l)%nat as [| k] eqn:Hk; simpl in Hnth.
    + inversion Hnth; subst x. rewrite Hres. f_equal. f_equal. lia.
    + destruct k; discriminate Hnth.
Qed.

Lemma add_partial_numbered :
  forall aggref st action argtype e st',
    add_partial exprTypmod exprCollation get_typlenbyval cast_cache aggref st
                action argtype = Ok (e, st') ->
    well_numbered (fst st) -> well_numbered (fst st').
Proof.
  intros aggref st action argtype e st' H Hwn. unfold add_partial in H.
  destruct (action =? ALTFUNC_CONST_NULL);
    [ inversion H; subst; exact Hwn | ].
  destruct (altfunc_expr exprTypmod exprCollation get_typlenbyval aggref
              action) as [e0 |]; simpl in H; [ | discriminate ].
  destruct (make_expr_typecast exprTypmod exprCollation cast_cache e0
              argtype) as [e1 |]; simpl in H; [ | discriminate ].
  destruct (tlist_dev_member (fst st) (snd st) action e1);
    injection H as He Hst; subst st'; simpl; [ exact Hwn | ].
  apply well_numbered_snoc; [ exact Hwn | reflexivity ].
Qed.

Lemma add_partials_numbered :
  forall aggref cat js st args0 args st',
    add_partials exprTypmod exprCollation get_typlenbyval cast_cache aggref
                 cat js st args0 = Ok (args, st') ->
    well_numbered (fst st) -> well_numbered (fst st').
Proof.
  intros aggref cat. induction js as [| j js IH];
    intros st args0 args st' H Hwn; simpl in H.
  - inversion H; subst. exact Hwn.
  - destruct (add_partial exprTypmod exprCollation get_typlenbyval cast_cache
                aggref st (nth j (altfn_argexprs cat) 0)
                (nth j (altfn_argtypes cat) 0)) as [[e st1] |] eqn:E;
      simpl in H; [ | discriminate ].
    eapply IH; [ exact H | ].
    eapply add_partial_numbered; eassumption.
Qed.

Lemma build_loop_aggregates_numbered :
  forall refs l index st st',
    Forall (fun tle_ => is_aggregate_entry tle_ = true) l ->
    loop refs index st l = Ok st' ->
    well_numbered (tlist_dev st) -> well_numbered (tlist_dev st').
Proof.
  intros refs l. induction l as [| tle_ l IH]; intros index st st' Hall H Hwn.
  - unfold loop in H. simpl in H. inversion H; subst. exact Hwn.
  - inversion Hall as [| x xs Hagg Hrest]; subst.
    unfold loop in H. simpl in H. fold loop in H.
    unfold build_step in H.
    unfold is_aggregate_entry, is_plain_entry in Hagg.
    destruct (expr tle_) as [e | aggref]; [ discriminate | ].
    destruct (aggfunc_lookup_by_oid proc_cache (aggfnoid aggref))
      as [| [cat |]]; try discriminate H.
    destruct (add_partials exprTypmod exprCollation get_typlenbyval cast_cache
                aggref cat (seq 0 (Z.to_nat (altfn_nargs cat)))
                (tlist_dev st, tlist_dev_action st) [])
      as [[args' [dev' acts']] |] eqn:Hrun; simpl in H; [ | discriminate ].
    destruct (host_entry pgstrom_namespace altfn_cache cat aggref tle_ args')
      as [h |]; simpl in H; [ | discriminate ].
    eapply IH; [ exact Hrest | exact H | ]. simpl.
    apply add_partials_numbered in Hrun; assumption.
Qed.

Lemma well_numbered_NoDup :
  forall l, well_numbered l -> NoDup (map resno l).
Proof.
  intros l Hwn. apply NoDup_nth_error. intros i j Hi Heq.
  rewrite length_map in Hi. rewrite !nth_error_map in Heq.
  destruct (nth_error l i) as [x |] eqn:Ex;
    [ | apply nth_error_None in Ex; lia ].
  destruct (nth_error l j) as [y |] eqn:Ey; [ | discriminate ].
  simpl in Heq. inversion Heq as [Hr].
  rewrite (Hwn _ _ Ex), (Hwn _ _ Ey) in Hr. lia.
Qed.

(** X8: a target list without aggregates passes through the builder
    unchanged: the host list and the device list are the input list, every
    entry is tagged as a grouping key or as a plain value by its
    [sortgroupref], and the builder cannot fail. *)
Theorem plain_target_list_passes_through :
  forall refs tlist_orig,
    Forall (fun tle_ => is_plain_entry tle_ = true) tlist_orig ->
    build_custom_scan_tlist exprTypmod exprCollation get_typlenbyval
      proc_cache cast_cache pgstrom_namespace altfn_cache refs tlist_orig
    = Ok (mk_tlists tlist_orig tlist_orig
            (map (plain_action refs) (seq 0 (List.length tlist_orig)))).
Proof.
  intros refs tlist_orig Hall. unfold build_custom_scan_tlist.
  fold loop. rewrite build_loop_plain by assumption. reflexivity.
Qed.

(** X9: when the grouping keys and plain values come first in the target
    list, numbered 1, 2, ... , and the aggregates follow, every entry of
    the device target list carries its position as [resno]; so no two
    device columns share the slot [resno - 1] the generated code addresses
    them by. *)
Theorem device_list_numbered_by_position :
  forall refs plains aggs t,
    Forall (fun tle_ => is_plain_entry tle_ = true) plains ->
    well_numbered plains ->
    Forall (fun tle_ => is_aggregate_entry tle_ = true) aggs ->
    build_custom_scan_tlist exprTypmod exprCollation get_typlenbyval
      proc_cache cast_cache pgstrom_namespace altfn_cache refs
      (plains ++ aggs) = Ok t ->
    well_numbered (tlist_dev t) /\ NoDup (map resno (tlist_dev t)).
Proof.
  intros refs plains aggs t Hplain Hwn Haggs H.
  unfold build_custom_scan_tlist in H. fold loop in H.
  rewrite build_loop_app, build_loop_plain in H by assumption.
  simpl in H.
  assert (Hdev : well_numbered (tlist_dev t)).
  { eapply build_loop_aggregates_numbered; [ exact Haggs | exact H | ].
    simpl. exact Hwn. }
  split; [ exact Hdev | apply well_numbered_NoDup; exact Hdev ].
Qed.

End BuilderNumbering.

Lemma plain_target_list_passes_through_witness :
  sample_build (Some [1; 0])
    [tle (NExpr col_k) 1; tle (NExpr col_x) 2]
  = Ok (mk_tlists [tle (NExpr col_k) 1; tle (NExpr col_x) 2]
                  [tle (NExpr col_k) 1; tle (NExpr col_x) 2]
                  [ALTFUNC_GROUPING_KEY; ALTFUNC_CONST_VALUE]).
Proof.
  apply (plain_target_list_passes_through no_typmod no_collation typlen8
           sample_proc_cache sample_cast_cache (Some 16400)
           sample_altfn_cache (Some [1; 0])
           [tle (NExpr col_k) 1; tle (NExpr col_x) 2]).
  repeat constructor.
Defined.

Lemma device_list_numbered_by_position_witness :
  match sample_build (Some [1; 0; 0])
          ([tle (NExpr col_k) 1] ++ [tle (NAggref sum_x) 2;
                                      tle (NAggref avg_x) 3]) with
  | Ok t => map resno (tlist_dev t) = [1; 2; 3]
            /\ NoDup (map resno (tlist_dev t))
  | Error _ => False
  end.
Proof.
  destruct (sample_build (Some [1; 0; 0])
              ([tle (NExpr col_k) 1] ++ [tle (NAggref sum_x) 2;
                                          tle (NAggref avg_x) 3]))
    as [t |] eqn:E.
  - split.
    + vm_compute in E. inversion E. reflexivity.
    + apply (device_list_numbered_by_position no_typmod no_collation typlen8
               sample_proc_cache sample_cast_cache (Some 16400)
               sample_altfn_cache (Some [1; 0; 0])
               [tle (NExpr col_k) 1]
               [tle (NAggref sum_x) 2; tle (NAggref avg_x) 3] t).
      * repeat constructor.
      * intros [| i] x Hx; simpl in Hx;
          [ inversion Hx; reflexivity | destruct i; discriminate Hx ].
      * repeat constructor.
      * exact E.
  - vm_compute in E. discriminate E.
Defined.

(** ** The test of device executability *)

Section ExecutableProofs.
Variable proc_cache : Oid -> option Form_pg_proc.
Variable devtype_lookup : Oid -> option devtype_info.
Variable type_eqfunc : devtype_info -> Oid.
Variable devfunc_lookup : Oid -> Oid -> bool.
Variable pgstrom_device_expression : Expr -> bool.

Let accepted :=
  accepted_column proc_cache devtype_lookup type_eqfunc devfunc_lookup
    pgstrom_device_expression.

Lemma device_executable_loop_accepts :
  forall refs exprs resno_,
    device_executable_loop proc_cache devtype_lookup type_eqfunc
      devfunc_lookup pgstrom_device_expression refs (S resno_) exprs
    = Ok true ->
    forall i n, nth_error exprs i = Some n -> accepted refs (resno_ + i)%nat n.
Proof.
  intros refs exprs.
  induction exprs as [| n0 rest IH]; intros resno_ H i n Hnth.
  - destruct i; discriminate Hnth.
  - simpl in H. destruct n0 as [e | aggref].
    + destruct (devtype_lookup (exprType e)) as [dtype |] eqn:Hd;
        [ | discriminate ].
      destruct (devfunc_lookup (type_eqfunc dtype) InvalidOid) eqn:Hf;
        simpl in H; [ | discriminate ].
      destruct (device_constructable pgstrom_device_expression e) eqn:Hc;
        simpl in H; [ | discriminate ].
      destruct i as [| i]; simpl in Hnth.
      * inversion Hnth; subst n. unfold accepted, accepted_column.
        split; [ exists dtype; split; assumption | assumption ].
      * rewrite Nat.add_succ_r. apply (IH (S resno_) H i n Hnth).
    + destruct refs as [r |]; [ | discriminate ].
      rewrite Nat.sub_0_r in H.
      destruct (nth resno_ r 0 >? 0) eqn:Hg; [ discriminate | ].
      destruct (aggfunc_lookup_by_oid proc_cache (aggfnoid aggref))
        as [| [cat |]] eqn:Hl; try discriminate H.
      destruct (forallb (device_constructable pgstrom_device_expression)
                        (aggargs aggref)) eqn:Hargs; [ | discriminate ].
      destruct i as [| i]; simpl in Hnth.
      * inversion Hnth; subst n. unfold accepted, accepted_column.
        rewrite Nat.add_0_r.
        split; [ exists r; split; [ reflexivity | ] | ].
        { destruct (Z.gtb_spec (nth resno_ r 0) 0); [ discriminate | lia ]. }
        split; [ exists cat; exact Hl | ].
        apply Forall_forall. rewrite forallb_forall in Hargs. exact Hargs.
      * rewrite Nat.add_succ_r. apply (IH (S resno_) H i n Hnth).
Qed.

(** X10: a target the test of device executability accepts has, in every
    column, either an aggregate of the catalog that is not referenced by
    GROUP BY and whose arguments the device can construct, or an
    expression the device can construct whose type has a device type with
    an equality function. *)
Theorem device_executable_accepts_only :
  forall refs exprs i n,
    gpupreagg_device_executable proc_cache devtype_lookup type_eqfunc
      devfunc_lookup pgstrom_device_expression refs exprs = Ok true ->
    nth_error exprs i = Some n ->
    accepted_column proc_cache devtype_lookup type_eqfunc devfunc_lookup
      pgstrom_device_expression refs i n.
Proof.
  intros refs exprs i n H Hnth. unfold gpupreagg_device_executable in H.
  exact (device_executable_loop_accepts refs exprs 0%nat H i n Hnth).
Qed.

End ExecutableProofs.

Lemma device_executable_accepts_only_witness :
  gpupreagg_device_executable sample_proc_cache sample_devtype_lookup
    MoreSamples.sample_eqfunc MoreSamples.sample_devfunc_found
    MoreSamples.only_simple (Some [1; 0]) MoreSamples.target_k_avg = Ok true
  /\ accepted_column sample_proc_cache sample_devtype_lookup
       MoreSamples.sample_eqfunc MoreSamples.sample_devfunc_found
       MoreSamples.only_simple (Some [1; 0]) 1 (NAggref avg_x).
Proof.
  split; [ reflexivity | ].
  apply (device_executable_accepts_only sample_proc_cache
           sample_devtype_lookup MoreSamples.sample_eqfunc
           MoreSamples.sample_devfunc_found MoreSamples.only_simple
           (Some [1; 0]) MoreSamples.target_k_avg 1%nat (NAggref avg_x));
    reflexivity.
Defined.

(** ** The values of partial columns *)

Lemma eval_conditional_null :
  forall exprTypmod exprCollation get_typlenbyval fsem row e filter,
    eval fsem row
      (make_expr_conditional exprTypmod exprCollation get_typlenbyval
         e filter false)
    = if is_true (eval fsem row filter) then eval fsem row e else None.
Proof.
  intros. unfold make_expr_conditional. rewrite eval_case_one.
  simpl. unfold makeNullConst.
  destruct (get_typlenbyval (exprType e)). reflexivity.
Qed.

(** X11: on a row, the partial sum of an aggregate is the value of its
    argument when the FILTER passes (or there is none) and 0 otherwise; its
    partial minimum and maximum are that value, and NULL otherwise. *)
Theorem partial_sum_min_max_of_row :
  forall exprTypmod exprCollation get_typlenbyval fsem row aggref arg rest,
    aggargs aggref = arg :: rest ->
    (exists e,
        altfunc_expr exprTypmod exprCollation get_typlenbyval aggref
                     ALTFUNC_EXPR_PSUM = Ok e
        /\ eval fsem row e
           = if filter_passes fsem row aggref then eval fsem row arg
             else Some 0)
    /\ (forall action,
          action = ALTFUNC_EXPR_PMIN \/ action = ALTFUNC_EXPR_PMAX ->
          exists e,
            altfunc_expr exprTypmod exprCollation get_typlenbyval aggref
                         action = Ok e
            /\ eval fsem row e
               = if filter_passes fsem row aggref then eval fsem row arg
                 else None).
Proof.
  intros exprTypmod exprCollation get_typlenbyval fsem row aggref arg rest
         Hargs.
  unfold filter_passes. split.
  - unfold altfunc_expr. simpl. unfold make_altfunc_simple_expr.
    rewrite Hargs.
    destruct (aggfilter aggref) as [f |]; eexists;
      (split; [ reflexivity | ]);
      [ apply eval_conditional_zero | reflexivity ].
  - intros action [-> | ->]; unfold altfunc_expr; simpl;
      unfold make_altfunc_simple_expr; rewrite Hargs;
      destruct (aggfilter aggref) as [f |]; eexists;
      (split; [ reflexivity | ]);
      try apply eval_conditional_null; reflexivity.
Qed.

Lemma partial_sum_min_max_of_row_witness :
  exists e,
    altfunc_expr no_typmod no_collation typlen8 count_x_filter_p
                 ALTFUNC_EXPR_PSUM = Ok e
    /\ eval no_functions (row_of (Some 2) (Some 0)) e = Some 0.
Proof.
  exact (proj1 (partial_sum_min_max_of_row no_typmod no_collation typlen8
                  no_functions (row_of (Some 2) (Some 0)) count_x_filter_p
                  col_x [] eq_refl)).
Defined.

(** X12: on a row, the partial sum of squares of an aggregate over a
    float4, float8 or numeric argument is the product of the argument's
    value with itself, by the multiplication of that type, when the FILTER
    passes (or there is none), and NULL otherwise; over an argument of
    another type the constructor fails. *)
Theorem partial_sum_of_squares_of_row :
  forall exprTypmod exprCollation get_typlenbyval fsem row aggref arg rest,
    aggargs aggref = arg :: rest ->
    (exprType arg = FLOAT4OID \/ exprType arg = FLOAT8OID
     \/ exprType arg = NUMERICOID ->
     exists e,
       make_altfunc_psum_x2 exprTypmod exprCollation get_typlenbyval aggref
       = Ok e
       /\ eval fsem row e
          = if filter_passes fsem row aggref
            then fsem (square_function (exprType arg))
                      [eval fsem row arg; eval fsem row arg]
            else None)
    /\ (exprType arg <> FLOAT4OID -> exprType arg <> FLOAT8OID ->
        exprType arg <> NUMERICOID ->
        make_altfunc_psum_x2 exprTypmod exprCollation get_typlenbyval aggref
        = Error "Bug? unexpected expression data type").
Proof.
  intros exprTypmod exprCollation get_typlenbyval fsem row aggref arg rest
         Hargs.
  unfold make_altfunc_psum_x2, filter_passes, square_function.
  rewrite Hargs. split.
  - intros Hty.
    assert (Hf : exists fid,
               (if exprType arg =? FLOAT4OID then Ok F_FLOAT4MUL
                else if exprType arg =? FLOAT8OID then Ok F_FLOAT8MUL
                else if exprType arg =? NUMERICOID then Ok F_NUMERIC_MUL
                else Error "Bug? unexpected expression data type")
               = Ok fid
               /\ fid = (if exprType arg =? FLOAT4OID then F_FLOAT4MUL
                         else if exprType arg =? FLOAT8OID then F_FLOAT8MUL
                         else F_NUMERIC_MUL)).
    { destruct Hty as [-> | [-> | ->]]; eexists; split; reflexivity. }
    destruct Hf as [fid [-> <-]]. simpl.
    destruct (aggfilter aggref) as [f |]; eexists;
      (split; [ reflexivity | ]).
    + rewrite eval_conditional_null. reflexivity.
    + reflexivity.
  - intros H4 H8 Hn.
    apply Z.eqb_neq in H4, H8, Hn. rewrite H4, H8, Hn. reflexivity.
Qed.

Lemma args_notnull_pair :
  forall fsem row x y,
    forallb is_true
      [eval fsem row (NullTest x IS_NOT_NULL false);
       eval fsem row (NullTest y IS_NOT_NULL false)]
    = is_notnull (eval fsem row x) && is_notnull (eval fsem row y).
Proof.
  intros. simpl.
  destruct (eval fsem row x), (eval fsem row y); reflexivity.
Qed.

(** X13: on a row, each of the five partial columns of a co-variance over
    two float8 arguments x and y is its term (x, y, x*x, y*y or x*y, the
    products by float8 multiplication) when the FILTER passes (or there is
    none) and both arguments are not NULL, and is NULL otherwise. *)
Theorem covariance_columns_of_row :
  forall exprTypmod exprCollation get_typlenbyval fsem row aggref x y rest
         action,
    aggargs aggref = x :: y :: rest ->
    exprType x = FLOAT8OID ->
    exprType y = FLOAT8OID ->
    ALTFUNC_EXPR_PCOV_X <= action <= ALTFUNC_EXPR_PCOV_XY ->
    exists e,
      make_altfunc_pcov_xy exprTypmod exprCollation get_typlenbyval aggref
                           action = Ok e
      /\ eval fsem row e
         = if filter_passes fsem row aggref
              && is_notnull (eval fsem row x) && is_notnull (eval fsem row y)
           then covariance_term fsem row x y action
           else None.
Proof.
  intros exprTypmod exprCollation get_typlenbyval fsem row aggref x y rest
         action Hargs Hx Hy Hrange.
  unfold make_altfunc_pcov_xy. rewrite Hargs, Hx, Hy. simpl.
  assert (Hcond :
    forall e,
      eval fsem row
        (make_expr_conditional exprTypmod exprCollation get_typlenbyval e
           (make_andclause
              (option_to_list (aggfilter aggref)
               ++ [NullTest x IS_NOT_NULL false;
                   NullTest y IS_NOT_NULL false])) false)
      = if filter_passes fsem row aggref
           && is_notnull (eval fsem row x) && is_notnull (eval fsem row y)
        then eval fsem row e else None).
  { intros e. rewrite eval_conditional_null.
    unfold make_andclause. cbn [eval]. rewrite is_true_eval_and.
    rewrite map_app, forallb_app.
    change (map (eval fsem row)
              [NullTest x IS_NOT_NULL false; NullTest y IS_NOT_NULL false])
      with [eval fsem row (NullTest x IS_NOT_NULL false);
            eval fsem row (NullTest y IS_NOT_NULL false)].
    rewrite args_notnull_pair. unfold filter_passes.
    destruct (aggfilter aggref) as [f |]; simpl;
      [ rewrite andb_true_r | ]; rewrite ?andb_assoc; reflexivity. }
  unfold covariance_term.
  unfold ALTFUNC_EXPR_PCOV_X, ALTFUNC_EXPR_PCOV_Y, ALTFUNC_EXPR_PCOV_X2,
    ALTFUNC_EXPR_PCOV_Y2, ALTFUNC_EXPR_PCOV_XY in *.
  assert (Hcases : action = 106 \/ action = 107 \/ action = 108
                   \/ action = 109 \/ action = 110) by lia.
  destruct Hcases as [-> | [-> | [-> | [-> | ->]]]]; simpl;
    eexists; (split; [ reflexivity | ]); rewrite Hcond; reflexivity.
Qed.

Lemma partial_sum_of_squares_of_row_witness :
  exists e,
    make_altfunc_psum_x2 no_typmod no_collation typlen8 MoreSamples.variance_f
    = Ok e
    /\ eval MoreSamples.mul_only (MoreSamples.row_fg (Some 3) None None) e
       = Some 9.
Proof.
  exact (proj1 (partial_sum_of_squares_of_row no_typmod no_collation typlen8
                  MoreSamples.mul_only (MoreSamples.row_fg (Some 3) None None)
                  MoreSamples.variance_f MoreSamples.col_f [] eq_refl)
               (or_intror (or_introl eq_refl))).
Defined.

Lemma covariance_columns_of_row_witness :
  exists e,
    make_altfunc_pcov_xy no_typmod no_collation typlen8 MoreSamples.covar_fg
                         ALTFUNC_EXPR_PCOV_XY = Ok e
    /\ eval MoreSamples.mul_only
            (MoreSamples.row_fg (Some 2) (Some 5) (Some 1)) e
       = Some 10.
Proof.
  apply (covariance_columns_of_row no_typmod no_collation typlen8
           MoreSamples.mul_only
           (MoreSamples.row_fg (Some 2) (Some 5) (Some 1))
           MoreSamples.covar_fg MoreSamples.col_f MoreSamples.col_g []
           ALTFUNC_EXPR_PCOV_XY);
    try reflexivity.
  unfold ALTFUNC_EXPR_PCOV_X, ALTFUNC_EXPR_PCOV_XY. lia.
Defined.

(** ** The device target list over the outer columns *)

Lemma NoDup_map_injective :
  forall (A B : Type) (f : A -> B) (l : list A) (a b : A),
    NoDup (map f l) -> In a l -> In b l -> f a = f b -> a = b.
Proof.
  intros A B f l a b. induction l as [| x l IH]; intros Hnd Ha Hb Hf;
    [ contradiction | ].
  simpl in Hnd. inversion Hnd as [| y ys Hni Hnd']; subst.
  destruct Ha as [-> | Ha], Hb as [-> | Hb].
  - reflexivity.
  - exfalso. apply Hni. rewrite Hf. apply in_map. exact Hb.
  - exfalso. apply Hni. rewrite <- Hf. apply in_map. exact Ha.
  - apply IH; assumption.
Qed.

Lemma eval_case_nil :
  forall fsem row t d,
    eval fsem row (CaseExpr t [] d) = eval fsem row d.
Proof. reflexivity. Qed.

Lemma eval_case_cons :
  forall fsem row t w ws d,
    eval fsem row (CaseExpr t (w :: ws) d)
    = match eval fsem row (fst w) with
      | Some v => if DatumGetBool v then eval fsem row (snd w)
                  else eval fsem row (CaseExpr t ws d)
      | None => eval fsem row (CaseExpr t ws d)
      end.
Proof. reflexivity. Qed.

Lemma eval_case_ext :
  forall fsem row row' t t' ws ws' d d',
    Forall2 (fun w w' =>
               eval fsem row' (fst w') = eval fsem row (fst w)
               /\ eval fsem row' (snd w') = eval fsem row (snd w)) ws ws' ->
    eval fsem row' d' = eval fsem row d ->
    eval fsem row' (CaseExpr t' ws' d') = eval fsem row (CaseExpr t ws d).
Proof.
  intros fsem row row' t t' ws ws' d d' Hws Hd.
  induction Hws as [| w w' ws ws' [Hc Hr] Hrest IH].
  - rewrite !eval_case_nil. exact Hd.
  - rewrite !eval_case_cons, Hc, Hr, IH. reflexivity.
Qed.

(** Two expressions that are [equal()] have the same type and the same
    value on every row. *)
Lemma expr_equal_exprType :
  forall a b, expr_equal a b = true -> exprType a = exprType b.
Proof.
  intros a b H.
  destruct a, b; try discriminate H; try reflexivity;
    rewrite ?expr_equal_CaseExpr, ?expr_equal_FuncExpr,
      ?expr_equal_RelabelType in H;
    simpl in H;
    repeat match goal with
           | H : _ && _ = true |- _ =>
               apply andb_true_iff in H; destruct H
           end;
    repeat match goal with
           | H : (_ =? _) = true |- _ => apply Z.eqb_eq in H
           end;
    simpl; congruence.
Qed.

Lemma nulltesttype_eqb_eq :
  forall a b, nulltesttype_eqb a b = true -> a = b.
Proof. intros [] [] H; try discriminate H; reflexivity. Qed.

Lemma boolop_eqb_eq : forall a b, boolop_eqb a b = true -> a = b.
Proof. intros [] [] H; try discriminate H; reflexivity. Qed.

Lemma exprs_equal_eval :
  forall fsem row l,
    Forall (fun x => forall y, expr_equal x y = true ->
                               eval fsem row x = eval fsem row y) l ->
    forall l', exprs_equal l l' = true ->
      map (eval fsem row) l = map (eval fsem row) l'.
Proof.
  intros fsem row l Hall.
  induction Hall as [| x l Hx _ IH]; intros [| y l'] H; simpl in H;
    try discriminate H; [ reflexivity | ].
  apply andb_true_iff in H. destruct H as [H1 H2].
  simpl. rewrite (Hx y H1), (IH l' H2). reflexivity.
Qed.

Lemma expr_equal_eval :
  forall fsem row a b,
    expr_equal a b = true -> eval fsem row a = eval fsem row b.
Proof.
  intros fsem row a.
  induction a as [no att t tm c lv noold oatt
                 | t tm c len v isnull byval
                 | a t r IHa | op args IHargs | t whens d IHw IHd
                 | fid rt rs va ff fc ic args IHargs
                 | a t tm c f IHa] using Expr_nested_ind;
    intros b H; destruct b as [no' att' t' tm' c' lv' noold' oatt'
                              | t' tm' c' len' v' isnull' byval'
                              | a' t' r' | op' args' | t' whens' d'
                              | fid' rt' rs' va' ff' fc' ic' args'
                              | a' t' tm' c' f'];
    try discriminate H.
  - simpl in H.
    repeat match goal with
           | H : _ && _ = true |- _ =>
               apply andb_true_iff in H; destruct H
           end.
    repeat match goal with
           | H : (_ =? _) = true |- _ => apply Z.eqb_eq in H
           end.
    simpl. congruence.
  - simpl in H.
    repeat match goal with
           | H : _ && _ = true |- _ =>
               apply andb_true_iff in H; destruct H
           end.
    match goal with
    | H : Bool.eqb isnull isnull' = true |- _ => apply eqb_prop in H
    end.
    subst isnull'. simpl. destruct isnull; [ reflexivity | ].
    match goal with
    | H : (v =? v') = true |- _ => apply Z.eqb_eq in H; rewrite H
    end.
    reflexivity.
  - rewrite expr_equal_NullTest in H.
    apply andb_true_iff in H. destruct H as [H Hr].
    apply andb_true_iff in H. destruct H as [Ha Ht].
    apply nulltesttype_eqb_eq in Ht. subst t'.
    cbn [eval]. rewrite (IHa a' Ha). reflexivity.
  - rewrite expr_equal_BoolExpr in H.
    apply andb_true_iff in H. destruct H as [Hop Hargs].
    apply boolop_eqb_eq in Hop. subst op'.
    cbn [eval]. rewrite (exprs_equal_eval _ _ _ IHargs _ Hargs).
    reflexivity.
  - rewrite expr_equal_CaseExpr in H.
    apply andb_true_iff in H. destruct H as [H Hd].
    apply andb_true_iff in H. destruct H as [_ Hw].
    symmetry. apply eval_case_ext; [ | symmetry; apply IHd; exact Hd ].
    clear - IHw Hw. revert whens' Hw.
    induction IHw as [| w ws [Hc Hr] _ IH]; intros [| w' ws'] Hw;
      simpl in Hw; try discriminate Hw; constructor.
    + apply andb_true_iff in Hw. destruct Hw as [Hw _].
      apply andb_true_iff in Hw. destruct Hw as [H1 H2].
      split; symmetry; [ apply Hc | apply Hr ]; assumption.
    + apply andb_true_iff in Hw. destruct Hw as [_ Hw].
      apply IH. exact Hw.
  - rewrite expr_equal_FuncExpr in H.
    repeat match goal with
           | H : _ && _ = true |- _ =>
               apply andb_true_iff in H; destruct H
           end.
    match goal with
    | H : (fid =? fid') = true |- _ => apply Z.eqb_eq in H; subst fid'
    end.
    cbn [eval].
    match goal with
    | H : exprs_equal args args' = true |- _ =>
        rewrite (exprs_equal_eval _ _ _ IHargs _ H)
    end.
    reflexivity.
  - rewrite expr_equal_RelabelType in H.
    repeat match goal with
           | H : _ && _ = true |- _ =>
               apply andb_true_iff in H; destruct H
           end.
    cbn [eval]. apply IHa. assumption.
Qed.

Section RewriteProofs.
Variable exprTypmod : Expr -> Z.
Variable exprCollation : Expr -> Oid.
Variable outer_scanrelid : Z.
Variable outer_tlist : list TargetEntry.
Variable fsem : Oid -> list datum -> datum.
Variable row : Z -> datum.

Let mut := mutate exprTypmod exprCollation outer_scanrelid outer_tlist.
Let mut_list :=
  mutate_list exprTypmod exprCollation outer_scanrelid outer_tlist.
Let mut_whens :=
  mutate_whens exprTypmod exprCollation outer_scanrelid outer_tlist.

(** The call of [expression_tree_mutator] on a node. *)
Let children (node : Expr) (refs : list Z) : result (Expr * list Z) :=
  match node with
  | Var _ _ _ _ _ _ _ _ => Ok (node, refs)
  | Const _ _ _ _ _ _ _ => Ok (node, refs)
  | NullTest a t r => x <- mut a refs ;; Ok (NullTest (fst x) t r, snd x)
  | BoolExpr op args =>
      x <- mut_list args refs ;; Ok (BoolExpr op (fst x), snd x)
  | CaseExpr t whens d =>
      x <- mut_whens whens refs ;;
      y <- mut d (snd x) ;;
      Ok (CaseExpr t (fst x) (fst y), snd y)
  | FuncExpr fid rt rs va ff fc ic args =>
      x <- mut_list args refs ;;
      Ok (FuncExpr fid rt rs va ff fc ic (fst x), snd x)
  | RelabelType a t tm c f =>
      x <- mut a refs ;; Ok (RelabelType (fst x) t tm c f, snd x)
  end.

Lemma mutate_unfold :
  forall node refs,
    mut node refs
    = if 0 <? outer_scanrelid
      then
        match node with
        | Var varno varattno t tm c lv _ _ =>
            if negb (varno =? outer_scanrelid)
            then Error "Bug? varnode references unknown relid"
            else
              refs' <- bms_add_member refs
                         (varattno - FirstLowInvalidHeapAttributeNumber) ;;
              Ok (makeVar INDEX_VAR varattno t tm c lv, refs')
        | _ => children node refs
        end
      else
        match outer_entry outer_tlist (NExpr node) with
        | Some tle => outer_var exprTypmod exprCollation tle refs
        | None =>
            match node with
            | Var _ _ _ _ _ _ _ _ =>
                Error "Bug? varnode references unknown outer entry"
            | _ => children node refs
            end
        end.
Proof. intros node refs. destruct node; reflexivity. Qed.

Lemma outer_row_entry :
  forall tle e,
    NoDup (map resno outer_tlist) ->
    In tle outer_tlist ->
    expr tle = NExpr e ->
    outer_row fsem outer_tlist row (resno tle) = eval fsem row e.
Proof.
  intros tle e Hnd Hin Hexpr. unfold outer_row.
  destruct (find (fun t => resno t =? resno tle) outer_tlist)
    as [tle' |] eqn:Hfind.
  - apply find_some in Hfind. destruct Hfind as [Hin' Hres].
    apply Z.eqb_eq in Hres.
    assert (tle' = tle)
      by (eapply NoDup_map_injective; eassumption).
    subst tle'. rewrite Hexpr. reflexivity.
  - exfalso. pose proof (find_none _ _ Hfind tle Hin) as Hno.
    simpl in Hno. rewrite Z.eqb_refl in Hno. discriminate Hno.
Qed.

Let kept := Rewrite.kept fsem outer_scanrelid outer_tlist row.

Lemma outer_var_kept :
  forall tle e refs e' refs',
    NoDup (map resno outer_tlist) ->
    (0 <? outer_scanrelid) = false ->
    outer_entry outer_tlist (NExpr e) = Some tle ->
    outer_var exprTypmod exprCollation tle refs = Ok (e', refs') ->
    kept e e'.
Proof.
  intros tle e refs e' refs' Hnd Hmode Hent H.
  unfold outer_entry in Hent. apply find_some in Hent.
  destruct Hent as [Hin Heq].
  destruct (expr tle) as [e0 | a0] eqn:Hexpr; [ | discriminate Heq ].
  simpl in Heq.
  unfold outer_var in H.
  destruct (bms_add_member refs
              (resno tle - FirstLowInvalidHeapAttributeNumber))
    as [r |]; simpl in H; [ | discriminate ].
  inversion H; subst e' refs'; clear H. unfold kept, Rewrite.kept. split.
  - simpl. rewrite Hexpr. simpl. symmetry.
    apply expr_equal_exprType. exact Heq.
  - unfold Rewrite.source_row. rewrite Hmode. cbn [eval makeVar].
    rewrite (outer_row_entry tle e0 Hnd Hin Hexpr).
    symmetry. apply expr_equal_eval. exact Heq.
Qed.

Lemma mutate_list_kept :
  forall args,
    Forall (fun e => forall refs e' refs',
              mut e refs = Ok (e', refs') -> kept e e') args ->
    forall refs args' refs',
      mut_list args refs = Ok (args', refs') ->
      Forall2 kept args args'.
Proof.
  intros args Hall. induction Hall as [| e args He Hrest IH];
    intros refs args' refs' H; unfold mut_list in H; simpl in H.
  - inversion H. constructor.
  - fold mut in H. fold mut_list in H.
    destruct (mut e refs) as [[e1 r1] |] eqn:E1; simpl in H;
      [ | discriminate ].
    destruct (mut_list args r1) as [[l2 r2] |] eqn:E2; simpl in H;
      [ | discriminate ].
    inversion H; subst. constructor; [ eapply He; exact E1 | ].
    eapply IH. exact E2.
Qed.

Lemma kept_list_values :
  forall args args',
    Forall2 kept args args' ->
    map (eval fsem (Rewrite.source_row fsem outer_scanrelid outer_tlist row))
        args'
    = map (eval fsem row) args.
Proof.
  intros args args' H. induction H as [| e e' l l' [_ Hv] _ IH]; simpl.
  - reflexivity.
  - rewrite Hv, IH. reflexivity.
Qed.

Lemma mutate_whens_kept :
  forall whens,
    Forall (fun w =>
              (forall refs e' refs',
                  mut (fst w) refs = Ok (e', refs') -> kept (fst w) e')
              /\ (forall refs e' refs',
                     mut (snd w) refs = Ok (e', refs') -> kept (snd w) e'))
           whens ->
    forall refs whens' refs',
      mut_whens whens refs = Ok (whens', refs') ->
      Forall2 (fun w w' => kept (fst w) (fst w') /\ kept (snd w) (snd w'))
              whens whens'.
Proof.
  intros whens Hall. induction Hall as [| w whens [Hc Hr] Hrest IH];
    intros refs whens' refs' H; unfold mut_whens in H; simpl in H.
  - inversion H. constructor.
  - fold mut in H. fold mut_whens in H.
    destruct (mut (fst w) refs) as [[c1 r1] |] eqn:E1; simpl in H;
      [ | discriminate ].
    destruct (mut (snd w) r1) as [[c2 r2] |] eqn:E2; simpl in H;
      [ | discriminate ].
    destruct (mut_whens whens r2) as [[l3 r3] |] eqn:E3; simpl in H;
      [ | discriminate ].
    inversion H; subst. constructor.
    + simpl. split; [ eapply Hc; exact E1 | eapply Hr; exact E2 ].
    + eapply IH. exact E3.
Qed.

Lemma mutate_kept :
  NoDup (map resno outer_tlist) ->
  forall e refs e' refs',
    mut e refs = Ok (e', refs') -> kept e e'.
Proof.
  intros Hnd e.
  induction e as [no att t tm c lv noold oatt
                 | t tm c len v isnull byval
                 | a t r IHa | op args IHargs | t whens d IHw IHd
                 | fid rt rs va ff fc ic args IHargs
                 | a t tm c f IHa] using Expr_nested_ind;
    intros refs e' refs' H; rewrite mutate_unfold in H;
    destruct (0 <? outer_scanrelid) eqn:Hmode.
  (* Var *)
  - destruct (negb (no =? outer_scanrelid)); [ discriminate | ].
    destruct (bms_add_member refs
                (att - FirstLowInvalidHeapAttributeNumber)) as [r1 |];
      simpl in H; [ | discriminate ].
    inversion H; subst. unfold kept, Rewrite.kept, Rewrite.source_row.
    rewrite Hmode. split; reflexivity.
  - destruct (outer_entry outer_tlist
                (NExpr (Var no att t tm c lv noold oatt)))
      as [tle |] eqn:Hent; [ | discriminate ].
    eapply outer_var_kept; eassumption.
  (* Const *)
  - simpl in H. inversion H; subst. unfold kept, Rewrite.kept. split; reflexivity.
  - destruct (outer_entry outer_tlist
                (NExpr (Const t tm c len v isnull byval)))
      as [tle |] eqn:Hent; [ eapply outer_var_kept; eassumption | ].
    simpl in H. inversion H; subst. unfold kept, Rewrite.kept. split; reflexivity.
  (* NullTest *)
  - simpl in H. destruct (mut a refs) as [[a1 r1] |] eqn:E; simpl in H;
      [ | discriminate ].
    inversion H; subst. destruct (IHa _ _ _ E) as [_ Hv].
    unfold kept, Rewrite.kept. split; [ reflexivity | ]. cbn [eval]. rewrite Hv. reflexivity.
  - destruct (outer_entry outer_tlist (NExpr (NullTest a t r)))
      as [tle |] eqn:Hent; [ eapply outer_var_kept; eassumption | ].
    simpl in H. destruct (mut a refs) as [[a1 r1] |] eqn:E; simpl in H;
      [ | discriminate ].
    inversion H; subst. destruct (IHa _ _ _ E) as [_ Hv].
    unfold kept, Rewrite.kept. split; [ reflexivity | ]. cbn [eval]. rewrite Hv. reflexivity.
  (* BoolExpr *)
  - simpl in H. destruct (mut_list args refs) as [[l1 r1] |] eqn:E;
      simpl in H; [ | discriminate ].
    inversion H; subst.
    pose proof (kept_list_values _ _ (mutate_list_kept _ IHargs _ _ _ E))
      as Hv.
    unfold kept, Rewrite.kept. split; [ reflexivity | ]. cbn [eval]. rewrite Hv. reflexivity.
  - destruct (outer_entry outer_tlist (NExpr (BoolExpr op args)))
      as [tle |] eqn:Hent; [ eapply outer_var_kept; eassumption | ].
    simpl in H. destruct (mut_list args refs) as [[l1 r1] |] eqn:E;
      simpl in H; [ | discriminate ].
    inversion H; subst.
    pose proof (kept_list_values _ _ (mutate_list_kept _ IHargs _ _ _ E))
      as Hv.
    unfold kept, Rewrite.kept. split; [ reflexivity | ]. cbn [eval]. rewrite Hv. reflexivity.
  (* CaseExpr *)
  - simpl in H. destruct (mut_whens whens refs) as [[l1 r1] |] eqn:E;
      simpl in H; [ | discriminate ].
    destruct (mut d r1) as [[d1 r2] |] eqn:Ed; simpl in H;
      [ | discriminate ].
    inversion H; subst. unfold kept, Rewrite.kept. split; [ reflexivity | ].
    apply eval_case_ext; [ | exact (proj2 (IHd _ _ _ Ed)) ].
    pose proof (mutate_whens_kept _ IHw _ _ _ E) as Hws.
    clear - Hws. induction Hws as [| w w' l l' [[_ Hc] [_ Hr]] _ IH];
      constructor; [ split; assumption | exact IH ].
  - destruct (outer_entry outer_tlist (NExpr (CaseExpr t whens d)))
      as [tle |] eqn:Hent; [ eapply outer_var_kept; eassumption | ].
    simpl in H. destruct (mut_whens whens refs) as [[l1 r1] |] eqn:E;
      simpl in H; [ | discriminate ].
    destruct (mut d r1) as [[d1 r2] |] eqn:Ed; simpl in H;
      [ | discriminate ].
    inversion H; subst. unfold kept, Rewrite.kept. split; [ reflexivity | ].
    apply eval_case_ext; [ | exact (proj2 (IHd _ _ _ Ed)) ].
    pose proof (mutate_whens_kept _ IHw _ _ _ E) as Hws.
    clear - Hws. induction Hws as [| w w' l l' [[_ Hc] [_ Hr]] _ IH];
      constructor; [ split; assumption | exact IH ].
  (* FuncExpr *)
  - simpl in H. destruct (mut_list args refs) as [[l1 r1] |] eqn:E;
      simpl in H; [ | discriminate ].
    inversion H; subst.
    pose proof (kept_list_values _ _ (mutate_list_kept _ IHargs _ _ _ E))
      as Hv.
    unfold kept, Rewrite.kept. split; [ reflexivity | ]. cbn [eval]. rewrite Hv. reflexivity.
  - destruct (outer_entry outer_tlist
                (NExpr (FuncExpr fid rt rs va ff fc ic args)))
      as [tle |] eqn:Hent; [ eapply outer_var_kept; eassumption | ].
    simpl in H. destruct (mut_list args refs) as [[l1 r1] |] eqn:E;
      simpl in H; [ | discriminate ].
    inversion H; subst.
    pose proof (kept_list_values _ _ (mutate_list_kept _ IHargs _ _ _ E))
      as Hv.
    unfold kept, Rewrite.kept. split; [ reflexivity | ]. cbn [eval]. rewrite Hv. reflexivity.
  (* RelabelType *)
  - simpl in H. destruct (mut a refs) as [[a1 r1] |] eqn:E; simpl in H;
      [ | discriminate ].
    inversion H; subst. destruct (IHa _ _ _ E) as [_ Hv].
    unfold kept, Rewrite.kept. split; [ reflexivity | ]. cbn [eval]. exact Hv.
  - destruct (outer_entry outer_tlist (NExpr (RelabelType a t tm c f)))
      as [tle |] eqn:Hent; [ eapply outer_var_kept; eassumption | ].
    simpl in H. destruct (mut a refs) as [[a1 r1] |] eqn:E; simpl in H;
      [ | discriminate ].
    inversion H; subst. destruct (IHa _ _ _ E) as [_ Hv].
    unfold kept, Rewrite.kept. split; [ reflexivity | ]. cbn [eval]. exact Hv.
Qed.

Lemma mutate_cases :
  forall e refs e' refs',
    mut e refs = Ok (e', refs') ->
    (exists no att t tm c lv noold oatt,
        e = Var no att t tm c lv noold oatt
        /\ e' = makeVar INDEX_VAR att t tm c lv
        /\ refs' = (att - FirstLowInvalidHeapAttributeNumber) :: refs)
    \/ (exists tle,
          refs' = (resno tle - FirstLowInvalidHeapAttributeNumber) :: refs
          /\ exists t tm c, e' = makeVar INDEX_VAR (resno tle) t tm c 0)
    \/ (match e with
        | Var _ _ _ _ _ _ _ _ => False
        | _ => True
        end
        /\ children e refs = Ok (e', refs')).
Proof.
  intros e refs e' refs' H. rewrite mutate_unfold in H.
  destruct (0 <? outer_scanrelid).
  - destruct e as [no att t tm c lv noold oatt | | | | | |];
      try (right; right; split; [ exact I | exact H ]).
    destruct (negb (no =? outer_scanrelid)); [ discriminate | ].
    unfold bms_add_member in H.
    destruct (att - FirstLowInvalidHeapAttributeNumber <? 0);
      simpl in H; [ discriminate | ].
    inversion H; subst. left. exists no, att, t, tm, c, lv, noold, oatt.
    split; [ reflexivity | split; reflexivity ].
  - destruct (outer_entry outer_tlist (NExpr e)) as [tle |].
    + unfold outer_var, bms_add_member in H.
      destruct (resno tle - FirstLowInvalidHeapAttributeNumber <? 0);
        simpl in H; [ discriminate | ].
      inversion H; subst. right. left. exists tle.
      split; [ reflexivity | ]. eexists; eexists; eexists; reflexivity.
    + destruct e; try discriminate H; right; right;
        (split; [ exact I | exact H ]).
Qed.

Lemma vars_recorded_incl :
  forall refs refs' e,
    incl refs refs' -> vars_recorded refs e -> vars_recorded refs' e.
Proof.
  intros refs refs' e Hincl H. unfold vars_recorded in *.
  eapply Forall_impl; [ | exact H ].
  intros v [Hv Hin]. split; [ exact Hv | apply Hincl; exact Hin ].
Qed.

Let recorded (e : Expr) : Prop :=
  forall refs e' refs',
    mut e refs = Ok (e', refs') ->
    incl refs refs' /\ vars_recorded refs' e'.

Lemma mutate_list_recorded :
  forall args,
    Forall recorded args ->
    forall refs args' refs',
      mut_list args refs = Ok (args', refs') ->
      incl refs refs' /\ Forall (vars_recorded refs') args'.
Proof.
  intros args Hall. induction Hall as [| e args He Hrest IH];
    intros refs args' refs' H; unfold mut_list in H; simpl in H.
  - inversion H; subst. split; [ apply incl_refl | constructor ].
  - fold mut in H. fold mut_list in H.
    destruct (mut e refs) as [[e1 r1] |] eqn:E1; simpl in H;
      [ | discriminate ].
    destruct (mut_list args r1) as [[l2 r2] |] eqn:E2; simpl in H;
      [ | discriminate ].
    inversion H; subst.
    destruct (He _ _ _ E1) as [Hi1 Hr1].
    destruct (IH _ _ _ E2) as [Hi2 Hr2].
    split; [ eapply incl_tran; eassumption | ].
    constructor; [ | exact Hr2 ].
    eapply vars_recorded_incl; eassumption.
Qed.

Lemma mutate_whens_recorded :
  forall whens,
    Forall (fun w => recorded (fst w) /\ recorded (snd w)) whens ->
    forall refs whens' refs',
      mut_whens whens refs = Ok (whens', refs') ->
      incl refs refs'
      /\ Forall (fun w => vars_recorded refs' (fst w)
                          /\ vars_recorded refs' (snd w)) whens'.
Proof.
  intros whens Hall. induction Hall as [| w whens [Hc Hr] Hrest IH];
    intros refs whens' refs' H; unfold mut_whens in H; simpl in H.
  - inversion H; subst. split; [ apply incl_refl | constructor ].
  - fold mut in H. fold mut_whens in H.
    destruct (mut (fst w) refs) as [[c1 r1] |] eqn:E1; simpl in H;
      [ | discriminate ].
    destruct (mut (snd w) r1) as [[c2 r2] |] eqn:E2; simpl in H;
      [ | discriminate ].
    destruct (mut_whens whens r2) as [[l3 r3] |] eqn:E3; simpl in H;
      [ | discriminate ].
    inversion H; subst.
    destruct (Hc _ _ _ E1) as [Hi1 Hr1].
    destruct (Hr _ _ _ E2) as [Hi2 Hr2].
    destruct (IH _ _ _ E3) as [Hi3 Hr3].
    split; [ eapply incl_tran; [ exact Hi1 | ];
             eapply incl_tran; eassumption | ].
    constructor; [ | exact Hr3 ]. simpl. split.
    + eapply vars_recorded_incl; [ | exact Hr1 ].
      eapply incl_tran; eassumption.
    + eapply vars_recorded_incl; eassumption.
Qed.

Lemma vars_recorded_flat :
  forall refs args,
    Forall (vars_recorded refs) args ->
    Forall (fun v => fst v = INDEX_VAR
                     /\ In (snd v - FirstLowInvalidHeapAttributeNumber) refs)
           (flat_map vars args).
Proof.
  intros refs args H. induction H as [| e args He _ IH]; simpl.
  - constructor.
  - apply Forall_app. split; assumption.
Qed.

Lemma mutate_recorded : forall e, recorded e.
Proof.
  intros e.
  induction e as [no att t tm c lv noold oatt
                 | t tm c len v isnull byval
                 | a t r IHa | op args IHargs | t whens d IHw IHd
                 | fid rt rs va ff fc ic args IHargs
                 | a t tm c f IHa] using Expr_nested_ind;
    intros refs e' refs' H;
    (destruct (mutate_cases _ _ _ _ H)
       as [(no' & att' & t' & tm' & c' & lv' & noold' & oatt'
            & He & He' & Hrefs)
          | [(tle & Hrefs & t' & tm' & c' & He') | [Hnv Hch]]];
     [ subst e' refs'; split; [ apply incl_tl, incl_refl | ];
       unfold vars_recorded; simpl; constructor;
       [ split; [ reflexivity | left; reflexivity ] | constructor ]
     | subst e' refs'; split; [ apply incl_tl, incl_refl | ];
       unfold vars_recorded; simpl; constructor;
       [ split; [ reflexivity | left; reflexivity ] | constructor ]
     | ]);
    simpl in Hch.
  - contradiction.
  - inversion Hch; subst. split; [ apply incl_refl | ].
    unfold vars_recorded. simpl. constructor.
  - destruct (mut a refs) as [[a1 r1] |] eqn:E; simpl in Hch;
      [ | discriminate ].
    inversion Hch; subst. exact (IHa _ _ _ E).
  - destruct (mut_list args refs) as [[l1 r1] |] eqn:E; simpl in Hch;
      [ | discriminate ].
    inversion Hch; subst.
    destruct (mutate_list_recorded _ IHargs _ _ _ E) as [Hi Hr].
    split; [ exact Hi | ]. apply vars_recorded_flat. exact Hr.
  - destruct (mut_whens whens refs) as [[l1 r1] |] eqn:E; simpl in Hch;
      [ | discriminate ].
    destruct (mut d r1) as [[d1 r2] |] eqn:Ed; simpl in Hch;
      [ | discriminate ].
    inversion Hch; subst.
    destruct (mutate_whens_recorded _ IHw _ _ _ E) as [Hi Hr].
    destruct (IHd _ _ _ Ed) as [Hid Hrd].
    split; [ eapply incl_tran; eassumption | ].
    unfold vars_recorded. simpl. apply Forall_app. split; [ | exact Hrd ].
    clear - Hr Hid. induction Hr as [| w l [Hc Hs] _ IH]; simpl.
    + constructor.
    + apply Forall_app. split; [ | exact IH ].
      apply Forall_app. split.
      * exact (vars_recorded_incl _ _ _ Hid Hc).
      * exact (vars_recorded_incl _ _ _ Hid Hs).
  - destruct (mut_list args refs) as [[l1 r1] |] eqn:E; simpl in Hch;
      [ | discriminate ].
    inversion Hch; subst.
    destruct (mutate_list_recorded _ IHargs _ _ _ E) as [Hi Hr].
    split; [ exact Hi | ]. apply vars_recorded_flat. exact Hr.
  - destruct (mut a refs) as [[a1 r1] |] eqn:E; simpl in Hch;
      [ | discriminate ].
    inversion Hch; subst. exact (IHa _ _ _ E).
Qed.

End RewriteProofs.


Section RewriteTop.
Variable exprTypmod : Expr -> Z.
Variable exprCollation : Expr -> Oid.
Variable outer_scanrelid : Z.
Variable outer_tlist : list TargetEntry.
Variable fsem : Oid -> list datum -> datum.
Variable row : Z -> datum.

Let mut := mutate exprTypmod exprCollation outer_scanrelid outer_tlist.
Let mut_node :=
  mutate_node exprTypmod exprCollation outer_scanrelid outer_tlist.
Let mut_entries :=
  mutate_entries exprTypmod exprCollation outer_scanrelid outer_tlist.

Lemma mutate_entries_kept :
  NoDup (map resno outer_tlist) ->
  forall tlist refs tlist' refs',
    mut_entries tlist refs = Ok (tlist', refs') ->
    Forall2 (entry_kept fsem outer_scanrelid outer_tlist row) tlist tlist'.
Proof.
  intros Hnd tlist. induction tlist as [| d tlist IH];
    intros refs tlist' refs' H; unfold mut_entries in H; simpl in H.
  - inversion H. constructor.
  - fold mut_node in H. fold mut_entries in H.
    destruct (mut_node (expr d) refs) as [[n1 r1] |] eqn:E1; simpl in H;
      [ | discriminate ].
    destruct (mut_entries tlist r1) as [[l2 r2] |] eqn:E2; simpl in H;
      [ | discriminate ].
    inversion H; subst. constructor; [ | eapply IH; exact E2 ].
    unfold entry_kept. simpl.
    split; [ reflexivity | ]. split; [ reflexivity | ].
    split; [ reflexivity | ].
    intros e He. rewrite He in E1. unfold mut_node in E1. simpl in E1.
    fold mut in E1.
    destruct (mut e refs) as [[e1 r] |] eqn:Em; simpl in E1;
      [ | discriminate ].
    inversion E1; subst. exists e1. split; [ reflexivity | ].
    eapply mutate_kept; eassumption.
Qed.

Lemma mutate_node_recorded :
  forall n refs n' refs',
    mut_node n refs = Ok (n', refs') ->
    incl refs refs'
    /\ (forall e', n' = NExpr e' -> vars_recorded refs' e').
Proof.
  intros n refs n' refs' H. unfold mut_node in H.
  assert (Hchildren :
    forall a,
      (x <- mutate_list exprTypmod exprCollation outer_scanrelid outer_tlist
              (aggargs a) refs ;;
       y <- (match aggfilter a with
             | None => Ok (None, snd x)
             | Some f =>
                 z <- mutate exprTypmod exprCollation outer_scanrelid
                        outer_tlist f (snd x) ;;
                 Ok (Some (fst z), snd z)
             end) ;;
       Ok (NAggref (mk_aggref (aggfnoid a) (aggtype a) (aggcollid a)
                              (agginputcollid a) (fst x) (fst y)), snd y))
      = Ok (n', refs') ->
      incl refs refs'
      /\ (forall e', n' = NExpr e' -> vars_recorded refs' e')).
  { intros a Ha.
    destruct (mutate_list exprTypmod exprCollation outer_scanrelid
                outer_tlist (aggargs a) refs) as [[l1 r1] |] eqn:E1;
      simpl in Ha; [ | discriminate ].
    assert (Hi1 : incl refs r1).
    { eapply (mutate_list_recorded exprTypmod exprCollation outer_scanrelid
                outer_tlist (aggargs a)); [ | exact E1 ].
      apply Forall_forall. intros e _. apply mutate_recorded. }
    destruct (aggfilter a) as [f |]; simpl in Ha.
    - destruct (mutate exprTypmod exprCollation outer_scanrelid outer_tlist
                  f r1) as [[f1 r2] |] eqn:E2; simpl in Ha;
        [ | discriminate ].
      inversion Ha; subst.
      destruct (mutate_recorded _ _ _ _ _ _ _ _ E2) as [Hi2 _].
      split; [ eapply incl_tran; eassumption | ].
      intros e' He'. discriminate He'.
    - inversion Ha; subst. split; [ exact Hi1 | ].
      intros e' He'. discriminate He'. }
  destruct n as [e | a]; simpl in H.
  - destruct (mutate exprTypmod exprCollation outer_scanrelid outer_tlist
                e refs) as [[e1 r1] |] eqn:E; simpl in H; [ | discriminate ].
    inversion H; subst.
    destruct (mutate_recorded _ _ _ _ _ _ _ _ E) as [Hi Hr].
    split; [ exact Hi | ]. intros e' He'. inversion He'; subst. exact Hr.
  - destruct (0 <? outer_scanrelid); [ apply (Hchildren a H) | ].
    destruct (outer_entry outer_tlist (NAggref a)) as [tle |];
      [ | apply (Hchildren a H) ].
    unfold outer_var, bms_add_member in H.
    destruct (resno tle - FirstLowInvalidHeapAttributeNumber <? 0);
      simpl in H; [ discriminate | ].
    inversion H; subst. split; [ apply incl_tl, incl_refl | ].
    intros e' He'. inversion He'; subst.
    unfold vars_recorded. simpl. constructor; [ | constructor ].
    split; [ reflexivity | left; reflexivity ].
Qed.

Lemma mutate_entries_recorded :
  forall tlist refs tlist' refs',
    mut_entries tlist refs = Ok (tlist', refs') ->
    incl refs refs'
    /\ Forall (fun a => forall e', expr a = NExpr e' ->
                          vars_recorded refs' e') tlist'.
Proof.
  induction tlist as [| d tlist IH]; intros refs tlist' refs' H;
    unfold mut_entries in H; simpl in H.
  - inversion H; subst. split; [ apply incl_refl | constructor ].
  - fold mut_node in H. fold mut_entries in H.
    destruct (mut_node (expr d) refs) as [[n1 r1] |] eqn:E1; simpl in H;
      [ | discriminate ].
    destruct (mut_entries tlist r1) as [[l2 r2] |] eqn:E2; simpl in H;
      [ | discriminate ].
    inversion H; subst.
    destruct (mutate_node_recorded _ _ _ _ E1) as [Hi1 Hr1].
    destruct (IH _ _ _ E2) as [Hi2 Hr2].
    split; [ eapply incl_tran; eassumption | ].
    constructor; [ | exact Hr2 ]. simpl.
    intros e' He'. eapply vars_recorded_incl; [ exact Hi2 | ].
    apply Hr1. exact He'.
Qed.

(** X14: the device target list rewritten over the outer columns has one
    entry per device entry, in the same slot, and each rewritten expression
    has the type of the original and, read from the source tuple (the
    scanned row, or the tuple the outer plan returns for it), the value the
    original has on the row. *)
Theorem device_projection_keeps_types_and_values :
  forall tlist_dev tlist_alt outer_refs,
    NoDup (map resno outer_tlist) ->
    make_tlist_device_projection exprTypmod exprCollation outer_scanrelid
      outer_tlist tlist_dev = Ok (tlist_alt, outer_refs) ->
    Forall2 (entry_kept fsem outer_scanrelid outer_tlist row)
            tlist_dev tlist_alt
    /\ List.length tlist_alt = List.length tlist_dev.
Proof.
  intros tlist_dev tlist_alt outer_refs Hnd H.
  unfold make_tlist_device_projection in H.
  pose proof (mutate_entries_kept Hnd _ _ _ _ H) as Hall.
  split; [ exact Hall | ].
  symmetry. eapply Forall2_length. exact Hall.
Qed.

(** X15: after the rewriting every [Var] of the device expressions refers
    to the source tuple ([INDEX_VAR]), and its attribute is a member of
    [outer_refs], the set of columns the generated projection loads. *)
Theorem device_projection_records_columns :
  forall tlist_dev tlist_alt outer_refs a e',
    make_tlist_device_projection exprTypmod exprCollation outer_scanrelid
      outer_tlist tlist_dev = Ok (tlist_alt, outer_refs) ->
    In a tlist_alt ->
    expr a = NExpr e' ->
    vars_recorded outer_refs e'.
Proof.
  intros tlist_dev tlist_alt outer_refs a e' H Hin He'.
  unfold make_tlist_device_projection in H.
  destruct (mutate_entries_recorded _ _ _ _ H) as [_ Hall].
  rewrite Forall_forall in Hall. exact (Hall a Hin e' He').
Qed.

End RewriteTop.

Lemma device_projection_keeps_types_and_values_witness :
  match MoreSamples.sample_projection with
  | Ok (tlist_alt, _) =>
      Forall2 (entry_kept no_functions 0 MoreSamples.sample_outer_tlist
                          (fun attno => if attno =? 7 then None else Some 5))
              MoreSamples.sample_tlist_dev tlist_alt
      /\ List.length tlist_alt = 2%nat
  | Error _ => False
  end.
Proof.
  destruct MoreSamples.sample_projection as [[tlist_alt refs] |] eqn:E.
  - apply (device_projection_keeps_types_and_values no_typmod no_collation 0
             MoreSamples.sample_outer_tlist no_functions
             (fun attno => if attno =? 7 then None else Some 5)
             MoreSamples.sample_tlist_dev tlist_alt refs).
    + simpl. constructor; [ intros [H | []]; discriminate H | ].
      constructor; [ intros [] | constructor ].
    + exact E.
  - vm_compute in E. discriminate E.
Defined.

Lemma device_projection_records_columns_witness :
  match MoreSamples.sample_projection with
  | Ok (tlist_alt, outer_refs) =>
      vars_recorded outer_refs
        (NullTest (makeVar INDEX_VAR 1 INT4OID (-1) InvalidOid 0) IS_NOT_NULL false)
  | Error _ => False
  end.
Proof.
  destruct MoreSamples.sample_projection as [[tlist_alt refs] |] eqn:E.
  - apply (device_projection_records_columns no_typmod no_collation 0
             MoreSamples.sample_outer_tlist
             MoreSamples.sample_tlist_dev tlist_alt refs
             (tle (NExpr (NullTest (makeVar INDEX_VAR 1 INT4OID (-1) InvalidOid 0)
                                   IS_NOT_NULL false)) 2)).
    + exact E.
    + vm_compute in E. inversion E. right. left. reflexivity.
    + reflexivity.
  - vm_compute in E. discriminate E.
Defined.

(** ** The generators of the hash, key-match and reduction functions *)

Section KernelProofs.
Variable exprCollation : Expr -> Oid.
Variable devtype_lookup : Oid -> option devtype_info.
Variable type_cmpfunc : devtype_info -> Oid.
Variable type_eqfunc : devtype_info -> Oid.
Variable devfunc_lookup : Oid -> Oid -> option string.

Lemma hashvalue_loop_keys :
  forall columns decl body,
    hashvalue_loop devtype_lookup type_cmpfunc columns decl body
    = hashvalue_loop devtype_lookup type_cmpfunc
        (filter is_key_column columns) decl body.
Proof.
  induction columns as [| [tle_ action] columns IH]; intros decl body;
    [ reflexivity | ].
  simpl. unfold is_key_column at 1. simpl.
  destruct (action =? ALTFUNC_GROUPING_KEY) eqn:Ek; simpl.
  - rewrite Ek. simpl.
    destruct (devtype_lookup (nodeType (expr tle_))) as [dtype |];
      [ | reflexivity ].
    destruct (type_cmpfunc dtype =? InvalidOid); [ reflexivity | ].
    apply IH.
  - apply IH.
Qed.

Lemma keymatch_loop_keys :
  forall columns kern,
    keymatch_loop exprCollation devtype_lookup type_eqfunc devfunc_lookup
                  columns kern
    = keymatch_loop exprCollation devtype_lookup type_eqfunc devfunc_lookup
        (filter is_key_column columns) kern.
Proof.
  induction columns as [| [tle_ action] columns IH]; intros kern;
    [ reflexivity | ].
  simpl. unfold is_key_column at 1. simpl.
  destruct (action =? ALTFUNC_GROUPING_KEY) eqn:Ek; simpl.
  - rewrite Ek. simpl.
    destruct (devtype_lookup (nodeType (expr tle_))) as [dtype |];
      [ | reflexivity ].
    destruct (type_eqfunc dtype =? InvalidOid); [ reflexivity | ].
    destruct (devfunc_lookup (type_eqfunc dtype)
                (nodeCollation exprCollation (expr tle_)));
      [ apply IH | reflexivity ].
  - apply IH.
Qed.

(** X16: the generated hash function and key comparison depend on the
    grouping-key columns only: two pairs of device lists with the same
    grouping-key columns give the same text (or the same error); columns of
    aggregates and plain values add nothing and cannot make these
    generators fail. *)
Theorem key_functions_read_only_keys :
  forall dev acts dev' acts',
    filter is_key_column (combine dev acts)
    = filter is_key_column (combine dev' acts') ->
    gpupreagg_codegen_hashvalue devtype_lookup type_cmpfunc dev acts
    = gpupreagg_codegen_hashvalue devtype_lookup type_cmpfunc dev' acts'
    /\ gpupreagg_codegen_keymatch exprCollation devtype_lookup type_eqfunc
         devfunc_lookup dev acts
       = gpupreagg_codegen_keymatch exprCollation devtype_lookup type_eqfunc
           devfunc_lookup dev' acts'.
Proof.
  intros dev acts dev' acts' Hkeys.
  unfold gpupreagg_codegen_hashvalue, gpupreagg_codegen_keymatch.
  rewrite (hashvalue_loop_keys (combine dev acts)),
          (hashvalue_loop_keys (combine dev' acts')),
          (keymatch_loop_keys (combine dev acts)),
          (keymatch_loop_keys (combine dev' acts')), Hkeys.
  split; reflexivity.
Qed.

Lemma common_calc_loop_ok :
  forall cls args columns kern,
    (exists text,
        common_calc_loop devtype_lookup columns cls args kern = Ok text)
    <-> Forall (calc_supported devtype_lookup) columns.
Proof.
  intros cls args. induction columns as [| [tle_ action] columns IH];
    intros kern; simpl.
  - split; [ constructor | ]. intros _. exists kern. reflexivity.
  - destruct (action <? ALTFUNC_EXPR_NROWS) eqn:Ea.
    + rewrite IH. split.
      * intros H. constructor; [ | exact H ].
        unfold calc_supported, is_aggfn_column. simpl. rewrite Ea.
        intros Habs. discriminate Habs.
      * intros H. inversion H; assumption.
    + destruct (devtype_lookup (nodeType (expr tle_))) as [dtype |] eqn:Ed.
      * destruct (aggcalc_type (type_oid dtype)) as [ty |] eqn:Et.
        -- rewrite IH. split.
           ++ intros H. constructor; [ | exact H ].
              unfold calc_supported. simpl. intros _.
              exists dtype, ty. split; assumption.
           ++ intros H. inversion H; assumption.
        -- split; [ intros [text H]; discriminate H | ].
           intros H. inversion H as [| c cs Hc Hrest]; subst.
           unfold calc_supported, is_aggfn_column in Hc. simpl in Hc.
           rewrite Ea in Hc. destruct (Hc eq_refl) as (d & ty & Hd & Hty).
           rewrite Ed in Hd. inversion Hd; subst d. congruence.
      * split; [ intros [text H]; discriminate H | ].
        intros H. inversion H as [| c cs Hc Hrest]; subst.
        unfold calc_supported, is_aggfn_column in Hc. simpl in Hc.
        rewrite Ea in Hc. destruct (Hc eq_refl) as (d & ty & Hd & Hty).
        rewrite Ed in Hd. discriminate Hd.
Qed.

Lemma common_calc_ok :
  forall cls args dev acts,
    (exists text,
        gpupreagg_codegen_common_calc devtype_lookup dev acts cls args
        = Ok text)
    <-> Forall (calc_supported devtype_lookup) (combine dev acts).
Proof.
  intros cls args dev acts. unfold gpupreagg_codegen_common_calc.
  rewrite <- (common_calc_loop_ok cls args (combine dev acts)
                ("  switch (attnum)" ++ nl ++ "  {" ++ nl)%string).
  destruct (common_calc_loop devtype_lookup (combine dev acts) cls args
              ("  switch (attnum)" ++ nl ++ "  {" ++ nl)%string)
    as [r |]; simpl.
  - split; intros _; eexists; reflexivity.
  - split; intros [text H]; discriminate H.
Qed.

(** X17: the three reduction functions (local, global, no-group) are
    generated or refused together: each generator succeeds exactly when
    every aggregate column of the device list has a known device type that
    is one of the eleven types of the [switch]; grouping keys and plain
    values play no part. *)
Theorem reduction_functions_generated_iff :
  forall dev acts,
    let supported :=
      Forall (calc_supported devtype_lookup) (combine dev acts) in
    ((exists text,
         gpupreagg_codegen_local_calc devtype_lookup dev acts = Ok text)
     <-> supported)
    /\ ((exists text,
            gpupreagg_codegen_global_calc devtype_lookup dev acts = Ok text)
        <-> supported)
    /\ ((exists text,
            gpupreagg_codegen_nogroup_calc devtype_lookup dev acts = Ok text)
        <-> supported).
Proof.
  intros dev acts supported. unfold supported.
  unfold gpupreagg_codegen_local_calc, gpupreagg_codegen_global_calc,
    gpupreagg_codegen_nogroup_calc.
  rewrite <- (common_calc_ok "LOCAL" "kcxt,accum,newval" dev acts) at 1.
  rewrite <- (common_calc_ok "GLOBAL"
                "kcxt,accum_isnull,accum_value,new_isnull,new_value"
                dev acts) at 1.
  rewrite <- (common_calc_ok "NOGROUP" "kcxt,accum,newval" dev acts).
  split; [ | split ].
  - destruct (gpupreagg_codegen_common_calc devtype_lookup dev acts
                "LOCAL" "kcxt,accum,newval") as [r |]; simpl.
    + split; intros _; eexists; reflexivity.
    + split; intros [text H]; discriminate H.
  - destruct (gpupreagg_codegen_common_calc devtype_lookup dev acts
                "GLOBAL"
                "kcxt,accum_isnull,accum_value,new_isnull,new_value")
      as [r |]; simpl.
    + split; intros _; eexists; reflexivity.
    + split; intros [text H]; discriminate H.
  - destruct (gpupreagg_codegen_common_calc devtype_lookup dev acts
                "NOGROUP" "kcxt,accum,newval") as [r |]; simpl.
    + split; intros _; eexists; reflexivity.
    + split; intros [text H]; discriminate H.
Qed.

End KernelProofs.

Lemma key_functions_read_only_keys_witness :
  gpupreagg_codegen_hashvalue sample_devtype_lookup MoreSamples.sample_cmpfunc
    [tle (NExpr col_k) 1; tle (NExpr col_x) 2]
    [ALTFUNC_GROUPING_KEY; ALTFUNC_EXPR_PSUM]
  = gpupreagg_codegen_hashvalue sample_devtype_lookup
      MoreSamples.sample_cmpfunc [tle (NExpr col_k) 1] [ALTFUNC_GROUPING_KEY].
Proof.
  exact (proj1 (key_functions_read_only_keys no_collation
                  sample_devtype_lookup MoreSamples.sample_cmpfunc
                  MoreSamples.sample_eqfunc MoreSamples.sample_devfunc_name
                  [tle (NExpr col_k) 1; tle (NExpr col_x) 2]
                  [ALTFUNC_GROUPING_KEY; ALTFUNC_EXPR_PSUM]
                  [tle (NExpr col_k) 1] [ALTFUNC_GROUPING_KEY] eq_refl)).
Defined.

(** ** The size of the final buffer *)

Lemma div_bracket :
  forall a b, 0 <= a -> 0 < b -> b * (a / b) <= a < b * (a / b + 1).
Proof.
  intros a b Ha Hb. pose proof (Z.div_mod a b) as Hdm.
  pose proof (Z.mod_pos_bound a b Hb) as Hm. lia.
Qed.

Lemma div_bracket_ge :
  forall a b n, 0 < b -> 0 <= n -> b * n <= a -> n <= a / b.
Proof.
  intros a b n Hb Hn H. apply Z.div_le_lower_bound; lia.
Qed.

(** X18: the number of rooms of the final buffer is never below the
    planned one; a buffer planned below three chunks is sized to one chunk
    (planned below half a chunk), two chunks (below one chunk) or three
    chunks, as the largest number of rooms that fits; a larger plan is kept
    as it is. *)
Theorem final_buffer_sizing :
  forall chunk_size head_sz unit_sz nrooms,
    0 < unit_sz ->
    0 <= head_sz <= chunk_size ->
    3 * chunk_size < 2 ^ 32 ->
    0 <= nrooms < 2 ^ 32 ->
    head_sz + unit_sz * nrooms < 2 ^ 64 ->
    let length := head_sz + unit_sz * nrooms in
    let n := final_nrooms chunk_size head_sz unit_sz nrooms in
    let k := chunk_budget chunk_size length in
    nrooms <= n
    /\ (length < 3 * chunk_size ->
        head_sz + unit_sz * n <= k * chunk_size
        /\ k * chunk_size < head_sz + unit_sz * (n + 1))
    /\ (3 * chunk_size <= length -> n = nrooms).
Proof.
  intros chunk_size head_sz unit_sz nrooms Hunit Hhead Hchunk Hrooms Hlen
         length n k.
  assert (Hprod : 0 <= unit_sz * nrooms) by nia.
  assert (H64 : 2 ^ 32 < 2 ^ 64) by (apply Z.pow_lt_mono_r; lia).
  assert (Hhalf : chunk_size / 2 <= chunk_size)
    by (apply Z.div_le_upper_bound; lia).
  unfold n, k, final_nrooms, chunk_budget, u64, u32. cbv zeta.
  rewrite (Z.mod_small (unit_sz * nrooms)) by lia.
  rewrite (Z.mod_small (head_sz + unit_sz * nrooms)) by lia.
  rewrite (Z.mod_small (chunk_size - head_sz)) by lia.
  rewrite (Z.mod_small (2 * chunk_size)) by lia.
  rewrite (Z.mod_small (3 * chunk_size)) by lia.
  rewrite (Z.mod_small (2 * chunk_size - head_sz)) by lia.
  rewrite (Z.mod_small (3 * chunk_size - head_sz)) by lia.
  fold length.
  assert (Hq : forall a, 0 <= a < 2 ^ 32 ->
                 (a / unit_sz) mod 2 ^ 32 = a / unit_sz
                 /\ unit_sz * (a / unit_sz) <= a
                 /\ a < unit_sz * (a / unit_sz + 1)
                 /\ (unit_sz * nrooms <= a -> nrooms <= a / unit_sz)).
  { intros a Ha. pose proof (div_bracket a unit_sz (proj1 Ha) Hunit) as Hb.
    assert (0 <= a / unit_sz) by (apply Z.div_pos; lia).
    assert (a / unit_sz <= a) by nia.
    split; [ apply Z.mod_small; lia | ].
    split; [ lia | split; [ lia | ] ].
    intros Hle. apply div_bracket_ge; lia. }
  destruct (Z.ltb_spec length (chunk_size / 2)) as [H1 | H1].
  - destruct (Hq (chunk_size - head_sz)) as (-> & Hlo & Hhi & Hge);
      [ lia | ].
    unfold length in *. split; [ apply Hge; lia | ]. split; [ | lia ].
    intros _. lia.
  - destruct (Z.ltb_spec length chunk_size) as [H2 | H2].
    + destruct (Hq (2 * chunk_size - head_sz)) as (-> & Hlo & Hhi & Hge);
        [ lia | ].
      unfold length in *. split; [ apply Hge; lia | ]. split; [ | lia ].
      intros _. lia.
    + destruct (Z.ltb_spec length (3 * chunk_size)) as [H3 | H3].
      * destruct (Hq (3 * chunk_size - head_sz)) as (-> & Hlo & Hhi & Hge);
          [ lia | ].
        unfold length in *. split; [ apply Hge; lia | ]. split; [ | lia ].
        intros _. lia.
      * split; [ lia | ]. split; [ lia | ]. intros _. reflexivity.
Qed.

Lemma final_buffer_sizing_witness :
  200 <= final_nrooms 1000000 100 16 200
  /\ (100 + 16 * 200 < 3 * 1000000 ->
      100 + 16 * final_nrooms 1000000 100 16 200 <= 1 * 1000000
      /\ 1 * 1000000 < 100 + 16 * (final_nrooms 1000000 100 16 200 + 1))
  /\ (3 * 1000000 <= 100 + 16 * 200 ->
      final_nrooms 1000000 100 16 200 = 200).
Proof.
  apply (final_buffer_sizing 1000000 100 16 200); lia.
Defined.

(** ** The device memory of a reduction task *)

Lemma u64_add_l : forall a b, u64 (u64 a + b) = u64 (a + b).
Proof. intros a b. unfold u64. apply Zplus_mod_idemp_l. Qed.

Lemma u64_add_r : forall a b, u64 (a + u64 b) = u64 (a + b).
Proof. intros a b. unfold u64. apply Zplus_mod_idemp_r. Qed.

Lemma u64_add_m : forall a x y, u64 (a + (u64 x + y)) = u64 (a + (x + y)).
Proof.
  intros a x y.
  replace (a + (u64 x + y)) with (u64 x + (a + y)) by lia.
  rewrite u64_add_l. f_equal. lia.
Qed.

(** X19: when the device memory of a reduction task is allocated, the
    regions of the task header, of the input chunk (unless it is mapped by
    NVMe-Strom), of the slot buffer and of the hash table follow one another
    from the allocated address, each of its aligned length, and together
    they fill exactly the length that was asked for: the assertion
    [devptr == m_gpreagg + length] of the source holds on every path; the
    pointers to the final buffer are left as they were. *)
Theorem device_regions_fill_allocation :
  forall GPUMEMALIGN t l iomap alloc t' devptr length,
    allocate_device_memory GPUMEMALIGN t l iomap alloc
    = Ok (Allocated t' devptr length) ->
    devptr = u64 (m_gpreagg t' + length)
    /\ m_gpreagg t' = snd alloc
    /\ m_ghash t' = u64 (m_kds_slot t' + GPUMEMALIGN (len_kds_slot l))
    /\ devptr = u64 (m_ghash t' + GPUMEMALIGN (len_ghash l))
    /\ (if with_nvme_strom t'
        then m_kds_in t' = snd iomap
             /\ m_kds_slot t'
                = u64 (m_gpreagg t' + GPUMEMALIGN (len_gpreagg l))
        else m_kds_in t' = u64 (m_gpreagg t' + GPUMEMALIGN (len_gpreagg l))
             /\ m_kds_slot t'
                = u64 (m_kds_in t' + GPUMEMALIGN (len_kds_in l)))
    /\ m_kds_final t' = m_kds_final t /\ m_fhash t' = m_fhash t.
Proof.
  intros A t l iomap alloc t' devptr length H.
  unfold allocate_device_memory in H.
  destruct (with_nvme_strom t);
    [ destruct (fst iomap); simpl in H; try discriminate H | simpl in H ];
    (destruct (fst alloc); try discriminate H);
    inversion H; subst; clear H; simpl;
    (split;
     [ repeat (rewrite <- ?Z.add_assoc;
               rewrite ?u64_add_l, ?u64_add_r, ?u64_add_m);
       f_equal; lia | ]);
    repeat split; reflexivity.
Qed.

Lemma device_regions_fill_allocation_witness :
  match allocate_device_memory (fun x => 1024 * ((x + 1023) / 1024))
          fresh_task (mk_lengths 5000 48064 16016 40000)
          (CUDA_SUCCESS, 0) (CUDA_SUCCESS, 1048576) with
  | Ok (Allocated t' devptr length) =>
      devptr = u64 (m_gpreagg t' + length) /\ m_gpreagg t' = 1048576
  | _ => False
  end.
Proof.
  destruct (allocate_device_memory (fun x => 1024 * ((x + 1023) / 1024))
              fresh_task (mk_lengths 5000 48064 16016 40000)
              (CUDA_SUCCESS, 0) (CUDA_SUCCESS, 1048576))
    as [[t' devptr length | t'] |] eqn:E;
    try (vm_compute in E; discriminate E).
  destruct (device_regions_fill_allocation _ _ _ _ _ _ _ _ E)
    as (Hend & Hstart & _).
  split; [ exact Hend | exact Hstart ].
Defined.

(** ** References to the shared state *)

(** X20: taking and giving back a reference to the shared state leaves
    it as it was and does not release it; the shared state is released by
    the give-back that finds the counter at one, and only by that one. *)
Theorem shared_state_reference_round_trip :
  forall s,
    0 < refcnt s ->
    refcnt s + 1 < 2 ^ 32 ->
    put_gpupreagg_shared_state (get_gpupreagg_shared_state s) = (s, false)
    /\ (snd (put_gpupreagg_shared_state s) = true <-> refcnt s = 1).
Proof.
  intros s Hpos Hmax.
  unfold put_gpupreagg_shared_state, get_gpupreagg_shared_state.
  destruct s as [r a b c d e f g h i j k l m n o p]. simpl in *.
  rewrite (u32_small (r + 1)) by lia.
  replace (r + 1 - 1) with r by lia.
  rewrite (u32_small r) by lia. rewrite (u32_small (r - 1)) by lia.
  unfold set_refcnt. simpl. split.
  - f_equal. apply Z.eqb_neq. lia.
  - rewrite Z.eqb_eq. lia.
Qed.

Lemma shared_state_reference_round_trip_witness :
  put_gpupreagg_shared_state (get_gpupreagg_shared_state sample_sstate)
  = (sample_sstate, false)
  /\ (snd (put_gpupreagg_shared_state sample_sstate) = true
      <-> refcnt sample_sstate = 1).
Proof.
  apply (shared_state_reference_round_trip sample_sstate).
  - simpl. lia.
  - simpl. lia.
Defined.

(** ** The tasks of one scan *)

Section ScanProofs.
Variable slot_length : Z -> Z -> Z.
Variable PDS_create_row : pgstrom_data_store.
Variable PDS_insert_tuple :
  pgstrom_data_store -> TupleTableSlot -> option pgstrom_data_store.

Lemma create_task_on_chunk :
  forall gpas s c last,
    creatable gpas c ->
    exists t,
      gpupreagg_create_task slot_length gpas s (Some c) last
      = Ok (t, get_gpupreagg_shared_state s)
      /\ pds_in t = Some c /\ is_last_task t = last.
Proof.
  intros gpas s c last Hc. unfold gpupreagg_create_task, creatable in *.
  destruct (kds_format c); simpl;
    try (eexists; split; [ reflexivity | split; reflexivity ]).
  destruct (nvme_nrows_per_block gpas) as [n |];
    [ | exfalso; apply Hc; reflexivity ].
  simpl. eexists. split; [ reflexivity | split; reflexivity ].
Qed.

(** One call on a relation scan that has a chunk to hand out. *)
Lemma next_task_of_relation :
  forall gpas s c cs,
    ss_currentRelation gpas = true ->
    pending gpas = c :: cs ->
    creatable gpas c ->
    exists t gpas',
      gpupreagg_next_task slot_length PDS_create_row PDS_insert_tuple gpas s
      = (Ok (t, get_gpupreagg_shared_state s), gpas')
      /\ pds_in t = Some c
      /\ is_last_task t = (match cs with [] => true | _ => false end)
      /\ ss_currentRelation gpas' = true
      /\ nvme_nrows_per_block gpas' = nvme_nrows_per_block gpas
      /\ pending gpas' = cs.
Proof.
  intros gpas s c cs Hrel Hpend Hc.
  unfold gpupreagg_next_task. rewrite Hrel. unfold pending in Hpend.
  destruct (outer_pds gpas) as [p |] eqn:Hp.
  - inversion Hpend as [[Hpc Hcs]]. subst p.
    destruct (rel_chunks gpas) as [| c2 cs'] eqn:Hchunks; subst cs.
    + destruct (create_task_on_chunk gpas s c true Hc)
        as (t & Ht & Hin & Hlast).
      exists t. eexists. rewrite Ht.
      split; [ reflexivity | ]. repeat split; assumption.
    + destruct (create_task_on_chunk gpas s c false Hc)
        as (t & Ht & Hin & Hlast).
      exists t. eexists. rewrite Ht.
      split; [ reflexivity | ]. repeat split; assumption.
  - rewrite Hpend.
    destruct cs as [| c2 cs'].
    + destruct (create_task_on_chunk gpas s c true Hc)
        as (t & Ht & Hin & Hlast).
      exists t. eexists. rewrite Ht.
      split; [ reflexivity | ]. repeat split; assumption.
    + destruct (create_task_on_chunk gpas s c false Hc)
        as (t & Ht & Hin & Hlast).
      exists t. eexists. rewrite Ht.
      split; [ reflexivity | ]. repeat split; assumption.
Qed.

Lemma next_tasks_of_relation :
  forall cs gpas s,
    ss_currentRelation gpas = true ->
    pending gpas = cs ->
    Forall (creatable gpas) cs ->
    0 <= refcnt s ->
    refcnt s + Z.of_nat (List.length cs) < 2 ^ 32 ->
    exists ts s' gpas',
      next_tasks slot_length PDS_create_row PDS_insert_tuple
                 (List.length cs) gpas s = Ok (ts, s', gpas')
      /\ map pds_in ts = map Some cs
      /\ map is_last_task ts
         = map (fun i => Nat.eqb (S i) (List.length cs))
               (seq 0 (List.length cs))
      /\ refcnt s' = refcnt s + Z.of_nat (List.length cs)
      /\ ss_currentRelation gpas' = true
      /\ pending gpas' = [].
Proof.
  induction cs as [| c cs IH]; intros gpas s Hrel Hpend Hall Hr Hmax.
  - exists [], s, gpas. simpl. repeat split; try assumption. lia.
  - inversion Hall as [| x xs Hc Hrest]; subst.
    destruct (next_task_of_relation gpas s c cs Hrel Hpend Hc)
      as (t & gpas1 & Hnext & Hin & Hlast & Hrel1 & Hnvme & Hpend1).
    assert (Hall1 : Forall (creatable gpas1) cs).
    { eapply Forall_impl; [ | exact Hrest ].
      intros a Ha. unfold creatable in *. rewrite Hnvme. exact Ha. }
    assert (Hr1 : refcnt (get_gpupreagg_shared_state s) = refcnt s + 1).
    { unfold get_gpupreagg_shared_state. simpl.
      apply u32_small. simpl List.length in Hmax. lia. }
    simpl List.length in Hmax.
    destruct (IH gpas1 (get_gpupreagg_shared_state s) Hrel1 Hpend1 Hall1)
      as (ts & s' & gpas' & Hrun & Hins & Hlasts & Hcnt & Hrel' & Hpend');
      [ lia | lia | ].
    exists (t :: ts), s', gpas'.
    split.
    { simpl. rewrite Hnext. simpl. rewrite Hrun. reflexivity. }
    split; [ simpl; rewrite Hin, Hins; reflexivity | ].
    split.
    { simpl. rewrite Hlast, Hlasts. f_equal.
      - destruct cs; reflexivity.
      - rewrite <- seq_shift, map_map. reflexivity. }
    split; [ rewrite Hcnt, Hr1; simpl List.length; lia | ].
    split; assumption.
Qed.

(** X21: a relation scan that has the chunks c1 ... cn to hand out
    gives, over n calls of the task constructor, one task per chunk, in
    the order of the chunks; the last task and no other is flagged as the
    last of the scan; each task holds one more reference to the shared
    state; and afterwards the scan has nothing left, so a further call
    would meet the NULL batch. *)
Theorem relation_scan_one_task_per_chunk :
  forall gpas s cs,
    ss_currentRelation gpas = true ->
    pending gpas = cs ->
    Forall (creatable gpas) cs ->
    0 <= refcnt s ->
    refcnt s + Z.of_nat (List.length cs) < 2 ^ 32 ->
    exists ts s' gpas',
      next_tasks slot_length PDS_create_row PDS_insert_tuple
                 (List.length cs) gpas s = Ok (ts, s', gpas')
      /\ map pds_in ts = map Some cs
      /\ (forall i t, nth_error ts i = Some t ->
            is_last_task t = Nat.eqb (S i) (List.length cs))
      /\ refcnt s' = refcnt s + Z.of_nat (List.length cs)
      /\ no_input gpas'.
Proof.
  intros gpas s cs Hrel Hpend Hall Hr Hmax.
  destruct (next_tasks_of_relation cs gpas s Hrel Hpend Hall Hr Hmax)
    as (ts & s' & gpas' & Hrun & Hins & Hlasts & Hcnt & Hrel' & Hpend').
  exists ts, s', gpas'.
  split; [ exact Hrun | ]. split; [ exact Hins | ].
  split.
  - intros i t Hnth.
    assert (Hi : nth_error (map is_last_task ts) i = Some (is_last_task t))
      by (rewrite nth_error_map, Hnth; reflexivity).
    rewrite Hlasts, nth_error_map in Hi.
    assert (Hlt : (i < List.length cs)%nat).
    { assert (Hts : (i < List.length ts)%nat)
        by (apply nth_error_Some; rewrite Hnth; discriminate).
      rewrite <- (length_map pds_in), Hins, length_map in Hts. exact Hts. }
    rewrite (nth_error_nth' (seq 0 (List.length cs)) 0%nat) in Hi
      by (rewrite length_seq; exact Hlt).
    rewrite seq_nth in Hi by exact Hlt.
    simpl in Hi. inversion Hi. reflexivity.
  - split; [ exact Hcnt | ].
    unfold no_input. rewrite Hrel'. unfold pending in Hpend'.
    destruct (outer_pds gpas'); [ discriminate Hpend' | ].
    split; [ reflexivity | exact Hpend' ].
Qed.

End ScanProofs.

Lemma relation_scan_one_task_per_chunk_witness :
  exists ts s' gpas',
    next_tasks sample_slot_length (row_chunk 0) sample_insert 2
               MoreSamples.gpas_two_chunks sample_sstate = Ok (ts, s', gpas')
    /\ map pds_in ts = [Some (row_chunk 10); Some (row_chunk 20)]
    /\ (forall i t, nth_error ts i = Some t ->
          is_last_task t = Nat.eqb (S i) 2)
    /\ refcnt s' = 3
    /\ no_input gpas'.
Proof.
  apply (relation_scan_one_task_per_chunk sample_slot_length (row_chunk 0)
           sample_insert MoreSamples.gpas_two_chunks sample_sstate
           [row_chunk 10; row_chunk 20]).
  - reflexivity.
  - reflexivity.
  - constructor; [ intros H; discriminate H | ].
    constructor; [ intros H; discriminate H | constructor ].
  - simpl. lia.
  - simpl. lia.
Defined.

Section OuterRowsProofs.
Variable PDS_create_row : pgstrom_data_store.
Variable PDS_insert_tuple :
  pgstrom_data_store -> TupleTableSlot -> option pgstrom_data_store.

Let load := load_outer_rows PDS_create_row PDS_insert_tuple.
Let inserted := insert_rows PDS_insert_tuple.

Lemma load_outer_rows_prefix :
  forall rows pds0 pds overflow done rest,
    rows <> [] ->
    load rows pds0 = (pds, overflow, done, rest) ->
    exists pre st,
      pds = Some st
      /\ inserted (match pds0 with
                   | Some p => p
                   | None => PDS_create_row
                   end) pre = Some st
      /\ rows = pre ++ option_to_list overflow ++ rest
      /\ match overflow with
         | Some slot => PDS_insert_tuple st slot = None /\ done = false
         | None => rest = [] /\ done = true
         end.
Proof.
  induction rows as [| slot rows IH];
    intros pds0 pds overflow done rest Hne H; [ contradiction | ].
  unfold load in H. simpl in H. fold load in H.
  set (store := match pds0 with
                | Some p => p
                | None => PDS_create_row
                end) in *.
  destruct (PDS_insert_tuple store slot) as [store' |] eqn:Hins.
  - destruct rows as [| slot2 rows'].
    + unfold load in H. simpl in H. inversion H; subst.
      exists [slot], store'. unfold inserted. simpl. rewrite Hins.
      repeat split; reflexivity.
    + destruct (IH (Some store') pds overflow done rest) as
        (pre & st & Hpds & Hpre & Hrows & Hover);
        [ discriminate | exact H | ].
      exists (slot :: pre), st. unfold inserted. simpl. rewrite Hins.
      split; [ exact Hpds | ]. split; [ exact Hpre | ].
      split; [ rewrite Hrows; reflexivity | exact Hover ].
  - inversion H; subst. exists [], store. unfold inserted. simpl.
    repeat split; try reflexivity. exact Hins.
Qed.

Lemma insert_rows_format :
  (forall store slot store',
      PDS_insert_tuple store slot = Some store' ->
      kds_format store' = kds_format store) ->
  forall pre store st,
    inserted store pre = Some st -> kds_format st = kds_format store.
Proof.
  intros Hkeep. induction pre as [| slot pre IH]; intros store st H;
    unfold inserted in H; simpl in H.
  - inversion H. reflexivity.
  - destruct (PDS_insert_tuple store slot) as [store' |] eqn:Hins;
      [ | discriminate ].
    fold inserted in H. rewrite (IH _ _ H). eapply Hkeep. exact Hins.
Qed.

(** X22: on an outer plan that still has rows (its rows being collected
    in row stores), the input chunk of the next task holds exactly the rows
    returned before the first row that does not fit, inserted in order into
    a new row store; if every row fits the scan is done and the task is the
    last one, otherwise the row that did not fit is left in
    [scan_overflow], the task is not the last one and the rows after it are
    still to read. *)
Theorem outer_plan_chunk_holds_prefix :
  forall slot_length gpas s,
    kds_format PDS_create_row = KDS_FORMAT_ROW ->
    (forall store slot store',
        PDS_insert_tuple store slot = Some store' ->
        kds_format store' = kds_format store) ->
    ss_currentRelation gpas = false ->
    outer_rows gpas <> [] ->
    exists pre st t gpas',
      gpupreagg_next_task slot_length PDS_create_row PDS_insert_tuple gpas s
      = (Ok (t, get_gpupreagg_shared_state s), gpas')
      /\ pds_in t = Some st
      /\ insert_rows PDS_insert_tuple PDS_create_row pre = Some st
      /\ outer_rows gpas
         = pre ++ option_to_list (scan_overflow gpas') ++ outer_rows gpas'
      /\ match scan_overflow gpas' with
         | Some slot =>
             PDS_insert_tuple st slot = None /\ is_last_task t = false
         | None =>
             outer_rows gpas' = [] /\ scan_done gpas' = true
             /\ is_last_task t = true
         end.
Proof.
  intros slot_length gpas s Hrow Hkeep Hrel Hrows.
  unfold gpupreagg_next_task. rewrite Hrel.
  destruct (load_outer_rows PDS_create_row PDS_insert_tuple
              (outer_rows gpas) None)
    as [[[pds overflow] done] rest] eqn:Hload.
  destruct (load_outer_rows_prefix _ _ _ _ _ _ Hrows Hload)
    as (pre & st & Hpds & Hpre & Hsplit & Hover).
  subst pds.
  pose proof (insert_rows_format Hkeep _ _ _ Hpre) as Hfmt.
  rewrite Hrow in Hfmt.
  exists pre, st.
  unfold gpupreagg_create_task. rewrite Hfmt. simpl.
  eexists. eexists. split; [ reflexivity | ]. simpl.
  split; [ reflexivity | ]. split; [ exact Hpre | ].
  split; [ exact Hsplit | ].
  destruct overflow as [slot |]; simpl.
  - destruct Hover as [Hins _]. split; [ exact Hins | reflexivity ].
  - destruct Hover as [Hrest Hdone]. subst. repeat split; reflexivity.
Qed.

End OuterRowsProofs.

Lemma outer_plan_chunk_holds_prefix_witness :
  exists pre st t gpas',
    gpupreagg_next_task sample_slot_length (row_chunk 0) sample_insert
      MoreSamples.gpas_six_rows sample_sstate
    = (Ok (t, get_gpupreagg_shared_state sample_sstate), gpas')
    /\ pds_in t = Some st
    /\ insert_rows sample_insert (row_chunk 0) pre = Some st
    /\ outer_rows MoreSamples.gpas_six_rows
       = pre ++ option_to_list (scan_overflow gpas') ++ outer_rows gpas'
    /\ match scan_overflow gpas' with
       | Some slot => sample_insert st slot = None /\ is_last_task t = false
       | None => outer_rows gpas' = [] /\ scan_done gpas' = true
                 /\ is_last_task t = true
       end.
Proof.
  apply (outer_plan_chunk_holds_prefix (row_chunk 0) sample_insert
           sample_slot_length MoreSamples.gpas_six_rows sample_sstate).
  - reflexivity.
  - intros store slot store' H. unfold sample_insert in H.
    destruct (kds_nitems store <? 4); inversion H; reflexivity.
  - reflexivity.
  - discriminate.
Defined.

(** ** The run-time statistics *)

(** X23: the response of the device keeps the statistics of the shared
    state consistent and never lowers the observed maxima; they are updated
    exactly when the response is not urgent, that is when neither the CUDA
    stream nor the kernel reports an error; on an error the shared state is
    left as it is and the task carries the error. *)
Theorem respond_keeps_statistics :
  forall status t s,
    stats_consistent s ->
    let '(t', s', urgent) := gpupreagg_respond_task status t s in
    stats_consistent s'
    /\ exec_ngroups s <= exec_ngroups s'
    /\ exec_extra_sz s <= exec_extra_sz s'
    /\ (urgent = true <-> task_errcode t' <> StromError_Success)
    /\ (urgent = true -> s' = s)
    /\ (urgent = false ->
        f_nitems s' = u32 (f_nitems s + num_groups (kern t))
        /\ last_ngroups s' = exec_ngroups s).
Proof.
  intros status t s (H1 & H2 & H3 & H4).
  unfold gpupreagg_respond_task.
  destruct (status =? 0) eqn:Es.
  - simpl.
    destruct (errcode_eqb (kern_errcode (kern t)) StromError_Success) eqn:Ee.
    + apply errcode_eqb_eq in Ee.
      pose proof (Max_ge (exec_ngroups s)
                         (u32 (f_nitems s + num_groups (kern t)))) as Hn.
      pose proof (Max_ge (exec_extra_sz s)
                         (u32 (f_extra_sz s + varlena_usage (kern t)))) as Hx.
      unfold stats_consistent. simpl.
      split; [ lia | ]. split; [ lia | ]. split; [ lia | ].
      split; [ split; [ discriminate | intros H; contradiction ] | ].
      split; [ discriminate | ]. intros _. split; reflexivity.
    + unfold stats_consistent. simpl.
      split; [ lia | ]. split; [ lia | ]. split; [ lia | ].
      split.
      { split; [ intros _ H | reflexivity ].
        apply errcode_eqb_eq in H. congruence. }
      split; [ reflexivity | discriminate ].
  - unfold stats_consistent. simpl.
    split; [ lia | ]. split; [ lia | ]. split; [ lia | ].
    split; [ split; [ discriminate | reflexivity ] | ].
    split; [ reflexivity | discriminate ].
Qed.

Lemma respond_keeps_statistics_witness :
  let '(t', s', urgent) :=
    gpupreagg_respond_task 0 (sample_task StromError_Success true)
                           busy_sstate in
  stats_consistent s'
  /\ exec_ngroups busy_sstate <= exec_ngroups s'
  /\ exec_extra_sz busy_sstate <= exec_extra_sz s'
  /\ (urgent = true <-> task_errcode t' <> StromError_Success)
  /\ (urgent = true -> s' = busy_sstate)
  /\ (urgent = false ->
      f_nitems s' = u32 (f_nitems busy_sstate
                         + num_groups (kern (sample_task StromError_Success
                                                         true)))
      /\ last_ngroups s' = exec_ngroups busy_sstate).
Proof.
  apply (respond_keeps_statistics 0 (sample_task StromError_Success true)
           busy_sstate).
  unfold stats_consistent. simpl. lia.
Defined.

(** ** Completion, retry and the end of a task *)

(** X24: when a task hands its final buffer over to a pushed
    termination-only task, that clone holds the buffer and its device
    address and no input chunk, and the task itself holds the buffer no
    longer; so releasing both tasks releases the buffer once, and the
    completion of the clone frees the device memory of that buffer and gives
    the clone back to the backend. *)
Theorem terminator_takes_over_final_buffer :
  forall retry_slot_length t p s h,
    pds_final t = Some p ->
    exists t_new,
      snd (gpupreagg_push_terminator_task t) = [PushGpuTask t_new]
      /\ reduction_mode (kern t_new) = GPUPREAGG_ONLY_TERMINATION
      /\ pds_final t_new = Some p
      /\ m_kds_final t_new = m_kds_final t
      /\ pds_in t_new = None
      /\ pds_final (fst (gpupreagg_push_terminator_task t)) = None
      /\ m_kds_final (fst (gpupreagg_push_terminator_task t)) = 0
      /\ pds_in (fst (gpupreagg_push_terminator_task t)) = pds_in t
      /\ List.length
           (filter (releases_final p)
              (gpupreagg_release_task (fst (gpupreagg_push_terminator_task t))
               ++ gpupreagg_release_task t_new)) = 1%nat
      /\ exists o,
           gpupreagg_complete_task retry_slot_length t_new s h = Ok o
           /\ retval o = 0
           /\ In (FreeKdsFinal (m_kds_final t)) (o_trace o)
           /\ o_heap o = h /\ o_sstate o = s.
Proof.
  intros retry_slot_length t p s h Hp.
  unfold gpupreagg_push_terminator_task. simpl.
  eexists. split; [ reflexivity | ]. simpl.
  do 7 (split; [ try reflexivity; try exact Hp | ]).
  split.
  - unfold gpupreagg_release_task. simpl. rewrite Hp.
    destruct (pds_in t); simpl; rewrite Z.eqb_refl; reflexivity.
  - eexists. split; [ reflexivity | ]. simpl.
    split; [ reflexivity | ].
    split; [ right; left; reflexivity | split; reflexivity ].
Qed.

Lemma terminator_takes_over_final_buffer_witness :
  exists t_new,
    snd (gpupreagg_push_terminator_task
           (sample_task StromError_DataStoreNoSpace true))
    = [PushGpuTask t_new]
    /\ pds_final t_new = Some 7
    /\ m_kds_final t_new = 20480.
Proof.
  destruct (terminator_takes_over_final_buffer sample_slot_length
              (sample_task StromError_DataStoreNoSpace true) 7
              sample_sstate sample_heap eq_refl)
    as (t_new & Hpush & _ & Hfinal & Hm & _).
  exists t_new. split; [ exact Hpush | ]. split; [ exact Hfinal | exact Hm ].
Defined.

(** X25: what a completion leaves of the device memory of a task, and
    what it returns.  The return value is -1, 0 or 1.  A reduction task that
    is promoted to the termination-only task of its buffer keeps all its
    device pointers and is run again (1); in every other case the task
    holds no device pointer afterwards.  The task is run again exactly when
    it is promoted or when it was a reduction task that met a lack of space;
    it is dropped (-1) only with a cleared error. *)
Theorem completion_and_device_memory :
  forall retry_slot_length t s h o,
    gpupreagg_complete_task retry_slot_length t s h = Ok o ->
    (retval o = -1 \/ retval o = 0 \/ retval o = 1)
    /\ (promoted t o -> same_device_memory (o_task o) t /\ retval o = 1)
    /\ (~ promoted t o -> no_device_memory (o_task o))
    /\ (retval o = 1 <->
        promoted t o
        \/ (reduction_mode (kern t) <> GPUPREAGG_ONLY_TERMINATION
            /\ task_errcode t = StromError_DataStoreNoSpace))
    /\ (retval o = -1 -> task_errcode (o_task o) = StromError_Success).
Proof.
  intros retry_slot_length t s h o H.
  unfold gpupreagg_complete_task in H. unfold promoted.
  destruct (mode_eqb (reduction_mode (kern t)) GPUPREAGG_ONLY_TERMINATION)
    eqn:Em.
  - apply mode_eqb_eq in Em. inversion H; subst o; clear H. simpl.
    split; [ right; left; reflexivity | ].
    split; [ intros [Hn _]; contradiction | ].
    split; [ intros _; unfold no_device_memory; simpl; repeat split | ].
    split; [ | discriminate ].
    split; [ discriminate | ].
    intros [[Hn _] | [Hn _]]; contradiction.
  - assert (Hmode : reduction_mode (kern t) <> GPUPREAGG_ONLY_TERMINATION).
    { intros Habs. rewrite Habs in Em. discriminate Em. }
    destruct (errcode_eqb (task_errcode t) StromError_DataStoreNoSpace)
      eqn:Ee.
    + apply errcode_eqb_eq in Ee.
      assert (Hclean :
        retval o = 1
        /\ reduction_mode (kern (o_task o)) <> GPUPREAGG_ONLY_TERMINATION
        /\ no_device_memory (o_task o)).
      { destruct (negb (progress_final (kern t))).
        - inversion H; subst o; clear H.
          unfold retry_with_larger_slot. simpl.
          split; [ reflexivity | ].
          split; [ exact Hmode | ].
          unfold no_device_memory. simpl. repeat split.
        - destruct (pds_final t) as [p |]; [ | discriminate ].
          inversion H; subst o; clear H.
          unfold retry_with_new_final.
          destruct (ntasks_running
                      (set_ntasks_running
                         (set_is_dereferenced (h p) true)
                         (ntasks_running (set_is_dereferenced (h p) true)
                          - 1)) =? 0); simpl;
            (split; [ reflexivity | ]);
            (split; [ discriminate | ]);
            unfold no_device_memory; simpl; repeat split. }
      destruct Hclean as (Hret & Hnt & Hmem).
      split; [ right; right; exact Hret | ].
      split; [ intros [_ Habs]; contradiction | ].
      split; [ intros _; exact Hmem | ].
      split; [ | rewrite Hret; discriminate ].
      split; [ intros _; right; split; assumption | intros _; exact Hret ].
    + assert (Hne : task_errcode t <> StromError_DataStoreNoSpace).
      { intros Habs. rewrite Habs in Ee. discriminate Ee. }
      destruct (pds_final t) as [p |]; [ | discriminate ].
      inversion H; subst o; clear H. unfold finish_task.
      set (t1 := if errcode_eqb (task_errcode t) StromError_CpuReCheck
                    && negb (progress_final (kern t))
                 then set_error t StromError_Success true else t).
      assert (Hk : kern t1 = kern t)
        by (unfold t1; destruct (_ && _); reflexivity).
      assert (Hm1 : same_device_memory t1 t)
        by (unfold t1, same_device_memory; destruct (_ && _); simpl;
            repeat split).
      destruct (errcode_eqb (task_errcode t1) StromError_Success) eqn:E1.
      * apply errcode_eqb_eq in E1.
        destruct (negb ((ntasks_running
                           (set_ntasks_running (h p)
                              (ntasks_running (h p) - 1)) =? 0)
                        && is_dereferenced
                             (set_ntasks_running (h p)
                                (ntasks_running (h p) - 1)))); simpl.
        -- rewrite Hk.
           split; [ left; reflexivity | ].
           split; [ intros [_ Habs]; contradiction | ].
           split; [ intros _; unfold no_device_memory; simpl; repeat split | ].
           split; [ | intros _; exact E1 ].
           split; [ discriminate | ].
           intros [[_ Habs] | [_ Habs]]; contradiction.
        -- split; [ right; right; reflexivity | ].
           split; [ intros _; split; [ exact Hm1 | reflexivity ] | ].
           split; [ intros Hnp; exfalso; apply Hnp; split;
                    [ exact Hmode | reflexivity ] | ].
           split; [ | discriminate ].
           split; [ intros _; left; split; [ exact Hmode | reflexivity ]
                  | reflexivity ].
      * simpl. rewrite Hk.
        split; [ right; left; reflexivity | ].
        split; [ intros [_ Habs]; contradiction | ].
        split; [ intros _; unfold no_device_memory; simpl; repeat split | ].
        split; [ | discriminate ].
        split; [ discriminate | ].
        intros [[_ Habs] | [_ Habs]]; contradiction.
Qed.

Lemma completion_and_device_memory_witness :
  match gpupreagg_complete_task sample_slot_length
          (sample_task StromError_Success false) sample_sstate sample_heap with
  | Ok o => retval o = -1 /\ no_device_memory (o_task o)
  | Error _ => False
  end.
Proof.
  destruct (gpupreagg_complete_task sample_slot_length
              (sample_task StromError_Success false) sample_sstate
              sample_heap) as [o |] eqn:E;
    [ | vm_compute in E; discriminate E ].
  assert (Hrun : retval o = -1
                 /\ reduction_mode (kern (o_task o))
                    = GPUPREAGG_LOCAL_REDUCTION)
    by (vm_compute in E; inversion E; split; reflexivity).
  destruct Hrun as [Hret Hmode].
  destruct (completion_and_device_memory _ _ _ _ _ E)
    as (_ & _ & Hmem & _).
  split; [ exact Hret | ].
  apply Hmem. intros [_ Habs]. rewrite Hmode in Habs. discriminate Habs.
Defined.

Lemma setup_strategy_mode :
  forall T t s h,
    reduction_mode (kern t) <> GPUPREAGG_INVALID_REDUCTION ->
    reduction_mode (kern (setup_task (fst (gpupreagg_setup_strategy T t s h))))
    = reduction_mode (kern t).
Proof.
  intros T t s h Hm. unfold gpupreagg_setup_strategy.
  destruct (reduction_mode (kern t)) eqn:Em; try contradiction;
    destruct (ss_pds_final s); simpl; reflexivity.
Qed.

(** X26: the set-up of a task that is run again after a lack of space.
    After an overflow of the final buffer the task keeps the final-only
    mode, is never attached to the buffer it gave up, and has to get a new
    buffer when the shared state held the old one.  After an overflow of
    its own slot buffer the task keeps the mode it ran with and is attached
    to the buffer of the shared state, which counts it once more. *)
Theorem retried_task_setup :
  forall retry_slot_length T t p s h o,
    reduction_mode (kern t) <> GPUPREAGG_ONLY_TERMINATION ->
    task_errcode t = StromError_DataStoreNoSpace ->
    pds_final t = Some p ->
    gpupreagg_complete_task retry_slot_length t s h = Ok o ->
    (progress_final (kern t) = true ->
     reduction_mode
       (kern (setup_task
                (fst (gpupreagg_setup_strategy T (o_task o) (o_sstate o)
                        (o_heap o)))))
     = GPUPREAGG_FINAL_REDUCTION
     /\ (forall t' h',
           fst (gpupreagg_setup_strategy T (o_task o) (o_sstate o) (o_heap o))
           = Attached t' h' -> pds_final t' <> Some p)
     /\ (ss_pds_final s = Some p ->
         exists t',
           fst (gpupreagg_setup_strategy T (o_task o) (o_sstate o) (o_heap o))
           = NeedsFinalBuffer t'))
    /\ (progress_final (kern t) = false ->
        reduction_mode (kern t) <> GPUPREAGG_INVALID_REDUCTION ->
        reduction_mode
          (kern (setup_task
                   (fst (gpupreagg_setup_strategy T (o_task o) (o_sstate o)
                           (o_heap o)))))
        = reduction_mode (kern t)
        /\ (forall q, ss_pds_final s = Some q ->
              exists t' h',
                fst (gpupreagg_setup_strategy T (o_task o) (o_sstate o)
                       (o_heap o)) = Attached t' h'
                /\ pds_final t' = Some q
                /\ ntasks_running (h' q) = ntasks_running (h q) + 1)).
Proof.
  intros retry_slot_length T t p s h o Hmode Herr Hp H.
  unfold gpupreagg_complete_task in H.
  rewrite (mode_eqb_neq _ _ Hmode), Herr, Hp in H. simpl in H.
  split.
  - intros Hprog. rewrite Hprog in H. simpl in H.
    inversion H; subst o; clear H.
    assert (Hm : reduction_mode
                   (kern (o_task (retry_with_new_final t p s h)))
                 = GPUPREAGG_FINAL_REDUCTION).
    { unfold retry_with_new_final.
      destruct (ntasks_running _ =? 0); reflexivity. }
    assert (Hs : ss_pds_final (o_sstate (retry_with_new_final t p s h))
                 <> Some p
                 /\ (ss_pds_final s = Some p ->
                     ss_pds_final (o_sstate (retry_with_new_final t p s h))
                     = None)).
    { unfold retry_with_new_final, same_final.
      destruct (ntasks_running _ =? 0); simpl;
        (destruct (ss_pds_final s) as [q |] eqn:Eq;
         [ destruct (q =? p) eqn:Eqp; simpl;
           [ split; [ discriminate | reflexivity ]
           | rewrite Eq; split;
             [ intros Habs; inversion Habs; subst q;
               rewrite Z.eqb_refl in Eqp; discriminate Eqp
             | intros Habs; inversion Habs; subst q;
               rewrite Z.eqb_refl in Eqp; discriminate Eqp ] ]
         | rewrite Eq; split; [ discriminate | reflexivity ] ]). }
    destruct Hs as [Hne Hnone].
    split.
    { rewrite setup_strategy_mode; [ exact Hm | ].
      rewrite Hm. discriminate. }
    unfold gpupreagg_setup_strategy.
    destruct (ss_pds_final (o_sstate (retry_with_new_final t p s h)))
      as [q |] eqn:Eq; simpl.
    + split.
      * intros t' h' Hatt. inversion Hatt; subst. simpl.
        intros Habs. apply Hne. exact Habs.
      * intros Hsp. specialize (Hnone Hsp). discriminate Hnone.
    + split; [ intros t' h' Habs; discriminate Habs | ].
      intros _. eexists. reflexivity.
  - intros Hprog Hinv. rewrite Hprog in H. simpl in H.
    inversion H; subst o; clear H.
    split.
    { rewrite setup_strategy_mode; [ reflexivity | exact Hinv ]. }
    intros q Hq. unfold gpupreagg_setup_strategy, retry_with_larger_slot.
    simpl. rewrite Hq. simpl.
    eexists. eexists. split; [ reflexivity | ].
    split; [ reflexivity | ].
    unfold heap_set. rewrite Z.eqb_refl. reflexivity.
Qed.

Lemma retried_task_setup_witness :
  match gpupreagg_complete_task sample_slot_length
          (sample_task StromError_DataStoreNoSpace true) sample_sstate
          sample_heap with
  | Ok o =>
      exists t',
        fst (gpupreagg_setup_strategy 1024 (o_task o) (o_sstate o) (o_heap o))
        = NeedsFinalBuffer t'
  | Error _ => False
  end.
Proof.
  destruct (gpupreagg_complete_task sample_slot_length
              (sample_task StromError_DataStoreNoSpace true) sample_sstate
              sample_heap) as [o |] eqn:E;
    [ | vm_compute in E; discriminate E ].
  destruct (retried_task_setup sample_slot_length 1024
              (sample_task StromError_DataStoreNoSpace true) 7
              sample_sstate sample_heap o) as [Hfinal _];
    try reflexivity; try exact E.
  - discriminate.
  - destruct (Hfinal eq_refl) as (_ & _ & Hnew). apply Hnew. reflexivity.
Defined.

Lemma set_ntasks_running_back :
  forall b n,
    set_ntasks_running (set_ntasks_running b n) (ntasks_running b) = b.
Proof. intros [f n0 u r d] n. reflexivity. Qed.

(** X27: a task that is attached to the final buffer of the shared state
    and then completes without a lack of space, or fails at its launch,
    leaves the header of every buffer as it was before the attach: the
    count of running tasks is back at its value and nothing else has
    changed. *)
Theorem attach_then_complete_restores_buffers :
  forall retry_slot_length T t s h t1 h1 tr t2 s2 p,
    gpupreagg_setup_strategy T t s h = (Attached t1 h1, tr) ->
    pds_final t1 = Some p ->
    pds_final t2 = pds_final t1 ->
    reduction_mode (kern t2) <> GPUPREAGG_ONLY_TERMINATION ->
    task_errcode t2 <> StromError_DataStoreNoSpace ->
    (exists o,
        gpupreagg_complete_task retry_slot_length t2 s2 h1 = Ok o
        /\ forall q, o_heap o q = h q)
    /\ (forall q, snd (fst (process_task_catch t2 p h1)) q = h q).
Proof.
  intros retry_slot_length T t s h t1 h1 tr t2 s2 p Hsetup Hp1 Hp2 Hmode Herr.
  unfold gpupreagg_setup_strategy in Hsetup.
  destruct (ss_pds_final s) as [p0 |]; [ | discriminate ].
  inversion Hsetup; subst t1 h1 tr; clear Hsetup.
  simpl in Hp1. inversion Hp1; subst p0. simpl in Hp2.
  assert (Hback :
    forall q,
      heap_set
        (heap_set h p (set_ntasks_running (h p) (ntasks_running (h p) + 1)))
        p (set_ntasks_running
             (heap_set h p
                (set_ntasks_running (h p) (ntasks_running (h p) + 1)) p)
             (ntasks_running
                (heap_set h p
                   (set_ntasks_running (h p) (ntasks_running (h p) + 1)) p)
              - 1)) q
      = h q).
  { intros q. unfold heap_set. rewrite Z.eqb_refl.
    destruct (q =? p) eqn:Eq; [ | reflexivity ].
    apply Z.eqb_eq in Eq. subst q. simpl.
    replace (ntasks_running (h p) + 1 - 1) with (ntasks_running (h p))
      by lia.
    apply set_ntasks_running_back. }
  split.
  - unfold gpupreagg_complete_task.
    rewrite (mode_eqb_neq _ _ Hmode).
    destruct (errcode_eqb (task_errcode t2) StromError_DataStoreNoSpace)
      eqn:Ee; [ apply errcode_eqb_eq in Ee; contradiction | ].
    rewrite Hp2. eexists. split; [ reflexivity | ].
    intros q. unfold finish_task.
    destruct (errcode_eqb
                (task_errcode
                   (if errcode_eqb (task_errcode t2) StromError_CpuReCheck
                       && negb (progress_final (kern t2))
                    then set_error t2 StromError_Success true else t2))
                StromError_Success);
      [ destruct (negb _) | ]; simpl; apply Hback.
  - intros q. unfold process_task_catch. simpl. apply Hback.
Qed.

Lemma attach_then_complete_restores_buffers_witness :
  (exists o,
      gpupreagg_complete_task sample_slot_length
        (sample_task StromError_Success false) sample_sstate
        (heap_set sample_heap 7
           (set_ntasks_running (sample_heap 7)
              (ntasks_running (sample_heap 7) + 1))) = Ok o
      /\ forall q, o_heap o q = sample_heap q)
  /\ (forall q,
        snd (fst (process_task_catch (sample_task StromError_Success false) 7
                    (heap_set sample_heap 7
                       (set_ntasks_running (sample_heap 7)
                          (ntasks_running (sample_heap 7) + 1))))) q
        = sample_heap q).
Proof.
  apply (attach_then_complete_restores_buffers sample_slot_length 1024
           fresh_task sample_sstate sample_heap
           (set_final
              (set_kern fresh_task
                 (set_mode (kern fresh_task)
                    (select_reduction_mode 1024 sample_sstate 1000)))
              (Some 7) 0 0)
           (heap_set sample_heap 7
              (set_ntasks_running (sample_heap 7)
                 (ntasks_running (sample_heap 7) + 1)))
           [SpinLockAcquire;
            DecideMode (select_reduction_mode 1024 sample_sstate 1000);
            AttachFinal 7; SpinLockRelease]
           (sample_task StromError_Success false) sample_sstate 7).
  - reflexivity.
  - reflexivity.
  - reflexivity.
  - discriminate.
  - discriminate.
Defined.

(** ** The private data of the plan node *)

Lemma s64_small : forall z, - 2 ^ 63 <= z < 2 ^ 63 -> s64 z = z.
Proof.
  intros z H. unfold s64. rewrite Z.mod_small; lia.
Qed.

Lemma s32_small : forall z, - 2 ^ 31 <= z < 2 ^ 31 -> s32 z = z.
Proof.
  intros z H. unfold s32. rewrite Z.mod_small; lia.
Qed.

(** X28: the private data of the plan node survives its packing into
    [custom_private] and [custom_exprs]: unpacking what was packed gives the
    same [GpuPreAggInfo], the two doubles passing through the bit pattern of
    a [long]. *)
Theorem gpupreagg_info_round_trip :
  forall (double : Type) (double_as_long : double -> Z)
         (long_as_double : Z -> double) (gpa_info : GpuPreAggInfo double),
    (forall d, - 2 ^ 63 <= double_as_long d < 2 ^ 63) ->
    (forall d, long_as_double (double_as_long d) = d) ->
    info_in_range gpa_info ->
    let packed := form_gpupreagg_info double_as_long gpa_info in
    deform_gpupreagg_info long_as_double (fst packed) (snd packed)
    = Ok gpa_info.
Proof.
  intros double double_as_long long_as_double gpa_info Hlong Hbits Hrange.
  destruct gpa_info as [keys ngroups nchunks extra salt nrows relid quals
                        src flags params].
  unfold info_in_range in Hrange. simpl in Hrange.
  destruct Hrange as (Hk & Hc & He & Hs & Hf & Hr).
  assert (H31 : 2 ^ 31 < 2 ^ 63) by (apply Z.pow_lt_mono_r; lia).
  assert (H32 : 2 ^ 32 < 2 ^ 63) by (apply Z.pow_lt_mono_r; lia).
  unfold form_gpupreagg_info, deform_gpupreagg_info, makeInteger, makeString.
  cbn [fst snd app i_num_group_keys i_plan_ngroups i_plan_nchunks
       i_plan_extra_sz i_key_dist_salt i_outer_nrows i_outer_scanrelid
       i_outer_quals i_kern_source i_extra_flags i_used_params
       list_nth nth_error intVal strVal bind].
  rewrite !(s64_small (double_as_long _)) by apply Hlong.
  rewrite (s64_small keys), (s64_small nchunks), (s64_small extra),
    (s64_small salt), (s64_small relid), (s64_small flags) by lia.
  rewrite (s32_small keys), (s32_small nchunks), (s32_small extra),
    (s32_small salt), (s32_small flags) by lia.
  rewrite (u32_small relid) by lia.
  rewrite !Hbits. reflexivity.
Qed.

Lemma gpupreagg_info_round_trip_witness :
  deform_gpupreagg_info MoreSamples.bits_to_flag
    (fst (form_gpupreagg_info MoreSamples.flag_to_bits MoreSamples.sample_info))
    (snd (form_gpupreagg_info MoreSamples.flag_to_bits MoreSamples.sample_info))
  = Ok MoreSamples.sample_info.
Proof.
  apply (gpupreagg_info_round_trip bool MoreSamples.flag_to_bits
           MoreSamples.bits_to_flag MoreSamples.sample_info).
  - intros [|]; simpl; lia.
  - intros [|]; reflexivity.
  - unfold info_in_range. simpl. lia.
Defined.

(** ** The first tasks of a scan *)

(** X29: the shared state is created with a planned number of groups of
    zero and without counted tasks, and the reference a new task takes
    changes neither; so a task of a grouping query that is set up before
    any reduction kernel has been counted runs in the local-reduction mode,
    whatever the planner estimated, on every device with
    [devBaselineMaxThreadsPerBlock >= 4]. *)
Theorem first_task_reduces_locally :
  forall slot_length T gpas p natts_ nrooms_ pds last t s' h,
    4 <= T ->
    num_group_keys gpas <> 0 ->
    gpupreagg_create_task slot_length gpas
      (create_gpupreagg_shared_state p natts_ nrooms_) pds last
    = Ok (t, s') ->
    plan_ngroups s' = 0
    /\ num_tasks s' = 0
    /\ fst (gpupreagg_setup_strategy T t s' h)
       = Attached
           (set_final
              (set_kern t (set_mode (kern t) GPUPREAGG_LOCAL_REDUCTION))
              (Some p) 0 0)
           (heap_set h p
              (set_ntasks_running (h p) (ntasks_running (h p) + 1))).
Proof.
  intros slot_length T gpas p natts_ nrooms_ pds last t s' h HT Hkeys H.
  destruct (create_task_mode _ _ _ _ _ _ _ H) as [Hmode _].
  pose proof (create_task_sstate _ _ _ _ _ _ _ H) as Hs. subst s'.
  destruct (num_group_keys gpas =? 0) eqn:Ek;
    [ apply Z.eqb_eq in Ek; contradiction | ].
  split; [ reflexivity | ]. split; [ reflexivity | ].
  unfold gpupreagg_setup_strategy. rewrite Hmode. simpl.
  unfold select_reduction_mode.
  assert (Hq : 1 <= T ÷ 4) by (apply Z.quot_le_lower_bound; lia).
  assert (Hr : real_ngroups
                 (get_gpupreagg_shared_state
                    (create_gpupreagg_shared_state p natts_ nrooms_))
               = S754_zero false) by (vm_compute; reflexivity).
  rewrite Hr, of_int_positive by lia. reflexivity.
Qed.

Lemma first_task_reduces_locally_witness :
  match gpupreagg_create_task sample_slot_length gpas_grouping
          (create_gpupreagg_shared_state 7 3 1000) (Some (row_chunk 1000))
          false with
  | Ok (t, s') =>
      reduction_mode
        (kern (setup_task (fst (gpupreagg_setup_strategy 1024 t s'
                                  sample_heap))))
      = GPUPREAGG_LOCAL_REDUCTION
  | Error _ => False
  end.
Proof.
  destruct (gpupreagg_create_task sample_slot_length gpas_grouping
              (create_gpupreagg_shared_state 7 3 1000)
              (Some (row_chunk 1000)) false) as [[t s'] |] eqn:E;
    [ | vm_compute in E; discriminate E ].
  destruct (first_task_reduces_locally sample_slot_length 1024 gpas_grouping
              7 3 1000 (Some (row_chunk 1000)) false t s' sample_heap)
    as (_ & _ & Hsetup);
    [ lia | discriminate | exact E | ].
  rewrite Hsetup. reflexivity.
Defined.

